(** * Vertex Animation: a shallow embedding of [vertex_animation.py]

    The add-on samples a mesh animation frame by frame, merges the selected
    objects into one mesh per frame, encodes the per-vertex offsets from the
    first frame and the vertex normals into two flat RGBA float lists,
    normalises the offsets into [0,1] and stores both lists as image pixels.

    The Python functions are embedded one by one, under their own names.
    Python's [float] arithmetic is an interface ([PyFloat]) whose instance
    is IEEE binary64, the arithmetic CPython runs, given by Rocq's primitive
    floats and their specification [SpecFloat]; what a float stands for is
    measured in exact rationals.  Blender's scene evaluation is a record of
    host functions ([Host]); everything the add-on reads or writes in
    [bpy.data], the scene and the file system is a field of one explicit
    [World]. *)

From Stdlib Require Import String.
From Stdlib Require Import ZArith List Lia Bool Arith.
From Stdlib Require Import QArith Qabs Qpower Lqa.
From Stdlib Require Import PrimFloat FloatOps SpecFloat FloatAxioms.
Import ListNotations.

Set Implicit Arguments.
Open Scope nat_scope.

(* ================================================================== *)
(** * Python: exceptions and float arithmetic *)
(* ================================================================== *)

Module Py.

(** The exceptions the add-on can run into. *)
Inductive Exception : Type :=
| IndexError
| ZeroDivisionError
| ValueError
| RuntimeError (msg : string)
| RecursionError
| HostError (msg : string).   (* an error raised inside a bpy call *)

(** [rhe_div a b]: the integer nearest to [a / b] for [0 <= a], [0 < b],
    ties going to the even neighbour (how [round] rounds). *)
Definition rhe_div (a b : Z) : Z :=
  let q := (a / b)%Z in
  let r := (a mod b)%Z in
  match (2 * r ?= b)%Z with
  | Lt => q
  | Gt => (q + 1)%Z
  | Eq => if Z.even q then q else (q + 1)%Z
  end.

(** What the add-on uses of Python's [float]. *)
Class PyFloat (F : Type) : Type := {
  of_Q : Q -> F;              (* the float written as a literal or converted from an int *)
  fadd : F -> F -> F;         (* x + y *)
  fsub : F -> F -> F;         (* x - y *)
  fmul : F -> F -> F;         (* x * y *)
  fquot : F -> F -> F;        (* x / y for y != 0 *)
  flt : F -> F -> bool;       (* x < y *)
  feq : F -> F -> bool;       (* x == y *)
  round2 : F -> F             (* round(x, 2) *)
}.

Section Generic.
Context {F : Type} `{PyFloat F}.

Definition of_int (z : Z) : F := of_Q (inject_Z z).
Definition of_nat (n : nat) : F := of_int (Z.of_nat n).
Definition f0 : F := of_int 0.
Definition f1 : F := of_int 1.

(** [x / y]: true division raises on a zero divisor. *)
Definition truediv (x y : F) : Exception + F :=
  if feq y f0 then inl ZeroDivisionError else inr (fquot x y).

(** [min(a, b)] and [max(a, b)] keep the first argument unless the second
    compares strictly smaller (larger). *)
Definition py_min (a b : F) : F := if flt b a then b else a.
Definition py_max (a b : F) : F := if flt a b then b else a.
End Generic.

(** [range(start, stop, step)] as the list of its elements. *)
Definition range_len (start stop step : Z) : nat :=
  if (0 <? step)%Z then
    if (start <? stop)%Z then Z.to_nat ((stop - start - 1) / step + 1) else 0
  else
    if (stop <? start)%Z then Z.to_nat ((start - stop - 1) / (- step) + 1) else 0.

Definition range (start stop step : Z) : Exception + list Z :=
  if (step =? 0)%Z then inl ValueError
  else inr (map (fun k => (start + Z.of_nat k * step)%Z)
                (seq 0 (range_len start stop step))).

End Py.
Export Py.

(* ------------------------------------------------------------------ *)
(** ** IEEE binary64, the arithmetic CPython runs *)

Module Binary64.

Definition sf_of_Q (q : Q) : spec_float :=
  let d := S754_finite false (Qden q) 0 in
  match Qnum q with
  | Z0 => S754_zero false
  | Zpos n => SFdiv prec emax (S754_finite false n 0) d
  | Zneg n => SFdiv prec emax (S754_finite true n 0) d
  end.

(** The double nearest to a rational (ties to even). *)
Definition of_Q (q : Q) : float := SF2Prim (sf_of_Q q).

(** [round(x, 2)]: the exact value of [x] is rounded half-even to a
    multiple of 1/100, and the double nearest to that decimal is returned;
    zeros, infinities and NaN are returned unchanged. *)
Definition round2 (x : float) : float :=
  match Prim2SF x with
  | S754_finite s m e =>
      let n := if (0 <=? e)%Z then (Zpos m * 100 * 2 ^ e)%Z
               else rhe_div (Zpos m * 100) (2 ^ (- e)) in
      match n with
      | Zpos p => SF2Prim (SFdiv prec emax (S754_finite s p 0)
                                 (S754_finite false 100 0))
      | _ => SF2Prim (S754_zero s)
      end
  | _ => x
  end.

#[global] Instance binary64 : PyFloat float := {|
  Py.of_Q := of_Q;
  fadd := PrimFloat.add;
  fsub := PrimFloat.sub;
  fmul := PrimFloat.mul;
  fquot := PrimFloat.div;
  flt := PrimFloat.ltb;
  feq := PrimFloat.eqb;
  Py.round2 := round2
|}.

End Binary64.

(* ================================================================== *)
(** * Runs: state and exceptions *)
(* ================================================================== *)

Section Run.
Context {W : Type}.

(** A computation over a world [W] that returns or raises. *)
Definition M (A : Type) : Type := W -> (Exception + A) * W.

Definition ret {A} (a : A) : M A := fun w => (inr a, w).
Definition raise {A} (e : Exception) : M A := fun w => (inl e, w).
Definition lift {A} (r : Exception + A) : M A := fun w => (r, w).
Definition gets {A} (f : W -> A) : M A := fun w => (inr (f w), w).
Definition modify (f : W -> W) : M unit := fun w => (inr tt, f w).

Definition bind {A B} (m : M A) (k : A -> M B) : M B :=
  fun w =>
    match m w with
    | (inl e, w') => (inl e, w')
    | (inr a, w') => k a w'
    end.

(** A [for] loop that threads the loop's local variables. *)
Fixpoint foldM {A B} (body : B -> A -> M B) (l : list A) (b : B) : M B :=
  match l with
  | [] => ret b
  | a :: l' => bind (body b a) (foldM body l')
  end.
End Run.

Arguments M : clear implicits.

Declare Scope run_scope.
Delimit Scope run_scope with run.
Notation "x <- m ;; k" := (bind m (fun x => k))
  (at level 100, m at next level, right associativity) : run_scope.
Notation "m ;;; k" := (bind m (fun _ => k))
  (at level 100, right associativity) : run_scope.

(** The same loop without effects on the world. *)
Fixpoint fold_err {A B} (body : B -> A -> Exception + B) (l : list A) (b : B)
  : Exception + B :=
  match l with
  | [] => inr b
  | a :: l' =>
      match body b a with
      | inl e => inl e
      | inr b' => fold_err body l' b'
      end
  end.

(** [l[i]] *)
Definition getitem {A} (l : list A) (i : nat) : Exception + A :=
  match nth_error l i with
  | Some a => inr a
  | None => inl IndexError
  end.

(** [l[i] = a] on an index in range. *)
Fixpoint setitem {A} (l : list A) (i : nat) (a : A) : list A :=
  match l, i with
  | [], _ => []
  | _ :: l', O => a :: l'
  | x :: l', S i' => x :: setitem l' i' a
  end.

(** [enumerate(l)] from [start]. *)
Fixpoint enumerate {A} (start : nat) (l : list A) : list (nat * A) :=
  match l with
  | [] => []
  | a :: l' => (start, a) :: enumerate (S start) l'
  end.

(* ================================================================== *)
(** * Blender: the data the add-on reads and writes *)
(* ================================================================== *)

Section Model.
Context {F : Type} {PF : PyFloat F}.

(** A [mathutils.Vector] of three components and a 4 by 4
    [mathutils.Matrix]; read one by one in Python, the components are
    Python floats. *)
Definition Vector : Type := (F * F * F)%type.
Definition Matrix : Type := list (list F).

Record MeshVertex : Type := {
  index : nat;              (* vertex.index *)
  co : Vector;              (* vertex.co *)
  normal : Vector           (* vertex.normal *)
}.

Record MeshLoop : Type := {
  loop_index : nat;         (* loop.index *)
  vertex_index : nat        (* loop.vertex_index *)
}.

Record MeshUVLoopLayer : Type := {
  uv_name : string;
  uv_data : list (F * F)    (* uv_layer.data[i].uv, one entry per loop *)
}.

Record Mesh : Type := {
  mesh_id : nat;            (* identity of the datablock *)
  mesh_name : string;
  vertices : list MeshVertex;
  loops : list MeshLoop;
  uv_layers : list MeshUVLoopLayer;
  users : nat
}.

Record Object : Type := {
  ob_name : string;
  ob_type : string;         (* ob.type *)
  ob_mode : string;         (* ob.mode *)
  ob_data : Mesh;           (* ob.data, the base mesh before modifiers *)
  modifiers : list string;  (* mod.type of every modifier, in stack order *)
  matrix_world : Matrix
}.

Record Image : Type := {
  image_id : nat;
  image_name : string;
  width : nat;
  height : nat;
  alpha : bool;
  float_buffer : bool;
  pixels : list F;
  file_format : string;
  image_filepath : string
}.

(** What [self.report({'ERROR'}, ...)] is called with. *)
Inductive Report : Type :=
| modifier_not_allowed (mod_type : string)
| scene_unit_not_metric
| vertex_count_exceeds_limit (vertex_count : nat)
| frame_count_exceeds_limit (frame_count : nat).

Inductive OperatorResult : Type := FINISHED | CANCELLED.

(** Everything outside the add-on that it reads or changes. *)
Record World : Type := {
  (* context.scene *)
  frame_start : Z;
  frame_end : Z;
  frame_step : Z;
  frame_current : Z;
  unit_system : string;               (* unit_settings.system *)
  scale_length : F;                   (* unit_settings.scale_length *)
  collection_objects : list Object;   (* scene.collection.objects *)
  (* context *)
  selected_objects : list Object;
  active_object : option Object;
  (* bpy.data *)
  meshes : list Mesh;
  objects : list Object;
  images : list Image;
  filepath : string;
  next_id : nat;                      (* the next fresh datablock identity *)
  (* the operator, the file system, the console *)
  reports : list Report;
  files : list string;
  stdout : list string
}.

Definition set_frame_current (i : Z) (w : World) : World :=
  {| frame_start := frame_start w; frame_end := frame_end w;
     frame_step := frame_step w; frame_current := i;
     unit_system := unit_system w; scale_length := scale_length w;
     collection_objects := collection_objects w;
     selected_objects := selected_objects w;
     active_object := active_object w;
     meshes := meshes w; objects := objects w; images := images w;
     filepath := filepath w; next_id := next_id w;
     reports := reports w; files := files w; stdout := stdout w |}.

Definition set_collection_objects (l : list Object) (w : World) : World :=
  {| frame_start := frame_start w; frame_end := frame_end w;
     frame_step := frame_step w; frame_current := frame_current w;
     unit_system := unit_system w; scale_length := scale_length w;
     collection_objects := l;
     selected_objects := selected_objects w;
     active_object := active_object w;
     meshes := meshes w; objects := objects w; images := images w;
     filepath := filepath w; next_id := next_id w;
     reports := reports w; files := files w; stdout := stdout w |}.

Definition set_meshes (l : list Mesh) (w : World) : World :=
  {| frame_start := frame_start w; frame_end := frame_end w;
     frame_step := frame_step w; frame_current := frame_current w;
     unit_system := unit_system w; scale_length := scale_length w;
     collection_objects := collection_objects w;
     selected_objects := selected_objects w;
     active_object := active_object w;
     meshes := l; objects := objects w; images := images w;
     filepath := filepath w; next_id := next_id w;
     reports := reports w; files := files w; stdout := stdout w |}.

Definition set_objects (l : list Object) (w : World) : World :=
  {| frame_start := frame_start w; frame_end := frame_end w;
     frame_step := frame_step w; frame_current := frame_current w;
     unit_system := unit_system w; scale_length := scale_length w;
     collection_objects := collection_objects w;
     selected_objects := selected_objects w;
     active_object := active_object w;
     meshes := meshes w; objects := l; images := images w;
     filepath := filepath w; next_id := next_id w;
     reports := reports w; files := files w; stdout := stdout w |}.

Definition set_images (l : list Image) (w : World) : World :=
  {| frame_start := frame_start w; frame_end := frame_end w;
     frame_step := frame_step w; frame_current := frame_current w;
     unit_system := unit_system w; scale_length := scale_length w;
     collection_objects := collection_objects w;
     selected_objects := selected_objects w;
     active_object := active_object w;
     meshes := meshes w; objects := objects w; images := l;
     filepath := filepath w; next_id := next_id w;
     reports := reports w; files := files w; stdout := stdout w |}.

Definition set_next_id (n : nat) (w : World) : World :=
  {| frame_start := frame_start w; frame_end := frame_end w;
     frame_step := frame_step w; frame_current := frame_current w;
     unit_system := unit_system w; scale_length := scale_length w;
     collection_objects := collection_objects w;
     selected_objects := selected_objects w;
     active_object := active_object w;
     meshes := meshes w; objects := objects w; images := images w;
     filepath := filepath w; next_id := n;
     reports := reports w; files := files w; stdout := stdout w |}.

Definition set_reports (l : list Report) (w : World) : World :=
  {| frame_start := frame_start w; frame_end := frame_end w;
     frame_step := frame_step w; frame_current := frame_current w;
     unit_system := unit_system w; scale_length := scale_length w;
     collection_objects := collection_objects w;
     selected_objects := selected_objects w;
     active_object := active_object w;
     meshes := meshes w; objects := objects w; images := images w;
     filepath := filepath w; next_id := next_id w;
     reports := l; files := files w; stdout := stdout w |}.

Definition set_files (l : list string) (w : World) : World :=
  {| frame_start := frame_start w; frame_end := frame_end w;
     frame_step := frame_step w; frame_current := frame_current w;
     unit_system := unit_system w; scale_length := scale_length w;
     collection_objects := collection_objects w;
     selected_objects := selected_objects w;
     active_object := active_object w;
     meshes := meshes w; objects := objects w; images := images w;
     filepath := filepath w; next_id := next_id w;
     reports := reports w; files := l; stdout := stdout w |}.

Definition set_stdout (l : list string) (w : World) : World :=
  {| frame_start := frame_start w; frame_end := frame_end w;
     frame_step := frame_step w; frame_current := frame_current w;
     unit_system := unit_system w; scale_length := scale_length w;
     collection_objects := collection_objects w;
     selected_objects := selected_objects w;
     active_object := active_object w;
     meshes := meshes w; objects := objects w; images := images w;
     filepath := filepath w; next_id := next_id w;
     reports := reports w; files := files w; stdout := l |}.

(** Blender and the Python library, as far as the add-on calls into them.
    These functions are inputs of the model: nothing below depends on what
    they compute. *)
Record Host : Type := {
  (* data.meshes.new_from_object(ob.evaluated_get(depsgraph)): the geometry
     of [ob] with its modifiers applied, at the given scene frame *)
  evaluated_mesh : Object -> Z -> Mesh;
  (* mesh.transform(matrix), on one position *)
  mul_m4_v3 : Matrix -> Vector -> Vector;
  (* bm.normal_update(): the normal of vertex [i], from the positions and
     the loops of the merged geometry *)
  vert_normal : list Vector -> list nat -> nat -> Vector;
  (* bm.from_mesh(mesh): the loop layers after a mesh with the second
     list of layers and the second number of loops is appended to a
     geometry with the first list of layers and the first number of loops *)
  merge_loop_layers : list MeshUVLoopLayer -> nat ->
                      list MeshUVLoopLayer -> nat -> list MeshUVLoopLayer;
  (* me.uv_layers.new(): name and fill value of a fresh layer *)
  new_uv_name : list string -> string;
  new_uv_value : F * F;
  (* the name a datablock or layer gets, given the names in use *)
  unique_name : list string -> string -> string;
  (* formatting inside f-strings *)
  str_of_float : F -> string;
  str_of_int : Z -> string;
  (* os.path *)
  dirname : string -> string;
  basename : string -> string;
  splitext : string -> string * string;
  join : string -> string -> string;
  (* re.match on [name] of a stem, an underscore and a run of digits up to
     the end: the stem and the number *)
  match_numbered : string -> option (string * Z)
}.

Variable host : Host.

Local Open Scope run_scope.
Local Abbreviation Run := (M World).

(** ** [bpy.data.meshes] and [bmesh] *)

Definition with_geometry (mesh : Mesh) (vs : list MeshVertex)
           (ls : list MeshLoop) (uvs : list MeshUVLoopLayer) : Mesh :=
  {| mesh_id := mesh_id mesh; mesh_name := mesh_name mesh;
     vertices := vs; loops := ls; uv_layers := uvs; users := users mesh |}.

Definition with_uv_layers (mesh : Mesh) (uvs : list MeshUVLoopLayer) : Mesh :=
  with_geometry mesh (vertices mesh) (loops mesh) uvs.

Definition with_users (mesh : Mesh) (n : nat) : Mesh :=
  {| mesh_id := mesh_id mesh; mesh_name := mesh_name mesh;
     vertices := vertices mesh; loops := loops mesh;
     uv_layers := uv_layers mesh; users := n |}.

(** A new datablock: fresh identity, unique name, no user. *)
Definition meshes_add (name : string) (vs : list MeshVertex)
           (ls : list MeshLoop) (uvs : list MeshUVLoopLayer) : Run Mesh :=
  fun w =>
    let mesh := {| mesh_id := next_id w;
                   mesh_name := unique_name host (map mesh_name (meshes w)) name;
                   vertices := vs; loops := ls; uv_layers := uvs; users := 0 |} in
    (inr mesh, set_next_id (S (next_id w)) (set_meshes (meshes w ++ [mesh]) w)).

(** [data.meshes.new(name)] *)
Definition meshes_new (name : string) : Run Mesh := meshes_add name [] [] [].

(** [data.meshes.new_from_object(ob.evaluated_get(depsgraph))] *)
Definition meshes_new_from_object (ob : Object) : Run Mesh :=
  w <- gets (fun w => w) ;;
  let e := evaluated_mesh host ob (frame_current w) in
  meshes_add (mesh_name e) (vertices e) (loops e) (uv_layers e).

(** [mesh.copy()] *)
Definition mesh_copy (mesh : Mesh) : Run Mesh :=
  meshes_add (mesh_name mesh) (vertices mesh) (loops mesh) (uv_layers mesh).

(** [data.meshes.remove(mesh)] *)
Definition meshes_remove (mesh : Mesh) : Run unit :=
  modify (fun w =>
    set_meshes (filter (fun m => negb (mesh_id m =? mesh_id mesh)) (meshes w)) w).

(** A change made through a reference to [mesh] shows in [data.meshes]. *)
Definition meshes_store (mesh : Mesh) : Run unit :=
  modify (fun w =>
    set_meshes (map (fun m => if mesh_id m =? mesh_id mesh then mesh else m)
                    (meshes w)) w).

(** [mesh.transform(matrix)] *)
Definition transform (matrix : Matrix) (mesh : Mesh) : Mesh :=
  with_geometry mesh
    (map (fun v => {| index := index v;
                      co := mul_m4_v3 host matrix (co v);
                      normal := normal v |}) (vertices mesh))
    (loops mesh) (uv_layers mesh).

Record BMesh : Type := {
  bm_verts : list (Vector * Vector);      (* position and normal *)
  bm_loops : list nat;                    (* the vertex of every loop *)
  bm_loop_layers : list MeshUVLoopLayer
}.

(** [bmesh.new()] *)
Definition bmesh_new : BMesh :=
  {| bm_verts := []; bm_loops := []; bm_loop_layers := [] |}.

(** [bm.from_mesh(mesh)]: the geometry of [mesh] is appended. *)
Definition from_mesh (bm : BMesh) (mesh : Mesh) : BMesh :=
  {| bm_verts := bm_verts bm ++ map (fun v => (co v, normal v)) (vertices mesh);
     bm_loops := bm_loops bm
                 ++ map (fun l => length (bm_verts bm) + vertex_index l) (loops mesh);
     bm_loop_layers :=
       merge_loop_layers host (bm_loop_layers bm) (length (bm_loops bm))
                         (uv_layers mesh) (length (loops mesh)) |}.

(** [bm.normal_update()] *)
Definition normal_update (bm : BMesh) : BMesh :=
  let cos := map fst (bm_verts bm) in
  {| bm_verts := map (fun iv => (fst (snd iv), vert_normal host cos (bm_loops bm) (fst iv)))
                     (enumerate 0 (bm_verts bm));
     bm_loops := bm_loops bm;
     bm_loop_layers := bm_loop_layers bm |}.

(** [bm.to_mesh(mesh)]: vertices and loops are numbered in order. *)
Definition to_mesh (bm : BMesh) (mesh : Mesh) : Mesh :=
  with_geometry mesh
    (map (fun iv => {| index := fst iv; co := fst (snd iv); normal := snd (snd iv) |})
         (enumerate 0 (bm_verts bm)))
    (map (fun il => {| loop_index := fst il; vertex_index := snd il |})
         (enumerate 0 (bm_loops bm)))
    (bm_loop_layers bm).

(** ** The add-on *)

(** [frame_range(scene)] *)
Definition frame_range (scene : World) : Exception + list Z :=
  range (frame_start scene) (frame_end scene + 1) (frame_step scene).

(** [get_per_frame_mesh_data(context, data, objects)] *)
Definition get_per_frame_mesh_data (objects : list Object) : Run (list Mesh) :=
  scene <- gets (fun w => w) ;;
  frames <- lift (frame_range scene) ;;
  foldM (fun meshes i =>
           modify (set_frame_current i) ;;;
           bm <- foldM (fun bm ob =>
                          mesh <- meshes_new_from_object ob ;;
                          let mesh := transform (matrix_world ob) mesh in
                          let bm := from_mesh bm mesh in
                          meshes_remove mesh ;;;
                          ret bm)
                       objects bmesh_new ;;
           mesh <- meshes_new "mesh" ;;
           let bm := normal_update bm in
           let mesh := to_mesh bm mesh in
           meshes_store mesh ;;;
           ret (meshes ++ [mesh]))
        frames [].

(** [float / int] and [int / int]: the zero test is on the integer. *)
Definition truediv_int (x : F) (n : Z) : Exception + F :=
  if (n =? 0)%Z then inl ZeroDivisionError else inr (fquot x (of_int n)).

Definition int_truediv (a b : Z) : Exception + F :=
  match b with
  | Z0 => inl ZeroDivisionError
  | Zpos p => inr (of_Q (a # p))
  | Zneg p => inr (of_Q (- a # p))
  end.

(** [me.uv_layers.new()] *)
Definition uv_layers_new (me : Mesh) : Mesh :=
  with_uv_layers me
    (uv_layers me
     ++ [{| uv_name := new_uv_name host (map uv_name (uv_layers me));
            uv_data := map (fun _ => new_uv_value host) (loops me) |}]).

(** [while len(me.uv_layers) < 2: me.uv_layers.new()], at most two rounds. *)
Definition ensure_two_uv_layers (me : Mesh) : Mesh :=
  match uv_layers me with
  | [] => uv_layers_new (uv_layers_new me)
  | [_] => uv_layers_new me
  | _ => me
  end.

(** [uv_layer.name = name] on [me.uv_layers[1]] *)
Definition rename_uv_layer_1 (me : Mesh) (name : string) : Mesh :=
  match uv_layers me with
  | l0 :: l1 :: rest =>
      with_uv_layers me
        (l0 :: {| uv_name := unique_name host (uv_name l0 :: map uv_name rest) name;
                  uv_data := uv_data l1 |} :: rest)
  | _ => me
  end.

(** One round of [for loop in me.loops]: the right-hand side is evaluated,
    then [uv_layer.data[loop.index].uv] is assigned, [uv_layer] being
    [me.uv_layers[1]]. *)
Definition write_uv (me : Mesh) (loop : MeshLoop) : Exception + Mesh :=
  match truediv_int (fadd (of_nat (vertex_index loop)) (of_Q (1 # 2)))
                    (Z.of_nat (length (vertices me))) with
  | inl e => inl e
  | inr u =>
      match int_truediv 128 255 with
      | inl e => inl e
      | inr v =>
          match getitem (uv_layers me) 1 with
          | inl e => inl e
          | inr uv_layer =>
              if loop_index loop <? length (uv_data uv_layer) then
                inr (with_uv_layers me
                       (setitem (uv_layers me) 1
                          {| uv_name := uv_name uv_layer;
                             uv_data := setitem (uv_data uv_layer)
                                                (loop_index loop) (u, v) |}))
              else inl IndexError
          end
      end
  end.

Definition identity_matrix : Matrix :=
  [[f1; f0; f0; f0]; [f0; f1; f0; f0]; [f0; f0; f1; f0]; [f0; f0; f0; f1]].

(** [data.objects.new(name, me)]: the mesh gains a user. *)
Definition objects_new (name : string) (me : Mesh) : Run Object :=
  let me := with_users me (S (users me)) in
  meshes_store me ;;;
  w <- gets (fun w => w) ;;
  let ob := {| ob_name := unique_name host (map ob_name (objects w)) name;
               ob_type := "MESH"; ob_mode := "OBJECT"; ob_data := me; modifiers := [];
               matrix_world := identity_matrix |} in
  modify (set_objects (objects w ++ [ob])) ;;;
  ret ob.

(** [create_export_mesh_object(context, data, me)] *)
Definition create_export_mesh_object (me : Mesh) : Run Object :=
  let me := ensure_two_uv_layers me in
  meshes_store me ;;;
  _ <- lift (getitem (uv_layers me) 1) ;;
  let me := rename_uv_layer_1 me "vertex_anim" in
  meshes_store me ;;;
  me <- foldM (fun me loop =>
                 me <- lift (write_uv me loop) ;;
                 meshes_store me ;;;
                 ret me)
              (loops me) me ;;
  ob <- objects_new "export_mesh" me ;;
  modify (fun w => set_collection_objects (collection_objects w ++ [ob]) w) ;;;
  ret ob.

(** [normalize_signed_to_zero_to_one_space(x)] *)
Definition normalize_signed_to_zero_to_one_space (x : F) : F :=
  fmul (fadd x (of_int 1)) (of_Q (1 # 2)).

(** [vertex.co - original[vertex.index].co] *)
Definition vector_sub (a b : Vector) : Vector :=
  let '(ax, ay, az) := a in
  let '(bx, by_, bz) := b in
  (fsub ax bx, fsub ay by_, fsub az bz).

(** One round of [for vertex in mesh.vertices]. *)
Definition emit_vertex (original : list MeshVertex)
           (acc : list F * list F) (vertex : MeshVertex)
  : Exception + (list F * list F) :=
  let '(offsets, normals) := acc in
  match getitem original (index vertex) with
  | inl e => inl e
  | inr o =>
      let offset := vector_sub (co vertex) (co o) in
      let '(x, y, z) := offset in
      let offsets := offsets ++ [x; y; z; of_Q 1] in
      let '(x, y, z) := normal vertex in
      let normals := normals
                     ++ [normalize_signed_to_zero_to_one_space x;
                         normalize_signed_to_zero_to_one_space y;
                         normalize_signed_to_zero_to_one_space z;
                         of_Q 1] in
      inr (offsets, normals)
  end.

(** [get_vertex_data(data, meshes)] *)
Definition get_vertex_data (meshes : list Mesh) : Run (list F * list F) :=
  original <- lift (match getitem meshes 0 with
                    | inl e => inl e
                    | inr m => inr (vertices m)
                    end) ;;
  foldM (fun acc mesh =>
           acc <- lift (fold_err (emit_vertex original) (vertices mesh) acc) ;;
           (if users mesh =? 0 then meshes_remove mesh else ret tt) ;;;
           ret acc)
        (rev meshes) ([], []).

(** ** Normalising and baking *)

(** A Python number that is either an [int] or a [float]. *)
Inductive number : Type :=
| Int (z : Z)
| Float (x : F).

(** [x / d] *)
Definition truediv_number (x : F) (d : number) : Exception + F :=
  match d with
  | Int z => truediv_int x z
  | Float y => truediv x y
  end.

(** The guard both loops of [bake_vertex_data] start with:
    [(float_index + 1) % 4 == 0]. *)
Definition is_alpha (float_index : nat) : bool :=
  (float_index + 1) mod 4 =? 0.

(** One round of the first loop; the accumulator is
    [(lowest_negative_offset, highest_positive_offset)]. *)
Definition scan_step (offsets : list F) (acc : F * F) (float_index : nat) : F * F :=
  match nth_error offsets float_index with
  | None => acc                                   (* float_index >= len(offsets) *)
  | Some x =>
      if is_alpha float_index then acc
      else (py_min x (fst acc), py_max x (snd acc))
  end.

Definition scan_extents (offsets : list F) : F * F :=
  fold_left (scan_step offsets) (seq 0 (length offsets)) (of_Q 0, of_Q 0).

(** [lowest_negative_offset *= -1] *)
Definition neg_extent (offsets : list F) : F :=
  fmul (fst (scan_extents offsets)) (of_int (-1)).

Definition pos_extent (offsets : list F) : F :=
  snd (scan_extents offsets).

(** [neg_max_plus_pos_max], after the replacement of a zero sum by [1]. *)
Definition span (offsets : list F) : number :=
  let neg_max_plus_pos_max := fadd (pos_extent offsets) (neg_extent offsets) in
  if feq neg_max_plus_pos_max (of_int 0) then Int 1 else Float neg_max_plus_pos_max.

(** One round of the second loop, on the list as it is by then. *)
Definition rewrite_step (lowest_negative_offset : F) (neg_max_plus_pos_max : number)
           (offsets : list F) (float_index : nat) : Exception + list F :=
  match nth_error offsets float_index with
  | None => inr offsets
  | Some x =>
      if is_alpha float_index then inr offsets
      else
        let x := fadd x lowest_negative_offset in
        match truediv_number x neg_max_plus_pos_max with
        | inl e => inl e
        | inr x => inr (setitem offsets float_index x)
        end
  end.

(** Lines 111 to 127: the extents, and [offsets] rewritten in place. *)
Definition normalize_offsets (offsets : list F) : Exception + list F :=
  fold_err (rewrite_step (neg_extent offsets) (span offsets))
           (seq 0 (length offsets)) offsets.

Definition with_pixels (image : Image) (values : list F) : Image :=
  {| image_id := image_id image; image_name := image_name image;
     width := width image; height := height image;
     alpha := alpha image; float_buffer := float_buffer image;
     pixels := values;
     file_format := file_format image; image_filepath := image_filepath image |}.

Definition with_file (image : Image) (format path : string) : Image :=
  {| image_id := image_id image; image_name := image_name image;
     width := width image; height := height image;
     alpha := alpha image; float_buffer := float_buffer image;
     pixels := pixels image;
     file_format := format; image_filepath := path |}.

(** A change made through a reference to [image] shows in [data.images]. *)
Definition images_store (image : Image) : Run unit :=
  modify (fun w =>
    set_images (map (fun i => if image_id i =? image_id image then image else i)
                    (images w)) w).

(** [data.images.new(name, width, height, alpha, float_buffer)]; Blender
    takes a width and a height from 1 upwards.  The initial pixels are
    overwritten before anything reads them. *)
Definition images_new (name : string) (width height : nat)
           (alpha float_buffer : bool) : Run Image :=
  fun w =>
    if (width <? 1) || (height <? 1) then
      (inl (HostError "images.new: width and height must be at least 1"), w)
    else
      let image := {| image_id := next_id w;
                      image_name := unique_name host (map image_name (images w)) name;
                      width := width; height := height;
                      alpha := alpha; float_buffer := float_buffer;
                      pixels := repeat (of_Q 0) (4 * width * height);
                      file_format := "TARGA"; image_filepath := "" |} in
      (inr image, set_next_id (S (next_id w)) (set_images (images w ++ [image]) w)).

(** [image.pixels = values]; Blender takes exactly four floats a pixel. *)
Definition set_pixels (image : Image) (values : list F) : Run Image :=
  if length values =? 4 * width image * height image then
    let image := with_pixels image values in
    images_store image ;;;
    ret image
  else raise (HostError "pixels: the sequence has the wrong length").

(** [bake_vertex_data(data, offsets, normals, size)] *)
Definition bake_vertex_data (offsets normals : list F) (size : nat * nat)
  : Run (list Image) :=
  let '(width, height) := size in
  let lowest_negative_offset := neg_extent offsets in
  let highest_positive_offset := pos_extent offsets in
  offsets <- lift (normalize_offsets offsets) ;;
  offset_texture <-
    images_new ("offsets_neg_max_" ++ str_of_float host lowest_negative_offset
                ++ "_pos_max_" ++ str_of_float host highest_positive_offset)%string
               width height true true ;;
  normal_texture <- images_new "normals" width height true false ;;
  offset_texture <- set_pixels offset_texture offsets ;;
  normal_texture <- set_pixels normal_texture normals ;;
  ret [offset_texture; normal_texture].

(** ** Saving *)

(** [unique_filepath(name)] inside [save_image_exr]; [depth] is the number
    of nested calls Python still allows. *)
Fixpoint unique_filepath (depth : nat) (existing : list string)
         (directory name : string) : Exception + (string * string) :=
  match depth with
  | O => inl RecursionError
  | S depth' =>
      let full := join host directory (name ++ ".exr")%string in
      if negb (existsb (String.eqb full) existing) then inr (name, full)
      else
        let '(root, idx) :=
          match match_numbered host name with
          | Some (root, n) => (root, (n + 1)%Z)
          | None => (name, 1%Z)
          end in
        unique_filepath depth' existing directory
                        (root ++ "_" ++ str_of_int host idx)%string
  end.

Definition recursion_limit : nat := Z.to_nat 1000.

Definition not_saved_message : string :=
  "Please save your .blend file before calling save_image_exr().".

(** [save_image_exr(image)] *)
Definition save_image_exr (image : Image) : Run unit :=
  blend_path <- gets filepath ;;
  if String.eqb blend_path "" then raise (RuntimeError not_saved_message)
  else
    let directory := dirname host blend_path in
    let base_name := fst (splitext host (image_name image)) in
    existing <- gets files ;;
    found <- lift (unique_filepath recursion_limit existing directory base_name) ;;
    let '(final_name, filepath) := found in
    let image := with_file image "OPEN_EXR" filepath in
    images_store image ;;;
    modify (fun w => set_files (files w ++ [filepath]) w) ;;;
    modify (fun w =>
      set_stdout (stdout w
                  ++ ["Image '" ++ image_name image ++ "' saved as '"
                      ++ basename host filepath ++ "'"]%string) w).

(** ** The operator *)

Definition allowed_modifiers : list string :=
  ["ARMATURE"; "CAST"; "CURVE"; "DISPLACE"; "HOOK";
   "LAPLACIANDEFORM"; "LATTICE"; "MESH_DEFORM";
   "SHRINKWRAP"; "SIMPLE_DEFORM"; "SMOOTH";
   "CORRECTIVE_SMOOTH"; "LAPLACIANSMOOTH";
   "SURFACE_DEFORM"; "WARP"; "WAVE"]%string.

(** [self.report({'ERROR'}, ...)] *)
Definition report (r : Report) : Run unit :=
  modify (fun w => set_reports (reports w ++ [r]) w).

(** The first modifier, in the order of the two nested loops, whose type
    is not allowed. *)
Definition first_disallowed_modifier (objects : list Object) : option string :=
  find (fun mod_type => negb (existsb (String.eqb mod_type) allowed_modifiers))
       (flat_map modifiers objects).

(** [OBJECT_OT_ProcessAnimMeshes.poll(cls, context)], as a truth value *)
Definition poll (context : World) : bool :=
  match active_object context with
  | None => false
  | Some ob => String.eqb (ob_type ob) "MESH" && String.eqb (ob_mode ob) "OBJECT"
  end.

(** [OBJECT_OT_ProcessAnimMeshes.execute(self, context)] *)
Definition execute : Run OperatorResult :=
  units <- gets (fun w => w) ;;
  objects <- gets (fun w => filter (fun ob => String.eqb (ob_type ob) "MESH")
                                   (selected_objects w)) ;;
  let vertex_count := list_sum (map (fun ob => length (vertices (ob_data ob))) objects) in
  frames <- lift (frame_range units) ;;
  let frame_count := length frames in
  match first_disallowed_modifier objects with
  | Some mod_type => report (modifier_not_allowed mod_type) ;;; ret CANCELLED
  | None =>
      if negb (String.eqb (unit_system units) "METRIC")
         || negb (feq (round2 (scale_length units)) (of_Q (1 # 100)))
      then report scene_unit_not_metric ;;; ret CANCELLED
      else if (8192 <? Z.of_nat vertex_count)%Z
      then report (vertex_count_exceeds_limit vertex_count) ;;; ret CANCELLED
      else if (8192 <? Z.of_nat frame_count)%Z
      then report (frame_count_exceeds_limit frame_count) ;;; ret CANCELLED
      else
        meshes <- get_per_frame_mesh_data objects ;;
        first <- lift (getitem meshes 0) ;;
        export_mesh_data <- mesh_copy first ;;
        _ <- create_export_mesh_object export_mesh_data ;;
        vertex_data <- get_vertex_data meshes ;;
        let '(offsets, normals) := vertex_data in
        let texture_size := (vertex_count, frame_count) in
        textures <- bake_vertex_data offsets normals texture_size ;;
        match textures with
        | [offsets_texture; normals_texture] =>
            save_image_exr offsets_texture ;;;
            save_image_exr normals_texture ;;;
            ret FINISHED
        | _ => raise ValueError
        end
  end.

End Model.

Arguments Mesh : clear implicits.
Arguments MeshVertex : clear implicits.
Arguments Object : clear implicits.
Arguments Image : clear implicits.
Arguments World : clear implicits.
Arguments Host : clear implicits.
Arguments Vector : clear implicits.
Arguments number : clear implicits.
Arguments BMesh : clear implicits.
Arguments MeshUVLoopLayer : clear implicits.

Unset Implicit Arguments.

(* ================================================================== *)
(** * Lists: indexing, updating, slicing *)
(* ================================================================== *)

Section ListFacts.
Context {A : Type}.

Lemma length_setitem (l : list A) i a : length (setitem l i a) = length l.
Proof.
  revert i; induction l as [|x l IH]; intros [|i]; simpl; auto.
Qed.

Lemma nth_error_setitem_eq (l : list A) i a :
  i < length l -> nth_error (setitem l i a) i = Some a.
Proof.
  revert i; induction l as [|x l IH]; intros [|i] Hi; simpl in *; try lia; auto.
  apply IH; lia.
Qed.

Lemma nth_error_setitem_neq (l : list A) i j a :
  i <> j -> nth_error (setitem l i a) j = nth_error l j.
Proof.
  revert i j; induction l as [|x l IH]; intros [|i] [|j] Hij; simpl; auto.
  congruence.
Qed.

Lemma length_enumerate (l : list A) start : length (enumerate start l) = length l.
Proof.
  revert start; induction l as [|x l IH]; intros start; simpl; auto.
Qed.

Lemma nth_error_enumerate (l : list A) start i :
  nth_error (enumerate start l) i
  = option_map (fun a => (start + i, a)) (nth_error l i).
Proof.
  revert start i; induction l as [|x l IH]; intros start [|i]; simpl; auto.
  - now rewrite Nat.add_0_r.
  - rewrite IH. now rewrite Nat.add_succ_comm.
Qed.

(** The [i]-th block of a concatenation of blocks of equal length [k]. *)
Lemma block_of_flat_map {B} (f : B -> list A) (k : nat) (l : list B) i b :
  (forall x, In x l -> length (f x) = k) ->
  nth_error l i = Some b ->
  firstn k (skipn (k * i) (flat_map f l)) = f b.
Proof.
  revert i; induction l as [|x l IH]; intros [|i] Hk Hi; simpl in *; try discriminate.
  - injection Hi as ->. rewrite Nat.mul_0_r. simpl.
    rewrite firstn_app, firstn_all2 by (rewrite (Hk b); auto).
    rewrite (Hk b) by auto. rewrite Nat.sub_diag. simpl. apply app_nil_r.
  - replace (k * S i) with (length (f x) + k * i) by (rewrite (Hk x); auto; lia).
    rewrite skipn_app, skipn_all2 by lia.
    replace (length (f x) + k * i - length (f x)) with (k * i) by lia.
    simpl. apply IH; auto.
Qed.

Lemma firstn_skipn_within (l : list A) a c k :
  c + a <= k -> firstn a (skipn c (firstn k l)) = firstn a (skipn c l).
Proof.
  intros H. rewrite !firstn_skipn_comm, firstn_firstn.
  now rewrite Nat.min_l by lia.
Qed.

Lemma length_flat_map_const {B} (f : B -> list A) (k : nat) (l : list B) :
  (forall x, In x l -> length (f x) = k) ->
  length (flat_map f l) = k * length l.
Proof.
  induction l as [|x l IH]; intros Hk; simpl.
  - lia.
  - rewrite length_app, (Hk x) by (simpl; auto).
    rewrite IH by (intros; apply Hk; simpl; auto). lia.
Qed.

End ListFacts.

(* ================================================================== *)
(** * Runs: reasoning rules *)
(* ================================================================== *)

Section RunFacts.
Context {W : Type}.

Lemma bind_inr {A B} (m : M W A) (k : A -> M W B) w b w' :
  bind m k w = (inr b, w') ->
  exists a w1, m w = (inr a, w1) /\ k a w1 = (inr b, w').
Proof.
  unfold bind. destruct (m w) as [[e|a] w1]; intros E; [discriminate|eauto].
Qed.

Lemma bind_inl {A B} (m : M W A) (k : A -> M W B) w e w' :
  bind m k w = (inl e, w') ->
  m w = (inl e, w') \/ exists a w1, m w = (inr a, w1) /\ k a w1 = (inl e, w').
Proof.
  unfold bind. destruct (m w) as [[e1|a] w1]; intros E; [left|right; eauto].
  congruence.
Qed.

Lemma bind_step {A B} (m : M W A) (k : A -> M W B) w a w1 :
  m w = (inr a, w1) -> bind m k w = k a w1.
Proof. unfold bind. now intros ->. Qed.

(** [P] survives [m], whether [m] returns or raises. *)
Definition preserves {A} (P : W -> Prop) (m : M W A) : Prop :=
  forall w r w', m w = (r, w') -> P w -> P w'.

Lemma preserves_ret {A} P (a : A) : preserves P (ret a).
Proof. intros w r w' E; inversion E; auto. Qed.

Lemma preserves_raise {A} P e : preserves P (@raise W A e).
Proof. intros w r w' E; inversion E; auto. Qed.

Lemma preserves_lift {A} P (x : Exception + A) : preserves P (lift x).
Proof. intros w r w' E; inversion E; auto. Qed.

Lemma preserves_gets {A} P (f : W -> A) : preserves P (gets f).
Proof. intros w r w' E; inversion E; auto. Qed.

Lemma preserves_modify P (f : W -> W) :
  (forall w, P w -> P (f w)) -> preserves P (modify f).
Proof. intros Hf w r w' E; inversion E; subst; auto. Qed.

Lemma preserves_bind {A B} P (m : M W A) (k : A -> M W B) :
  preserves P m -> (forall a, preserves P (k a)) -> preserves P (bind m k).
Proof.
  intros Hm Hk w r w' E Hw. unfold bind in E.
  destruct (m w) as [[e|a] w1] eqn:Em.
  - inversion E; subst. eapply Hm; eauto.
  - eapply Hk; [eassumption|]. eapply Hm; eauto.
Qed.

Lemma preserves_foldM {A B} P (body : B -> A -> M W B) l :
  (forall b a, preserves P (body b a)) -> forall b, preserves P (foldM body l b).
Proof.
  intros Hb. induction l as [|a l IH]; intros b; simpl.
  - apply preserves_ret.
  - apply preserves_bind; auto.
Qed.

(** [m] raises nothing but exceptions in [E]. *)
Definition raises_only {A} (E : Exception -> Prop) (m : M W A) : Prop :=
  forall w e w', m w = (inl e, w') -> E e.

Lemma raises_only_ret {A} E (a : A) : raises_only E (ret a).
Proof. intros w e w' H; discriminate. Qed.

Lemma raises_only_gets {A} E (f : W -> A) : raises_only E (gets f).
Proof. intros w e w' H; discriminate. Qed.

Lemma raises_only_modify E (f : W -> W) : raises_only E (modify f).
Proof. intros w e w' H; discriminate. Qed.

Lemma raises_only_raise {A} (E : Exception -> Prop) e :
  E e -> raises_only E (@raise W A e).
Proof. intros He w e' w' H; inversion H; subst; auto. Qed.

Lemma raises_only_lift {A} (E : Exception -> Prop) (x : Exception + A) :
  (forall e, x = inl e -> E e) -> raises_only E (lift x).
Proof. intros Hx w e w' H; inversion H; subst; auto. Qed.

Lemma raises_only_bind {A B} E (m : M W A) (k : A -> M W B) :
  raises_only E m -> (forall a, raises_only E (k a)) -> raises_only E (bind m k).
Proof.
  intros Hm Hk w e w' H. apply bind_inl in H as [H|(a & w1 & _ & H)].
  - eapply Hm; eauto.
  - eapply Hk; eauto.
Qed.

Lemma raises_only_foldM {A B} E (body : B -> A -> M W B) l :
  (forall b a, raises_only E (body b a)) -> forall b, raises_only E (foldM body l b).
Proof.
  intros Hb. induction l as [|a l IH]; intros b; simpl.
  - apply raises_only_ret.
  - apply raises_only_bind; auto.
Qed.

End RunFacts.

(* ================================================================== *)
(** * The encoder: [get_vertex_data] *)
(* ================================================================== *)

Section Encoder.
Context {F : Type} {PF : PyFloat F}.

(** Blender numbers the vertices of a mesh in order: vertex [i] has
    [index] [i]. *)
Definition well_indexed (mesh : Mesh F) : Prop :=
  forall i v, nth_error (vertices mesh) i = Some v -> index v = i.

(** The four floats of one offset pixel and of one normal pixel. *)
Definition offset_pixel (o vertex : MeshVertex F) : list F :=
  let '(x, y, z) := vector_sub (co vertex) (co o) in
  [x; y; z; of_Q 1].

Definition normal_pixel (vertex : MeshVertex F) : list F :=
  let '(x, y, z) := normal vertex in
  [normalize_signed_to_zero_to_one_space x;
   normalize_signed_to_zero_to_one_space y;
   normalize_signed_to_zero_to_one_space z;
   of_Q 1].

(** One texture row: the pixels of one mesh, vertex after vertex. *)
Definition offset_row (original : list (MeshVertex F)) (mesh : Mesh F) : list F :=
  flat_map (fun v => offset_pixel (nth (index v) original v) v) (vertices mesh).

Definition normal_row (mesh : Mesh F) : list F :=
  flat_map normal_pixel (vertices mesh).

Definition indices_within (original : list (MeshVertex F)) (mesh : Mesh F) : Prop :=
  forall v, In v (vertices mesh) -> index v < length original.

Lemma length_offset_pixel o v : length (offset_pixel o v) = 4.
Proof.
  unfold offset_pixel. now destruct (vector_sub (co v) (co o)) as [[x y] z].
Qed.

Lemma length_normal_pixel v : length (normal_pixel v) = 4.
Proof. unfold normal_pixel. now destruct (normal v) as [[x y] z]. Qed.

Lemma length_offset_row original mesh :
  length (offset_row original mesh) = 4 * length (vertices mesh).
Proof.
  apply length_flat_map_const. intros; apply length_offset_pixel.
Qed.

Lemma length_normal_row mesh :
  length (normal_row mesh) = 4 * length (vertices mesh).
Proof.
  apply length_flat_map_const. intros; apply length_normal_pixel.
Qed.

Lemma emit_vertex_inr original offsets normals v o :
  nth_error original (index v) = Some o ->
  emit_vertex original (offsets, normals) v
  = inr (offsets ++ offset_pixel o v, normals ++ normal_pixel v).
Proof.
  intros Ho. unfold emit_vertex, getitem, offset_pixel, normal_pixel.
  rewrite Ho.
  destruct (vector_sub (co v) (co o)) as [[x y] z].
  now destruct (normal v) as [[nx ny] nz].
Qed.

Lemma emit_vertex_inl original acc v :
  nth_error original (index v) = None ->
  emit_vertex original acc v = inl IndexError.
Proof.
  intros Ho. unfold emit_vertex, getitem. destruct acc. now rewrite Ho.
Qed.

(** The inner loop appends one pixel per vertex. *)
Lemma inner_loop_inr original vs :
  (forall v, In v vs -> index v < length original) ->
  forall offsets normals,
    fold_err (emit_vertex original) vs (offsets, normals)
    = inr (offsets ++ flat_map (fun v => offset_pixel (nth (index v) original v) v) vs,
           normals ++ flat_map normal_pixel vs).
Proof.
  induction vs as [|v vs IH]; intros Hin offsets normals; cbn [fold_err flat_map].
  - now rewrite !app_nil_r.
  - assert (Hv : index v < length original) by (apply Hin; simpl; auto).
    rewrite (emit_vertex_inr _ offsets normals _ _ (nth_error_nth' original v Hv)).
    rewrite IH by (intros; apply Hin; simpl; auto).
    now rewrite <- !app_assoc.
Qed.

(** The inner loop succeeds only on indices inside [original]. *)
Lemma inner_loop_within original vs acc acc' :
  fold_err (emit_vertex original) vs acc = inr acc' ->
  forall v, In v vs -> index v < length original.
Proof.
  revert acc; induction vs as [|v vs IH]; intros acc E u Hu;
    cbn [fold_err In] in *.
  - contradiction.
  - destruct (nth_error original (index v)) as [o|] eqn:Ho.
    + destruct acc as [offsets normals].
      rewrite (emit_vertex_inr _ offsets normals _ _ Ho) in E.
      destruct Hu as [<-|Hu].
      * apply nth_error_Some. congruence.
      * eapply IH; eauto.
    + rewrite (emit_vertex_inl _ acc _ Ho) in E. discriminate.
Qed.

(** The body of the outer loop, as in [get_vertex_data]. *)
Definition outer_body (original : list (MeshVertex F))
           (acc : list F * list F) (mesh : Mesh F) : M (World F) (list F * list F) :=
  (acc <- lift (fold_err (emit_vertex original) (vertices mesh) acc) ;;
   (if users mesh =? 0 then meshes_remove mesh else ret tt) ;;;
   ret acc)%run.

Lemma outer_loop_inr original l :
  (forall m, In m l -> indices_within original m) ->
  forall offsets normals w,
  exists w',
    foldM (outer_body original) l (offsets, normals) w
    = (inr (offsets ++ flat_map (offset_row original) l,
            normals ++ flat_map normal_row l), w').
Proof.
  induction l as [|m l IH]; intros Hin offsets normals w; cbn [foldM flat_map].
  - exists w. unfold ret. now rewrite !app_nil_r.
  - unfold bind at 1, outer_body at 1, bind at 1, lift.
    rewrite inner_loop_inr by (apply Hin; simpl; auto).
    unfold bind at 1.
    destruct (if users m =? 0 then meshes_remove m else ret tt) as [r w1] eqn:Er.
    assert (r = inr tt) as ->.
    { destruct (users m =? 0); inversion Er; auto. }
    unfold ret at 1.
    destruct (IH (fun m' Hm' => Hin m' (or_intror Hm'))
                 (offsets ++ flat_map (fun v => offset_pixel (nth (index v) original v) v) (vertices m))
                 (normals ++ flat_map normal_pixel (vertices m)) w1) as [w' E].
    exists w'. rewrite E. unfold offset_row at 2, normal_row at 2.
    now rewrite <- !app_assoc.
Qed.

Lemma outer_loop_within original l :
  forall acc w acc' w',
    foldM (outer_body original) l acc w = (inr acc', w') ->
    forall m, In m l -> indices_within original m.
Proof.
  induction l as [|m l IH]; intros acc w acc' w' E m' Hm'; cbn [foldM In] in *.
  - contradiction.
  - apply bind_inr in E as (acc1 & w1 & E1 & E2).
    unfold outer_body in E1.
    apply bind_inr in E1 as (acc2 & w2 & E3 & _).
    unfold lift in E3. injection E3 as E4 _.
    destruct Hm' as [<-|Hm'].
    + intros v Hv. eapply inner_loop_within; eauto.
    + eapply IH; eauto.
Qed.

Lemma get_vertex_data_unfold meshes :
  get_vertex_data meshes
  = (original <- lift (match getitem meshes 0 with
                       | inl e => inl e
                       | inr m => inr (vertices m)
                       end) ;;
     foldM (outer_body original) (rev meshes) ([], []))%run.
Proof. reflexivity. Qed.

(** On meshes whose vertex indices stay inside the first mesh,
    [get_vertex_data] returns the rows of the meshes in reverse order. *)
Lemma get_vertex_data_inr first rest w :
  (forall m, In m (first :: rest) -> indices_within (vertices first) m) ->
  exists w',
    get_vertex_data (first :: rest) w
    = (inr (flat_map (offset_row (vertices first)) (rev (first :: rest)),
            flat_map normal_row (rev (first :: rest))), w').
Proof.
  intros Hin. rewrite get_vertex_data_unfold.
  unfold bind, lift, getitem. cbn [nth_error].
  destruct (outer_loop_inr (vertices first) (rev (first :: rest))
              (fun m Hm => Hin m (proj2 (in_rev _ _) Hm)) [] [] w) as [w' E].
  exists w'. exact E.
Qed.

(** Whenever [get_vertex_data] returns, it returns those rows. *)
Lemma get_vertex_data_returns meshes w offsets normals w' :
  get_vertex_data meshes w = (inr (offsets, normals), w') ->
  exists first rest,
    meshes = first :: rest
    /\ (forall m, In m meshes -> indices_within (vertices first) m)
    /\ offsets = flat_map (offset_row (vertices first)) (rev meshes)
    /\ normals = flat_map normal_row (rev meshes).
Proof.
  intros E. destruct meshes as [|first rest].
  - rewrite get_vertex_data_unfold in E. discriminate.
  - exists first, rest. split; [reflexivity|].
    assert (Hin : forall m, In m (first :: rest) -> indices_within (vertices first) m).
    { intros m Hm. rewrite get_vertex_data_unfold in E.
      apply bind_inr in E as (original & w1 & E1 & E2).
      unfold lift, getitem in E1. cbn [nth_error] in E1.
      inversion E1; subst.
      eapply outer_loop_within; eauto. now apply in_rev in Hm. }
    split; [exact Hin|].
    destruct (get_vertex_data_inr first rest w Hin) as [w2 E2].
    rewrite E2 in E. now inversion E.
Qed.

Lemma well_indexed_within n (meshes : list (Mesh F)) first :
  Forall (fun m => well_indexed m /\ length (vertices m) = n) meshes ->
  length (vertices first) = n ->
  forall m, In m meshes -> indices_within (vertices first) m.
Proof.
  intros Hall Hn m Hm v Hv.
  rewrite Forall_forall in Hall. destruct (Hall m Hm) as [Hwi Hlen].
  apply In_nth_error in Hv as [i Hi].
  rewrite (Hwi i v Hi), Hn, <- Hlen.
  apply nth_error_Some. congruence.
Qed.

(** C1: on a non-empty list of well-indexed meshes that all have [n]
    vertices, [get_vertex_data] returns two lists of [4 * n * len(meshes)]
    floats each. *)
Theorem get_vertex_data_length (meshes : list (Mesh F)) (n : nat) (w : World F) :
  meshes <> [] ->
  Forall (fun m => well_indexed m /\ length (vertices m) = n) meshes ->
  exists offsets normals w',
    get_vertex_data meshes w = (inr (offsets, normals), w')
    /\ length offsets = 4 * n * length meshes
    /\ length normals = 4 * n * length meshes.
Proof.
  intros Hne Hall. destruct meshes as [|first rest]; [congruence|].
  assert (Hfirst : length (vertices first) = n).
  { inversion Hall as [|? ? [_ H] _]; exact H. }
  destruct (get_vertex_data_inr first rest w
              (well_indexed_within n _ first Hall Hfirst)) as [w' E].
  eexists _, _, w'. split; [exact E|].
  assert (Hlen : forall m, In m (rev (first :: rest)) -> length (vertices m) = n).
  { intros m Hm. apply in_rev in Hm. rewrite Forall_forall in Hall.
    now destruct (Hall m Hm). }
  split.
  - rewrite (length_flat_map_const _ (4 * n)), length_rev; [lia|].
    intros m Hm. rewrite length_offset_row, (Hlen m Hm). reflexivity.
  - rewrite (length_flat_map_const _ (4 * n)), length_rev; [lia|].
    intros m Hm. rewrite length_normal_row, (Hlen m Hm). reflexivity.
Qed.

(** C2: [get_vertex_data] emits the meshes last frame first and, inside a
    frame, the vertices in ascending order: with [n] vertices per mesh,
    the pixel of vertex [v] in row [row] of either list is the pixel of
    vertex [v] of [meshes[len(meshes) - 1 - row]], so row 0 is the last
    frame and the last row is [meshes[0]], the reference frame. *)
Theorem get_vertex_data_row_order
        (meshes : list (Mesh F)) (n : nat) (w w' : World F)
        (offsets normals : list F) :
  Forall (fun m => well_indexed m /\ length (vertices m) = n) meshes ->
  get_vertex_data meshes w = (inr (offsets, normals), w') ->
  forall row v first mesh o vertex,
    row < length meshes ->
    nth_error meshes 0 = Some first ->
    nth_error meshes (length meshes - 1 - row) = Some mesh ->
    nth_error (vertices first) v = Some o ->
    nth_error (vertices mesh) v = Some vertex ->
    firstn 4 (skipn (4 * (row * n + v)) offsets) = offset_pixel o vertex
    /\ firstn 4 (skipn (4 * (row * n + v)) normals) = normal_pixel vertex.
Proof.
  intros Hall E row v first mesh o vertex Hrow Hfirst Hmesh Ho Hvertex.
  apply get_vertex_data_returns in E
    as (first' & rest & Hmeshes & _ & -> & ->).
  assert (first' = first) as -> by (subst meshes; simpl in Hfirst; congruence).
  rewrite Forall_forall in Hall.
  assert (Hrev : nth_error (rev meshes) row = Some mesh).
  { rewrite nth_error_rev.
    destruct (Nat.ltb_spec row (length meshes)); [|lia].
    rewrite <- Hmesh. f_equal. lia. }
  assert (Hin : In mesh meshes) by (eapply nth_error_In; eauto).
  destruct (Hall mesh Hin) as [Hwi Hn].
  assert (Hv : v < n).
  { rewrite <- Hn. apply nth_error_Some. congruence. }
  assert (Hrows : forall m, In m (rev meshes) -> length (vertices m) = n).
  { intros m Hm. apply in_rev in Hm. now destruct (Hall m Hm). }
  replace (4 * (row * n + v)) with (4 * v + (4 * n) * row) by lia.
  rewrite <- !skipn_skipn.
  rewrite <- (firstn_skipn_within _ 4 (4 * v) (4 * n)) by lia.
  rewrite <- (firstn_skipn_within (skipn _ (flat_map normal_row _)) 4 (4 * v) (4 * n))
    by lia.
  rewrite (block_of_flat_map (offset_row (vertices first)) (4 * n) _ row mesh); auto.
  2:{ intros m Hm. rewrite length_offset_row, (Hrows m Hm). reflexivity. }
  rewrite (block_of_flat_map normal_row (4 * n) _ row mesh); auto.
  2:{ intros m Hm. rewrite length_normal_row, (Hrows m Hm). reflexivity. }
  unfold offset_row, normal_row. split.
  - rewrite (block_of_flat_map _ 4 _ v vertex); auto.
    + rewrite (Hwi v vertex Hvertex).
      now rewrite (nth_error_nth _ _ _ Ho).
    + intros; apply length_offset_pixel.
  - rewrite (block_of_flat_map _ 4 _ v vertex); auto.
    intros; apply length_normal_pixel.
Qed.

(** ** The alpha channel of the encoder's output *)

(** Every float at an alpha position of [l] is [1.0], and [l] is made of
    whole pixels. *)
Definition alpha_ones (l : list F) : Prop :=
  (exists k, length l = 4 * k)
  /\ forall i, i < length l -> is_alpha i = true -> nth_error l i = Some (of_Q 1).

Lemma is_alpha_shift i k : is_alpha (i + 4 * k) = is_alpha i.
Proof.
  unfold is_alpha. f_equal.
  replace (i + 4 * k + 1) with (i + 1 + k * 4) by lia.
  apply Nat.Div0.mod_add.
Qed.

Lemma alpha_ones_nil : alpha_ones [].
Proof. split; [exists 0; reflexivity|]. simpl; intros; lia. Qed.

Lemma alpha_ones_app l1 l2 : alpha_ones l1 -> alpha_ones l2 -> alpha_ones (l1 ++ l2).
Proof.
  intros [[k1 H1] A1] [[k2 H2] A2]. split.
  - exists (k1 + k2). rewrite length_app. lia.
  - intros i Hi Ha. rewrite length_app in Hi.
    destruct (Nat.lt_ge_cases i (length l1)) as [Hlt|Hge].
    + rewrite nth_error_app1 by exact Hlt. auto.
    + rewrite nth_error_app2 by exact Hge. apply A2; [lia|].
      rewrite <- (is_alpha_shift _ k1).
      replace (i - length l1 + 4 * k1) with i by lia. exact Ha.
Qed.

Lemma alpha_ones_flat_map {B} (f : B -> list F) (l : list B) :
  (forall x, In x l -> alpha_ones (f x)) -> alpha_ones (flat_map f l).
Proof.
  induction l as [|x l IH]; intros Hf; simpl.
  - apply alpha_ones_nil.
  - apply alpha_ones_app; [apply Hf; simpl; auto|].
    apply IH. intros; apply Hf; simpl; auto.
Qed.

Lemma alpha_ones_pixel a b c : alpha_ones [a; b; c; of_Q 1].
Proof.
  split; [exists 1; reflexivity|].
  intros i Hi Ha. simpl in Hi.
  destruct i as [|[|[|[|i]]]]; try discriminate Ha; [reflexivity|lia].
Qed.

Lemma alpha_ones_offset_row original mesh : alpha_ones (offset_row original mesh).
Proof.
  apply alpha_ones_flat_map. intros v _. unfold offset_pixel.
  destruct (vector_sub _ _) as [[x y] z]. apply alpha_ones_pixel.
Qed.

Lemma alpha_ones_normal_row mesh : alpha_ones (normal_row mesh).
Proof.
  apply alpha_ones_flat_map. intros v _. unfold normal_pixel.
  destruct (normal v) as [[x y] z]. apply alpha_ones_pixel.
Qed.

Lemma get_vertex_data_alpha meshes w offsets normals w' :
  get_vertex_data meshes w = (inr (offsets, normals), w') ->
  alpha_ones offsets /\ alpha_ones normals.
Proof.
  intros E.
  apply get_vertex_data_returns in E as (first & rest & _ & _ & -> & ->).
  split; apply alpha_ones_flat_map; intros m _.
  - apply alpha_ones_offset_row.
  - apply alpha_ones_normal_row.
Qed.

End Encoder.

(* ================================================================== *)
(** * The normaliser inside [bake_vertex_data], in any arithmetic *)
(* ================================================================== *)

Section Normaliser.
Context {F : Type} {PF : PyFloat F}.

(** ** The scan for the extents *)

(** The first loop, told along the list instead of along its indices. *)
Fixpoint scan_list (start : nat) (l : list F) (acc : F * F) : F * F :=
  match l with
  | [] => acc
  | x :: l' =>
      scan_list (S start) l'
                (if is_alpha start then acc
                 else (py_min x (fst acc), py_max x (snd acc)))
  end.

Lemma scan_loop_list (pre l : list F) (acc : F * F) :
  fold_left (scan_step (pre ++ l)) (seq (length pre) (length l)) acc
  = scan_list (length pre) l acc.
Proof.
  revert pre acc; induction l as [|x l IH]; intros pre acc; [reflexivity|].
  cbn [length seq fold_left scan_list].
  assert (Hx : nth_error (pre ++ x :: l) (length pre) = Some x).
  { rewrite nth_error_app2, Nat.sub_diag by lia. reflexivity. }
  unfold scan_step at 2. rewrite Hx.
  replace (pre ++ x :: l) with ((pre ++ [x]) ++ l) by (now rewrite <- app_assoc).
  replace (S (length pre)) with (length (pre ++ [x]))
    by (rewrite length_app; simpl; lia).
  apply IH.
Qed.

Lemma scan_extents_list (offsets : list F) :
  scan_extents offsets = scan_list 0 offsets (of_Q 0, of_Q 0).
Proof. exact (scan_loop_list [] offsets (of_Q 0, of_Q 0)). Qed.

(** The scanned channels: the floats off the alpha positions, in order. *)
Fixpoint scanned (start : nat) (l : list F) : list F :=
  match l with
  | [] => []
  | x :: l' => if is_alpha start then scanned (S start) l'
               else x :: scanned (S start) l'
  end.

Lemma scan_list_scanned (l : list F) : forall start acc,
  scan_list start l acc
  = (fold_left (fun lo x => py_min x lo) (scanned start l) (fst acc),
     fold_left (fun hi x => py_max x hi) (scanned start l) (snd acc)).
Proof.
  induction l as [|x l IH]; intros start [lo hi]; cbn [scan_list scanned].
  - reflexivity.
  - rewrite IH. now destruct (is_alpha start).
Qed.

(** The scan reads no alpha position: two lists that agree off the alpha
    positions have the same extents. *)
Lemma scanned_ext (l l' : list F) : forall start,
  length l = length l' ->
  (forall i, is_alpha (start + i) = false -> nth_error l i = nth_error l' i) ->
  scanned start l = scanned start l'.
Proof.
  revert l'; induction l as [|x l IH]; intros [|x' l'] start Hlen Hagree;
    try discriminate; [reflexivity|].
  cbn [scanned].
  assert (Htl : scanned (S start) l = scanned (S start) l').
  { apply IH; [simpl in Hlen; lia|].
    intros i Hi. apply (Hagree (S i)). now rewrite Nat.add_succ_r. }
  rewrite Htl. destruct (is_alpha start) eqn:Ha; [reflexivity|].
  f_equal. specialize (Hagree 0). rewrite Nat.add_0_r in Hagree.
  specialize (Hagree Ha). simpl in Hagree. congruence.
Qed.

Lemma In_scanned (l : list F) : forall start x,
  In x (scanned start l)
  <-> exists i, nth_error l i = Some x /\ is_alpha (start + i) = false.
Proof.
  induction l as [|a l IH]; intros start x; cbn [scanned].
  - split; [intros []|]. intros ([|i] & Hi & _); discriminate.
  - specialize (IH (S start) x). split.
    + intros Hx.
      assert (Htl : In x (scanned (S start) l) ->
                    exists i, nth_error (a :: l) i = Some x
                              /\ is_alpha (start + i) = false).
      { intros H. apply IH in H as (i & Hi & Ha). exists (S i).
        split; [exact Hi|]. now rewrite Nat.add_succ_r. }
      destruct (is_alpha start) eqn:Ha; [auto|].
      destruct Hx as [<-|Hx]; [|auto].
      exists 0. split; [reflexivity|]. now rewrite Nat.add_0_r.
    + intros ([|i] & Hi & Ha).
      * rewrite Nat.add_0_r in Ha. rewrite Ha. left. simpl in Hi. congruence.
      * assert (Htl : In x (scanned (S start) l)).
        { apply IH. exists i. split; [exact Hi|]. now rewrite Nat.add_succ_r in Ha. }
        destruct (is_alpha start); [exact Htl|right; exact Htl].
Qed.

Lemma scan_extents_scanned (offsets : list F) :
  scan_extents offsets
  = (fold_left (fun lo x => py_min x lo) (scanned 0 offsets) (of_Q 0),
     fold_left (fun hi x => py_max x hi) (scanned 0 offsets) (of_Q 0)).
Proof. rewrite scan_extents_list. apply scan_list_scanned. Qed.

Lemma scan_extents_ext (l l' : list F) :
  length l = length l' ->
  (forall i, is_alpha i = false -> nth_error l i = nth_error l' i) ->
  scan_extents l = scan_extents l'.
Proof.
  intros Hlen Hagree. rewrite !scan_extents_scanned.
  now rewrite (scanned_ext l l' 0 Hlen Hagree).
Qed.

(** ** The divisor *)

Definition divisor (d : number F) : F :=
  match d with
  | Int z => of_int z
  | Float y => y
  end.

(** [d] passes the zero test of Python's division. *)
Definition nonzero (d : number F) : Prop :=
  match d with
  | Int z => z <> 0%Z
  | Float y => feq y f0 = false
  end.

Lemma truediv_number_nonzero (x : F) (d : number F) :
  nonzero d -> truediv_number x d = inr (fquot x (divisor d)).
Proof.
  destruct d as [z|y]; simpl; intros Hd.
  - unfold truediv_int. destruct (Z.eqb_spec z 0); [contradiction|reflexivity].
  - unfold truediv. now rewrite Hd.
Qed.

Lemma span_nonzero (offsets : list F) : nonzero (span offsets).
Proof.
  unfold span.
  destruct (feq (fadd (pos_extent offsets) (neg_extent offsets)) (of_int 0)) eqn:E;
    simpl; [discriminate|exact E].
Qed.

(** ** The rewrite loop *)

(** What the second loop leaves at position [i] that held [x]. *)
Definition normalized (neg : F) (d : number F) (i : nat) (x : F) : F :=
  if is_alpha i then x else fquot (fadd x neg) (divisor d).

Lemma rewrite_loop (neg : F) (d : number F) :
  nonzero d ->
  forall len start cur,
    start + len <= length cur ->
    exists ys,
      fold_err (rewrite_step neg d) (seq start len) cur = inr ys
      /\ length ys = length cur
      /\ forall j,
          nth_error ys j
          = if (start <=? j) && (j <? start + len)
            then option_map (normalized neg d j) (nth_error cur j)
            else nth_error cur j.
Proof.
  intros Hd. induction len as [|len IH]; intros start cur Hlen.
  - exists cur. repeat split; auto. intros j.
    destruct (Nat.leb_spec start j), (Nat.ltb_spec j (start + 0)); simpl; auto; lia.
  - cbn [seq fold_err].
    destruct (nth_error cur start) as [x|] eqn:Hx.
    2:{ apply nth_error_None in Hx. lia. }
    assert (Hstep : exists cur',
               rewrite_step neg d cur start = inr cur'
               /\ length cur' = length cur
               /\ forall j, nth_error cur' j
                            = if j =? start then Some (normalized neg d start x)
                              else nth_error cur j).
    { unfold rewrite_step, normalized. rewrite Hx.
      destruct (is_alpha start).
      - exists cur. repeat split; auto. intros j.
        destruct (Nat.eqb_spec j start); congruence.
      - rewrite (truediv_number_nonzero _ d Hd).
        eexists. split; [reflexivity|]. split; [apply length_setitem|].
        intros j. destruct (Nat.eqb_spec j start) as [->|Hne].
        + apply nth_error_setitem_eq. apply nth_error_Some. congruence.
        + apply nth_error_setitem_neq. congruence. }
    destruct Hstep as (cur' & -> & Hlen' & Hcur').
    destruct (IH (S start) cur') as (ys & -> & Hys & Hnth); [lia|].
    exists ys. split; [reflexivity|]. split; [congruence|].
    intros j. rewrite Hnth, Hcur'.
    destruct (Nat.eqb_spec j start) as [->|Hne].
    + rewrite Hx.
      destruct (Nat.leb_spec (S start) start), (Nat.leb_spec start start),
        (Nat.ltb_spec start (start + S len)); simpl; auto; lia.
    + destruct (Nat.leb_spec (S start) j), (Nat.leb_spec start j),
        (Nat.ltb_spec j (S start + len)), (Nat.ltb_spec j (start + S len));
        simpl; auto; lia.
Qed.

(** [normalize_offsets] never raises: it returns a list as long as
    [offsets] whose alpha positions are untouched and whose other
    positions hold [(x + neg_extent) / span]. *)
Lemma normalize_offsets_inr (offsets : list F) :
  exists ys,
    normalize_offsets offsets = inr ys
    /\ length ys = length offsets
    /\ forall j,
        nth_error ys j
        = option_map (normalized (neg_extent offsets) (span offsets) j)
                     (nth_error offsets j).
Proof.
  destruct (rewrite_loop (neg_extent offsets) (span offsets) (span_nonzero offsets)
              (length offsets) 0 offsets) as (ys & E & Hlen & Hnth); [lia|].
  exists ys. split; [exact E|]. split; [exact Hlen|].
  intros j. rewrite Hnth. simpl.
  destruct (Nat.ltb_spec j (length offsets)) as [Hj|Hj]; [reflexivity|].
  apply nth_error_None in Hj. now rewrite Hj.
Qed.

Lemma normalize_offsets_alpha (offsets ys : list F) :
  normalize_offsets offsets = inr ys ->
  forall i, is_alpha i = true -> nth_error ys i = nth_error offsets i.
Proof.
  intros E i Ha.
  destruct (normalize_offsets_inr offsets) as (ys' & E' & _ & Hnth).
  assert (ys' = ys) as -> by congruence.
  rewrite Hnth. unfold normalized. rewrite Ha.
  now destruct (nth_error offsets i).
Qed.

(** ** The alpha positions *)

(** The guard of the two loops holds at every fourth index, [3], [7],
    [11], ..., and nowhere else. *)
Lemma is_alpha_mod (i : nat) : is_alpha i = true <-> i mod 4 = 3.
Proof.
  unfold is_alpha. rewrite Nat.eqb_eq.
  pose proof (Nat.div_mod_eq i 4) as Hi.
  pose proof (Nat.mod_upper_bound i 4 ltac:(lia)) as Hr.
  replace (i + 1) with ((i mod 4 + 1) + (i / 4) * 4) by lia.
  rewrite Nat.Div0.mod_add.
  destruct (i mod 4) as [|[|[|[|r]]]]; cbn; lia.
Qed.

Lemma is_alpha_fourth (k : nat) : is_alpha (4 * k + 3) = true.
Proof.
  apply is_alpha_mod.
  replace (4 * k + 3) with (3 + k * 4) by lia.
  now rewrite Nat.Div0.mod_add.
Qed.

Lemma is_alpha_other (i : nat) : i mod 4 <> 3 -> is_alpha i = false.
Proof.
  intros H. destruct (is_alpha i) eqn:E; [|reflexivity].
  apply is_alpha_mod in E. contradiction.
Qed.

(** C4: in both lists [get_vertex_data] returns, every fourth float (the
    alpha channel of a pixel, at the indices [4 * k + 3]) is exactly [1.0];
    the extent scan reads none of them (a list that agrees with the
    offsets at every other index has the same extents); and the rewrite
    leaves them as they were, so every fourth float of the normalised
    offsets is exactly [1.0] too. *)
Theorem alpha_channel_is_one
        (meshes : list (Mesh F)) (w w' : World F) (offsets normals : list F) :
  get_vertex_data meshes w = (inr (offsets, normals), w') ->
  (forall k,
     (4 * k + 3 < length offsets -> nth_error offsets (4 * k + 3) = Some (of_Q 1))
     /\ (4 * k + 3 < length normals -> nth_error normals (4 * k + 3) = Some (of_Q 1)))
  /\ (forall others,
        length others = length offsets ->
        (forall i, i mod 4 <> 3 -> nth_error others i = nth_error offsets i) ->
        scan_extents others = scan_extents offsets)
  /\ exists ys,
       normalize_offsets offsets = inr ys
       /\ length ys = length offsets
       /\ forall k, 4 * k + 3 < length ys ->
                    nth_error ys (4 * k + 3) = Some (of_Q 1).
Proof.
  intros E. destruct (get_vertex_data_alpha _ _ _ _ _ E) as [[_ Ho] [_ Hn]].
  split; [|split].
  - intros k. split; intros Hk; auto using is_alpha_fourth.
  - intros others Hlen Hagree. apply scan_extents_ext; [exact Hlen|].
    intros i Ha. apply Hagree. intros Hi.
    apply is_alpha_mod in Hi. congruence.
  - destruct (normalize_offsets_inr offsets) as (ys & Eys & Hlen & _).
    exists ys. split; [exact Eys|]. split; [exact Hlen|].
    intros k Hk.
    rewrite (normalize_offsets_alpha _ _ Eys _ (is_alpha_fourth k)).
    apply Ho; [lia|apply is_alpha_fourth].
Qed.

End Normaliser.

(* ================================================================== *)
(** * The export mesh: [create_export_mesh_object] *)
(* ================================================================== *)

Section ExportMesh.
Context {F : Type} {PF : PyFloat F}.
Variable host : Host F.

(** What Blender guarantees of a mesh: loop [i] has [index] [i], every UV
    layer has one entry per loop, every loop points at a vertex. *)
Definition loops_well_indexed (me : Mesh F) : Prop :=
  forall i l, nth_error (loops me) i = Some l -> loop_index l = i.

Definition uv_layers_sized (me : Mesh F) : Prop :=
  forall ly, In ly (uv_layers me) -> length (uv_data ly) = length (loops me).

Definition loops_point_at_vertices (me : Mesh F) : Prop :=
  forall l, In l (loops me) -> vertex_index l < length (vertices me).

(** [((v + 0.5) / n, 128 / 255)] *)
Definition lookup_uv (v n : nat) : F * F :=
  (fquot (fadd (of_nat v) (of_Q (1 # 2))) (of_nat n), of_Q (128 # 255)).

Lemma write_uv_inr (me : Mesh F) (loop : MeshLoop) (ly : MeshUVLoopLayer F) :
  nth_error (uv_layers me) 1 = Some ly ->
  loop_index loop < length (uv_data ly) ->
  vertex_index loop < length (vertices me) ->
  write_uv me loop
  = inr (with_uv_layers me
           (setitem (uv_layers me) 1
              {| uv_name := uv_name ly;
                 uv_data := setitem (uv_data ly) (loop_index loop)
                              (lookup_uv (vertex_index loop)
                                         (length (vertices me))) |})).
Proof.
  intros Hly Hi Hv. unfold write_uv, truediv_int, int_truediv, getitem.
  destruct (Z.eqb_spec (Z.of_nat (length (vertices me))) 0) as [E|_]; [lia|].
  rewrite Hly. apply Nat.ltb_lt in Hi. rewrite Hi. reflexivity.
Qed.

(** The body of [for loop in me.loops]. *)
Definition uv_body (me : Mesh F) (loop : MeshLoop) : M (World F) (Mesh F) :=
  (me <- lift (write_uv me loop) ;;
   meshes_store me ;;;
   ret me)%run.

Lemma uv_loop (n : nat) (ls : list MeshLoop) :
  forall start me ly w,
    (forall i l, nth_error ls i = Some l -> loop_index l = start + i) ->
    (forall l, In l ls -> vertex_index l < n) ->
    length (vertices me) = n ->
    nth_error (uv_layers me) 1 = Some ly ->
    start + length ls <= length (uv_data ly) ->
    exists me' ly' w',
      foldM uv_body ls me w = (inr me', w')
      /\ vertices me' = vertices me /\ loops me' = loops me
      /\ users me' = users me /\ mesh_id me' = mesh_id me
      /\ length (uv_layers me') = length (uv_layers me)
      /\ nth_error (uv_layers me') 1 = Some ly'
      /\ length (uv_data ly') = length (uv_data ly)
      /\ (forall j, j < start ->
            nth_error (uv_data ly') j = nth_error (uv_data ly) j)
      /\ (forall i l, nth_error ls i = Some l ->
            nth_error (uv_data ly') (start + i)
            = Some (lookup_uv (vertex_index l) n)).
Proof.
  induction ls as [|l ls IH]; intros start me ly w Hidx Hv Hn Hly Hlen.
  - exists me, ly, w. cbn [foldM]. unfold ret.
    repeat split; auto. intros [|i] l Hl; discriminate.
  - cbn [length] in Hlen.
    assert (Hl : loop_index l = start).
    { rewrite (Hidx 0 l eq_refl). lia. }
    assert (H1 : 1 < length (uv_layers me)).
    { apply nth_error_Some. congruence. }
    set (uv := lookup_uv (vertex_index l) n).
    set (ly1 := {| uv_name := uv_name ly;
                   uv_data := setitem (uv_data ly) start uv |}).
    set (me1 := with_uv_layers me (setitem (uv_layers me) 1 ly1)).
    assert (Hw : write_uv me l = inr me1).
    { rewrite (write_uv_inr me l ly Hly); [|lia|rewrite Hn; apply Hv; simpl; auto].
      unfold me1, ly1, uv. now rewrite Hl, Hn. }
    destruct (IH (S start) me1 ly1
                 (set_meshes (map (fun m => if mesh_id m =? mesh_id me1 then me1 else m)
                                  (meshes w)) w))
      as (me' & ly' & w' & E & Hvs & Hls & Hus & Hid & Hlayers & Hly' & Hlen' & Hold & Hnew).
    + intros i l' Hl'. rewrite (Hidx (S i) l' Hl'). lia.
    + intros l' Hl'. apply Hv. simpl; auto.
    + exact Hn.
    + unfold me1. cbn [with_uv_layers with_geometry uv_layers].
      now apply nth_error_setitem_eq.
    + unfold ly1. cbn [uv_data]. rewrite length_setitem. lia.
    + exists me', ly', w'.
      split.
      { cbn [foldM]. unfold bind at 1, uv_body at 1, bind at 1, lift.
        rewrite Hw. unfold bind at 1, meshes_store, modify, ret at 1. exact E. }
      unfold me1 in Hvs, Hls, Hus, Hid, Hlayers.
      cbn [with_uv_layers with_geometry vertices loops users mesh_id uv_layers]
        in Hvs, Hls, Hus, Hid, Hlayers.
      rewrite length_setitem in Hlayers.
      unfold ly1 in Hlen', Hold. cbn [uv_data] in Hlen', Hold.
      rewrite length_setitem in Hlen'.
      repeat split; auto.
      * intros j Hj. rewrite (Hold j) by lia.
        apply nth_error_setitem_neq. lia.
      * intros [|i] l' Hl'.
        -- simpl in Hl'. injection Hl' as <-. rewrite Nat.add_0_r.
           rewrite (Hold start) by lia. unfold uv.
           apply nth_error_setitem_eq. lia.
        -- rewrite <- (Hnew i l' Hl'). f_equal. lia.
Qed.

Lemma ensure_two_uv_layers_spec (me : Mesh F) :
  uv_layers_sized me ->
  let me' := ensure_two_uv_layers host me in
  vertices me' = vertices me /\ loops me' = loops me
  /\ users me' = users me /\ mesh_id me' = mesh_id me
  /\ 2 <= length (uv_layers me') /\ uv_layers_sized me'.
Proof.
  intros Hsized. unfold ensure_two_uv_layers.
  assert (Hnew : forall m : Mesh F,
             uv_layers_sized m ->
             vertices (uv_layers_new host m) = vertices m
             /\ loops (uv_layers_new host m) = loops m
             /\ users (uv_layers_new host m) = users m
             /\ mesh_id (uv_layers_new host m) = mesh_id m
             /\ length (uv_layers (uv_layers_new host m)) = S (length (uv_layers m))
             /\ uv_layers_sized (uv_layers_new host m)).
  { intros m Hm. unfold uv_layers_new, uv_layers_sized.
    cbn [with_uv_layers with_geometry vertices loops users mesh_id uv_layers].
    repeat split; auto.
    - rewrite length_app. simpl. lia.
    - intros ly Hly. apply in_app_or in Hly as [Hly|[<-|[]]]; [now apply Hm|].
      cbn [uv_data]. apply length_map. }
  destruct (uv_layers me) as [|l0 [|l1 rest]] eqn:E.
  - destruct (Hnew me Hsized) as (A1 & A2 & A3 & A4 & A5 & A6).
    destruct (Hnew _ A6) as (B1 & B2 & B3 & B4 & B5 & B6).
    rewrite E in A5. cbn [length] in A5.
    repeat split; try congruence; auto. rewrite B5, A5. lia.
  - destruct (Hnew me Hsized) as (A1 & A2 & A3 & A4 & A5 & A6).
    rewrite E in A5. cbn [length] in A5.
    repeat split; auto. rewrite A5. lia.
  - repeat split; auto. rewrite E. simpl. lia.
Qed.

Lemma rename_uv_layer_1_spec (me : Mesh F) (name : string) :
  2 <= length (uv_layers me) ->
  uv_layers_sized me ->
  let me' := rename_uv_layer_1 host me name in
  vertices me' = vertices me /\ loops me' = loops me
  /\ users me' = users me /\ mesh_id me' = mesh_id me
  /\ length (uv_layers me') = length (uv_layers me)
  /\ exists ly, nth_error (uv_layers me') 1 = Some ly
                /\ length (uv_data ly) = length (loops me).
Proof.
  intros H2 Hsized. unfold rename_uv_layer_1.
  destruct (uv_layers me) as [|l0 [|l1 rest]] eqn:E; simpl in H2; try lia.
  cbn [with_uv_layers with_geometry vertices loops users mesh_id uv_layers].
  repeat split; auto.
  eexists. split; [reflexivity|]. cbn [uv_data].
  apply Hsized. rewrite E. simpl; auto.
Qed.

Lemma create_export_mesh_object_unfold (me : Mesh F) :
  create_export_mesh_object host me
  = (let me := ensure_two_uv_layers host me in
     meshes_store me ;;;
     _ <- lift (getitem (uv_layers me) 1) ;;
     let me := rename_uv_layer_1 host me "vertex_anim" in
     meshes_store me ;;;
     me <- foldM uv_body (loops me) me ;;
     ob <- objects_new host "export_mesh" me ;;
     modify (fun w => set_collection_objects (collection_objects w ++ [ob]) w) ;;;
     ret ob)%run.
Proof. reflexivity. Qed.

(** What [create_export_mesh_object] returns on a mesh as Blender keeps
    it. *)
Lemma create_export_mesh_object_inr (me : Mesh F) (w : World F) :
  loops_well_indexed me ->
  uv_layers_sized me ->
  loops_point_at_vertices me ->
  exists ob w' uv_layer,
    create_export_mesh_object host me w = (inr ob, w')
    /\ vertices (ob_data ob) = vertices me
    /\ loops (ob_data ob) = loops me
    /\ 2 <= length (uv_layers (ob_data ob))
    /\ nth_error (uv_layers (ob_data ob)) 1 = Some uv_layer
    /\ forall loop,
        In loop (loops me) ->
        nth_error (uv_data uv_layer) (loop_index loop)
        = Some (lookup_uv (vertex_index loop) (length (vertices me))).
Proof.
  intros Hwi Hsized Hpoint.
  destruct (ensure_two_uv_layers_spec me Hsized)
    as (A1 & A2 & A3 & A4 & A5 & A6).
  set (me1 := ensure_two_uv_layers host me) in *.
  destruct (rename_uv_layer_1_spec me1 "vertex_anim" A5 A6)
    as (B1 & B2 & B3 & B4 & B5 & ly & Hly & Hlen).
  set (me2 := rename_uv_layer_1 host me1 "vertex_anim") in *.
  assert (H1 : exists ly1, nth_error (uv_layers me1) 1 = Some ly1).
  { destruct (nth_error (uv_layers me1) 1) eqn:E; [eauto|].
    apply nth_error_None in E. lia. }
  destruct H1 as [ly1 Hly1].
  rewrite create_export_mesh_object_unfold. fold me1. cbv zeta. fold me2.
  set (w1 := set_meshes (map (fun m => if mesh_id m =? mesh_id me1 then me1 else m)
                             (meshes w)) w).
  set (w2 := set_meshes (map (fun m => if mesh_id m =? mesh_id me2 then me2 else m)
                             (meshes w1)) w1).
  destruct (uv_loop (length (vertices me)) (loops me2) 0 me2 ly w2)
    as (me3 & ly3 & w3 & E & C1 & C2 & C3 & C4 & C5 & C6 & C7 & _ & C9).
  - intros i l Hl. rewrite B2, A2 in Hl. simpl. apply (Hwi i l Hl).
  - intros l Hl. rewrite B2, A2 in Hl. apply (Hpoint l Hl).
  - congruence.
  - exact Hly.
  - rewrite Hlen, B2. simpl. lia.
  - set (me4 := with_users me3 (S (users me3))).
    eexists _, _, ly3. split.
    { unfold bind at 1, meshes_store at 1, modify at 1.
      unfold bind at 1, lift at 1, getitem at 1. rewrite Hly1.
      unfold bind at 1, meshes_store at 1, modify at 1.
      fold w1. fold w2.
      unfold bind at 1. rewrite E.
      unfold objects_new.
      cbv beta iota zeta delta [bind meshes_store modify gets ret]. fold me4.
      reflexivity. }
    cbn [ob_data]. unfold me4.
    cbn [with_users vertices loops uv_layers].
    split; [congruence|]. split; [congruence|]. split; [lia|].
    split; [exact C6|].
    intros loop Hloop. apply In_nth_error in Hloop as [i Hi].
    rewrite (Hwi i loop Hi).
    assert (Hi2 : nth_error (loops me2) i = Some loop) by (rewrite B2, A2; exact Hi).
    exact (C9 i loop Hi2).
Qed.

(** C6: on a mesh as Blender keeps it, [create_export_mesh_object]
    returns an object whose mesh has at least two UV layers (the missing
    ones are created) and whose second UV layer holds, at the index of
    every loop that points at vertex [v], exactly
    [((v + 0.5) / n, 128 / 255)], [n] being the number of vertices. *)
Theorem create_export_mesh_object_uv (me : Mesh F) (w : World F) :
  loops_well_indexed me ->
  uv_layers_sized me ->
  loops_point_at_vertices me ->
  exists ob w' uv_layer,
    create_export_mesh_object host me w = (inr ob, w')
    /\ 2 <= length (uv_layers (ob_data ob))
    /\ nth_error (uv_layers (ob_data ob)) 1 = Some uv_layer
    /\ forall loop,
        In loop (loops me) ->
        nth_error (uv_data uv_layer) (loop_index loop)
        = Some (lookup_uv (vertex_index loop) (length (vertices me))).
Proof.
  intros Hwi Hsized Hpoint.
  destruct (create_export_mesh_object_inr me w Hwi Hsized Hpoint)
    as (ob & w' & uv_layer & E & _ & _ & H2 & Hly & Huv).
  exists ob, w', uv_layer. auto.
Qed.

End ExportMesh.

(* ================================================================== *)
(** * The operator: what each step leaves alone *)
(* ================================================================== *)

(** One step of a proof that a run preserves a property of the world: the
    structure of the run is taken apart down to the changes of single
    fields, which must leave the property as it is. *)
Ltac frame_close := cbn in *; first [assumption | reflexivity | congruence].

Ltac frame_step :=
  match goal with
  | |- preserves _ (bind _ _) => apply preserves_bind; [|intro]
  | |- preserves _ (foldM _ _ _) => apply preserves_foldM; intros
  | |- preserves _ (ret _) => apply preserves_ret
  | |- preserves _ (raise _) => apply preserves_raise
  | |- preserves _ (lift _) => apply preserves_lift
  | |- preserves _ (gets _) => apply preserves_gets
  | |- preserves _ (modify _) =>
      apply preserves_modify; intros; frame_close
  | |- preserves _ (meshes_add _ _ _ _ _) =>
      let E := fresh in
      intros ? ? ? E ?; unfold meshes_add in E; inversion E; subst; frame_close
  | |- preserves _ (images_new _ _ _ _ _ _) =>
      let E := fresh in
      intros ? ? ? E ?; unfold images_new in E;
      match type of E with
      | context [if ?c then _ else _] => destruct c
      end; inversion E; subst; frame_close
  | |- preserves _ (if ?c then _ else _) => destruct c
  | |- preserves _ (match ?x with _ => _ end) => destruct x
  | |- preserves _ (let _ := _ in _) => cbv zeta
  end.

Ltac frame :=
  repeat first
    [ frame_step
    | progress unfold get_per_frame_mesh_data, meshes_new_from_object,
        meshes_new, mesh_copy, meshes_remove, meshes_store, objects_new,
        create_export_mesh_object, get_vertex_data, bake_vertex_data,
        set_pixels, images_store, save_image_exr, report ].

Section Operator.
Context {F : Type} {PF : PyFloat F}.
Variable host : Host F.

(** The selected mesh objects, their base vertex count, and the unit test
    of [execute]. *)
Definition selected_meshes (w : World F) : list (Object F) :=
  filter (fun ob => String.eqb (ob_type ob) "MESH") (selected_objects w).

Definition base_vertex_count (objects : list (Object F)) : nat :=
  list_sum (map (fun ob => length (vertices (ob_data ob))) objects).

Definition units_ok (w : World F) : bool :=
  String.eqb (unit_system w) "METRIC"
  && feq (round2 (scale_length w)) (of_Q (1 # 100)).

(** Lines 256 to 265 of [execute]: what runs once the checks have passed. *)
Definition pipeline (objects : list (Object F)) (vertex_count frame_count : nat)
  : M (World F) OperatorResult :=
  (meshes <- get_per_frame_mesh_data host objects ;;
   first <- lift (getitem meshes 0) ;;
   export_mesh_data <- mesh_copy host first ;;
   _ <- create_export_mesh_object host export_mesh_data ;;
   vertex_data <- get_vertex_data meshes ;;
   let '(offsets, normals) := vertex_data in
   let texture_size := (vertex_count, frame_count) in
   textures <- bake_vertex_data host offsets normals texture_size ;;
   match textures with
   | [offsets_texture; normals_texture] =>
       save_image_exr host offsets_texture ;;;
       save_image_exr host normals_texture ;;;
       ret FINISHED
   | _ => raise ValueError
   end)%run.

(** [execute], check by check. *)
Lemma execute_unfold (w : World F) :
  execute host w
  = match frame_range w with
    | inl e => (inl e, w)
    | inr frames =>
        let objects := selected_meshes w in
        let vertex_count := base_vertex_count objects in
        let frame_count := length frames in
        match first_disallowed_modifier objects with
        | Some mod_type =>
            (inr CANCELLED,
             set_reports (reports w ++ [modifier_not_allowed mod_type]) w)
        | None =>
            if negb (units_ok w) then
              (inr CANCELLED, set_reports (reports w ++ [scene_unit_not_metric]) w)
            else if (8192 <? Z.of_nat vertex_count)%Z then
              (inr CANCELLED,
               set_reports (reports w ++ [vertex_count_exceeds_limit vertex_count]) w)
            else if (8192 <? Z.of_nat frame_count)%Z then
              (inr CANCELLED,
               set_reports (reports w ++ [frame_count_exceeds_limit frame_count]) w)
            else pipeline objects vertex_count frame_count w
        end
    end.
Proof.
  unfold execute, units_ok.
  unfold bind at 1, gets at 1. unfold bind at 1, gets at 1.
  unfold bind at 1, lift at 1. fold (selected_meshes w).
  destruct (frame_range w) as [e|frames]; [reflexivity|].
  cbv zeta. fold (base_vertex_count (selected_meshes w)).
  destruct (first_disallowed_modifier (selected_meshes w)); [reflexivity|].
  rewrite negb_andb.
  destruct (negb (String.eqb (unit_system w) "METRIC")
            || negb (feq (round2 (scale_length w)) (of_Q (1 # 100))));
    [reflexivity|].
  destruct (8192 <? Z.of_nat (base_vertex_count (selected_meshes w)))%Z;
    [reflexivity|].
  destruct (8192 <? Z.of_nat (length frames))%Z; reflexivity.
Qed.

(** The pipeline reports nothing. *)
Lemma pipeline_reports objects vertex_count frame_count (R : list Report) :
  preserves (fun w => reports w = R) (pipeline objects vertex_count frame_count).
Proof.
  unfold pipeline. frame.
Qed.

(** The pipeline returns nothing but [FINISHED]. *)
Lemma pipeline_returns objects vertex_count frame_count w r w' :
  pipeline objects vertex_count frame_count w = (inr r, w') -> r = FINISHED.
Proof.
  unfold pipeline. intros E.
  apply bind_inr in E as (meshes & w1 & _ & E).
  apply bind_inr in E as (first & w2 & _ & E).
  apply bind_inr in E as (export_mesh_data & w3 & _ & E).
  apply bind_inr in E as (ob & w4 & _ & E).
  apply bind_inr in E as ([offsets normals] & w5 & _ & E).
  apply bind_inr in E as (textures & w6 & _ & E).
  destruct textures as [|t1 [|t2 [|t3 ts]]]; try discriminate E.
  apply bind_inr in E as (u1 & w7 & _ & E).
  apply bind_inr in E as (u2 & w8 & _ & E).
  now inversion E.
Qed.

(** ** The sampler: [get_per_frame_mesh_data] *)

(** The body of [for ob in objects]. *)
Definition sample_object (bm : BMesh F) (ob : Object F) : M (World F) (BMesh F) :=
  (mesh <- meshes_new_from_object host ob ;;
   let mesh := transform host (matrix_world ob) mesh in
   let bm := from_mesh host bm mesh in
   meshes_remove mesh ;;;
   ret bm)%run.

(** The body of [for i in frame_range(context.scene)]. *)
Definition sample_frame (objects : list (Object F)) (meshes : list (Mesh F)) (i : Z)
  : M (World F) (list (Mesh F)) :=
  (modify (set_frame_current i) ;;;
   bm <- foldM sample_object objects bmesh_new ;;
   mesh <- meshes_new host "mesh" ;;
   let bm := normal_update host bm in
   let mesh := to_mesh bm mesh in
   meshes_store mesh ;;;
   ret (meshes ++ [mesh]))%run.

Lemma get_per_frame_mesh_data_unfold (objects : list (Object F)) :
  get_per_frame_mesh_data host objects
  = (scene <- gets (fun w => w) ;;
     frames <- lift (frame_range scene) ;;
     foldM (sample_frame objects) frames [])%run.
Proof. reflexivity. Qed.

(** The evaluated geometry of the objects at frame [i], appended in order
    to [bm]. *)
Definition merged (objects : list (Object F)) (i : Z) (bm : BMesh F) : BMesh F :=
  fold_left (fun bm ob =>
               from_mesh host bm
                         (transform host (matrix_world ob) (evaluated_mesh host ob i)))
            objects bm.

(** The number of vertices the objects have at frame [i], modifiers
    applied. *)
Definition evaluated_vertex_count (objects : list (Object F)) (i : Z) : nat :=
  list_sum (map (fun ob => length (vertices (evaluated_mesh host ob i))) objects).

(** [m] is the merged mesh of frame [i]. *)
Definition sampled (objects : list (Object F)) (i : Z) (m : Mesh F) : Prop :=
  exists m0,
    users m0 = 0
    /\ m = to_mesh (normal_update host (merged objects i bmesh_new)) m0.

Lemma sample_objects_inr (objects : list (Object F)) :
  forall bm w,
  exists w',
    foldM sample_object objects bm w
    = (inr (merged objects (frame_current w) bm), w')
    /\ frame_current w' = frame_current w.
Proof.
  induction objects as [|ob objects IH]; intros bm w.
  - exists w. split; reflexivity.
  - cbn [foldM merged fold_left].
    assert (Hs : exists w1,
               sample_object bm ob w
               = (inr (from_mesh host bm
                         (transform host (matrix_world ob)
                                    (evaluated_mesh host ob (frame_current w)))), w1)
               /\ frame_current w1 = frame_current w).
    { unfold sample_object, meshes_new_from_object, meshes_add, meshes_remove,
        bind, gets, modify, ret.
      eexists. split; reflexivity. }
    destruct Hs as (w1 & Hs & Hf).
    rewrite (bind_step _ _ _ _ _ Hs).
    destruct (IH (from_mesh host bm
                    (transform host (matrix_world ob)
                               (evaluated_mesh host ob (frame_current w)))) w1)
      as (w' & E & Hf').
    exists w'. rewrite E, Hf. split; [reflexivity|congruence].
Qed.

Lemma sample_frame_inr (objects : list (Object F)) (acc : list (Mesh F)) (i : Z) w :
  exists m w',
    sample_frame objects acc i w = (inr (acc ++ [m]), w') /\ sampled objects i m.
Proof.
  unfold sample_frame.
  unfold bind at 1, modify at 1.
  destruct (sample_objects_inr objects bmesh_new (set_frame_current i w))
    as (w1 & E & _).
  rewrite (bind_step _ _ _ _ _ E). cbn [frame_current set_frame_current].
  unfold meshes_new, meshes_add, meshes_store, bind, modify, ret.
  eexists _, _. split; [reflexivity|].
  eexists. split; [|reflexivity]. reflexivity.
Qed.

Lemma sample_frames_inr (objects : list (Object F)) (frames : list Z) :
  forall acc w,
  exists ms w',
    foldM (sample_frame objects) frames acc w = (inr (acc ++ ms), w')
    /\ Forall2 (sampled objects) frames ms.
Proof.
  induction frames as [|i frames IH]; intros acc w.
  - exists [], w. cbn [foldM]. unfold ret. rewrite app_nil_r. auto.
  - cbn [foldM].
    destruct (sample_frame_inr objects acc i w) as (m & w1 & E & Hm).
    rewrite (bind_step _ _ _ _ _ E).
    destruct (IH (acc ++ [m]) w1) as (ms & w' & E' & Hms).
    exists (m :: ms), w'. rewrite E', <- app_assoc. auto.
Qed.

(** Sampling returns one merged mesh per frame, in frame order. *)
Lemma get_per_frame_mesh_data_inr (objects : list (Object F)) w frames :
  frame_range w = inr frames ->
  exists meshes w',
    get_per_frame_mesh_data host objects w = (inr meshes, w')
    /\ Forall2 (sampled objects) frames meshes.
Proof.
  intros Hf. rewrite get_per_frame_mesh_data_unfold.
  unfold bind at 1, gets at 1. unfold bind at 1, lift at 1. rewrite Hf.
  destruct (sample_frames_inr objects frames [] w) as (ms & w' & E & Hms).
  exists ms, w'. auto.
Qed.

Lemma get_per_frame_mesh_data_returns (objects : list (Object F)) w meshes w' :
  get_per_frame_mesh_data host objects w = (inr meshes, w') ->
  exists frames,
    frame_range w = inr frames /\ Forall2 (sampled objects) frames meshes.
Proof.
  intros E. destruct (frame_range w) as [e|frames] eqn:Hf.
  - rewrite get_per_frame_mesh_data_unfold in E.
    unfold bind at 1, gets at 1 in E. unfold bind at 1, lift at 1 in E.
    rewrite Hf in E. discriminate.
  - exists frames. split; [reflexivity|].
    destruct (get_per_frame_mesh_data_inr objects w frames Hf) as (ms & w1 & E1 & H).
    congruence.
Qed.

Lemma length_merged (objects : list (Object F)) (i : Z) :
  forall bm,
    length (bm_verts (merged objects i bm))
    = length (bm_verts bm) + evaluated_vertex_count objects i.
Proof.
  unfold evaluated_vertex_count.
  induction objects as [|ob objects IH]; intros bm.
  - simpl. lia.
  - change (merged (ob :: objects) i bm)
      with (merged objects i
              (from_mesh host bm
                 (transform host (matrix_world ob) (evaluated_mesh host ob i)))).
    rewrite IH.
    cbn [from_mesh bm_verts transform with_geometry vertices].
    rewrite length_app, !length_map. simpl. lia.
Qed.

Lemma sampled_vertex_count objects i m :
  sampled objects i m -> length (vertices m) = evaluated_vertex_count objects i.
Proof.
  intros (m0 & _ & ->).
  cbn [to_mesh with_geometry vertices normal_update bm_verts].
  rewrite !length_map, !length_enumerate, length_map, length_enumerate.
  now rewrite length_merged.
Qed.

Lemma sampled_well_indexed objects i m : sampled objects i m -> well_indexed m.
Proof.
  intros (m0 & _ & ->) k v.
  cbn [to_mesh with_geometry vertices].
  rewrite nth_error_map, nth_error_enumerate.
  destruct (nth_error _ k); simpl; intros E; inversion E. reflexivity.
Qed.

Lemma sampled_nothing i m :
  sampled [] i m -> vertices m = [] /\ loops m = [] /\ uv_layers m = [].
Proof. intros (m0 & _ & ->). repeat split. Qed.

(** With modifiers that keep every object's vertex count, every merged
    mesh has the base vertex count. *)
Lemma stable_vertex_count objects i :
  (forall ob, In ob objects ->
     length (vertices (evaluated_mesh host ob i)) = length (vertices (ob_data ob))) ->
  evaluated_vertex_count objects i = base_vertex_count objects.
Proof.
  unfold evaluated_vertex_count, base_vertex_count.
  induction objects as [|ob objects IH]; intros H; simpl; [reflexivity|].
  f_equal; [apply H; simpl; auto|].
  apply IH. intros; apply H; simpl; auto.
Qed.

(** ** What the steps can raise *)

(** [e] is not the error of [save_image_exr]. *)
Definition not_runtime (e : Exception) : Prop :=
  forall msg, e <> RuntimeError msg.

Lemma getitem_raises {A} (l : list A) i e : getitem l i = inl e -> not_runtime e.
Proof.
  unfold getitem. destruct (nth_error l i); intros E msg; inversion E; discriminate.
Qed.

Lemma frame_range_raises (w : World F) e : frame_range w = inl e -> not_runtime e.
Proof.
  unfold frame_range, range.
  destruct (frame_step w =? 0)%Z; intros E msg; inversion E; discriminate.
Qed.

Lemma fold_err_raises {A B} (body : B -> A -> Exception + B) (l : list A) :
  (forall b a e, body b a = inl e -> not_runtime e) ->
  forall b e, fold_err body l b = inl e -> not_runtime e.
Proof.
  intros Hb. induction l as [|a l IH]; intros b e E; cbn [fold_err] in E.
  - discriminate.
  - destruct (body b a) as [e1|b1] eqn:E1.
    + inversion E; subst. eapply Hb; eauto.
    + eapply IH; eauto.
Qed.

Lemma emit_vertex_raises original acc (v : MeshVertex F) e :
  emit_vertex original acc v = inl e -> not_runtime e.
Proof.
  unfold emit_vertex. destruct acc as [offsets normals].
  destruct (getitem original (index v)) as [e1|o] eqn:E1.
  - intros E; inversion E; subst. eapply getitem_raises; eauto.
  - destruct (vector_sub _ _) as [[x y] z]. destruct (normal v) as [[nx ny] nz].
    discriminate.
Qed.

Lemma write_uv_raises (me : Mesh F) loop e :
  write_uv me loop = inl e -> not_runtime e.
Proof.
  unfold write_uv, truediv_int, int_truediv.
  destruct (Z.of_nat (length (vertices me)) =? 0)%Z;
    [intros E msg; inversion E; discriminate|].
  destruct (getitem (uv_layers me) 1) as [e1|ly] eqn:E1.
  - intros E; inversion E; subst. eapply getitem_raises; eauto.
  - destruct (loop_index loop <? length (uv_data ly));
      intros E msg; inversion E; discriminate.
Qed.

Lemma unique_filepath_raises depth existing directory name e :
  unique_filepath host depth existing directory name = inl e -> e = RecursionError.
Proof.
  revert name; induction depth as [|depth IH]; intros name; cbn [unique_filepath].
  - intros E; now inversion E.
  - destruct (negb (existsb _ existing)); [discriminate|].
    destruct (match_numbered host name) as [[root n]|]; apply IH.
Qed.

Lemma sampling_raises objects :
  raises_only not_runtime (get_per_frame_mesh_data host objects).
Proof.
  unfold get_per_frame_mesh_data.
  apply raises_only_bind; [apply raises_only_gets|intros scene].
  apply raises_only_bind;
    [apply raises_only_lift; intros e; apply frame_range_raises|intros frames].
  apply raises_only_foldM; intros meshes i.
  apply raises_only_bind; [apply raises_only_modify|intros _].
  apply raises_only_bind.
  - apply raises_only_foldM; intros bm ob.
    apply raises_only_bind; [|intros mesh; cbv zeta].
    + intros w e w' E. discriminate E.
    + apply raises_only_bind; [apply raises_only_modify|intros _].
      apply raises_only_ret.
  - intros bm. apply raises_only_bind; [intros w e w' E; discriminate E|].
    intros mesh. cbv zeta.
    apply raises_only_bind; [apply raises_only_modify|intros _].
    apply raises_only_ret.
Qed.

Lemma mesh_copy_raises (E : Exception -> Prop) mesh :
  raises_only E (mesh_copy host mesh).
Proof. intros w e w' H. discriminate H. Qed.

Lemma create_export_mesh_object_raises me :
  raises_only not_runtime (create_export_mesh_object host me).
Proof.
  unfold create_export_mesh_object. cbv zeta.
  apply raises_only_bind; [apply raises_only_modify|intros _].
  apply raises_only_bind;
    [apply raises_only_lift; intros e; apply getitem_raises|intros _].
  apply raises_only_bind; [apply raises_only_modify|intros _].
  apply raises_only_bind.
  - apply raises_only_foldM; intros m loop.
    apply raises_only_bind;
      [apply raises_only_lift; intros e; apply write_uv_raises|intros m'].
    apply raises_only_bind; [apply raises_only_modify|intros _].
    apply raises_only_ret.
  - intros m. apply raises_only_bind.
    + unfold objects_new.
      apply raises_only_bind; [apply raises_only_modify|intros _].
      apply raises_only_bind; [apply raises_only_gets|intros w0].
      apply raises_only_bind; [apply raises_only_modify|intros _].
      apply raises_only_ret.
    + intros ob. apply raises_only_bind; [apply raises_only_modify|intros _].
      apply raises_only_ret.
Qed.

Lemma get_vertex_data_raises meshes :
  raises_only not_runtime (get_vertex_data (F := F) meshes).
Proof.
  unfold get_vertex_data.
  apply raises_only_bind.
  - apply raises_only_lift. intros e.
    destruct (getitem meshes 0) as [e1|m] eqn:E1; intros E; inversion E; subst.
    eapply getitem_raises; eauto.
  - intros original. apply raises_only_foldM; intros acc mesh.
    apply raises_only_bind.
    + apply raises_only_lift. intros e. apply fold_err_raises.
      intros b a e'. apply emit_vertex_raises.
    + intros acc'. apply raises_only_bind; [|intros _; apply raises_only_ret].
      destruct (users mesh =? 0); [apply raises_only_modify|apply raises_only_ret].
Qed.

Lemma images_new_raises name width height alpha float_buffer :
  raises_only not_runtime (images_new host name width height alpha float_buffer).
Proof.
  intros w e w' E. unfold images_new in E.
  destruct ((width <? 1) || (height <? 1)); inversion E. discriminate.
Qed.

Lemma set_pixels_raises (image : Image F) values :
  raises_only not_runtime (set_pixels image values).
Proof.
  unfold set_pixels.
  destruct (length values =? 4 * width image * height image).
  - apply raises_only_bind; [apply raises_only_modify|intros _; apply raises_only_ret].
  - apply raises_only_raise. discriminate.
Qed.

Lemma bake_vertex_data_raises offsets normals size :
  raises_only not_runtime (bake_vertex_data host offsets normals size).
Proof.
  unfold bake_vertex_data. destruct size as [width height].
  apply raises_only_bind.
  - apply raises_only_lift. intros e E.
    destruct (normalize_offsets_inr offsets) as (ys & E' & _). congruence.
  - intros ys.
    apply raises_only_bind; [apply images_new_raises|intros t1].
    apply raises_only_bind; [apply images_new_raises|intros t2].
    apply raises_only_bind; [apply set_pixels_raises|intros t1'].
    apply raises_only_bind; [apply set_pixels_raises|intros t2'].
    apply raises_only_ret.
Qed.

(** ** What the steps leave behind *)

(** [create_export_mesh_object] adds the object it returns to [bpy.data]
    and to the scene. *)
Lemma create_export_mesh_object_objects me w ob w' :
  create_export_mesh_object host me w = (inr ob, w') ->
  objects w' = objects w ++ [ob]
  /\ collection_objects w' = collection_objects w ++ [ob].
Proof.
  intros E. rewrite create_export_mesh_object_unfold in E. cbv zeta in E.
  apply bind_inr in E as (u1 & w1 & E1 & E).
  apply bind_inr in E as (u2 & w2 & E2 & E).
  apply bind_inr in E as (u3 & w3 & E3 & E).
  apply bind_inr in E as (me3 & w4 & E4 & E).
  apply bind_inr in E as (ob' & w5 & E5 & E).
  apply bind_inr in E as (u6 & w6 & E6 & E).
  inversion E; subst ob' w6; clear E.
  assert (H4 : objects w4 = objects w /\ collection_objects w4 = collection_objects w).
  { assert (P1 : preserves (fun x => objects x = objects w
                                      /\ collection_objects x = collection_objects w)
                           (meshes_store (ensure_two_uv_layers host me))).
    { unfold meshes_store. apply preserves_modify. intros; assumption. }
    assert (P3 : preserves (fun x => objects x = objects w
                                      /\ collection_objects x = collection_objects w)
                           (meshes_store
                              (rename_uv_layer_1 host (ensure_two_uv_layers host me)
                                                 "vertex_anim"))).
    { unfold meshes_store. apply preserves_modify. intros; assumption. }
    assert (P4 : forall l m,
               preserves (fun x => objects x = objects w
                                   /\ collection_objects x = collection_objects w)
                         (foldM uv_body l m)).
    { intros l m. apply preserves_foldM. intros b a. unfold uv_body.
      apply preserves_bind; [apply preserves_lift|intros b'].
      apply preserves_bind; [|intros; apply preserves_ret].
      unfold meshes_store. apply preserves_modify. intros; assumption. }
    inversion E2; subst w2.
    eapply P4; [exact E4|]. eapply P3; [exact E3|]. eapply P1; [exact E1|]. auto. }
  destruct H4 as [Ho Hc].
  unfold objects_new, bind, meshes_store, modify, gets, ret in E5.
  inversion E5; subst ob w5; clear E5.
  unfold modify in E6. inversion E6; subst w'; clear E6.
  cbn [objects collection_objects set_objects set_collection_objects set_meshes].
  rewrite Ho, Hc. split; reflexivity.
Qed.

(** [bake_vertex_data] returns two textures, both new in [bpy.data]. *)
Lemma bake_vertex_data_images offsets normals size w textures w' :
  bake_vertex_data host offsets normals size w = (inr textures, w') ->
  (exists t1 t2, textures = [t1; t2])
  /\ length (images w') = 2 + length (images w).
Proof.
  unfold bake_vertex_data. destruct size as [columns rows]. intros E.
  apply bind_inr in E as (ys & w1 & E1 & E).
  apply bind_inr in E as (t1 & w2 & E2 & E).
  apply bind_inr in E as (t2 & w3 & E3 & E).
  apply bind_inr in E as (t1' & w4 & E4 & E).
  apply bind_inr in E as (t2' & w5 & E5 & E).
  inversion E; subst textures w5; clear E.
  split; [eauto|].
  inversion E1; subst w1.
  assert (Hnew : forall name alpha float_buffer x t y,
             images_new host name columns rows alpha float_buffer x = (inr t, y) ->
             length (images y) = S (length (images x))).
  { intros name a fb x t y H. unfold images_new in H.
    destruct ((columns <? 1) || (rows <? 1)); inversion H; subst.
    cbn [images set_next_id set_images]. rewrite length_app. simpl. lia. }
  assert (Hset : forall (image : Image F) values x t y,
             set_pixels image values x = (inr t, y) ->
             length (images y) = length (images x)).
  { intros image values x t y H. unfold set_pixels in H.
    destruct (length values =? 4 * width image * height image);
      [|discriminate].
    unfold bind, images_store, modify, ret in H. inversion H; subst.
    cbn [images set_images]. apply length_map. }
  rewrite (Hset _ _ _ _ _ E5), (Hset _ _ _ _ _ E4),
    (Hnew _ _ _ _ _ _ E3), (Hnew _ _ _ _ _ _ E2).
  reflexivity.
Qed.

(** [save_image_exr] raises its [RuntimeError] before it changes anything,
    and only without a save target. *)
Lemma save_image_exr_runtime image w msg w' :
  save_image_exr host image w = (inl (RuntimeError msg), w') ->
  filepath w = ""%string /\ msg = not_saved_message /\ w' = w.
Proof.
  unfold save_image_exr. unfold bind at 1, gets at 1.
  destruct (String.eqb_spec (filepath w) "") as [Hp|Hp].
  - unfold raise. intros E. inversion E; subst. auto.
  - unfold bind at 1, gets at 1. unfold bind at 1, lift at 1.
    destruct (unique_filepath host recursion_limit (files w)
                (dirname host (filepath w)) (fst (splitext host (image_name image))))
      as [e|[final_name path]] eqn:Eu.
    + intros E. inversion E; subst.
      apply unique_filepath_raises in Eu. discriminate.
    + unfold bind, images_store, modify. discriminate.
Qed.

Lemma save_image_exr_inr image w u w' :
  save_image_exr host image w = (inr u, w') ->
  filepath w <> ""%string /\ filepath w' = filepath w.
Proof.
  unfold save_image_exr. unfold bind at 1, gets at 1.
  destruct (String.eqb_spec (filepath w) "") as [Hp|Hp]; [discriminate|].
  unfold bind at 1, gets at 1. unfold bind at 1, lift at 1.
  destruct (unique_filepath host recursion_limit (files w)
              (dirname host (filepath w)) (fst (splitext host (image_name image))))
    as [e|[final_name path]]; [discriminate|].
  unfold bind, images_store, modify. intros E. inversion E. auto.
Qed.

(** Three views of a world [x] against an earlier world [w0]. *)
Definition same_scene (w0 x : World F) : Prop :=
  objects x = objects w0 /\ collection_objects x = collection_objects w0.

Definition same_images (w0 x : World F) : Prop :=
  images x = images w0.

Definition same_files (w0 x : World F) : Prop :=
  files x = files w0 /\ filepath x = filepath w0 /\ reports x = reports w0.

Lemma sampling_keeps (w0 : World F) objects :
  preserves (fun x => same_scene w0 x /\ same_images w0 x /\ same_files w0 x)
            (get_per_frame_mesh_data host objects).
Proof. unfold same_scene, same_images, same_files. frame. Qed.

Lemma mesh_copy_keeps (w0 : World F) mesh :
  preserves (fun x => same_scene w0 x /\ same_images w0 x /\ same_files w0 x)
            (mesh_copy host mesh).
Proof. unfold same_scene, same_images, same_files. frame. Qed.

Lemma create_export_mesh_object_keeps (w0 : World F) me :
  preserves (fun x => same_images w0 x /\ same_files w0 x)
            (create_export_mesh_object host me).
Proof. unfold same_images, same_files. frame. Qed.

Lemma get_vertex_data_keeps (w0 : World F) meshes :
  preserves (fun x => same_scene w0 x /\ same_images w0 x /\ same_files w0 x)
            (get_vertex_data meshes).
Proof. unfold same_scene, same_images, same_files. frame. Qed.

Lemma bake_vertex_data_keeps (w0 : World F) offsets normals size :
  preserves (fun x => same_scene w0 x /\ same_files w0 x)
            (bake_vertex_data host offsets normals size).
Proof. unfold same_scene, same_files. frame. Qed.

(** After the export mesh, nothing touches the objects. *)
Lemma after_export_mesh_keeps (w0 : World F) meshes vertex_count frame_count :
  preserves (same_scene w0)
    (vertex_data <- get_vertex_data meshes ;;
     let '(offsets, normals) := vertex_data in
     let texture_size := (vertex_count, frame_count) in
     textures <- bake_vertex_data host offsets normals texture_size ;;
     match textures with
     | [offsets_texture; normals_texture] =>
         save_image_exr host offsets_texture ;;;
         save_image_exr host normals_texture ;;;
         ret FINISHED
     | _ => raise ValueError
     end)%run.
Proof. unfold same_scene. frame. Qed.

(** ** The checks of [execute] *)

(** C7: with allowed modifiers and metric units, an invocation whose
    vertex count and frame count are both at most 8192 passes the limit
    checks: [execute] runs the pipeline, does not cancel and reports
    nothing.  A vertex count above 8192, or a frame count above 8192,
    makes [execute] return [CANCELLED] with the limit report, in a world
    that is otherwise the one it started in: the frame was not set, no
    mesh, object, image or file was created. *)
Theorem limit_validation (w : World F) (frames : list Z) :
  frame_range w = inr frames ->
  first_disallowed_modifier (selected_meshes w) = None ->
  units_ok w = true ->
  let vertex_count := base_vertex_count (selected_meshes w) in
  let frame_count := length frames in
  ((Z.of_nat vertex_count <= 8192)%Z -> (Z.of_nat frame_count <= 8192)%Z ->
   execute host w = pipeline (selected_meshes w) vertex_count frame_count w
   /\ forall r w', execute host w = (r, w') ->
                   r <> inr CANCELLED /\ reports w' = reports w)
  /\ ((8192 < Z.of_nat vertex_count)%Z ->
      execute host w
      = (inr CANCELLED,
         set_reports (reports w ++ [vertex_count_exceeds_limit vertex_count]) w))
  /\ ((Z.of_nat vertex_count <= 8192)%Z -> (8192 < Z.of_nat frame_count)%Z ->
      execute host w
      = (inr CANCELLED,
         set_reports (reports w ++ [frame_count_exceeds_limit frame_count]) w)).
Proof.
  intros Hf Hm Hu vertex_count frame_count.
  rewrite execute_unfold, Hf. cbv zeta. rewrite Hm, Hu.
  fold vertex_count. fold frame_count. cbn [negb].
  split; [|split].
  - intros Hv Hc.
    apply Z.ltb_ge in Hv. apply Z.ltb_ge in Hc. rewrite Hv, Hc.
    split; [reflexivity|]. intros r w' E. split.
    + intros ->. apply pipeline_returns in E. discriminate.
    + exact (pipeline_reports _ _ _ (reports w) _ _ _ E eq_refl).
  - intros Hv. apply Z.ltb_lt in Hv. now rewrite Hv.
  - intros Hv Hc. apply Z.ltb_ge in Hv. apply Z.ltb_lt in Hc. now rewrite Hv, Hc.
Qed.

(** C8, amended: [execute] has no check for an empty selection or an
    empty frame range.  With no selected mesh object (vertex count 0),
    valid units and at most 8192 frames, it neither cancels nor reports:
    over an empty frame range it raises [IndexError] at [meshes[0]]; over
    a non-empty one it samples the frames and adds an export object
    without vertices to [bpy.data] before any texture is made. *)
Theorem no_degenerate_validation (w : World F) (frames : list Z) :
  frame_range w = inr frames ->
  selected_meshes w = [] ->
  units_ok w = true ->
  (Z.of_nat (length frames) <= 8192)%Z ->
  (frames = [] -> execute host w = (inl IndexError, w))
  /\ (frames <> [] ->
      exists r w' ob,
        execute host w = (r, w')
        /\ r <> inr CANCELLED
        /\ reports w' = reports w
        /\ objects w' = objects w ++ [ob]
        /\ vertices (ob_data ob) = []).
Proof.
  intros Hf Hsel Hu Hc.
  assert (Hexec : execute host w = pipeline [] 0 (length frames) w).
  { rewrite execute_unfold, Hf. cbv zeta. rewrite Hsel.
    change (first_disallowed_modifier []) with (@None string).
    rewrite Hu. cbn [negb]. change (base_vertex_count []) with 0.
    apply Z.ltb_ge in Hc. rewrite Hc. reflexivity. }
  destruct (get_per_frame_mesh_data_inr [] w frames Hf) as (meshes & w1 & E1 & Hs).
  split.
  - intros ->. rewrite Hexec. unfold pipeline.
    rewrite get_per_frame_mesh_data_unfold.
    unfold bind, gets, lift. cbv beta iota. rewrite Hf.
    reflexivity.
  - intros Hne. rewrite Hexec.
    destruct (pipeline [] 0 (length frames) w) as [r w'] eqn:Ep.
    destruct Hs as [|i first frames' rest Hfirst Hrest]; [congruence|].
    destruct (sampled_nothing i first Hfirst) as (Hv & Hl & Huv).
    unfold pipeline in Ep. rewrite (bind_step _ _ _ _ _ E1) in Ep.
    unfold bind at 1, lift at 1, getitem at 1 in Ep. cbn [nth_error] in Ep.
    destruct (mesh_copy host first w1) as [c w2] eqn:E2.
    assert (Hc2 : exists copy,
               c = inr copy /\ vertices copy = [] /\ loops copy = []
               /\ uv_layers copy = []).
    { unfold mesh_copy, meshes_add in E2. inversion E2; subst.
      eexists. split; [reflexivity|]. cbn. auto. }
    destruct Hc2 as (copy & -> & Cv & Cl & Cuv).
    rewrite (bind_step _ _ _ _ _ E2) in Ep.
    destruct (create_export_mesh_object_inr host copy w2)
      as (ob & w3 & ly & E3 & Ov & _).
    { intros k l Hk. rewrite Cl in Hk. destruct k; discriminate. }
    { intros l Hl'. rewrite Cuv in Hl'. contradiction. }
    { intros l Hl'. rewrite Cl in Hl'. contradiction. }
    rewrite (bind_step _ _ _ _ _ E3) in Ep.
    exists r, w', ob.
    split; [reflexivity|]. split; [|split; [|split]].
    + intros ->.
      assert (Hp : pipeline [] 0 (length (i :: frames')) w = (inr CANCELLED, w')).
      { unfold pipeline. rewrite (bind_step _ _ _ _ _ E1).
        unfold bind at 1, lift at 1, getitem at 1. cbn [nth_error].
        rewrite (bind_step _ _ _ _ _ E2), (bind_step _ _ _ _ _ E3). exact Ep. }
      apply pipeline_returns in Hp. discriminate.
    + destruct (create_export_mesh_object_keeps w2 copy _ _ _ E3)
        as (_ & _ & _ & R3); [repeat split|].
      destruct (mesh_copy_keeps w1 first _ _ _ E2)
        as (_ & _ & _ & _ & R2); [repeat split|].
      destruct (sampling_keeps w [] _ _ _ E1)
        as (_ & _ & _ & _ & R1); [repeat split|].
      assert (R4 : reports w' = reports w3).
      { match type of Ep with
        | ?m w3 = _ =>
            assert (P : preserves (fun x => reports x = reports w3) m) by frame
        end.
        exact (P _ _ _ Ep eq_refl). }
      congruence.
    + destruct (create_export_mesh_object_objects _ _ _ _ E3) as [O3 _].
      destruct (mesh_copy_keeps w1 first _ _ _ E2)
        as ((O2 & _) & _); [repeat split|].
      destruct (sampling_keeps w [] _ _ _ E1)
        as ((O1 & _) & _); [repeat split|].
      destruct (after_export_mesh_keeps w3 (first :: rest) 0
                  (length (i :: frames')) _ _ _ Ep) as [O4 _]; [split; reflexivity|].
      congruence.
    + congruence.
Qed.

(** C9, amended: the modifier, unit and limit errors are found before
    sampling and leave no output: when [execute] returns [CANCELLED] the
    world is the initial one with one more report.  The missing save
    target is found last, by [save_image_exr]: when [execute] raises that
    error, the file was never saved ([bpy.data.filepath] is empty), the
    export object is already in [bpy.data] and linked to the scene and
    both textures are already in [bpy.data]; only no file is written. *)
Theorem failures_and_outputs (w : World F) :
  (forall w',
      execute host w = (inr CANCELLED, w') ->
      exists r, w' = set_reports (reports w ++ [r]) w)
  /\ (forall msg w',
         execute host w = (inl (RuntimeError msg), w') ->
         filepath w = ""%string
         /\ msg = not_saved_message
         /\ (exists ob,
                objects w' = objects w ++ [ob]
                /\ collection_objects w' = collection_objects w ++ [ob])
         /\ length (images w') = 2 + length (images w)
         /\ files w' = files w).
Proof.
  split.
  - intros w' E. rewrite execute_unfold in E.
    destruct (frame_range w) as [e|frames]; [discriminate|]. cbv zeta in E.
    destruct (first_disallowed_modifier (selected_meshes w));
      [inversion E; eauto|].
    destruct (negb (units_ok w)); [inversion E; eauto|].
    destruct (8192 <? Z.of_nat (base_vertex_count (selected_meshes w)))%Z;
      [inversion E; eauto|].
    destruct (8192 <? Z.of_nat (length frames))%Z; [inversion E; eauto|].
    apply pipeline_returns in E. discriminate.
  - intros msg w' E. rewrite execute_unfold in E.
    destruct (frame_range w) as [e|frames] eqn:Hf.
    { exfalso. injection E as -> _. exact (frame_range_raises w _ Hf msg eq_refl). }
    cbv zeta in E.
    destruct (first_disallowed_modifier (selected_meshes w)); [discriminate|].
    destruct (negb (units_ok w)); [discriminate|].
    destruct (8192 <? Z.of_nat (base_vertex_count (selected_meshes w)))%Z;
      [discriminate|].
    destruct (8192 <? Z.of_nat (length frames))%Z; [discriminate|].
    unfold pipeline in E.
    apply bind_inl in E as [E|(meshes & w1 & E1 & E)].
    { exfalso. exact (sampling_raises _ _ _ _ E msg eq_refl). }
    apply bind_inl in E as [E|(first & w2 & E2 & E)].
    { exfalso. unfold lift in E. inversion E as [[E' Hw]].
      exact (getitem_raises _ _ _ E' msg eq_refl). }
    apply bind_inl in E as [E|(copy & w3 & E3 & E)].
    { exfalso. exact (mesh_copy_raises not_runtime _ _ _ _ E msg eq_refl). }
    apply bind_inl in E as [E|(ob & w4 & E4 & E)].
    { exfalso. exact (create_export_mesh_object_raises _ _ _ _ E msg eq_refl). }
    apply bind_inl in E as [E|([offsets normals] & w5 & E5 & E)].
    { exfalso. exact (get_vertex_data_raises _ _ _ _ E msg eq_refl). }
    cbv zeta in E.
    apply bind_inl in E as [E|(textures & w6 & E6 & E)].
    { exfalso. exact (bake_vertex_data_raises _ _ _ _ _ _ E msg eq_refl). }
    destruct (bake_vertex_data_images _ _ _ _ _ _ E6) as ((t1 & t2 & ->) & Himg).
    assert (Hlast : filepath w6 = ""%string /\ msg = not_saved_message /\ w' = w6).
    { apply bind_inl in E as [E|(u1 & w7 & E7 & E)].
      - exact (save_image_exr_runtime _ _ _ _ E).
      - exfalso. destruct (save_image_exr_inr _ _ _ _ E7) as [Hp Hp'].
        apply bind_inl in E as [E|(u2 & w8 & E8 & E)]; [|discriminate E].
        destruct (save_image_exr_runtime _ _ _ _ E) as (Hq & _). congruence. }
    destruct Hlast as (Hp & -> & ->).
    inversion E2; subst w2.
    destruct (sampling_keeps w _ _ _ _ E1)
      as ((O1 & C1) & I1 & F1 & P1 & _); [repeat split|].
    destruct (mesh_copy_keeps w1 _ _ _ _ E3)
      as ((O3 & C3) & I3 & F3 & P3 & _); [repeat split|].
    destruct (create_export_mesh_object_objects _ _ _ _ E4) as [O4 C4].
    destruct (create_export_mesh_object_keeps w3 _ _ _ _ E4)
      as (I4 & F4 & P4 & _); [repeat split|].
    destruct (get_vertex_data_keeps w4 _ _ _ _ E5)
      as ((O5 & C5) & I5 & F5 & P5 & _); [repeat split|].
    destruct (bake_vertex_data_keeps w5 _ _ _ _ _ _ E6)
      as ((O6 & C6) & F6 & P6 & _); [repeat split|].
    unfold same_images in *.
    split; [congruence|]. split; [reflexivity|]. split; [|split].
    + exists ob. split; congruence.
    + rewrite Himg. congruence.
    + congruence.
Qed.

(** ** Texture size against buffer size *)

(** Row [row] of a flat buffer of [width] pixels a row. *)
Definition row_of (width row : nat) (l : list F) : list F :=
  firstn (4 * width) (skipn (4 * width * row) l).

(** The two buffers fill a texture of [width] by [len(meshes)] pixels, and
    row [row] holds the mesh that is [row] places from the end. *)
Definition texture_layout (width : nat) (meshes : list (Mesh F))
           (offsets normals : list F) : Prop :=
  length offsets = 4 * width * length meshes
  /\ length normals = 4 * width * length meshes
  /\ forall row first mesh,
      nth_error meshes 0 = Some first ->
      nth_error (rev meshes) row = Some mesh ->
      row_of width row offsets = offset_row (vertices first) mesh
      /\ row_of width row normals = normal_row mesh.

Lemma texture_layout_iff (width : nat) (meshes : list (Mesh F)) w offsets normals w' :
  get_vertex_data meshes w = (inr (offsets, normals), w') ->
  texture_layout width meshes offsets normals
  <-> Forall (fun m => length (vertices m) = width) meshes.
Proof.
  intros E.
  apply get_vertex_data_returns in E as (first & rest & Hm & _ & Ho & Hn).
  split.
  - intros (Hlo & _ & Hrows). apply Forall_forall. intros m Hin.
    apply in_rev in Hin. apply In_nth_error in Hin as [row Hrow].
    assert (Hlt : row < length meshes).
    { rewrite <- length_rev. apply nth_error_Some. congruence. }
    destruct (Hrows row first m) as [Hr _]; [now rewrite Hm|exact Hrow|].
    apply (f_equal (@length F)) in Hr.
    unfold row_of in Hr.
    rewrite length_firstn, length_skipn, length_offset_row, Hlo in Hr.
    assert (Hle : 4 * width * row + 4 * width <= 4 * width * length meshes).
    { rewrite <- Nat.mul_succ_r. apply Nat.mul_le_mono_l. lia. }
    lia.
  - intros Hall. rewrite Forall_forall in Hall.
    assert (Hrev : forall m, In m (rev meshes) -> length (vertices m) = width).
    { intros m Hin. apply Hall. now apply in_rev. }
    split; [|split].
    + rewrite Ho, (length_flat_map_const _ (4 * width)), length_rev; [reflexivity|].
      intros m Hin. now rewrite length_offset_row, (Hrev m Hin).
    + rewrite Hn, (length_flat_map_const _ (4 * width)), length_rev; [reflexivity|].
      intros m Hin. now rewrite length_normal_row, (Hrev m Hin).
    + intros row first' mesh Hfirst Hrow.
      assert (first' = first) as -> by (rewrite Hm in Hfirst; simpl in Hfirst; congruence).
      unfold row_of. rewrite Ho, Hn. split.
      * apply block_of_flat_map; [|exact Hrow].
        intros m Hin. now rewrite length_offset_row, (Hrev m Hin).
      * apply block_of_flat_map; [|exact Hrow].
        intros m Hin. now rewrite length_normal_row, (Hrev m Hin).
Qed.

(** C10: [execute] takes the texture width from the base meshes
    ([base_vertex_count]) and the buffers from the sampled meshes.  Every
    sampled mesh has as many vertices as the selected objects have at
    its frame with their modifiers applied; so if the modifiers keep
    every object's vertex count, every sampled mesh has [width]
    vertices.  When every sampled mesh has [width] vertices,
    [get_vertex_data] returns buffers that fill a [width] by
    [frame_count] texture row by row; and whenever it returns, its
    buffers fill that texture if and only if every sampled mesh has
    exactly [width] vertices. *)
Theorem texture_width_needs_stable_vertex_counts
        (objects : list (Object F)) (w w1 : World F) (meshes : list (Mesh F)) :
  get_per_frame_mesh_data host objects w = (inr meshes, w1) ->
  let width := base_vertex_count objects in
  exists frames,
    frame_range w = inr frames
    /\ length meshes = length frames
    /\ Forall2 (fun i m => length (vertices m) = evaluated_vertex_count objects i)
               frames meshes
    /\ ((forall ob i, In ob objects -> In i frames ->
           length (vertices (evaluated_mesh host ob i))
           = length (vertices (ob_data ob))) ->
        Forall (fun m => length (vertices m) = width) meshes)
    /\ (Forall (fun m => length (vertices m) = width) meshes ->
        meshes <> [] ->
        forall w2,
        exists offsets normals w3,
          get_vertex_data meshes w2 = (inr (offsets, normals), w3)
          /\ texture_layout width meshes offsets normals)
    /\ forall w2 offsets normals w3,
        get_vertex_data meshes w2 = (inr (offsets, normals), w3) ->
        (texture_layout width meshes offsets normals
         <-> Forall (fun m => length (vertices m) = width) meshes).
Proof.
  intros E width.
  destruct (get_per_frame_mesh_data_returns objects w meshes w1 E) as (frames & Hf & Hs).
  exists frames. split; [exact Hf|].
  split; [symmetry; eapply Forall2_length; eauto|].
  assert (Hcount : Forall2 (fun i m => length (vertices m)
                                       = evaluated_vertex_count objects i)
                           frames meshes).
  { clear E Hf. induction Hs as [|i m frames meshes Hm _ IH]; constructor; auto.
    now apply sampled_vertex_count. }
  assert (Hwi : Forall well_indexed meshes).
  { clear E Hf Hcount. induction Hs as [|i m frames meshes Hm _ IH]; constructor; auto.
    now apply (sampled_well_indexed objects i). }
  split; [exact Hcount|]. split; [|split].
  - intros Hstable. clear E Hf Hs Hwi.
    induction Hcount as [|i m frames meshes Hm _ IH]; constructor.
    + rewrite Hm. apply stable_vertex_count.
      intros ob Hob. apply Hstable; simpl; auto.
    + apply IH. intros ob j Hob Hj. apply Hstable; simpl; auto.
  - intros Hall Hne w2. destruct meshes as [|first rest]; [congruence|].
    assert (Hvalid : Forall (fun m => well_indexed m /\ length (vertices m) = width)
                            (first :: rest)).
    { rewrite Forall_forall in *. intros m Hm. split; auto. }
    assert (Hfirst : length (vertices first) = width).
    { inversion Hall; assumption. }
    destruct (get_vertex_data_inr first rest w2
                (well_indexed_within width _ first Hvalid Hfirst)) as [w3 E3].
    eexists _, _, w3. split; [exact E3|].
    apply (texture_layout_iff width (first :: rest) w2 _ _ w3 E3). exact Hall.
  - intros w2 offsets normals w3 E2.
    exact (texture_layout_iff width meshes w2 offsets normals w3 E2).
Qed.

End Operator.

(* ================================================================== *)
(** * The order of binary64, from the specification of the primitives *)
(* ================================================================== *)

Module Binary64Order.

(** Where a float that is not a NaN stands in the order: the class first
    (minus infinity, negative, zero, positive, plus infinity), then the
    exponent, then the mantissa, both counted downwards on the negative
    side. *)
Definition key (x : spec_float) : Z * Z * Z :=
  match x with
  | S754_nan => (0, 0, 0)
  | S754_zero _ => (0, 0, 0)
  | S754_infinity true => (-2, 0, 0)
  | S754_infinity false => (2, 0, 0)
  | S754_finite true m e => (-1, - e, Zneg m)
  | S754_finite false m e => (1, e, Zpos m)
  end%Z.

Definition lex (a b : Z * Z * Z) : comparison :=
  match (fst (fst a) ?= fst (fst b))%Z with
  | Eq => match (snd (fst a) ?= snd (fst b))%Z with
          | Eq => (snd a ?= snd b)%Z
          | c => c
          end
  | c => c
  end.

Lemma SFcompare_key (x y : spec_float) :
  x <> S754_nan -> y <> S754_nan ->
  SFcompare x y = Some (lex (key x) (key y)).
Proof.
  intros Hx Hy.
  destruct x as [sx|sx| |sx mx ex], y as [sy|sy| |sy my ey];
    try congruence; try destruct sx; try destruct sy; try reflexivity;
    unfold SFcompare, key, lex; cbn [fst snd].
  change (-1 ?= -1)%Z with Eq. cbv iota.
  rewrite Z.compare_opp, (Z.compare_antisym ex ey).
  destruct (ex ?= ey)%Z; reflexivity.
Qed.

Lemma lex_antisym (a b : Z * Z * Z) : lex b a = CompOpp (lex a b).
Proof.
  unfold lex.
  rewrite (Z.compare_antisym (fst (fst a)) (fst (fst b))),
    (Z.compare_antisym (snd (fst a)) (snd (fst b))),
    (Z.compare_antisym (snd a) (snd b)).
  destruct (fst (fst a) ?= fst (fst b))%Z; cbn [CompOpp]; try reflexivity.
  destruct (snd (fst a) ?= snd (fst b))%Z; reflexivity.
Qed.

(** [lex a b] is not [Gt]. *)
Definition lexle (a b : Z * Z * Z) : Prop :=
  (fst (fst a) < fst (fst b))%Z
  \/ (fst (fst a) = fst (fst b)
      /\ ((snd (fst a) < snd (fst b))%Z
          \/ (snd (fst a) = snd (fst b) /\ (snd a <= snd b)%Z))).

Lemma lex_lexle (a b : Z * Z * Z) : lex a b <> Gt <-> lexle a b.
Proof.
  unfold lex, lexle.
  destruct (Z.compare_spec (fst (fst a)) (fst (fst b)));
    destruct (Z.compare_spec (snd (fst a)) (snd (fst b)));
    destruct (Z.compare_spec (snd a) (snd b));
    split; intros; try congruence; try lia.
Qed.

Lemma lexle_trans (a b c : Z * Z * Z) : lexle a b -> lexle b c -> lexle a c.
Proof. unfold lexle. lia. Qed.

Lemma lexle_refl (a : Z * Z * Z) : lexle a a.
Proof. unfold lexle. lia. Qed.

(** ** Floats *)

Lemma Prim2SF_nan (x : float) : is_nan x = false <-> Prim2SF x <> S754_nan.
Proof.
  unfold Prim2SF. destruct (is_nan x).
  - split; [discriminate|congruence].
  - split; [|reflexivity]. intros _.
    destruct (is_zero x); [discriminate|].
    destruct (is_infinity x); [discriminate|].
    destruct (Z.frexp x) as [r e].
    destruct (shr_fexp _ _ _ _ _) as [s e'].
    destruct (shr_m s); discriminate.
Qed.

Lemma leb_lexle (x y : float) :
  PrimFloat.leb x y = true
  <-> is_nan x = false /\ is_nan y = false
      /\ lexle (key (Prim2SF x)) (key (Prim2SF y)).
Proof.
  rewrite leb_spec, !Prim2SF_nan. unfold SFleb.
  destruct (Prim2SF x) as [sx|sx| |sx mx ex] eqn:Ex;
    try (split; [discriminate|intros (H & _); congruence]);
    destruct (Prim2SF y) as [sy|sy| |sy my ey] eqn:Ey;
    try (split; [destruct sx; discriminate|intros (_ & H & _); congruence]);
    (rewrite SFcompare_key by discriminate;
     rewrite <- lex_lexle;
     destruct (lex _ _); split;
     [ intros; repeat split; discriminate
     | reflexivity
     | intros; repeat split; discriminate
     | reflexivity
     | discriminate
     | intros (_ & _ & H); congruence ]).
Qed.

Lemma leb_refl (x : float) : is_nan x = false -> PrimFloat.leb x x = true.
Proof. intros H. apply leb_lexle. auto using lexle_refl. Qed.

Lemma leb_trans (x y z : float) :
  PrimFloat.leb x y = true -> PrimFloat.leb y z = true -> PrimFloat.leb x z = true.
Proof.
  rewrite !leb_lexle. intros (Hx & _ & H1) (_ & Hz & H2).
  eauto using lexle_trans.
Qed.

Lemma leb_nan (x y : float) :
  PrimFloat.leb x y = true -> is_nan x = false /\ is_nan y = false.
Proof. rewrite leb_lexle. tauto. Qed.

(** Of two floats that are not NaN, the one that is not below the other is
    at least the other. *)
Lemma ltb_false_leb (x y : float) :
  is_nan x = false -> is_nan y = false ->
  PrimFloat.ltb x y = false -> PrimFloat.leb y x = true.
Proof.
  intros Hx Hy H. apply leb_lexle. repeat split; auto.
  apply lex_lexle. rewrite lex_antisym.
  rewrite ltb_spec in H. unfold SFltb in H.
  apply Prim2SF_nan in Hx. apply Prim2SF_nan in Hy.
  rewrite (SFcompare_key _ _ Hx Hy) in H.
  destruct (lex (key (Prim2SF x)) (key (Prim2SF y))); cbn; congruence.
Qed.

Lemma ltb_true_leb (x y : float) :
  PrimFloat.ltb x y = true -> PrimFloat.leb x y = true.
Proof.
  rewrite ltb_spec, leb_spec. unfold SFltb, SFleb.
  destruct (SFcompare _ _) as [[]|]; congruence.
Qed.

(** ** [min], [max] and the two scans *)

Definition is_least (m : float) (l : list float) : Prop :=
  In m l /\ forall x, In x l -> PrimFloat.leb m x = true.

Definition is_greatest (m : float) (l : list float) : Prop :=
  In m l /\ forall x, In x l -> PrimFloat.leb x m = true.

Lemma py_min_leb (x lo : float) :
  is_nan x = false -> is_nan lo = false ->
  PrimFloat.leb (py_min x lo) lo = true
  /\ PrimFloat.leb (py_min x lo) x = true
  /\ (py_min x lo = lo \/ py_min x lo = x).
Proof.
  intros Hx Hlo. unfold py_min. cbn [flt Binary64.binary64].
  destruct (PrimFloat.ltb lo x) eqn:E.
  - repeat split; auto using leb_refl, ltb_true_leb.
  - repeat split; auto using leb_refl, ltb_false_leb.
Qed.

Lemma py_max_leb (x hi : float) :
  is_nan x = false -> is_nan hi = false ->
  PrimFloat.leb hi (py_max x hi) = true
  /\ PrimFloat.leb x (py_max x hi) = true
  /\ (py_max x hi = hi \/ py_max x hi = x).
Proof.
  intros Hx Hhi. unfold py_max. cbn [flt Binary64.binary64].
  destruct (PrimFloat.ltb x hi) eqn:E.
  - repeat split; auto using leb_refl, ltb_true_leb.
  - repeat split; auto using leb_refl, ltb_false_leb.
Qed.

Lemma fold_min_leb (l : list float) :
  Forall (fun x => is_nan x = false) l ->
  forall lo, is_nan lo = false ->
    let m := fold_left (fun lo x => py_min x lo) l lo in
    PrimFloat.leb m lo = true
    /\ (forall x, In x l -> PrimFloat.leb m x = true)
    /\ (m = lo \/ In m l).
Proof.
  induction 1 as [|x l Hx Hl IH]; intros lo Hlo; cbn [fold_left].
  - split; [auto using leb_refl|split; [intros x []|auto]].
  - destruct (py_min_leb x lo Hx Hlo) as (P1 & P2 & P3).
    destruct (IH (py_min x lo)) as (H1 & H2 & H3).
    { destruct P3 as [->| ->]; assumption. }
    split; [eapply leb_trans; eauto|]. split.
    + intros y [<-|Hy]; [eapply leb_trans; eauto|auto].
    + destruct H3 as [H3|H3]; [|right; right; exact H3].
      destruct P3 as [P3|P3]; [left|right; left]; congruence.
Qed.

Lemma fold_max_leb (l : list float) :
  Forall (fun x => is_nan x = false) l ->
  forall hi, is_nan hi = false ->
    let m := fold_left (fun hi x => py_max x hi) l hi in
    PrimFloat.leb hi m = true
    /\ (forall x, In x l -> PrimFloat.leb x m = true)
    /\ (m = hi \/ In m l).
Proof.
  induction 1 as [|x l Hx Hl IH]; intros hi Hhi; cbn [fold_left].
  - split; [auto using leb_refl|split; [intros x []|auto]].
  - destruct (py_max_leb x hi Hx Hhi) as (P1 & P2 & P3).
    destruct (IH (py_max x hi)) as (H1 & H2 & H3).
    { destruct P3 as [->| ->]; assumption. }
    split; [eapply leb_trans; eauto|]. split.
    + intros y [<-|Hy]; [eapply leb_trans; eauto|auto].
    + destruct H3 as [H3|H3]; [|right; right; exact H3].
      destruct P3 as [P3|P3]; [left|right; left]; congruence.
Qed.

(** ** The sign of [x * -1] *)

Lemma iter_pos_invariant {A} (P : A -> Prop) (f : A -> A) :
  (forall x, P x -> P (f x)) -> forall n x, P x -> P (iter_pos f n x).
Proof.
  intros Hf. induction n as [n IH|n IH|]; intros x Hx; cbn [iter_pos]; auto.
Qed.

Lemma shr_1_nonneg (mrs : shr_record) :
  (0 <= shr_m mrs)%Z -> (0 <= shr_m (shr_1 mrs))%Z.
Proof.
  destruct mrs as [m r s]. cbn [shr_m].
  destruct m as [|[p|p|]|[p|p|]]; cbn; lia.
Qed.

Lemma shr_fexp_nonneg (m e : Z) (l : location) :
  (0 <= m)%Z -> (0 <= shr_m (fst (shr_fexp prec emax m e l)))%Z.
Proof.
  intros Hm. unfold shr_fexp, shr.
  assert (H0 : (0 <= shr_m (shr_record_of_loc m l))%Z).
  { destruct l as [|[]]; exact Hm. }
  destruct (fexp prec emax (Zdigits2 m + e) - e)%Z; cbn [fst]; auto.
  apply (iter_pos_invariant (fun r => (0 <= shr_m r)%Z)); auto using shr_1_nonneg.
Qed.

Lemma round_nearest_even_nonneg (m : Z) (l : location) :
  (0 <= m)%Z -> (0 <= round_nearest_even m l)%Z.
Proof.
  intros Hm. unfold round_nearest_even.
  destruct l as [|[]]; try destruct (Z.even m); lia.
Qed.

(** Rounding a mantissa that is not negative to a positive float gives
    [+0.0], a positive finite float or plus infinity, never a NaN. *)
Lemma binary_round_aux_sign (mx ex : Z) (lx : location) :
  (0 <= mx)%Z ->
  SFleb (S754_zero false) (binary_round_aux prec emax false mx ex lx) = true.
Proof.
  intros Hm. unfold binary_round_aux.
  pose proof (shr_fexp_nonneg mx ex lx Hm) as H1.
  destruct (shr_fexp prec emax mx ex lx) as [mrs' e']. cbn [fst] in H1.
  pose proof (shr_fexp_nonneg
                (round_nearest_even (shr_m mrs') (loc_of_shr_record mrs'))
                e' loc_Exact (round_nearest_even_nonneg _ _ H1)) as H2.
  destruct (shr_fexp prec emax _ e' loc_Exact) as [mrs'' e'']. cbn [fst] in H2.
  destruct (shr_m mrs'') as [|p|p]; [reflexivity| |lia].
  destruct (e'' <=? emax - prec)%Z; reflexivity.
Qed.

(** [lowest_negative_offset *= -1] turns a float that is at most [0] into
    one that is at least [0]. *)
Lemma opposite_nonneg (lo : float) :
  PrimFloat.leb lo zero = true ->
  PrimFloat.leb zero (PrimFloat.mul lo (of_int (-1))) = true.
Proof.
  rewrite !leb_spec, mul_spec.
  change (Prim2SF zero) with (S754_zero false).
  change (Prim2SF (of_int (-1))) with (S754_finite true 4503599627370496 (-52)).
  unfold SF64mul, SFmul.
  destruct (Prim2SF lo) as [s|s| |s m e]; try discriminate.
  - intros _. now destruct s.
  - destruct s; [reflexivity|discriminate].
  - destruct s; [|discriminate]. intros _. cbn [xorb].
    apply binary_round_aux_sign; lia.
Qed.

(** On scanned channels without a NaN, the lowest offset is the least and
    the highest the greatest of [0.0] and the channels, and both extents
    are at least [0.0]. *)
Lemma extents_ordered (offsets : list float) :
  (forall x, In x (scanned 0 offsets) -> is_nan x = false) ->
  is_least (fst (scan_extents offsets)) (zero :: scanned 0 offsets)
  /\ is_greatest (pos_extent offsets) (zero :: scanned 0 offsets)
  /\ PrimFloat.leb zero (neg_extent offsets) = true
  /\ PrimFloat.leb zero (pos_extent offsets) = true.
Proof.
  intros Hnan. apply Forall_forall in Hnan.
  unfold pos_extent, neg_extent. rewrite scan_extents_scanned. cbn [fst snd].
  change (of_Q 0) with zero.
  destruct (fold_min_leb _ Hnan zero eq_refl) as (A1 & A2 & A3).
  destruct (fold_max_leb _ Hnan zero eq_refl) as (B1 & B2 & B3).
  split; [|split; [|split]].
  - split.
    + destruct A3 as [A3|A3]; [left; symmetry; exact A3|right; exact A3].
    + intros x [<-|Hx]; auto.
  - split.
    + destruct B3 as [B3|B3]; [left; symmetry; exact B3|right; exact B3].
    + intros x [<-|Hx]; auto.
  - apply opposite_nonneg. exact A1.
  - exact B1.
Qed.

(** ** No NaN out of the normaliser *)

Lemma binary_round_aux_not_nan (sx : bool) (mx ex : Z) (lx : location) :
  (0 <= mx)%Z -> binary_round_aux prec emax sx mx ex lx <> S754_nan.
Proof.
  intros Hm. unfold binary_round_aux.
  pose proof (shr_fexp_nonneg mx ex lx Hm) as H1.
  destruct (shr_fexp prec emax mx ex lx) as [mrs' e']. cbn [fst] in H1.
  pose proof (shr_fexp_nonneg
                (round_nearest_even (shr_m mrs') (loc_of_shr_record mrs'))
                e' loc_Exact (round_nearest_even_nonneg _ _ H1)) as H2.
  destruct (shr_fexp prec emax _ e' loc_Exact) as [mrs'' e'']. cbn [fst] in H2.
  destruct (shr_m mrs'') as [|p|p]; [discriminate| |lia].
  destruct (e'' <=? emax - prec)%Z; discriminate.
Qed.

Lemma binary_normalize_not_nan (m e : Z) (szero : bool) :
  binary_normalize prec emax m e szero <> S754_nan.
Proof.
  unfold binary_normalize, binary_round.
  destruct m as [|p|p]; [discriminate| |];
    destruct (shl_align _ _ _) as [mz ez];
    apply binary_round_aux_not_nan; lia.
Qed.

(** A sum is a NaN only if a term is one or the terms are infinities of
    opposite signs. *)
Lemma SFadd_not_nan (x y : spec_float) :
  x <> S754_nan -> y <> S754_nan ->
  match x, y with
  | S754_infinity sx, S754_infinity sy => sx = sy
  | _, _ => True
  end ->
  SFadd prec emax x y <> S754_nan.
Proof.
  intros Hx Hy Hs. unfold SFadd.
  destruct x as [sx|sx| |sx mx ex], y as [sy|sy| |sy my ey];
    try congruence; try discriminate;
    try (destruct sx, sy; congruence).
  apply binary_normalize_not_nan.
Qed.

(** A quotient by a finite float that is not a zero is a NaN only if the
    dividend is one. *)
Lemma SFdiv_not_nan (x : spec_float) (sy : bool) (my : positive) (ey : Z) :
  x <> S754_nan -> SFdiv prec emax x (S754_finite sy my ey) <> S754_nan.
Proof.
  intros Hx. unfold SFdiv.
  destruct x as [sx|sx| |sx mx ex]; try congruence; try discriminate.
  destruct (SFdiv_core_binary prec emax (Zpos mx) ex (Zpos my) ey)
    as [[mz ez] lz] eqn:E.
  apply binary_round_aux_not_nan.
  unfold SFdiv_core_binary in E.
  set (s := (ex - ey - _)%Z) in E.
  set (m' := match s with Zpos _ => Z.shiftl (Zpos mx) s | Z0 => Zpos mx | Zneg _ => 0%Z end)
    in E.
  assert (Hm' : (0 <= m')%Z).
  { subst m'. destruct s; [lia| |lia]. apply Z.shiftl_nonneg. lia. }
  pose proof (Z.div_pos m' (Zpos my) Hm' eq_refl) as Hq.
  unfold Z.div in Hq.
  destruct (Z.div_eucl m' (Zpos my)) as [q r]. cbn [fst] in Hq.
  injection E as <- _ _. exact Hq.
Qed.

(** What a float that is at least [0.0] looks like. *)
Definition nonneg (x : spec_float) : Prop :=
  match x with
  | S754_zero _ | S754_infinity false | S754_finite false _ _ => True
  | _ => False
  end.

Lemma leb_zero_nonneg (x : float) :
  PrimFloat.leb zero x = true -> nonneg (Prim2SF x).
Proof.
  rewrite leb_spec. change (Prim2SF zero) with (S754_zero false).
  destruct (Prim2SF x) as [s|s| |s m e]; try destruct s; cbn; auto; discriminate.
Qed.

Lemma is_infinity_spec (x : float) (s : bool) :
  is_infinity x = false -> Prim2SF x <> S754_infinity s.
Proof.
  unfold is_infinity. rewrite eqb_spec, abs_spec.
  change (Prim2SF infinity) with (S754_infinity false).
  intros H E. rewrite E in H. discriminate H.
Qed.

Lemma eqb_zero_spec (x : float) (s : bool) :
  PrimFloat.eqb x (of_int 0) = false -> Prim2SF x <> S754_zero s.
Proof.
  rewrite eqb_spec. change (Prim2SF (of_int 0)) with (S754_zero false).
  intros H E. rewrite E in H. discriminate H.
Qed.

(** The divisor is a finite float other than a zero unless the span
    overflows to infinity; and then [neg_extent] is not infinite either. *)
Lemma divisor_finite (offsets : list float) :
  (forall x, In x (scanned 0 offsets) -> is_nan x = false) ->
  is_infinity (divisor (span offsets)) = false ->
  (exists s m e, Prim2SF (divisor (span offsets)) = S754_finite s m e)
  /\ nonneg (Prim2SF (neg_extent offsets))
  /\ Prim2SF (neg_extent offsets) <> S754_infinity false.
Proof.
  intros Hnan Hinf.
  destruct (extents_ordered offsets Hnan) as (_ & _ & Hneg & Hpos).
  apply leb_zero_nonneg in Hneg, Hpos.
  pose proof (add_spec (pos_extent offsets) (neg_extent offsets)) as Hadd.
  unfold SF64add in Hadd.
  assert (Hsum : SFadd prec emax (Prim2SF (pos_extent offsets))
                       (Prim2SF (neg_extent offsets)) <> S754_nan).
  { apply SFadd_not_nan.
    - destruct (Prim2SF (pos_extent offsets)); [| | contradiction|]; discriminate.
    - destruct (Prim2SF (neg_extent offsets)); [| | contradiction|]; discriminate.
    - destruct (Prim2SF (pos_extent offsets)) as [|[]| |], (Prim2SF (neg_extent offsets)) as [|[]| |];
        cbn in *; auto; contradiction. }
  assert (Hover : Prim2SF (neg_extent offsets) = S754_infinity false ->
                  Prim2SF (PrimFloat.add (pos_extent offsets) (neg_extent offsets))
                  = S754_infinity false).
  { intros E. rewrite Hadd, E.
    destruct (Prim2SF (pos_extent offsets)) as [s|[]| |[] m e];
      cbn in Hpos; try contradiction; reflexivity. }
  unfold span in *. cbn [fadd feq Binary64.binary64] in *.
  destruct (PrimFloat.eqb (PrimFloat.add (pos_extent offsets) (neg_extent offsets))
                          (of_int 0)) eqn:Ez; cbn [divisor] in *.
  - split; [|split; [exact Hneg|]].
    + eexists _, _, _. vm_compute. reflexivity.
    + intros E. apply Hover in E.
      rewrite eqb_spec, E in Ez. discriminate Ez.
  - split; [|split; [exact Hneg|]].
    + pose proof (eqb_zero_spec _ true Ez) as Z1.
      pose proof (eqb_zero_spec _ false Ez) as Z2.
      pose proof (is_infinity_spec _ true Hinf) as I1.
      pose proof (is_infinity_spec _ false Hinf) as I2.
      rewrite <- Hadd in Hsum.
      destruct (Prim2SF (PrimFloat.add (pos_extent offsets) (neg_extent offsets)))
        as [[]|[]| |s m e]; try congruence.
      eexists _, _, _. reflexivity.
    + intros E. apply Hover in E. exact (is_infinity_spec _ false Hinf E).
Qed.

(** On channels without a NaN, and unless the span overflows to infinity,
    no normalised channel is a NaN. *)
Lemma normalised_not_nan (offsets : list float) :
  (forall x, In x (scanned 0 offsets) -> is_nan x = false) ->
  is_infinity (divisor (span offsets)) = false ->
  exists ys,
    normalize_offsets offsets = inr ys
    /\ forall i y, nth_error ys i = Some y -> is_alpha i = false ->
                   is_nan y = false.
Proof.
  intros Hnan Hinf.
  destruct (divisor_finite offsets Hnan Hinf) as ((s & m & e & Hd) & Hneg & Hfin).
  destruct (normalize_offsets_inr offsets) as (ys & E & _ & Hnth).
  exists ys. split; [exact E|]. intros i y Hy Ha.
  rewrite Hnth in Hy. clear Hnth.
  remember (neg_extent offsets) as neg eqn:Eneg.
  destruct (nth_error offsets i) as [x|] eqn:Hx; [|discriminate Hy].
  cbn [option_map] in Hy. unfold normalized in Hy. rewrite Ha in Hy.
  injection Hy as <-.
  assert (Hin : In x (scanned 0 offsets)).
  { apply In_scanned. exists i. split; [exact Hx|exact Ha]. }
  apply Hnan, Prim2SF_nan in Hin.
  apply Prim2SF_nan. cbn [fquot fadd Binary64.binary64].
  rewrite div_spec, add_spec, Hd. unfold SF64div, SF64add.
  apply SFdiv_not_nan, SFadd_not_nan.
  - exact Hin.
  - destruct (Prim2SF neg); [| |contradiction|]; discriminate.
  - destruct (Prim2SF x) as [|sx| |]; auto.
    destruct (Prim2SF neg) as [|[]| |]; cbn in Hneg; auto;
      first [contradiction|congruence].
Qed.

End Binary64Order.

(* ================================================================== *)
(** * What binary64 floats stand for, and how far rounding goes *)
(* ================================================================== *)

Module Binary64Value.
Local Open Scope Z_scope.

(** ** The number of binary digits *)

Lemma digits2_pos_spec (p : positive) :
  2 ^ (Zpos (digits2_pos p) - 1) <= Zpos p < 2 ^ Zpos (digits2_pos p).
Proof.
  induction p as [p IH|p IH|]; cbn [digits2_pos].
  - rewrite Pos2Z.inj_succ.
    replace (Z.succ (Zpos (digits2_pos p)) - 1) with (Z.succ (Zpos (digits2_pos p) - 1)) by lia.
    rewrite !Z.pow_succ_r by lia. lia.
  - rewrite Pos2Z.inj_succ.
    replace (Z.succ (Zpos (digits2_pos p)) - 1) with (Z.succ (Zpos (digits2_pos p) - 1)) by lia.
    rewrite !Z.pow_succ_r by lia. lia.
  - cbn. lia.
Qed.

Lemma Zdigits2_spec (m : Z) :
  0 < m -> 2 ^ (Zdigits2 m - 1) <= m < 2 ^ Zdigits2 m.
Proof.
  destruct m as [|p|p]; try lia. intros _. apply digits2_pos_spec.
Qed.

Lemma Zdigits2_pos (m : Z) : 0 < m -> 0 < Zdigits2 m.
Proof. destruct m; cbn; lia. Qed.

Lemma Zdigits2_nonneg (m : Z) : 0 <= Zdigits2 m.
Proof. destruct m; cbn; lia. Qed.

Lemma Zdigits2_unique (m k : Z) :
  2 ^ (k - 1) <= m < 2 ^ k -> 0 < m -> Zdigits2 m = k.
Proof.
  intros [Hlo Hhi] Hm.
  destruct (Zdigits2_spec m Hm) as [Dlo Dhi].
  pose proof (Zdigits2_pos m Hm) as Dpos.
  assert (Hk : 0 < k).
  { destruct (Z.lt_ge_cases 0 k) as [|Hk]; [assumption|].
    destruct (Z.eq_dec k 0) as [->|]; [cbn in Hhi; lia|].
    rewrite (Z.pow_neg_r 2 k) in Hhi by lia. lia. }
  destruct (Z.lt_trichotomy (Zdigits2 m) k) as [H|[H|H]]; [|exact H|].
  - assert (2 ^ Zdigits2 m <= 2 ^ (k - 1)) by (apply Z.pow_le_mono_r; lia). lia.
  - assert (2 ^ k <= 2 ^ (Zdigits2 m - 1)) by (apply Z.pow_le_mono_r; lia). lia.
Qed.

(** At least [k] digits from [2 ^ (k - 1)] on. *)
Lemma Zdigits2_ge (m k : Z) : 2 ^ (k - 1) <= m -> 0 < m -> k <= Zdigits2 m.
Proof.
  intros Hlo Hm.
  destruct (Zdigits2_spec m Hm) as [_ Dhi].
  destruct (Z.le_gt_cases k (Zdigits2 m)) as [|H]; [assumption|].
  assert (2 ^ Zdigits2 m <= 2 ^ (k - 1)).
  { apply Z.pow_le_mono_r; [lia|]. lia. }
  lia.
Qed.

(** Dropping [n] low digits. *)
Lemma Zdigits2_div (m n : Z) :
  0 <= n -> 0 < m / 2 ^ n -> Zdigits2 (m / 2 ^ n) = Zdigits2 m - n.
Proof.
  intros Hn Hq.
  assert (Hp : 0 < 2 ^ n) by (apply Z.pow_pos_nonneg; lia).
  assert (Hm : 0 < m).
  { destruct (Z.lt_ge_cases 0 m) as [|H]; [assumption|].
    assert (m / 2 ^ n <= 0) by (apply Z.div_le_upper_bound; lia). lia. }
  destruct (Zdigits2_spec m Hm) as [Dlo Dhi].
  assert (Hge : 2 ^ n <= m).
  { destruct (Z.le_gt_cases (2 ^ n) m) as [|H]; [assumption|].
    rewrite Z.div_small in Hq by lia. lia. }
  assert (Hd : n < Zdigits2 m).
  { destruct (Z.lt_ge_cases n (Zdigits2 m)) as [|H]; [assumption|].
    assert (2 ^ Zdigits2 m <= 2 ^ n) by (apply Z.pow_le_mono_r; lia). lia. }
  apply Zdigits2_unique; [|exact Hq]. split.
  - apply Z.div_le_lower_bound; [exact Hp|].
    rewrite <- Z.pow_add_r by lia.
    replace (n + (Zdigits2 m - n - 1)) with (Zdigits2 m - 1) by lia. exact Dlo.
  - apply Z.div_lt_upper_bound; [exact Hp|].
    rewrite <- Z.pow_add_r by lia.
    replace (n + (Zdigits2 m - n)) with (Zdigits2 m) by lia. exact Dhi.
Qed.

(** One more: the same number of digits, or the next power of two. *)
Lemma Zdigits2_succ (m : Z) :
  0 < m ->
  Zdigits2 (m + 1) = Zdigits2 m
  \/ (Zdigits2 (m + 1) = Zdigits2 m + 1 /\ m + 1 = 2 ^ Zdigits2 m).
Proof.
  intros Hm.
  destruct (Zdigits2_spec m Hm) as [Dlo Dhi].
  pose proof (Zdigits2_pos m Hm) as Dpos.
  destruct (Z.eq_dec (m + 1) (2 ^ Zdigits2 m)) as [E|E].
  - right. split; [|exact E].
    apply Zdigits2_unique; [|lia].
    replace (Zdigits2 m + 1 - 1) with (Zdigits2 m) by lia.
    rewrite E. split; [lia|].
    apply Z.pow_lt_mono_r; lia.
  - left. apply Zdigits2_unique; lia.
Qed.


(** ** Shifting a mantissa to the right *)

Lemma shr_m_shr_1 (mrs : shr_record) :
  0 <= shr_m mrs -> shr_m (shr_1 mrs) = shr_m mrs / 2.
Proof.
  destruct mrs as [m r s]. cbn [shr_m]. intros Hm.
  destruct m as [|[p|p|]|p]; try lia; cbn [shr_1 shr_m].
  - reflexivity.
  - apply (Z.div_unique (Zpos p~1) 2 (Zpos p) 1); lia.
  - apply (Z.div_unique (Zpos p~0) 2 (Zpos p) 0); lia.
  - reflexivity.
Qed.

Lemma pow2_xI (p : positive) : 2 ^ Zpos p~1 = 2 * (2 ^ Zpos p * 2 ^ Zpos p).
Proof.
  replace (Zpos p~1) with (1 + Zpos p + Zpos p) by lia.
  rewrite !Z.pow_add_r by lia. change (2 ^ 1) with 2. ring.
Qed.

Lemma pow2_xO (p : positive) : 2 ^ Zpos p~0 = 2 ^ Zpos p * 2 ^ Zpos p.
Proof.
  replace (Zpos p~0) with (Zpos p + Zpos p) by lia.
  rewrite !Z.pow_add_r by lia. reflexivity.
Qed.

Lemma shr_m_iter (p : positive) : forall mrs,
  0 <= shr_m mrs ->
  shr_m (iter_pos shr_1 p mrs) = shr_m mrs / 2 ^ Zpos p
  /\ 0 <= shr_m (iter_pos shr_1 p mrs).
Proof.
  induction p as [p IH|p IH|]; intros mrs Hm; cbn [iter_pos].
  - pose proof (Binary64Order.shr_1_nonneg mrs Hm) as H1.
    destruct (IH _ H1) as [E2 H2]. destruct (IH _ H2) as [E3 H3].
    split; [|exact H3].
    rewrite E3, E2, shr_m_shr_1 by exact Hm.
    assert (Hp : 0 < 2 ^ Zpos p) by (apply Z.pow_pos_nonneg; lia).
    rewrite !Z.div_div by lia. now rewrite pow2_xI.
  - destruct (IH _ Hm) as [E2 H2]. destruct (IH _ H2) as [E3 H3].
    split; [|exact H3].
    rewrite E3, E2.
    assert (Hp : 0 < 2 ^ Zpos p) by (apply Z.pow_pos_nonneg; lia).
    rewrite !Z.div_div by lia. now rewrite pow2_xO.
  - split; [apply shr_m_shr_1; exact Hm|apply Binary64Order.shr_1_nonneg; exact Hm].
Qed.

(** Shifting out zeros keeps the location exact. *)
Lemma shr_1_exact (m : Z) :
  0 <= m ->
  shr_1 {| shr_m := 2 * m; shr_r := false; shr_s := false |}
  = {| shr_m := m; shr_r := false; shr_s := false |}.
Proof. destruct m as [|p|p]; [reflexivity|reflexivity|lia]. Qed.

Lemma iter_shr_exact (p : positive) : forall m,
  0 <= m ->
  iter_pos shr_1 p {| shr_m := m * 2 ^ Zpos p; shr_r := false; shr_s := false |}
  = {| shr_m := m; shr_r := false; shr_s := false |}.
Proof.
  induction p as [p IH|p IH|]; intros m Hm; cbn [iter_pos].
  - assert (Hp : 0 < 2 ^ Zpos p) by (apply Z.pow_pos_nonneg; lia).
    replace (m * 2 ^ Zpos p~1) with (2 * (m * 2 ^ Zpos p * 2 ^ Zpos p))
      by (rewrite pow2_xI; ring).
    rewrite shr_1_exact by nia.
    rewrite IH by nia. apply IH; exact Hm.
  - assert (Hp : 0 < 2 ^ Zpos p) by (apply Z.pow_pos_nonneg; lia).
    replace (m * 2 ^ Zpos p~0) with (m * 2 ^ Zpos p * 2 ^ Zpos p)
      by (rewrite pow2_xO; ring).
    rewrite IH by nia. apply IH; exact Hm.
  - replace (m * 2 ^ 1) with (2 * m) by (change (2 ^ 1) with 2; ring).
    apply shr_1_exact; exact Hm.
Qed.

(** The exponent a mantissa [m] at exponent [e] is rounded at. *)
Definition round_exp (m e : Z) : Z := Z.max e (fexp prec emax (Zdigits2 m + e)).

(** [shr_fexp] divides the mantissa by a power of two, rounding down. *)
Lemma shr_fexp_spec (m e : Z) (l : location) :
  0 <= m ->
  let e1 := round_exp m e in
  snd (shr_fexp prec emax m e l) = e1
  /\ shr_m (fst (shr_fexp prec emax m e l)) = m / 2 ^ (e1 - e)
  /\ (e1 = e -> fst (shr_fexp prec emax m e l) = shr_record_of_loc m l)
  /\ (l = loc_Exact -> m mod 2 ^ (e1 - e) = 0 ->
      loc_of_shr_record (fst (shr_fexp prec emax m e l)) = loc_Exact).
Proof.
  intros Hm e1. unfold e1, round_exp, shr_fexp, shr.
  set (f := fexp prec emax (Zdigits2 m + e)).
  assert (H0 : shr_m (shr_record_of_loc m l) = m) by (destruct l as [|[]]; reflexivity).
  destruct (f - e) as [|p|p] eqn:E; cbn [fst snd].
  - replace (Z.max e f) with e by lia.
    replace (e - e) with 0 by lia.
    rewrite Z.pow_0_r, Z.div_1_r. repeat split; auto.
    intros -> _. reflexivity.
  - replace (Z.max e f) with (e + Zpos p) by lia.
    replace (e + Zpos p - e) with (Zpos p) by lia.
    split; [reflexivity|]. split; [|split].
    + rewrite (proj1 (shr_m_iter p _ ltac:(rewrite H0; exact Hm))), H0. reflexivity.
    + lia.
    + intros -> Hmod. cbn [shr_record_of_loc].
      assert (Hp : 0 < 2 ^ Zpos p) by (apply Z.pow_pos_nonneg; lia).
      rewrite (Z.div_mod m (2 ^ Zpos p)) at 1 by lia.
      rewrite Hmod, Z.add_0_r, Z.mul_comm.
      rewrite iter_shr_exact; [reflexivity|]. apply Z.div_pos; lia.
  - replace (Z.max e f) with e by lia.
    replace (e - e) with 0 by lia.
    rewrite Z.pow_0_r, Z.div_1_r. repeat split; auto.
    intros -> _. reflexivity.
Qed.


(** ** Rounding to nearest *)

Lemma fexp_eq (k : Z) : fexp prec emax k = Z.max (k - 53) (-1074).
Proof. reflexivity. Qed.

Lemma round_nearest_even_cases (m : Z) (l : location) :
  round_nearest_even m l = m \/ round_nearest_even m l = m + 1.
Proof.
  unfold round_nearest_even. destruct l as [|[]]; auto.
  destruct (Z.even m); auto.
Qed.

(** What the mantissa [m2] at the exponent [e1] is packed into: the float
    of sign [s] and value [m2 * 2 ^ e1], or an infinity. *)
Definition pack (s : bool) (m2 e1 : Z) : spec_float :=
  let e3 := round_exp m2 e1 in
  match m2 / 2 ^ (e3 - e1) with
  | Z0 => S754_zero s
  | Zpos m3 => if e3 <=? emax - prec then S754_finite s m3 e3 else S754_infinity s
  | Zneg _ => S754_nan
  end.

(** The mantissa [binary_round_aux] rounds to, at the exponent [round_exp]. *)
Definition rounded (m e : Z) (l : location) : Z :=
  round_nearest_even (m / 2 ^ (round_exp m e - e))
                     (loc_of_shr_record (fst (shr_fexp prec emax m e l))).

Lemma binary_round_aux_pack (s : bool) (m e : Z) (l : location) :
  0 <= m ->
  binary_round_aux prec emax s m e l = pack s (rounded m e l) (round_exp m e).
Proof.
  intros Hm. unfold binary_round_aux, pack, rounded.
  destruct (shr_fexp_spec m e l Hm) as (E1 & M1 & _ & _).
  destruct (shr_fexp prec emax m e l) as [mrs' e'] eqn:S1. cbn [fst snd] in *.
  subst e'. rewrite M1.
  set (m2 := round_nearest_even _ _).
  assert (Hm2 : 0 <= m2).
  { assert (0 <= m / 2 ^ (round_exp m e - e)).
    { apply Z.div_pos; [exact Hm|]. apply Z.pow_pos_nonneg; [lia|].
      unfold round_exp. lia. }
    subst m2.
    destruct (round_nearest_even_cases (m / 2 ^ (round_exp m e - e))
                (loc_of_shr_record mrs')) as [-> | ->]; lia. }
  destruct (shr_fexp_spec m2 (round_exp m e) loc_Exact Hm2) as (E2 & M2 & _ & _).
  destruct (shr_fexp prec emax m2 (round_exp m e) loc_Exact) as [mrs'' e''] eqn:S2.
  cbn [fst snd] in *. subst e''. rewrite M2. reflexivity.
Qed.

(** A mantissa in canonical position: as many digits as the exponent asks
    for. *)
Definition canonical (m e : Z) : Prop :=
  (m = 0 /\ e = -1074) \/ (0 < m /\ fexp prec emax (Zdigits2 m + e) = e).

(** After the first shift the mantissa is in canonical position. *)
Lemma shifted_canonical (m e : Z) :
  0 <= m -> e <= fexp prec emax (Zdigits2 m + e) ->
  canonical (m / 2 ^ (round_exp m e - e)) (round_exp m e).
Proof.
  intros Hm Ha. unfold round_exp.
  replace (Z.max e (fexp prec emax (Zdigits2 m + e)))
    with (fexp prec emax (Zdigits2 m + e)) by lia.
  set (e1 := fexp prec emax (Zdigits2 m + e)).
  assert (Hn : 0 <= e1 - e) by lia.
  assert (Hp : 0 < 2 ^ (e1 - e)) by (apply Z.pow_pos_nonneg; lia).
  assert (Hq : 0 <= m / 2 ^ (e1 - e)) by (apply Z.div_pos; lia).
  destruct (Z.eq_dec (m / 2 ^ (e1 - e)) 0) as [E0|E0].
  - left. split; [exact E0|].
    destruct (Z.eq_dec m 0) as [->|Hm0].
    + subst e1. cbn [Zdigits2] in *. rewrite fexp_eq in *. lia.
    + apply Z.div_small_iff in E0; [|lia].
      destruct E0 as [[_ E0]|E0]; [|lia].
      destruct (Zdigits2_spec m ltac:(lia)) as [Dlo _].
      assert (Hd : Zdigits2 m - 1 < e1 - e).
      { destruct (Z.lt_ge_cases (Zdigits2 m - 1) (e1 - e)) as [|H]; [assumption|].
        assert (2 ^ (e1 - e) <= 2 ^ (Zdigits2 m - 1)) by (apply Z.pow_le_mono_r; lia).
        lia. }
      subst e1. rewrite fexp_eq in *. lia.
  - right. split; [lia|].
    rewrite Zdigits2_div by lia.
    replace (Zdigits2 m - (e1 - e) + e1) with (Zdigits2 m + e) by lia.
    reflexivity.
Qed.

(** A mantissa in canonical position is packed as it is. *)
Lemma pack_canonical (s : bool) (m : positive) (e : Z) :
  fexp prec emax (Zdigits2 (Zpos m) + e) = e ->
  pack s (Zpos m) e
  = if e <=? emax - prec then S754_finite s m e else S754_infinity s.
Proof.
  intros Hc. unfold pack, round_exp. rewrite Hc.
  replace (Z.max e e - e) with 0 by lia.
  rewrite Z.pow_0_r, Z.div_1_r. replace (Z.max e e) with e by lia. reflexivity.
Qed.

(** Packing [m2], which is [m1] in canonical position or one more: the
    value is kept, and an infinity means an exponent beyond the largest. *)
Lemma pack_spec (s : bool) (m1 m2 e1 : Z) :
  canonical m1 e1 -> m2 = m1 \/ m2 = m1 + 1 ->
  match pack s m2 e1 with
  | S754_zero s' => s' = s /\ m2 = 0
  | S754_finite s' m' e' =>
      s' = s /\ Zpos m' * 2 ^ (e' - e1) = m2 /\ e1 <= e'
      /\ bounded prec emax m' e' = true
  | S754_infinity s' =>
      s' = s
      /\ exists m' e', Zpos m' * 2 ^ (e' - e1) = m2 /\ e1 <= e'
                       /\ canonical_mantissa prec emax m' e' = true
                       /\ emax - prec < e'
  | S754_nan => False
  end.
Proof.
  intros Hc Hm2.
  assert (Hcases : m2 = 0 \/ (0 < m2 /\ fexp prec emax (Zdigits2 m2 + e1) = e1)
                   \/ (m2 = 2 ^ 53 /\ Zdigits2 m2 = 54
                       /\ fexp prec emax (Zdigits2 m2 + e1) = e1 + 1)).
  { destruct Hc as [[-> ->]|[Hpos Hc]].
    - destruct Hm2 as [->| ->]; [left; reflexivity|right; left].
      split; [lia|reflexivity].
    - destruct Hm2 as [->| ->]; [right; left; split; assumption|].
      destruct (Zdigits2_succ m1 Hpos) as [E|[E P]].
      + right; left. split; [lia|]. rewrite E. exact Hc.
      + rewrite fexp_eq in Hc.
        destruct (Z.le_gt_cases 53 (Zdigits2 m1)) as [H53|H53].
        * right; right.
          assert (Zdigits2 m1 = 53) by lia.
          rewrite fexp_eq, E, P. replace (Zdigits2 m1) with 53 by lia.
          repeat split; lia.
        * right; left. split; [lia|]. rewrite fexp_eq, E. lia. }
  unfold pack, round_exp.
  destruct Hcases as [->|[[Hpos Hc2]|(-> & Hd & Hc2)]].
  - rewrite Z.div_0_l; [auto|].
    apply Z.pow_nonzero; [lia|]. cbn [Zdigits2]. lia.
  - rewrite Hc2. replace (Z.max e1 e1) with e1 by lia.
    replace (e1 - e1) with 0 by lia. rewrite Z.pow_0_r, Z.div_1_r.
    destruct m2 as [|m'|m']; try lia.
    destruct (Z.leb_spec e1 (emax - prec)) as [Hle|Hgt].
    + split; [reflexivity|]. replace (e1 - e1) with 0 by lia.
      rewrite Z.pow_0_r. split; [lia|]. split; [lia|].
      unfold bounded, canonical_mantissa. cbn [Zdigits2] in Hc2. rewrite Hc2.
      rewrite Z.eqb_refl. apply Z.leb_le in Hle. rewrite Hle. reflexivity.
    + split; [reflexivity|]. exists m', e1.
      replace (e1 - e1) with 0 by lia. rewrite Z.pow_0_r.
      split; [lia|]. split; [lia|]. split; [|exact Hgt].
      unfold canonical_mantissa. cbn [Zdigits2] in Hc2. rewrite Hc2.
      apply Z.eqb_refl.
  - rewrite Hc2. replace (Z.max e1 (e1 + 1)) with (e1 + 1) by lia.
    replace (e1 + 1 - e1) with 1 by lia.
    change (2 ^ 53 / 2 ^ 1) with (Zpos 4503599627370496).
    assert (Hcan : canonical_mantissa prec emax 4503599627370496 (e1 + 1) = true).
    { unfold canonical_mantissa.
      change (Zpos (digits2_pos 4503599627370496)) with 53.
      rewrite Hd, fexp_eq in Hc2. rewrite fexp_eq. apply Z.eqb_eq. lia. }
    destruct (Z.leb_spec (e1 + 1) (emax - prec)) as [Hle|Hgt].
    + split; [reflexivity|]. replace (e1 + 1 - e1) with 1 by lia.
      split; [reflexivity|]. split; [lia|].
      unfold bounded. rewrite Hcan. apply Z.leb_le in Hle. rewrite Hle. reflexivity.
    + split; [reflexivity|]. exists 4503599627370496%positive, (e1 + 1).
      replace (e1 + 1 - e1) with 1 by lia.
      split; [reflexivity|]. split; [lia|]. split; [exact Hcan|exact Hgt].
Qed.


(** ** The value of a float, as a rational *)

Local Open Scope Q_scope.

Definition pow2 (e : Z) : Q := (2 # 1) ^ e.

Lemma pow2_pos (e : Z) : 0 < pow2 e.
Proof. apply Qpower_0_lt. reflexivity. Qed.

Lemma pow2_add (a b : Z) : pow2 (a + b) == pow2 a * pow2 b.
Proof. apply Qpower_plus. discriminate. Qed.

Lemma pow2_Z (e : Z) : (0 <= e)%Z -> pow2 e == inject_Z (2 ^ e).
Proof. intros He. unfold pow2. rewrite Zpower_Qpower by exact He. reflexivity. Qed.

Lemma pow2_le (a b : Z) : (a <= b)%Z -> pow2 a <= pow2 b.
Proof. intros H. apply Qpower_le_compat_l; [exact H|discriminate]. Qed.

Lemma pow2_lt (a b : Z) : (a < b)%Z -> pow2 a < pow2 b.
Proof. intros H. apply Qpower_lt_compat_l; [exact H|reflexivity]. Qed.

(** [m * 2 ^ (e' - e)] at the exponent [e] is [m] at the exponent [e']. *)
Lemma pow2_shift (m e e' : Z) :
  (e <= e')%Z -> inject_Z (m * 2 ^ (e' - e)) * pow2 e == inject_Z m * pow2 e'.
Proof.
  intros H. rewrite inject_Z_mult, <- pow2_Z by lia.
  replace e' with ((e' - e) + e)%Z at 2 by lia.
  rewrite pow2_add. ring.
Qed.

(** The rational a float stands for; [0] for what is not a number. *)
Definition SF2Q (x : spec_float) : Q :=
  match x with
  | S754_finite s m e => inject_Z (cond_Zopp s (Zpos m)) * pow2 e
  | _ => 0
  end.

(** Zeros and finite floats. *)
Definition finite (x : spec_float) : bool :=
  match x with
  | S754_zero _ | S754_finite _ _ _ => true
  | _ => false
  end.

Lemma inject_Z_cond_Zopp (s : bool) (m : Z) :
  inject_Z (cond_Zopp s m) == (if s then - inject_Z m else inject_Z m).
Proof. destruct s; cbn [cond_Zopp]; [rewrite inject_Z_opp|]; reflexivity. Qed.

(** A canonical mantissa of a float beyond the largest exponent stands
    for [2 ^ emax] at least. *)
Lemma canonical_large (m : positive) (e : Z) :
  canonical_mantissa prec emax m e = true -> (emax - prec < e)%Z ->
  pow2 emax <= inject_Z (Zpos m) * pow2 e.
Proof.
  unfold canonical_mantissa. intros Hc He. apply Z.eqb_eq in Hc.
  rewrite fexp_eq in Hc. change (emax - prec)%Z with 971%Z in He.
  assert (Hd : Zpos (digits2_pos m) = 53%Z) by lia.
  destruct (digits2_pos_spec m) as [Dlo _]. rewrite Hd in Dlo.
  change (2 ^ (53 - 1))%Z with (2 ^ 52)%Z in Dlo.
  apply Qle_trans with (inject_Z (2 ^ 52) * pow2 e).
  - rewrite <- pow2_Z by lia. rewrite <- pow2_add. apply pow2_le.
    change emax with 1024%Z. lia.
  - apply Qmult_le_compat_r; [|apply Qlt_le_weak, pow2_pos].
    rewrite <- Zle_Qle. exact Dlo.
Qed.

Lemma pack_value (s : bool) (m1 m2 e1 : Z) :
  canonical m1 e1 -> m2 = m1 \/ m2 = (m1 + 1)%Z ->
  match pack s m2 e1 with
  | S754_nan => False
  | S754_infinity s' => s' = s /\ pow2 emax <= inject_Z m2 * pow2 e1
  | r => valid_binary r = true
         /\ SF2Q r == inject_Z (cond_Zopp s m2) * pow2 e1
  end.
Proof.
  intros Hc Hm2. pose proof (pack_spec s m1 m2 e1 Hc Hm2) as H.
  destruct (pack s m2 e1) as [s'|s'| |s' m' e'].
  - destruct H as [-> ->]. split; [reflexivity|].
    cbn [SF2Q]. destruct s; cbn; ring.
  - destruct H as (-> & m' & e' & Hv & He & Hcan & Hbig). split; [reflexivity|].
    rewrite <- Hv, pow2_shift by exact He.
    apply canonical_large; assumption.
  - exact H.
  - destruct H as (-> & Hv & He & Hb). split; [exact Hb|].
    cbn [SF2Q]. rewrite <- Hv.
    pose proof (pow2_shift (Zpos m') e1 e' He) as Hs.
    rewrite !inject_Z_cond_Zopp.
    destruct s; [|rewrite Hs; reflexivity].
    setoid_replace (- inject_Z (Zpos m') * pow2 e')
      with (- (inject_Z (Zpos m') * pow2 e')) by ring.
    rewrite <- Hs. ring.
Qed.

(** [binary_round_aux] on a mantissa that is not below its canonical
    position: the result stands for [m2 * 2 ^ e1], where [e1] is the
    exponent the digits ask for and [m2] is [m / 2 ^ (e1 - e)] rounded
    down or up; an infinity means that [m2 * 2 ^ e1] reaches [2 ^ emax]. *)
Lemma binary_round_aux_value (s : bool) (m e : Z) (l : location) :
  (0 <= m)%Z ->
  (e <= fexp prec emax (Zdigits2 m + e))%Z ->
  let e1 := fexp prec emax (Zdigits2 m + e) in
  exists m2 : Z,
    (m / 2 ^ (e1 - e) <= m2 <= m / 2 ^ (e1 - e) + 1)%Z
    /\ (l = loc_Exact -> (m mod 2 ^ (e1 - e) = 0)%Z -> m2 = (m / 2 ^ (e1 - e))%Z)
    /\ match binary_round_aux prec emax s m e l with
       | S754_nan => False
       | S754_infinity s' => s' = s /\ pow2 emax <= inject_Z m2 * pow2 e1
       | r => valid_binary r = true
              /\ SF2Q r == inject_Z (cond_Zopp s m2) * pow2 e1
       end.
Proof.
  intros Hm Ha e1.
  assert (Hre : round_exp m e = e1) by (unfold round_exp; subst e1; lia).
  exists (rounded m e l).
  rewrite binary_round_aux_pack by exact Hm.
  pose proof (shifted_canonical m e Hm Ha) as Hc. rewrite Hre in *.
  unfold rounded at 1 2 3. rewrite Hre.
  split; [|split].
  - destruct (round_nearest_even_cases (m / 2 ^ (e1 - e))
                (loc_of_shr_record (fst (shr_fexp prec emax m e l)))) as [-> | ->]; lia.
  - intros Hl Hmod.
    destruct (shr_fexp_spec m e l Hm) as (_ & _ & _ & Hloc).
    rewrite Hre in Hloc. rewrite (Hloc Hl Hmod). reflexivity.
  - apply (pack_value s (m / 2 ^ (e1 - e))); [exact Hc|].
    unfold rounded. rewrite Hre. apply round_nearest_even_cases.
Qed.

(** How far [m2 * 2 ^ e1] is from a value [v] between [m * 2 ^ e] and
    [(m + 1) * 2 ^ e]: one unit of the last place at most, which is
    [2 ^ -1074] or at most [2 ^ -52] times [v]. *)
Lemma round_error (m e m2 : Z) (v : Q) :
  (0 <= m)%Z ->
  let e1 := fexp prec emax (Zdigits2 m + e) in
  (e <= e1)%Z ->
  (m / 2 ^ (e1 - e) <= m2 <= m / 2 ^ (e1 - e) + 1)%Z ->
  inject_Z m * pow2 e <= v -> v <= inject_Z (m + 1) * pow2 e ->
  Qabs (inject_Z m2 * pow2 e1 - v) <= pow2 e1
  /\ (e1 = (-1074)%Z \/ pow2 e1 <= pow2 (-52) * v).
Proof.
  intros Hm e1 He1 Hm2 Hlo Hhi.
  assert (Hp : (0 < 2 ^ (e1 - e))%Z) by (apply Z.pow_pos_nonneg; lia).
  set (m1 := (m / 2 ^ (e1 - e))%Z) in *.
  assert (Hdiv : (m1 * 2 ^ (e1 - e) <= m < (m1 + 1) * 2 ^ (e1 - e))%Z).
  { pose proof (Z.div_mod m (2 ^ (e1 - e)) ltac:(lia)) as Hdm.
    pose proof (Z.mod_pos_bound m (2 ^ (e1 - e)) Hp) as Hmod.
    fold m1 in Hdm. nia. }
  pose proof (pow2_pos e1) as P1. pose proof (pow2_pos e) as P0.
  assert (L1 : inject_Z m1 * pow2 e1 <= v).
  { rewrite <- (pow2_shift m1 e e1) by lia.
    eapply Qle_trans; [|exact Hlo].
    apply Qmult_le_compat_r; [|lra]. rewrite <- Zle_Qle. lia. }
  assert (L2 : v <= inject_Z (m1 + 1) * pow2 e1).
  { rewrite <- (pow2_shift (m1 + 1) e e1) by lia.
    eapply Qle_trans; [exact Hhi|].
    apply Qmult_le_compat_r; [|lra]. rewrite <- Zle_Qle. lia. }
  rewrite inject_Z_plus in L2. change (inject_Z 1) with 1 in L2.
  assert (B1 : inject_Z m1 <= inject_Z m2) by (rewrite <- Zle_Qle; lia).
  assert (B2 : inject_Z m2 <= inject_Z m1 + 1).
  { change 1 with (inject_Z 1). rewrite <- inject_Z_plus, <- Zle_Qle. lia. }
  assert (C1 : inject_Z m1 * pow2 e1 <= inject_Z m2 * pow2 e1)
    by (apply Qmult_le_compat_r; lra).
  assert (C2 : inject_Z m2 * pow2 e1 <= (inject_Z m1 + 1) * pow2 e1)
    by (apply Qmult_le_compat_r; lra).
  split.
  - apply Qabs_Qle_condition. split; lra.
  - subst e1. rewrite fexp_eq in *.
    destruct (Z.eq_dec (Z.max (Zdigits2 m + e - 53) (-1074)) (-1074)) as [E|E];
      [left; exact E|right].
    assert (Hmpos : (0 < m)%Z).
    { destruct (Z.eq_dec m 0) as [->|]; [cbn [Zdigits2] in *; lia|lia]. }
    destruct (Zdigits2_spec m Hmpos) as [Dlo _].
    pose proof (Zdigits2_pos m Hmpos) as Dpos.
    replace (Z.max (Zdigits2 m + e - 53) (-1074)) with (-52 + (Zdigits2 m - 1 + e))%Z by lia.
    rewrite pow2_add.
    apply Qmult_le_l; [apply pow2_pos|].
    eapply Qle_trans; [|exact Hlo].
    rewrite pow2_add, pow2_Z by lia.
    apply Qmult_le_compat_r; [|lra]. rewrite <- Zle_Qle. exact Dlo.
Qed.


(** ** Valid floats *)

Local Open Scope Z_scope.

Lemma valid_finite (s : bool) (m : positive) (e : Z) :
  valid_binary (S754_finite s m e) = true ->
  fexp prec emax (Zdigits2 (Zpos m) + e) = e /\ -1074 <= e <= 971.
Proof.
  cbn. unfold bounded, canonical_mantissa. intros H.
  apply andb_true_iff in H as [Hc He].
  apply Z.eqb_eq in Hc. apply Z.leb_le in He.
  change (emax - prec) with 971 in He.
  split; [exact Hc|]. rewrite fexp_eq in Hc. lia.
Qed.

Lemma Zdigits2_shift (m k : Z) :
  0 < m -> 0 <= k -> Zdigits2 (m * 2 ^ k) = Zdigits2 m + k.
Proof.
  intros Hm Hk.
  destruct (Zdigits2_spec m Hm) as [Dlo Dhi].
  pose proof (Zdigits2_pos m Hm) as Dpos.
  assert (Hp : 0 < 2 ^ k) by (apply Z.pow_pos_nonneg; lia).
  apply Zdigits2_unique; [|nia]. split.
  - replace (Zdigits2 m + k - 1) with (Zdigits2 m - 1 + k) by lia.
    rewrite Z.pow_add_r by lia. nia.
  - rewrite Z.pow_add_r by lia. nia.
Qed.

Lemma shl_align_spec (mx : positive) (ex ez : Z) :
  ez <= ex -> Zpos (fst (shl_align mx ex ez)) = Zpos mx * 2 ^ (ex - ez).
Proof.
  intros H. unfold shl_align.
  destruct (ez - ex) as [|d|d] eqn:E; cbn [fst]; try lia.
  - replace (ex - ez) with 0 by lia. rewrite Z.pow_0_r. lia.
  - replace (ex - ez) with (Zpos d) by lia.
    change (Pos.iter xO mx d) with (shift_pos d mx).
    rewrite shift_pos_correct. change (Z.pow_pos 2 d) with (2 ^ Zpos d). ring.
Qed.

(** ** [x * -1] *)

(** Multiplying by [-1.0] changes the sign and nothing else. *)
Lemma SFmul_m1 (x : spec_float) :
  valid_binary x = true ->
  SFmul prec emax x (S754_finite true 4503599627370496 (-52)) = SFopp x.
Proof.
  intros Hv. destruct x as [s|s| |s m e]; cbn [SFmul SFopp].
  - now destruct s.
  - now destruct s.
  - reflexivity.
  - destruct (valid_finite s m e Hv) as [Hc He].
    assert (Hs : xorb s true = negb s) by (now destruct s). rewrite Hs.
    rewrite Pos2Z.inj_mul. change (Zpos 4503599627370496) with (2 ^ 52).
    set (M := Zpos m * 2 ^ 52).
    assert (HM : 0 <= M) by (subst M; lia).
    assert (Hd : Zdigits2 M = Zdigits2 (Zpos m) + 52)
      by (apply Zdigits2_shift; lia).
    assert (Hre : round_exp M (e + -52) = e).
    { unfold round_exp. rewrite Hd.
      replace (Zdigits2 (Zpos m) + 52 + (e + -52)) with (Zdigits2 (Zpos m) + e) by lia.
      rewrite Hc. lia. }
    rewrite binary_round_aux_pack by exact HM.
    unfold rounded. rewrite Hre.
    replace (e - (e + -52)) with 52 by lia.
    destruct (shr_fexp_spec M (e + -52) loc_Exact HM) as (_ & _ & _ & Hloc).
    rewrite Hre in Hloc. replace (e - (e + -52)) with 52 in Hloc by lia.
    rewrite (Hloc eq_refl) by (subst M; apply Z.mod_mul; lia).
    cbn [round_nearest_even]. subst M. rewrite Z.div_mul by lia.
    rewrite pack_canonical by exact Hc.
    destruct (Z.leb_spec e (emax - prec)) as [|H]; [reflexivity|].
    change (emax - prec) with 971 in H. lia.
Qed.

(** ** Sums *)

Local Open Scope Q_scope.

(** [binary_round] of a mantissa [p] at an exponent [ez] that no valid
    float goes below: the value is kept up to [2 ^ -52] of itself. *)
Lemma binary_round_value (s : bool) (p : positive) (ez : Z) :
  (-1074 <= ez)%Z ->
  let v := inject_Z (Zpos p) * pow2 ez in
  match binary_round prec emax s p ez with
  | S754_nan => False
  | S754_infinity _ => pow2 emax <= v * (1 + pow2 (-52))
  | r => valid_binary r = true
         /\ exists q, SF2Q r == (if s then - q else q)
                      /\ Qabs (q - v) <= pow2 (-52) * v
  end.
Proof.
  intros Hez v.
  assert (Hv : 0 < v).
  { unfold v. apply Qmult_lt_0_compat; [|apply pow2_pos].
    change 0 with (inject_Z 0). rewrite <- Zlt_Qlt. lia. }
  pose proof (pow2_pos (-52)) as P52.
  assert (Hv52 : 0 <= pow2 (-52) * v) by (apply Qmult_le_0_compat; lra).
  unfold binary_round.
  set (f := fexp prec emax (Zpos (digits2_pos p) + ez)).
  assert (Hshl : exists mz e,
             shl_align p ez f = (mz, e)
             /\ inject_Z (Zpos mz) * pow2 e == v
             /\ (e <= fexp prec emax (Zdigits2 (Zpos mz) + e))%Z
             /\ (fexp prec emax (Zdigits2 (Zpos mz) + e) = e
                 \/ (-1074 < fexp prec emax (Zdigits2 (Zpos mz) + e))%Z)).
  { unfold shl_align. destruct (f - ez)%Z as [|d|d] eqn:E.
    - exists p, ez. split; [reflexivity|]. split; [reflexivity|].
      change (Zdigits2 (Zpos p)) with (Zpos (digits2_pos p)). fold f.
      split; [lia|left; lia].
    - exists p, ez. split; [reflexivity|]. split; [reflexivity|].
      change (Zdigits2 (Zpos p)) with (Zpos (digits2_pos p)). fold f.
      split; [lia|right; lia].
    - exists (Pos.iter xO p d), f. split; [reflexivity|].
      assert (Hz : Zpos (Pos.iter xO p d) = (Zpos p * 2 ^ (ez - f))%Z).
      { change (Pos.iter xO p d) with (shift_pos d p).
        rewrite shift_pos_correct. change (Z.pow_pos 2 d) with (2 ^ Zpos d)%Z.
        replace (ez - f)%Z with (Zpos d) by lia. ring. }
      rewrite Hz. split; [unfold v; apply pow2_shift; lia|].
      rewrite Zdigits2_shift by lia.
      replace (Zdigits2 (Zpos p) + (ez - f) + f)%Z with (Zpos (digits2_pos p) + ez)%Z
        by (cbn [Zdigits2]; lia).
      fold f. split; [lia|left; reflexivity]. }
  destruct Hshl as (mz & e & -> & Hval & Ha & Hex).
  destruct (binary_round_aux_value s (Zpos mz) e loc_Exact ltac:(lia) Ha)
    as (m2 & Hm2 & Hexact & Hres).
  set (e1 := fexp prec emax (Zdigits2 (Zpos mz) + e)) in *.
  destruct (round_error (Zpos mz) e m2 v ltac:(lia) Ha Hm2) as [Herr Hulp].
  { rewrite Hval. apply Qle_refl. }
  { rewrite <- Hval. apply Qmult_le_compat_r; [|apply Qlt_le_weak, pow2_pos].
    rewrite <- Zle_Qle. lia. }
  fold e1 in Herr, Hulp.
  assert (Hq : Qabs (inject_Z m2 * pow2 e1 - v) <= pow2 (-52) * v).
  { assert (Hsame : e1 = e -> Qabs (inject_Z m2 * pow2 e1 - v) <= pow2 (-52) * v).
    { intros E. rewrite E in *. replace (e - e)%Z with 0%Z in * by lia.
      rewrite Z.pow_0_r, Z.div_1_r in Hexact.
      rewrite (Hexact eq_refl (Z.mod_1_r _)), Hval.
      setoid_replace (v - v) with 0 by ring. exact Hv52. }
    destruct Hex as [Hex|Hex]; [apply Hsame; exact Hex|].
    destruct Hulp as [Hulp|Hulp]; [lia|].
    eapply Qle_trans; [exact Herr|exact Hulp]. }
  assert (Hinf : pow2 emax <= inject_Z m2 * pow2 e1 ->
                 pow2 emax <= v * (1 + pow2 (-52))).
  { intros H. apply Qabs_Qle_condition in Hq. lra. }
  destruct (binary_round_aux prec emax s (Zpos mz) e loc_Exact) as [s'|s'| |s' m' e'].
  - destruct Hres as [Hvalid Hres]. split; [exact Hvalid|].
    exists (inject_Z m2 * pow2 e1). split; [|exact Hq].
    rewrite Hres, inject_Z_cond_Zopp. destruct s; ring.
  - apply Hinf, Hres.
  - exact Hres.
  - destruct Hres as [Hvalid Hres]. split; [exact Hvalid|].
    exists (inject_Z m2 * pow2 e1). split; [|exact Hq].
    rewrite Hres, inject_Z_cond_Zopp. destruct s; ring.
Qed.

Lemma binary_normalize_value (M ez : Z) :
  (-1074 <= ez)%Z ->
  let v := inject_Z M * pow2 ez in
  match binary_normalize prec emax M ez false with
  | S754_nan => False
  | S754_infinity _ => pow2 emax <= Qabs v * (1 + pow2 (-52))
  | r => valid_binary r = true /\ Qabs (SF2Q r - v) <= pow2 (-52) * Qabs v
  end.
Proof.
  intros Hez v. unfold binary_normalize.
  pose proof (pow2_pos ez) as Pz.
  destruct M as [|p|p].
  - split; [reflexivity|]. unfold v. cbn [SF2Q].
    setoid_replace (inject_Z 0 * pow2 ez) with 0 by ring.
    rewrite Qmult_0_r. apply Qle_refl.
  - pose proof (binary_round_value false p ez Hez) as H. cbv zeta in H.
    fold v in H.
    assert (Hv : 0 <= v).
    { unfold v. apply Qmult_le_0_compat; [|lra].
      change 0 with (inject_Z 0). rewrite <- Zle_Qle. lia. }
    pose proof (Qabs_pos v Hv) as Habs.
    destruct (binary_round prec emax false p ez) as [s'|s'| |s' m' e'].
    + destruct H as (Hvalid & q & Hq & Herr). split; [exact Hvalid|].
      rewrite Hq, Habs. exact Herr.
    + rewrite Habs. exact H.
    + exact H.
    + destruct H as (Hvalid & q & Hq & Herr). split; [exact Hvalid|].
      rewrite Hq, Habs. exact Herr.
  - pose proof (binary_round_value true p ez Hez) as H. cbv zeta in H.
    assert (Hv : v == - (inject_Z (Zpos p) * pow2 ez)).
    { unfold v. change (Zneg p) with (- Zpos p)%Z. rewrite inject_Z_opp. ring. }
    set (a := inject_Z (Zpos p) * pow2 ez) in *.
    assert (Ha : 0 <= a).
    { unfold a. apply Qmult_le_0_compat; [|lra].
      change 0 with (inject_Z 0). rewrite <- Zle_Qle. lia. }
    assert (Habs : Qabs v == a).
    { rewrite Hv, Qabs_opp. apply Qabs_pos. exact Ha. }
    destruct (binary_round prec emax true p ez) as [s'|s'| |s' m' e'].
    + destruct H as (Hvalid & q & Hq & Herr). split; [exact Hvalid|].
      rewrite Hq, Habs, Hv.
      setoid_replace (- q - - a) with (- (q - a)) by ring.
      rewrite Qabs_opp. exact Herr.
    + rewrite Habs. exact H.
    + exact H.
    + destruct H as (Hvalid & q & Hq & Herr). split; [exact Hvalid|].
      rewrite Hq, Habs, Hv.
      setoid_replace (- q - - a) with (- (q - a)) by ring.
      rewrite Qabs_opp. exact Herr.
Qed.

(** The sum of two zeros or finite floats: the float nearest to the sum
    of the values, within [2 ^ -52] of it, or an infinity when the sum
    reaches [2 ^ emax] up to that. *)
Lemma SFadd_value (x y : spec_float) :
  valid_binary x = true -> valid_binary y = true ->
  finite x = true -> finite y = true ->
  let v := SF2Q x + SF2Q y in
  match SFadd prec emax x y with
  | S754_nan => False
  | S754_infinity _ => pow2 emax <= Qabs v * (1 + pow2 (-52))
  | r => valid_binary r = true /\ Qabs (SF2Q r - v) <= pow2 (-52) * Qabs v
  end.
Proof.
  intros Vx Vy Fx Fy v.
  pose proof (pow2_pos (-52)) as P52.
  assert (Hself : forall r, finite r = true -> valid_binary r = true -> v == SF2Q r ->
            match r with
            | S754_nan => False
            | S754_infinity _ => pow2 emax <= Qabs v * (1 + pow2 (-52))
            | r => valid_binary r = true /\ Qabs (SF2Q r - v) <= pow2 (-52) * Qabs v
            end).
  { intros r Fr Vr Er.
    assert (Hz : Qabs (SF2Q r - v) <= pow2 (-52) * Qabs v).
    { rewrite Er. setoid_replace (SF2Q r - SF2Q r) with 0 by ring.
      cbn [Qabs]. apply Qmult_le_0_compat; [lra|apply Qabs_nonneg]. }
    destruct r; try discriminate Fr; auto. }
  destruct x as [sx|sx| |sx mx ex], y as [sy|sy| |sy my ey];
    try discriminate Fx; try discriminate Fy.
  - cbn [SFadd]. assert (Hv0 : v == 0) by (unfold v; cbn [SF2Q]; ring).
    destruct sx, sy; apply (Hself (S754_zero _)); auto.
  - cbn [SFadd]. apply (Hself (S754_finite sy my ey)); auto.
    unfold v. cbn [SF2Q]. ring.
  - cbn [SFadd]. apply (Hself (S754_finite sx mx ex)); auto.
    unfold v. cbn [SF2Q]. ring.
  - cbn [SFadd].
    destruct (valid_finite sx mx ex Vx) as [_ Hex].
    destruct (valid_finite sy my ey Vy) as [_ Hey].
    set (ez := Z.min ex ey).
    pose proof (shl_align_spec mx ex ez ltac:(lia)) as Hx.
    pose proof (shl_align_spec my ey ez ltac:(lia)) as Hy.
    set (M := (cond_Zopp sx (Zpos (fst (shl_align mx ex ez)))
               + cond_Zopp sy (Zpos (fst (shl_align my ey ez))))%Z).
    assert (HM : inject_Z M * pow2 ez == v).
    { unfold M, v. cbn [SF2Q]. rewrite inject_Z_plus, !inject_Z_cond_Zopp, Hx, Hy.
      pose proof (pow2_shift (Zpos mx) ez ex ltac:(lia)) as Sx.
      pose proof (pow2_shift (Zpos my) ez ey ltac:(lia)) as Sy.
      destruct sx, sy; lra. }
    pose proof (binary_normalize_value M ez ltac:(lia)) as H. cbv zeta in H.
    destruct (binary_normalize prec emax M ez false) as [s'|s'| |s' m' e'].
    + rewrite <- HM. exact H.
    + rewrite <- HM. exact H.
    + exact H.
    + rewrite <- HM. exact H.
Qed.


(** ** Quotients *)

Lemma pos_value_pos (m : positive) (e : Z) : 0 < inject_Z (Zpos m) * pow2 e.
Proof.
  apply Qmult_lt_0_compat; [|apply pow2_pos].
  change 0 with (inject_Z 0). rewrite <- Zlt_Qlt. lia.
Qed.

(** The quotient of the mantissas, before rounding: not below its
    canonical position, and one unit at most below the quotient of the
    values. *)
Lemma SFdiv_core_spec (mx my : positive) (ex ey : Z) :
  let v := (inject_Z (Zpos mx) * pow2 ex) / (inject_Z (Zpos my) * pow2 ey) in
  let q := fst (fst (SFdiv_core_binary prec emax (Zpos mx) ex (Zpos my) ey)) in
  let e' := snd (fst (SFdiv_core_binary prec emax (Zpos mx) ex (Zpos my) ey)) in
  (0 <= q)%Z
  /\ (e' <= fexp prec emax (Zdigits2 q + e'))%Z
  /\ inject_Z q * pow2 e' <= v
  /\ v <= inject_Z (q + 1) * pow2 e'.
Proof.
  intros v. unfold SFdiv_core_binary.
  set (d1 := Zdigits2 (Zpos mx)). set (d2 := Zdigits2 (Zpos my)).
  set (e' := Z.min (fexp prec emax (d1 + ex - (d2 + ey))) (ex - ey)).
  set (s := (ex - ey - e')%Z).
  assert (Hs : (0 <= s)%Z) by (unfold s, e'; lia).
  set (m' := match s with
             | 0%Z => Zpos mx
             | Zpos _ => Z.shiftl (Zpos mx) s
             | Zneg _ => 0%Z
             end).
  assert (Hm' : m' = (Zpos mx * 2 ^ s)%Z).
  { unfold m'. destruct s as [|p|p] eqn:E; [rewrite Z.pow_0_r; lia| |lia].
    apply Z.shiftl_mul_pow2. lia. }
  clearbody m'.
  pose proof (Z_div_mod m' (Zpos my) ltac:(lia)) as Hdm.
  destruct (Z.div_eucl m' (Zpos my)) as [q r]. cbn [fst snd].
  destruct Hdm as [Hdm Hr].
  assert (Hp : (0 < 2 ^ s)%Z) by (apply Z.pow_pos_nonneg; lia).
  assert (Hq : (0 <= q)%Z) by nia.
  split; [exact Hq|]. split.
  - (* digits *)
    assert (Hdig : (d1 - d2 + s <= Zdigits2 q)%Z).
    { destruct (Z.le_gt_cases (d1 - d2 + s) 0) as [H0|H0].
      - pose proof (Zdigits2_nonneg q). lia.
      - destruct (Zdigits2_spec (Zpos mx) ltac:(lia)) as [D1 _].
        destruct (Zdigits2_spec (Zpos my) ltac:(lia)) as [_ D2].
        fold d1 in D1. fold d2 in D2.
        pose proof (Zdigits2_pos (Zpos mx) ltac:(lia)) as P1. fold d1 in P1.
        pose proof (Zdigits2_pos (Zpos my) ltac:(lia)) as P2. fold d2 in P2.
        assert (Hk : (2 ^ (d1 - d2 + s - 1) * 2 ^ d2 = 2 ^ (d1 - 1) * 2 ^ s)%Z).
        { rewrite <- !Z.pow_add_r by lia. f_equal. lia. }
        assert (Hk0 : (0 < 2 ^ (d1 - d2 + s - 1))%Z) by (apply Z.pow_pos_nonneg; lia).
        assert (Hqk : (2 ^ (d1 - d2 + s - 1) <= q)%Z).
        { destruct (Z.le_gt_cases (2 ^ (d1 - d2 + s - 1)) q) as [|Hlt]; [assumption|].
          exfalso.
          assert (m' < Zpos my * 2 ^ (d1 - d2 + s - 1))%Z by nia.
          assert (Zpos my * 2 ^ (d1 - d2 + s - 1) <= 2 ^ d2 * 2 ^ (d1 - d2 + s - 1))%Z by nia.
          nia. }
        apply Zdigits2_ge; lia. }
    assert (HF : (e' <= fexp prec emax (d1 + ex - (d2 + ey)))%Z) by (unfold e'; lia).
    rewrite fexp_eq in HF. rewrite fexp_eq.
    unfold s in Hdig. clearbody e' d1 d2. clear - HF Hdig. lia.
  - assert (HD : 0 < inject_Z (Zpos my) * pow2 ey) by apply pos_value_pos.
    assert (HN : inject_Z (Zpos mx) * pow2 ex == inject_Z m' * pow2 (e' + ey)).
    { rewrite Hm'.
      pose proof (pow2_shift (Zpos mx) (e' + ey) ex ltac:(unfold s in Hs; lia)) as Hsh.
      replace (ex - (e' + ey))%Z with s in Hsh by (unfold s; lia).
      symmetry. exact Hsh. }
    pose proof (pow2_pos (e' + ey)) as Pe.
    split.
    + apply Qle_shift_div_l; [exact HD|]. rewrite HN.
      setoid_replace (inject_Z q * pow2 e' * (inject_Z (Zpos my) * pow2 ey))
        with (inject_Z (q * Zpos my) * pow2 (e' + ey))
        by (rewrite inject_Z_mult, pow2_add; ring).
      apply Qmult_le_compat_r; [|lra]. rewrite <- Zle_Qle. nia.
    + apply Qle_shift_div_r; [exact HD|]. rewrite HN.
      setoid_replace (inject_Z (q + 1) * pow2 e' * (inject_Z (Zpos my) * pow2 ey))
        with (inject_Z ((q + 1) * Zpos my) * pow2 (e' + ey))
        by (rewrite inject_Z_mult, pow2_add; ring).
      apply Qmult_le_compat_r; [|lra]. rewrite <- Zle_Qle. nia.
Qed.

(** The quotient of a finite float by a positive finite float: within
    [2 ^ -52] of the quotient of the values, up to [2 ^ -1074] where the
    result is subnormal. *)
Lemma SFdiv_value (sx : bool) (mx my : positive) (ex ey : Z) :
  let v := (inject_Z (Zpos mx) * pow2 ex) / (inject_Z (Zpos my) * pow2 ey) in
  match SFdiv prec emax (S754_finite sx mx ex) (S754_finite false my ey) with
  | S754_nan => False
  | S754_infinity _ => pow2 emax <= v * (1 + pow2 (-52)) + pow2 (-1074)
  | r => valid_binary r = true
         /\ exists q, SF2Q r == (if sx then - q else q)
                      /\ Qabs (q - v) <= pow2 (-52) * v + pow2 (-1074)
                      /\ 0 <= q
  end.
Proof.
  intros v.
  pose proof (SFdiv_core_spec mx my ex ey) as H. cbv zeta in H. fold v in H.
  cbn [SFdiv].
  destruct (SFdiv_core_binary prec emax (Zpos mx) ex (Zpos my) ey) as [[q e'] l].
  cbn [fst snd] in H. destruct H as (Hq & Ha & Hlo & Hhi).
  assert (Hs : xorb sx false = sx) by (now destruct sx). rewrite Hs.
  destruct (binary_round_aux_value sx q e' l Hq Ha) as (m2 & Hm2 & _ & Hres).
  destruct (round_error q e' m2 v Hq Ha Hm2 Hlo Hhi) as [Herr Hulp].
  set (e1 := fexp prec emax (Zdigits2 q + e')) in *.
  pose proof (pow2_pos (-52)) as P52. pose proof (pow2_pos (-1074)) as P1074.
  assert (Hv : 0 <= v).
  { eapply Qle_trans; [|exact Hlo]. apply Qmult_le_0_compat;
      [change 0 with (inject_Z 0); rewrite <- Zle_Qle; exact Hq
      |apply Qlt_le_weak, pow2_pos]. }
  assert (Hv52 : 0 <= pow2 (-52) * v) by (apply Qmult_le_0_compat; lra).
  assert (Hu : pow2 e1 <= pow2 (-52) * v + pow2 (-1074)).
  { destruct Hulp as [->|Hulp]; lra. }
  assert (Hq2 : Qabs (inject_Z m2 * pow2 e1 - v) <= pow2 (-52) * v + pow2 (-1074))
    by (eapply Qle_trans; [exact Herr|exact Hu]).
  assert (Hq0 : 0 <= inject_Z m2 * pow2 e1).
  { apply Qmult_le_0_compat; [|apply Qlt_le_weak, pow2_pos].
    change 0 with (inject_Z 0). rewrite <- Zle_Qle.
    assert (0 <= q / 2 ^ (e1 - e'))%Z; [|lia].
    apply Z.div_pos; [exact Hq|]. apply Z.pow_pos_nonneg; lia. }
  destruct (binary_round_aux prec emax sx q e' l) as [s'|s'| |s' m' e''].
  - destruct Hres as [Hvalid Hres]. split; [exact Hvalid|].
    exists (inject_Z m2 * pow2 e1). split; [|split; [exact Hq2|exact Hq0]].
    rewrite Hres, inject_Z_cond_Zopp. destruct sx; ring.
  - destruct Hres as [_ Hres]. apply Qabs_Qle_condition in Herr. lra.
  - exact Hres.
  - destruct Hres as [Hvalid Hres]. split; [exact Hvalid|].
    exists (inject_Z m2 * pow2 e1). split; [|split; [exact Hq2|exact Hq0]].
    rewrite Hres, inject_Z_cond_Zopp. destruct sx; ring.
Qed.

(** ** The order *)

(** Of two positive valid floats, the one with the smaller exponent is
    the smaller. *)
Lemma canonical_lt (m1 m2 : positive) (e1 e2 : Z) :
  fexp prec emax (Zdigits2 (Zpos m1) + e1) = e1 ->
  fexp prec emax (Zdigits2 (Zpos m2) + e2) = e2 ->
  (e1 < e2)%Z ->
  inject_Z (Zpos m1) * pow2 e1 <= inject_Z (Zpos m2) * pow2 e2.
Proof.
  intros C1 C2 He. rewrite fexp_eq in C1, C2.
  destruct (Zdigits2_spec (Zpos m1) ltac:(lia)) as [_ D1].
  destruct (Zdigits2_spec (Zpos m2) ltac:(lia)) as [D2 _].
  pose proof (Zdigits2_pos (Zpos m1) ltac:(lia)) as P1.
  pose proof (Zdigits2_pos (Zpos m2) ltac:(lia)) as P2.
  apply Qle_trans with (pow2 (Zdigits2 (Zpos m1) + e1)).
  - rewrite pow2_add, (pow2_Z (Zdigits2 (Zpos m1))) by lia.
    apply Qmult_le_compat_r; [|apply Qlt_le_weak, pow2_pos].
    rewrite <- Zle_Qle. lia.
  - apply Qle_trans with (pow2 (Zdigits2 (Zpos m2) - 1 + e2)).
    + apply pow2_le. lia.
    + rewrite pow2_add, (pow2_Z (Zdigits2 (Zpos m2) - 1)) by lia.
      apply Qmult_le_compat_r; [|apply Qlt_le_weak, pow2_pos].
      rewrite <- Zle_Qle. exact D2.
Qed.

Lemma same_exponent_le (m1 m2 : positive) (e : Z) :
  Pos.compare_cont Eq m1 m2 <> Gt ->
  inject_Z (Zpos m1) * pow2 e <= inject_Z (Zpos m2) * pow2 e.
Proof.
  intros H. apply Qmult_le_compat_r; [|apply Qlt_le_weak, pow2_pos].
  rewrite <- Zle_Qle. exact H.
Qed.

(** [<=] on valid floats that are zeros or finite is [<=] on their
    values. *)
Lemma SFleb_SF2Q (x y : spec_float) :
  valid_binary x = true -> valid_binary y = true ->
  finite x = true -> finite y = true ->
  SFleb x y = true -> SF2Q x <= SF2Q y.
Proof.
  intros Vx Vy Fx Fy.
  destruct x as [sx|sx| |sx mx ex], y as [sy|sy| |sy my ey];
    try discriminate Fx; try discriminate Fy; unfold SFleb, SFcompare; cbn [SF2Q].
  - intros _. apply Qle_refl.
  - pose proof (pos_value_pos my ey) as P.
    destruct sy; [discriminate|]. intros _. cbn [cond_Zopp]. lra.
  - pose proof (pos_value_pos mx ex) as P.
    destruct sx; [|discriminate]. intros _. cbn [cond_Zopp].
    change (Zneg mx) with (- Zpos mx)%Z. rewrite inject_Z_opp. lra.
  - destruct (valid_finite sx mx ex Vx) as [Cx _].
    destruct (valid_finite sy my ey Vy) as [Cy _].
    pose proof (pos_value_pos mx ex) as Px. pose proof (pos_value_pos my ey) as Py.
    rewrite !inject_Z_cond_Zopp.
    destruct sx, sy; try discriminate.
    + destruct (Z.compare_spec ex ey) as [E|E|E]; try discriminate.
      * subst ey. intros H.
        assert (Hc : Pos.compare_cont Eq my mx <> Gt).
        { rewrite ZC4. destruct (Pos.compare_cont Eq mx my); cbn in *; congruence. }
        pose proof (same_exponent_le my mx ex Hc). lra.
      * intros _. pose proof (canonical_lt my mx ey ex Cy Cx E). lra.
    + intros _. lra.
    + destruct (Z.compare_spec ex ey) as [E|E|E]; try discriminate.
      * subst ey. intros H.
        assert (Hc : Pos.compare_cont Eq mx my <> Gt).
        { destruct (Pos.compare_cont Eq mx my); congruence. }
        apply same_exponent_le. exact Hc.
      * intros _. apply canonical_lt; assumption.
Qed.


(** ** Primitive floats *)

(** The rational a float stands for, and whether it stands for one. *)
Definition F2Q (x : float) : Q := SF2Q (Prim2SF x).
Definition is_finite (x : float) : bool := finite (Prim2SF x).

Lemma is_finite_not_nan (x : float) : is_finite x = true -> is_nan x = false.
Proof.
  unfold is_finite. intros H. apply Binary64Order.Prim2SF_nan.
  intros E. rewrite E in H. discriminate H.
Qed.

(** [x * -1] is [-x]. *)
Lemma mul_m1 (x : float) : PrimFloat.mul x (of_int (-1)) = PrimFloat.opp x.
Proof.
  apply Prim2SF_inj. rewrite mul_spec, opp_spec.
  change (Prim2SF (of_int (-1))) with (S754_finite true 4503599627370496 (-52)).
  apply SFmul_m1. apply Prim2SF_valid.
Qed.

Lemma F2Q_opp (x : float) : F2Q (PrimFloat.opp x) == - F2Q x.
Proof.
  unfold F2Q. rewrite opp_spec.
  destruct (Prim2SF x) as [s|s| |s m e]; cbn [SFopp SF2Q]; try ring.
  rewrite !inject_Z_cond_Zopp. destruct s; cbn [negb]; ring.
Qed.

Lemma is_finite_opp (x : float) : is_finite (PrimFloat.opp x) = is_finite x.
Proof.
  unfold is_finite. rewrite opp_spec. now destruct (Prim2SF x).
Qed.

Lemma le_lt_false (a b : Q) : a <= b -> b < a -> False.
Proof. intros H1 H2. apply (Qlt_not_le _ _ H2 H1). Qed.

(** The sum of two finite floats whose values do not add up to the
    largest float: finite, and within [2 ^ -52] of the sum of the
    values. *)
Lemma add_value (x y : float) :
  is_finite x = true -> is_finite y = true ->
  Qabs (F2Q x + F2Q y) * (1 + pow2 (-52)) < pow2 emax ->
  is_finite (PrimFloat.add x y) = true
  /\ Qabs (F2Q (PrimFloat.add x y) - (F2Q x + F2Q y))
     <= pow2 (-52) * Qabs (F2Q x + F2Q y).
Proof.
  unfold is_finite, F2Q. intros Fx Fy Hsmall. rewrite add_spec.
  pose proof (SFadd_value (Prim2SF x) (Prim2SF y)
                (Prim2SF_valid x) (Prim2SF_valid y) Fx Fy) as H.
  cbv zeta in H. unfold SF64add.
  destruct (SFadd prec emax (Prim2SF x) (Prim2SF y)) as [s|s| |s m e].
  - split; [reflexivity|apply H].
  - exfalso. exact (le_lt_false _ _ H Hsmall).
  - contradiction.
  - split; [reflexivity|apply H].
Qed.

(** The quotient of a finite float that is not negative by a positive
    finite float, when it stays below the largest float: finite, not
    negative, and within [2 ^ -52] of the quotient of the values, up to
    [2 ^ -1074]. *)
Lemma div_value (x y : float) :
  is_finite x = true -> is_finite y = true ->
  0 <= F2Q x -> 0 < F2Q y ->
  (F2Q x / F2Q y) * (1 + pow2 (-52)) + pow2 (-1074) < pow2 emax ->
  is_finite (PrimFloat.div x y) = true
  /\ Qabs (F2Q (PrimFloat.div x y) - F2Q x / F2Q y)
     <= pow2 (-52) * (F2Q x / F2Q y) + pow2 (-1074)
  /\ 0 <= F2Q (PrimFloat.div x y).
Proof.
  unfold is_finite, F2Q. intros Fx Fy Hx Hy Hsmall. rewrite div_spec.
  unfold SF64div.
  pose proof (pow2_pos (-52)) as P52. pose proof (pow2_pos (-1074)) as P1074.
  destruct (Prim2SF y) as [sy|sy| |sy my ey]; try discriminate Fy;
    cbn [SF2Q] in Hy; [exfalso; lra|].
  pose proof (pos_value_pos my ey) as PD.
  destruct sy.
  { exfalso. rewrite inject_Z_cond_Zopp in Hy. lra. }
  cbn [cond_Zopp SF2Q] in *.
  destruct (Prim2SF x) as [sx|sx| |sx mx ex]; try discriminate Fx.
  - cbn [SFdiv SF2Q]. split; [reflexivity|]. split; [|apply Qle_refl].
    setoid_replace (0 - 0 / (inject_Z (Zpos my) * pow2 ey)) with 0 by (unfold Qdiv; ring).
    lra.
  - pose proof (pos_value_pos mx ex) as PN.
    destruct sx.
    { exfalso. cbn [SF2Q] in Hx. rewrite inject_Z_cond_Zopp in Hx. lra. }
    cbn [SF2Q cond_Zopp] in *.
    pose proof (SFdiv_value false mx my ex ey) as H. cbv zeta in H.
    destruct (SFdiv prec emax (S754_finite false mx ex) (S754_finite false my ey))
      as [s|s| |s m e].
    + destruct H as (_ & q & Hq & Herr & Hq0). split; [reflexivity|].
      rewrite Hq. split; [exact Herr|exact Hq0].
    + exfalso. exact (le_lt_false _ _ H Hsmall).
    + contradiction.
    + destruct H as (_ & q & Hq & Herr & Hq0). split; [reflexivity|].
      rewrite Hq. split; [exact Herr|exact Hq0].
Qed.

(** [<=] on finite floats is [<=] on their values. *)
Lemma leb_value (x y : float) :
  is_finite x = true -> is_finite y = true ->
  PrimFloat.leb x y = true -> F2Q x <= F2Q y.
Proof.
  unfold is_finite, F2Q. intros Fx Fy H. rewrite leb_spec in H.
  apply SFleb_SF2Q; auto using Prim2SF_valid.
Qed.

(** A float that is finite and not [0.0] stands for a rational that is
    not [0]. *)
Lemma F2Q_zero (x : float) :
  is_finite x = true -> F2Q x == 0 -> exists s, Prim2SF x = S754_zero s.
Proof.
  unfold is_finite, F2Q. intros Fx H.
  destruct (Prim2SF x) as [s|s| |s m e]; try discriminate Fx; [eauto|].
  exfalso. cbn [SF2Q] in H. pose proof (pos_value_pos m e) as P.
  rewrite inject_Z_cond_Zopp in H. destruct s; lra.
Qed.

(** ** Offsets of a bounded size *)

(** [2 ^ 1022], a quarter of the largest float. *)
Definition limit : float := Z.ldexp one 1022.

(** Floats of magnitude [limit] at most are finite. *)
Lemma within_limit (x : float) :
  PrimFloat.leb (PrimFloat.abs x) limit = true ->
  is_finite x = true /\ Qabs (F2Q x) <= pow2 1022.
Proof.
  rewrite leb_spec, abs_spec. unfold is_finite, F2Q.
  change (Prim2SF limit) with (S754_finite false 4503599627370496 970).
  pose proof (Prim2SF_valid x) as Vx.
  intros H.
  assert (Hlim : SF2Q (S754_finite false 4503599627370496 970) == pow2 1022).
  { cbn [SF2Q cond_Zopp]. change (Zpos 4503599627370496) with (2 ^ 52)%Z.
    rewrite <- pow2_Z by lia. rewrite <- pow2_add. reflexivity. }
  destruct (Prim2SF x) as [s|s| |s m e]; try discriminate H.
  - split; [reflexivity|]. cbn [SF2Q]. change (Qabs 0) with 0.
    apply Qlt_le_weak, pow2_pos.
  - split; [reflexivity|].
    assert (Vabs : valid_binary (S754_finite false m e) = true) by exact Vx.
    pose proof (SFleb_SF2Q (SFabs (S754_finite s m e))
                  (S754_finite false 4503599627370496 970)
                  Vabs eq_refl eq_refl eq_refl H) as Hle.
    rewrite Hlim in Hle. cbn [SFabs SF2Q cond_Zopp] in Hle.
    pose proof (pos_value_pos m e) as P.
    cbn [SF2Q]. rewrite inject_Z_cond_Zopp.
    destruct s.
    + setoid_replace (- inject_Z (Zpos m) * pow2 e) with (- (inject_Z (Zpos m) * pow2 e)) by ring.
      rewrite Qabs_opp, Qabs_pos by lra. exact Hle.
    + rewrite Qabs_pos by lra. exact Hle.
Qed.


(** Floats of magnitude [b] at most, for a finite float [b], are finite. *)
Lemma within_bound (x b : float) :
  is_finite b = true ->
  PrimFloat.leb (PrimFloat.abs x) b = true ->
  is_finite x = true /\ Qabs (F2Q x) <= F2Q b.
Proof.
  rewrite leb_spec, abs_spec. unfold is_finite, F2Q.
  pose proof (Prim2SF_valid x) as Vx. pose proof (Prim2SF_valid b) as Vb.
  intros Fb H.
  destruct (Prim2SF x) as [s|s| |s m e].
  - split; [reflexivity|]. cbn [SF2Q]. change (Qabs 0) with 0.
    change 0 with (SF2Q (S754_zero false)).
    apply SFleb_SF2Q; auto.
  - exfalso. cbn [SFabs] in H. unfold SFleb, SFcompare in H.
    destruct (Prim2SF b); discriminate.
  - discriminate H.
  - split; [reflexivity|].
    assert (Vabs : valid_binary (S754_finite false m e) = true) by exact Vx.
    pose proof (SFleb_SF2Q (SFabs (S754_finite s m e)) (Prim2SF b)
                  Vabs Vb eq_refl Fb H) as Hle.
    cbn [SFabs SF2Q cond_Zopp] in Hle.
    pose proof (pos_value_pos m e) as P.
    cbn [SF2Q]. rewrite inject_Z_cond_Zopp.
    destruct s.
    + setoid_replace (- inject_Z (Zpos m) * pow2 e) with (- (inject_Z (Zpos m) * pow2 e)) by ring.
      rewrite Qabs_opp, Qabs_pos by lra. exact Hle.
    + rewrite Qabs_pos by lra. exact Hle.
Qed.

(** A valid finite float stands for less than [2 ^ emax]. *)
Lemma valid_value_small (s : bool) (m : positive) (e : Z) :
  valid_binary (S754_finite s m e) = true ->
  inject_Z (Zpos m) * pow2 e < pow2 emax.
Proof.
  intros Hv. destruct (valid_finite s m e Hv) as [Hc He].
  rewrite fexp_eq in Hc.
  destruct (Zdigits2_spec (Zpos m) ltac:(lia)) as [_ Dhi].
  pose proof (Zdigits2_pos (Zpos m) ltac:(lia)) as Dpos.
  apply Qlt_le_trans with (pow2 (Zdigits2 (Zpos m) + e)).
  - rewrite pow2_add, (pow2_Z (Zdigits2 (Zpos m))) by lia.
    apply Qmult_lt_compat_r; [apply pow2_pos|].
    rewrite <- Zlt_Qlt. exact Dhi.
  - apply pow2_le. change emax with 1024%Z. lia.
Qed.


(** ** Products *)

Lemma Zdigits2_mul (a b : Z) :
  (0 < a)%Z -> (0 < b)%Z ->
  (Zdigits2 a + Zdigits2 b - 1 <= Zdigits2 (a * b))%Z.
Proof.
  intros Ha Hb.
  destruct (Zdigits2_spec a Ha) as [Da _]. destruct (Zdigits2_spec b Hb) as [Db _].
  pose proof (Zdigits2_pos a Ha). pose proof (Zdigits2_pos b Hb).
  apply Zdigits2_ge; [|nia].
  replace (Zdigits2 a + Zdigits2 b - 1 - 1)%Z
    with ((Zdigits2 a - 1) + (Zdigits2 b - 1))%Z by lia.
  rewrite Z.pow_add_r by lia.
  assert (0 < 2 ^ (Zdigits2 a - 1))%Z by (apply Z.pow_pos_nonneg; lia).
  assert (0 < 2 ^ (Zdigits2 b - 1))%Z by (apply Z.pow_pos_nonneg; lia).
  nia.
Qed.

(** The product of two valid finite floats: within [2 ^ -52] of the
    product of the values, up to [2 ^ -1074] where the result is
    subnormal. *)
Lemma SFmul_value (sx sy : bool) (mx my : positive) (ex ey : Z) :
  valid_binary (S754_finite sx mx ex) = true ->
  valid_binary (S754_finite sy my ey) = true ->
  let v := (inject_Z (Zpos mx) * pow2 ex) * (inject_Z (Zpos my) * pow2 ey) in
  match SFmul prec emax (S754_finite sx mx ex) (S754_finite sy my ey) with
  | S754_nan => False
  | S754_infinity _ => pow2 emax <= v * (1 + pow2 (-52)) + pow2 (-1074)
  | r => valid_binary r = true
         /\ exists q, SF2Q r == (if xorb sx sy then - q else q)
                      /\ 0 <= q
                      /\ Qabs (q - v) <= pow2 (-52) * v + pow2 (-1074)
  end.
Proof.
  intros Vx Vy v. cbn [SFmul].
  destruct (valid_finite sx mx ex Vx) as [Cx Hex].
  destruct (valid_finite sy my ey Vy) as [Cy Hey].
  rewrite Pos2Z.inj_mul.
  set (M := (Zpos mx * Zpos my)%Z).
  assert (HM : (0 < M)%Z) by (unfold M; lia).
  pose proof (Zdigits2_mul (Zpos mx) (Zpos my) ltac:(lia) ltac:(lia)) as Hd.
  fold M in Hd.
  pose proof (Zdigits2_pos (Zpos mx) ltac:(lia)) as Dx.
  pose proof (Zdigits2_pos (Zpos my) ltac:(lia)) as Dy.
  assert (Ha : (ex + ey <= fexp prec emax (Zdigits2 M + (ex + ey)))%Z).
  { rewrite fexp_eq in *. lia. }
  assert (HvM : inject_Z M * pow2 (ex + ey) == v).
  { unfold M, v. rewrite inject_Z_mult, pow2_add. ring. }
  pose proof (pos_value_pos mx ex) as Px. pose proof (pos_value_pos my ey) as Py.
  assert (Hv0 : 0 < v) by (unfold v; apply Qmult_lt_0_compat; assumption).
  destruct (binary_round_aux_value (xorb sx sy) M (ex + ey) loc_Exact ltac:(lia) Ha)
    as (m2 & Hm2 & _ & Hres).
  destruct (round_error M (ex + ey) m2 v ltac:(lia) Ha Hm2) as [Herr Hulp].
  { rewrite HvM. apply Qle_refl. }
  { rewrite <- HvM. apply Qmult_le_compat_r; [|apply Qlt_le_weak, pow2_pos].
    rewrite <- Zle_Qle. lia. }
  set (e1 := fexp prec emax (Zdigits2 M + (ex + ey))) in *.
  pose proof (pow2_pos (-52)) as P52. pose proof (pow2_pos (-1074)) as P1074.
  assert (Hv52 : 0 <= pow2 (-52) * v) by (apply Qmult_le_0_compat; lra).
  assert (Hu : pow2 e1 <= pow2 (-52) * v + pow2 (-1074)).
  { destruct Hulp as [->|Hulp]; lra. }
  assert (Hq2 : Qabs (inject_Z m2 * pow2 e1 - v) <= pow2 (-52) * v + pow2 (-1074))
    by (eapply Qle_trans; [exact Herr|exact Hu]).
  assert (Hq0 : 0 <= inject_Z m2 * pow2 e1).
  { apply Qmult_le_0_compat; [|apply Qlt_le_weak, pow2_pos].
    change 0 with (inject_Z 0). rewrite <- Zle_Qle.
    assert (0 <= M / 2 ^ (e1 - (ex + ey)))%Z; [|lia].
    apply Z.div_pos; [lia|]. apply Z.pow_pos_nonneg; lia. }
  destruct (binary_round_aux prec emax (xorb sx sy) M (ex + ey) loc_Exact)
    as [s'|s'| |s' m' e''].
  - destruct Hres as [Hvalid Hres]. split; [exact Hvalid|].
    exists (inject_Z m2 * pow2 e1). split; [|split; [exact Hq0|exact Hq2]].
    rewrite Hres, inject_Z_cond_Zopp. destruct (xorb sx sy); ring.
  - destruct Hres as [_ Hres]. apply Qabs_Qle_condition in Herr. lra.
  - exact Hres.
  - destruct Hres as [Hvalid Hres]. split; [exact Hvalid|].
    exists (inject_Z m2 * pow2 e1). split; [|split; [exact Hq0|exact Hq2]].
    rewrite Hres, inject_Z_cond_Zopp. destruct (xorb sx sy); ring.
Qed.

(** The product of two finite floats that are not negative, when it
    stays below the largest float. *)
Lemma mul_value (x y : float) :
  is_finite x = true -> is_finite y = true ->
  0 <= F2Q x -> 0 <= F2Q y ->
  (F2Q x * F2Q y) * (1 + pow2 (-52)) + pow2 (-1074) < pow2 emax ->
  is_finite (PrimFloat.mul x y) = true
  /\ 0 <= F2Q (PrimFloat.mul x y)
  /\ Qabs (F2Q (PrimFloat.mul x y) - F2Q x * F2Q y)
     <= pow2 (-52) * (F2Q x * F2Q y) + pow2 (-1074).
Proof.
  unfold is_finite, F2Q. intros Fx Fy Hx Hy Hsmall. rewrite mul_spec.
  unfold SF64mul.
  pose proof (Prim2SF_valid x) as Vx. pose proof (Prim2SF_valid y) as Vy.
  pose proof (pow2_pos (-52)) as P52. pose proof (pow2_pos (-1074)) as P1074.
  assert (Hzero : forall a b, a == 0 \/ b == 0 ->
                    0 <= 0 /\ Qabs (0 - a * b) <= pow2 (-52) * (a * b) + pow2 (-1074)).
  { intros a b Hab. split; [apply Qle_refl|].
    assert (E : a * b == 0) by (destruct Hab as [E|E]; rewrite E; ring).
    rewrite E. setoid_replace (0 - 0) with 0 by ring. change (Qabs 0) with 0. lra. }
  destruct (Prim2SF x) as [sx|sx| |sx mx ex], (Prim2SF y) as [sy|sy| |sy my ey];
    try discriminate Fx; try discriminate Fy;
    try (cbn [SFmul]; split; [reflexivity|]; cbn [SF2Q];
         apply Hzero; auto using Qeq_refl).
  pose proof (pos_value_pos mx ex) as Px. pose proof (pos_value_pos my ey) as Py.
  cbn [SF2Q] in Hx, Hy, Hsmall. rewrite inject_Z_cond_Zopp in Hx, Hy.
  destruct sx; [exfalso; lra|]. destruct sy; [exfalso; lra|].
  cbn [SF2Q cond_Zopp] in *.
  pose proof (SFmul_value false false mx my ex ey Vx Vy) as H. cbv zeta in H.
  destruct (SFmul prec emax (S754_finite false mx ex) (S754_finite false my ey))
    as [s'|s'| |s' m' e'].
  - destruct H as (_ & q & Hq & Hq0 & Herr). split; [reflexivity|].
    cbn [xorb] in Hq. rewrite Hq. split; [exact Hq0|exact Herr].
  - exfalso. exact (le_lt_false _ _ H Hsmall).
  - contradiction.
  - destruct H as (_ & q & Hq & Hq0 & Herr). split; [reflexivity|].
    cbn [xorb] in Hq. rewrite Hq. split; [exact Hq0|exact Herr].
Qed.

(** [x * 0.5] on a finite float that is not negative. *)
Lemma mul_half_value (x : float) :
  is_finite x = true -> 0 <= F2Q x ->
  is_finite (PrimFloat.mul x (of_Q (1 # 2))) = true
  /\ 0 <= F2Q (PrimFloat.mul x (of_Q (1 # 2)))
  /\ Qabs (F2Q (PrimFloat.mul x (of_Q (1 # 2))) - F2Q x * (1 # 2))
     <= pow2 (-52) * (F2Q x * (1 # 2)) + pow2 (-1074).
Proof.
  intros Fx Hx.
  assert (Eh : F2Q (of_Q (1 # 2)) == 1 # 2) by reflexivity.
  assert (Hsmall : F2Q x * F2Q (of_Q (1 # 2)) * (1 + pow2 (-52)) + pow2 (-1074)
                   < pow2 emax).
  { rewrite Eh.
    assert (Hlt : F2Q x < pow2 emax).
    { unfold F2Q in *. pose proof (Prim2SF_valid x) as Vx.
      destruct (Prim2SF x) as [s|s| |s m e]; try (apply pow2_pos).
      cbn [SF2Q] in *. rewrite inject_Z_cond_Zopp in *.
      pose proof (pos_value_pos m e). pose proof (valid_value_small s m e Vx).
      destruct s; lra. }
    assert (E52 : pow2 (-52) == 1 # 4503599627370496) by reflexivity.
    assert (Heta : pow2 (-1074) <= pow2 0) by (apply pow2_le; lia).
    assert (E0 : pow2 0 == 1) by reflexivity.
    assert (Hbig : 4 <= pow2 emax).
    { apply Qle_trans with (pow2 2); [apply Qle_lteq; right; reflexivity|].
      apply pow2_le. change emax with 1024%Z. lia. }
    rewrite E52, E0 in *. lra. }
  assert (Fh : is_finite (of_Q (1 # 2)) = true) by (vm_compute; reflexivity).
  assert (Hh : 0 <= F2Q (of_Q (1 # 2))) by (rewrite Eh; lra).
  destruct (mul_value x (of_Q (1 # 2)) Fx Fh Hx Hh Hsmall) as (F & P & E).
  rewrite Eh in E. auto.
Qed.

(** ** Differences *)

Lemma SFsub_SFadd (x y : spec_float) :
  SFsub prec emax x y = SFadd prec emax x (SFopp y).
Proof.
  destruct x as [sx|sx| |sx mx ex], y as [sy|sy| |sy my ey];
    cbn [SFsub SFadd SFopp]; try reflexivity;
    destruct sx, sy; reflexivity.
Qed.

(** The difference of two finite floats, when it stays below the largest
    float: finite, and within [2 ^ -52] of the difference of the values. *)
Lemma sub_value (x y : float) :
  is_finite x = true -> is_finite y = true ->
  Qabs (F2Q x - F2Q y) * (1 + pow2 (-52)) < pow2 emax ->
  is_finite (PrimFloat.sub x y) = true
  /\ Qabs (F2Q (PrimFloat.sub x y) - (F2Q x - F2Q y))
     <= pow2 (-52) * Qabs (F2Q x - F2Q y).
Proof.
  intros Fx Fy Hsmall.
  assert (E : PrimFloat.sub x y = PrimFloat.add x (PrimFloat.opp y)).
  { apply Prim2SF_inj. rewrite sub_spec, add_spec, opp_spec. apply SFsub_SFadd. }
  rewrite E.
  assert (Ev : F2Q x + F2Q (PrimFloat.opp y) == F2Q x - F2Q y)
    by (rewrite F2Q_opp; ring).
  destruct (add_value x (PrimFloat.opp y) Fx) as [F H].
  - rewrite is_finite_opp. exact Fy.
  - rewrite Ev. exact Hsmall.
  - split; [exact F|]. rewrite Ev in H. exact H.
Qed.

End Binary64Value.

(* ================================================================== *)
(** * The normaliser in binary64 *)
(* ================================================================== *)

Module Binary64Facts.
Import Binary64Value.

(** ** The scanned channels *)

(** What holds of every float off the alpha positions holds of every
    scanned channel. *)
Lemma scanned_channels (P : float -> Prop) (offsets : list float) :
  (forall i x, nth_error offsets i = Some x -> i mod 4 <> 3 -> P x) ->
  forall x, In x (scanned 0 offsets) -> P x.
Proof.
  intros H x Hx. apply In_scanned in Hx as (i & Hi & Ha).
  apply (H i x Hi). intros Hm. apply is_alpha_mod in Hm. change (0 + i) with i in Ha. congruence.
Qed.

Lemma channel_scanned (offsets : list float) (i : nat) (x : float) :
  nth_error offsets i = Some x -> i mod 4 <> 3 -> In x (scanned 0 offsets).
Proof.
  intros Hi Hm. apply In_scanned. exists i. split; [exact Hi|].
  change (0 + i) with i. apply is_alpha_other. exact Hm.
Qed.

(** [lowest_negative_offset *= -1] negates. *)
Lemma neg_extent_opp (offsets : list float) :
  neg_extent offsets = PrimFloat.opp (fst (scan_extents offsets)).
Proof. unfold neg_extent. apply mul_m1. Qed.

(** The divisor: the sum of the extents, or [1] when that is [0]. *)
Lemma divisor_span (offsets : list float) :
  divisor (span offsets)
  = if PrimFloat.eqb (PrimFloat.add (pos_extent offsets) (neg_extent offsets)) zero
    then one
    else PrimFloat.add (pos_extent offsets) (neg_extent offsets).
Proof.
  unfold span. cbn [feq fadd Binary64.binary64].
  change (of_int 0) with zero.
  destruct (PrimFloat.eqb _ zero); reflexivity.
Qed.

(** What the rewrite leaves off the alpha positions. *)
Lemma normalize_offsets_channels (offsets : list float) :
  exists ys,
    normalize_offsets offsets = inr ys
    /\ length ys = length offsets
    /\ forall i x,
        nth_error offsets i = Some x -> i mod 4 <> 3 ->
        nth_error ys i
        = Some (PrimFloat.div (PrimFloat.add x (neg_extent offsets))
                              (divisor (span offsets))).
Proof.
  destruct (normalize_offsets_inr offsets) as (ys & E & Hlen & Hnth).
  exists ys. split; [exact E|]. split; [exact Hlen|].
  intros i x Hx Hm. rewrite Hnth, Hx. cbn [option_map]. unfold normalized.
  rewrite (is_alpha_other i Hm). reflexivity.
Qed.

(** ** No motion *)

(** No motion: every scanned channel is [0.0]. *)
Definition still (offsets : list float) : Prop :=
  forall i x, nth_error offsets i = Some x -> i mod 4 <> 3 -> x = zero.

Lemma fold_min_zeros (l : list float) :
  Forall (eq zero) l -> fold_left (fun lo x => py_min x lo) l zero = zero.
Proof.
  induction 1 as [|x l <- _ IH]; [reflexivity|]. exact IH.
Qed.

Lemma fold_max_zeros (l : list float) :
  Forall (eq zero) l -> fold_left (fun hi x => py_max x hi) l zero = zero.
Proof.
  induction 1 as [|x l <- _ IH]; [reflexivity|]. exact IH.
Qed.

Lemma still_extents (offsets : list float) :
  still offsets -> scan_extents offsets = (zero, zero).
Proof.
  intros Hstill.
  assert (Hz : Forall (eq zero) (scanned 0 offsets)).
  { apply Forall_forall. intros x Hx. symmetry. revert x Hx.
    apply scanned_channels. exact Hstill. }
  rewrite scan_extents_scanned.
  change (of_Q 0) with zero.
  now rewrite (fold_min_zeros _ Hz), (fold_max_zeros _ Hz).
Qed.

(** Without motion the divisor is [1] and every scanned channel stays
    [0.0]. *)
Lemma still_normalises (offsets : list float) :
  still offsets ->
  span offsets = Int 1
  /\ forall ys i y,
      normalize_offsets offsets = inr ys -> nth_error ys i = Some y ->
      i mod 4 <> 3 -> y = zero.
Proof.
  intros Hstill.
  assert (Hspan : span offsets = Int 1).
  { unfold span, pos_extent, neg_extent. now rewrite (still_extents _ Hstill). }
  split; [exact Hspan|].
  intros ys i y E Hy Hm.
  destruct (normalize_offsets_channels offsets) as (ys' & E' & Hlen & Hnth).
  assert (ys' = ys) as -> by congruence.
  destruct (nth_error offsets i) as [x|] eqn:Hx.
  - rewrite (Hnth i x Hx Hm) in Hy. injection Hy as <-.
    rewrite (Hstill i x Hx Hm), Hspan.
    unfold neg_extent. rewrite (still_extents _ Hstill). reflexivity.
  - apply nth_error_None in Hx. rewrite <- Hlen in Hx.
    apply nth_error_None in Hx. congruence.
Qed.

(** ** The extents and the span *)

(** C5, amended: the normaliser's extents and span, in binary64.  On
    every list: [neg_extent] is minus the lowest offset, the divisor is
    the sum of the extents or [1.0] when that sum is [0.0], it passes
    Python's zero test, so the rewrite never raises [ZeroDivisionError],
    and every float off the indices [4 * k + 3] becomes
    [(x + neg_extent) / span].  Without motion the divisor is [1.0] and
    these floats stay [0.0].  When none of them is a NaN: the lowest
    offset is the least of [0.0] and these floats, [pos_extent] is the
    greatest, both extents are at least [0.0], and unless the span
    overflows to infinity no normalised float is a NaN. *)
Theorem normaliser_extents_and_span (offsets : list float) :
  let lowest := fst (scan_extents offsets) in
  let neg := neg_extent offsets in
  let pos := pos_extent offsets in
  let sum := PrimFloat.add pos neg in
  let d := divisor (span offsets) in
  neg = PrimFloat.opp lowest
  /\ d = (if PrimFloat.eqb sum zero then one else sum)
  /\ PrimFloat.eqb d zero = false
  /\ (exists ys,
         normalize_offsets offsets = inr ys
         /\ length ys = length offsets
         /\ forall i x,
             nth_error offsets i = Some x -> i mod 4 <> 3 ->
             nth_error ys i = Some (PrimFloat.div (PrimFloat.add x neg) d))
  /\ ((forall i x, nth_error offsets i = Some x -> i mod 4 <> 3 -> x = zero) ->
      d = one
      /\ forall ys i y,
          normalize_offsets offsets = inr ys -> nth_error ys i = Some y ->
          i mod 4 <> 3 -> y = zero)
  /\ ((forall i x, nth_error offsets i = Some x -> i mod 4 <> 3 ->
                   PrimFloat.is_nan x = false) ->
      (lowest = zero
       \/ exists i, nth_error offsets i = Some lowest /\ i mod 4 <> 3)
      /\ PrimFloat.leb lowest zero = true
      /\ (forall i x, nth_error offsets i = Some x -> i mod 4 <> 3 ->
                      PrimFloat.leb lowest x = true)
      /\ (pos = zero
          \/ exists i, nth_error offsets i = Some pos /\ i mod 4 <> 3)
      /\ PrimFloat.leb zero pos = true
      /\ (forall i x, nth_error offsets i = Some x -> i mod 4 <> 3 ->
                      PrimFloat.leb x pos = true)
      /\ PrimFloat.leb zero neg = true
      /\ (PrimFloat.is_infinity d = false ->
          forall ys i y,
            normalize_offsets offsets = inr ys -> nth_error ys i = Some y ->
            i mod 4 <> 3 -> PrimFloat.is_nan y = false)).
Proof.
  intros lowest neg pos sum d.
  split; [apply neg_extent_opp|].
  split; [apply divisor_span|].
  split.
  { unfold d. rewrite divisor_span.
    destruct (PrimFloat.eqb (PrimFloat.add (pos_extent offsets) (neg_extent offsets))
                            zero) eqn:Ez; [reflexivity|exact Ez]. }
  split; [apply normalize_offsets_channels|].
  split.
  { intros Hstill. destruct (still_normalises offsets Hstill) as [Hspan Hys].
    split; [unfold d; rewrite Hspan; reflexivity|exact Hys]. }
  intros Hnan.
  assert (Hnan' : forall x, In x (scanned 0 offsets) -> PrimFloat.is_nan x = false).
  { apply scanned_channels. exact Hnan. }
  destruct (Binary64Order.extents_ordered offsets Hnan')
    as ([Llo Lle] & [Lhi Lge] & Hneg & Hpos).
  fold lowest in Llo, Lle. fold pos in Lhi, Lge.
  assert (Hin : forall m, In m (zero :: scanned 0 offsets) ->
                          m = zero \/ exists i, nth_error offsets i = Some m /\ i mod 4 <> 3).
  { intros m [<-|Hm]; [now left|right].
    apply In_scanned in Hm as (i & Hi & Ha). exists i. split; [exact Hi|].
    intros Hmod. apply is_alpha_mod in Hmod. change (0 + i) with i in Ha. congruence. }
  split; [apply Hin; exact Llo|].
  split; [apply Lle; now left|].
  split; [intros i x Hi Hm; apply Lle; right; eapply channel_scanned; eauto|].
  split; [apply Hin; exact Lhi|].
  split; [apply Lge; now left|].
  split; [intros i x Hi Hm; apply Lge; right; eapply channel_scanned; eauto|].
  split; [exact Hneg|].
  intros Hinf ys i y E Hy Hm.
  destruct (Binary64Order.normalised_not_nan offsets Hnan' Hinf) as (ys' & E' & H).
  assert (ys' = ys) as -> by congruence.
  apply (H i y Hy). apply is_alpha_other. exact Hm.
Qed.

(** ** Where the original claims fail *)

(** [2 ^ 1023], half of what overflows. *)
Definition huge : float := Z.ldexp one 1023.

(** One vertex moved by [2 ^ 1023] along x, another by as much the other
    way. *)
Definition overflowing : list float :=
  [huge; zero; zero; one; PrimFloat.opp huge; zero; zero; one].

(** C5 fails in binary64 on finite offsets: the sum of the extents of
    [overflowing] is infinite, and the first channel is normalised to
    infinity divided by infinity, a NaN.  And a NaN among the offsets
    makes [neg_extent] a NaN, which is not at least [0.0]. *)
Lemma normaliser_nan_counterexample :
  Forall (fun x => is_finite x = true) overflowing
  /\ PrimFloat.is_infinity (divisor (span overflowing)) = true
  /\ (exists ys y,
         normalize_offsets overflowing = inr ys
         /\ nth_error ys 0 = Some y
         /\ PrimFloat.is_nan y = true)
  /\ PrimFloat.leb zero (neg_extent [zero; zero; nan; one]) = false.
Proof.
  split; [repeat (constructor; [vm_compute; reflexivity|]); constructor|].
  split; [vm_compute; reflexivity|].
  split; [|vm_compute; reflexivity].
  eexists _, _. split; [vm_compute; reflexivity|].
  split; vm_compute; reflexivity.
Qed.

(** ** Reconstruction loses small offsets *)

(** [abs(a - b) <= rel_tol * max(abs(a), abs(b))], the test of
    [math.isclose]. *)
Definition isclose (rel_tol a b : float) : bool :=
  PrimFloat.leb (PrimFloat.abs (PrimFloat.sub a b))
                (PrimFloat.mul rel_tol (py_max (PrimFloat.abs a) (PrimFloat.abs b))).

(** [normalized * span - neg_extent], as a shader computes it. *)
Definition reconstruct (offsets : list float) (y : float) : float :=
  fsub (fmul y (divisor (span offsets))) (neg_extent offsets).

(** One vertex moved by [1e-12] along x, another by [-100.0]. *)
Definition jitter : float := of_Q (1 # 1000000000000).
Definition jittering : list float :=
  [jitter; zero; zero; one; of_Q (-100 # 1); zero; zero; one].

(** C3 fails in binary64: the offset [1e-12] is normalised to [1.0] and
    comes back as [9.9475983006414026e-13], half a percent off, which is
    not within a relative tolerance of [1e-5] of it. *)
Lemma roundtrip_binary64_counterexample :
  exists ys y,
    normalize_offsets jittering = inr ys
    /\ nth_error jittering 0 = Some jitter
    /\ 0 mod 4 <> 3
    /\ nth_error ys 0 = Some y
    /\ y = one
    /\ reconstruct jittering y = of_Q (99475983006414026 # 100000000000000000000000000000)
    /\ isclose (of_Q (1 # 100000)) (reconstruct jittering y) jitter = false.
Proof.
  eexists _, _. split; [vm_compute; reflexivity|].
  split; [reflexivity|]. split; [discriminate|].
  repeat split; vm_compute; reflexivity.
Qed.

(** ** The round trip *)

Local Open Scope Q_scope.

Lemma pow2_m52 : pow2 (-52) == 1 # 4503599627370496.
Proof. reflexivity. Qed.

Lemma pow2_m50 : pow2 (-50) == 1 # 1125899906842624.
Proof. reflexivity. Qed.

Lemma pow2_m1074 : pow2 (-1074) <= 1 # 1152921504606846976.
Proof.
  apply Qle_trans with (pow2 (-60)); [apply pow2_le; lia|].
  apply Qle_lteq. right. reflexivity.
Qed.

Lemma pow2_emax : pow2 emax == 4 * pow2 1022.
Proof. change emax with (2 + 1022)%Z. rewrite pow2_add. reflexivity. Qed.

(** The arithmetic of the round trip: [q] is the rounded quotient of [a]
    by [D], [a] the rounded sum [A], [D] the rounded span [S]. *)
Lemma roundtrip_arith (q v a A S D : Q) :
  0 < D -> v * D == a ->
  Qabs (q - v) <= pow2 (-52) * v + pow2 (-1074) ->
  Qabs (a - A) <= pow2 (-52) * Qabs A ->
  0 <= A -> A <= S ->
  Qabs (D - S) <= pow2 (-52) * Qabs S ->
  Qabs (q * D - A) <= pow2 (-50) * D.
Proof.
  intros HD Hv Hq Ha HA HAS Hd.
  rewrite (Qabs_pos A HA) in Ha.
  rewrite (Qabs_pos S) in Hd by lra.
  pose proof pow2_m1074 as Heta.
  pose proof (pow2_pos (-1074)) as Peta.
  set (eta := pow2 (-1074)) in *. clearbody eta.
  rewrite pow2_m52 in Hq, Ha, Hd. rewrite pow2_m50.
  apply Qabs_Qle_condition in Hq, Ha, Hd.
  destruct Hq as [Hq1 Hq2]. destruct Ha as [Ha1 Ha2]. destruct Hd as [Hd1 Hd2].
  assert (M1 : (q - v) * D <= ((1 # 4503599627370496) * v + eta) * D)
    by (apply Qmult_le_compat_r; lra).
  assert (M2 : - ((1 # 4503599627370496) * v + eta) * D <= (q - v) * D)
    by (apply Qmult_le_compat_r; lra).
  assert (M3 : eta * D <= (1 # 1152921504606846976) * D)
    by (apply Qmult_le_compat_r; lra).
  setoid_replace ((q - v) * D) with (q * D - a) in M1
    by (rewrite <- Hv; ring).
  setoid_replace ((q - v) * D) with (q * D - a) in M2
    by (rewrite <- Hv; ring).
  setoid_replace (((1 # 4503599627370496) * v + eta) * D)
    with ((1 # 4503599627370496) * a + eta * D) in M1 by (rewrite <- Hv; ring).
  setoid_replace (- ((1 # 4503599627370496) * v + eta) * D)
    with (- ((1 # 4503599627370496) * a + eta * D)) in M2 by (rewrite <- Hv; ring).
  apply Qabs_Qle_condition. split; lra.
Qed.

(** The float [0.0] stands for [0] and is within every limit. *)
Lemma F2Q_zero_float : F2Q zero == 0.
Proof. reflexivity. Qed.

Lemma zero_within_limit : PrimFloat.leb (PrimFloat.abs zero) limit = true.
Proof. vm_compute. reflexivity. Qed.

Lemma F2Q_one : F2Q one == 1.
Proof. reflexivity. Qed.

(** What [==] with [0.0] tells about a finite float. *)
Lemma eqb_zero_value (x : float) :
  is_finite x = true ->
  (PrimFloat.eqb x zero = true -> F2Q x == 0)
  /\ (PrimFloat.eqb x zero = false -> ~ F2Q x == 0).
Proof.
  intros Fx. split.
  - rewrite eqb_spec. unfold F2Q. change (Prim2SF zero) with (S754_zero false).
    destruct (Prim2SF x) as [s|s| |s m e]; cbn [SF2Q]; try reflexivity;
      try discriminate.
    unfold SFeqb, SFcompare. destruct s; discriminate.
  - intros H E. apply (F2Q_zero x Fx) in E as [s E].
    rewrite eqb_spec, E in H. discriminate H.
Qed.

(** What is known of offsets whose scanned channels are within [limit]:
    the extents are finite, [neg_extent] is minus the lowest offset, every
    channel lies between the lowest offset and [pos_extent], and the
    divisor is a positive finite float within [2 ^ -52] of the span, or
    [1.0] when there is no motion at all. *)
Lemma bounded_extents (offsets : list float) :
  (forall i x, nth_error offsets i = Some x -> (i mod 4 <> 3)%nat ->
               PrimFloat.leb (PrimFloat.abs x) limit = true) ->
  let neg := neg_extent offsets in
  let pos := pos_extent offsets in
  let d := divisor (span offsets) in
  let S := F2Q pos + F2Q neg in
  is_finite neg = true /\ is_finite pos = true /\ is_finite d = true
  /\ 0 <= F2Q neg <= pow2 1022 /\ 0 <= F2Q pos <= pow2 1022
  /\ 0 < F2Q d
  /\ ((S == 0 /\ d = one) \/ (0 < S /\ Qabs (F2Q d - S) <= pow2 (-52) * Qabs S))
  /\ forall i x, nth_error offsets i = Some x -> (i mod 4 <> 3)%nat ->
       is_finite x = true /\ 0 <= F2Q x + F2Q neg <= S.
Proof.
  intros Hlim neg pos d S.
  assert (Hfin : forall x, In x (zero :: scanned 0 offsets) ->
                           is_finite x = true /\ Qabs (F2Q x) <= pow2 1022).
  { intros x [<-|Hx]; apply within_limit; [exact zero_within_limit|].
    revert x Hx. apply scanned_channels. exact Hlim. }
  assert (Hnan : forall x, In x (scanned 0 offsets) -> is_nan x = false).
  { intros x Hx. apply is_finite_not_nan, Hfin. right. exact Hx. }
  destruct (Binary64Order.extents_ordered offsets Hnan)
    as ([Llo Lle] & [Lhi Lge] & _ & _).
  set (lo := fst (scan_extents offsets)) in *. fold pos in Lhi, Lge.
  destruct (Hfin lo Llo) as [Flo Blo]. destruct (Hfin pos Lhi) as [Fpos Bpos].
  assert (Fzero : is_finite zero = true) by reflexivity.
  assert (Hlo0 : F2Q lo <= 0).
  { rewrite <- F2Q_zero_float. apply leb_value; auto. apply Lle. now left. }
  assert (Hpos0 : 0 <= F2Q pos).
  { rewrite <- F2Q_zero_float. apply leb_value; auto. apply Lge. now left. }
  assert (Eneg : neg = PrimFloat.opp lo) by apply neg_extent_opp.
  assert (Qneg : F2Q neg == - F2Q lo) by (rewrite Eneg; apply F2Q_opp).
  assert (Fneg : is_finite neg = true) by (rewrite Eneg, is_finite_opp; exact Flo).
  apply Qabs_Qle_condition in Blo, Bpos.
  pose proof (pow2_pos 1022) as PL. pose proof pow2_emax as Pmax.
  pose proof (pow2_pos (-52)) as P52. pose proof pow2_m52 as E52.
  assert (HS : 0 <= S <= 2 * pow2 1022) by (unfold S; lra).
  assert (Habs : Qabs S == S) by (apply Qabs_pos; lra).
  destruct (add_value pos neg Fpos Fneg) as [Fsum Esum].
  { fold S. rewrite Habs, Pmax, E52. lra. }
  fold S in Esum. rewrite Habs in Esum.
  set (sum := PrimFloat.add pos neg) in *.
  assert (Ed : d = if PrimFloat.eqb sum zero then one else sum)
    by apply divisor_span.
  destruct (eqb_zero_value sum Fsum) as [Z1 Z2].
  apply Qabs_Qle_condition in Esum. rewrite E52 in Esum.
  assert (Hd : is_finite d = true /\ 0 < F2Q d
               /\ ((S == 0 /\ d = one)
                   \/ (0 < S /\ Qabs (F2Q d - S) <= pow2 (-52) * Qabs S))).
  { destruct (PrimFloat.eqb sum zero) eqn:Ez; rewrite Ed.
    - specialize (Z1 eq_refl). split; [reflexivity|].
      split; [rewrite F2Q_one; lra|]. left. split; [lra|reflexivity].
    - specialize (Z2 eq_refl). split; [exact Fsum|].
      assert (0 < F2Q sum).
      { destruct (Qlt_le_dec 0 (F2Q sum)) as [|Hle]; [assumption|].
        exfalso. apply Z2. lra. }
      split; [assumption|]. right. split; [lra|].
      rewrite Habs, E52. apply Qabs_Qle_condition. lra. }
  destruct Hd as (Fd & Pd & Hd).
  repeat (split; [first [assumption|lra]|]).
  intros i x Hi Hm.
  pose proof (channel_scanned offsets i x Hi Hm) as Hx.
  destruct (Hfin x (or_intror Hx)) as [Fx Bx]. split; [exact Fx|].
  assert (F2Q lo <= F2Q x) by (apply leb_value; auto; apply Lle; now right).
  assert (F2Q x <= F2Q pos) by (apply leb_value; auto; apply Lge; now right).
  unfold S. lra.
Qed.

(** One scanned channel of such offsets: what the normaliser stores for
    a channel that held [x] is [(x + neg_extent) / span], a finite float
    between [0] and [1 + 2 ^ -50] whose exact image under
    [y * span - neg_extent] is within [2 ^ -50] times the span of [x];
    [x] and [neg_extent] are themselves at most [1 + 2 ^ -50] times the
    span in size. *)
Lemma normalised_channel (offsets : list float) (i : nat) (x : float) :
  (forall i x, nth_error offsets i = Some x -> (i mod 4 <> 3)%nat ->
               PrimFloat.leb (PrimFloat.abs x) limit = true) ->
  nth_error offsets i = Some x -> (i mod 4 <> 3)%nat ->
  let neg := neg_extent offsets in
  let d := divisor (span offsets) in
  let y := PrimFloat.div (PrimFloat.add x neg) d in
  is_finite y = true
  /\ 0 <= F2Q y <= 1 + pow2 (-50)
  /\ Qabs (F2Q y * F2Q d - F2Q neg - F2Q x) <= pow2 (-50) * F2Q d
  /\ Qabs (F2Q x) <= (1 + pow2 (-50)) * F2Q d
  /\ F2Q neg <= (1 + pow2 (-50)) * F2Q d.
Proof.
  intros Hlim Hi Hm.
  destruct (bounded_extents offsets Hlim)
    as (Fneg & Fpos & Fd & Bneg & Bpos & Pd & Hd & Hch).
  destruct (Hch i x Hi Hm) as [Fx HA].
  set (neg := neg_extent offsets) in *. set (pos := pos_extent offsets) in *.
  set (d := divisor (span offsets)) in *.
  set (S := F2Q pos + F2Q neg) in *. set (A := F2Q x + F2Q neg) in *.
  pose proof (pow2_pos 1022) as PL. pose proof pow2_emax as Pmax.
  pose proof (pow2_pos (-52)) as P52. pose proof pow2_m52 as E52.
  pose proof pow2_m1074 as Heta. pose proof (pow2_pos (-1074)) as Peta.
  assert (PL1 : 1 <= pow2 1022) by (apply (pow2_le 0 1022); lia).
  assert (HS : S <= 2 * pow2 1022) by (unfold S; lra).
  assert (HabsA : Qabs A == A) by (apply Qabs_pos; lra).
  destruct (add_value x neg Fx Fneg) as [Fa Ea].
  { fold A. rewrite HabsA, Pmax, E52. lra. }
  fold A in Ea. set (a := PrimFloat.add x neg) in *.
  assert (HSd : S <= (4503599627370496 # 4503599627370495) * F2Q d).
  { destruct Hd as [[S0 _]|[S0 Hd]].
    - lra.
    - rewrite (Qabs_pos S), E52 in Hd by lra.
      apply Qabs_Qle_condition in Hd. lra. }
  assert (Ha : 0 <= F2Q a
               /\ F2Q a <= (4503599627370497 # 4503599627370495) * F2Q d).
  { pose proof Ea as Ea'. rewrite HabsA, E52 in Ea'.
    apply Qabs_Qle_condition in Ea'. lra. }
  assert (Hv : F2Q a / F2Q d <= 4503599627370497 # 4503599627370495)
    by (apply Qle_shift_div_r; lra).
  assert (Hv0 : 0 <= F2Q a / F2Q d).
  { apply Qle_shift_div_l; [exact Pd|]. lra. }
  destruct (div_value a d Fa Fd (proj1 Ha) Pd) as (Fy & Ey & Py).
  { rewrite Pmax, E52. lra. }
  cbv zeta. fold neg d a.
  split; [exact Fy|]. split; [|split; [|split]].
  - split; [exact Py|].
    pose proof Ey as Ey'. rewrite E52 in Ey'. apply Qabs_Qle_condition in Ey'.
    rewrite pow2_m50. lra.
  - setoid_replace (F2Q (PrimFloat.div a d) * F2Q d - F2Q neg - F2Q x)
      with (F2Q (PrimFloat.div a d) * F2Q d - A) by (unfold A; ring).
    assert (HD : (0 < S /\ Qabs (F2Q d - S) <= pow2 (-52) * Qabs S)
                 \/ (S == 0 /\ A == 0 /\ F2Q a == 0)).
    { destruct Hd as [[S0 _]|Hd]; [right|left; exact Hd].
      assert (A == 0) by lra. split; [exact S0|]. split; [assumption|].
      rewrite HabsA, E52 in Ea. apply Qabs_Qle_condition in Ea. lra. }
    destruct HD as [[S0 HD]|(S0 & A0 & a0)].
    + apply (roundtrip_arith _ (F2Q a / F2Q d) (F2Q a) A S); auto; try lra.
      field. lra.
    + rewrite a0 in Ey.
      setoid_replace (0 / F2Q d) with 0 in Ey by (unfold Qdiv; ring).
      rewrite E52 in Ey. apply Qabs_Qle_condition in Ey.
      rewrite pow2_m50. apply Qabs_Qle_condition.
      assert (M1 : F2Q (PrimFloat.div a d) * F2Q d
                   <= (1 # 1152921504606846976) * F2Q d)
        by (apply Qmult_le_compat_r; lra).
      assert (M2 : - (1 # 1152921504606846976) * F2Q d
                   <= F2Q (PrimFloat.div a d) * F2Q d)
        by (apply Qmult_le_compat_r; lra).
      split; lra.
  - rewrite pow2_m50. apply Qabs_Qle_condition. unfold S, A in *. lra.
  - rewrite pow2_m50. unfold S in *. lra.
Qed.

(** C3, amended: the round trip in binary64.  On offsets whose scanned
    channels (the floats off the indices [4 * k + 3]) are at most
    [2 ^ 1022] in size, the normaliser returns finite floats, and for
    every scanned channel that held [x] and holds [y] afterwards,
    [y * span - neg_extent], computed exactly on these floats, is within
    [2 ^ -50] times the span of [x], which is within [1e-5] times the
    span; the span is the float the normaliser divided by, [1.0] when the
    sum of the extents is [0.0]. *)
Theorem roundtrip_binary64 (offsets : list float) :
  (forall i x, nth_error offsets i = Some x -> (i mod 4 <> 3)%nat ->
               PrimFloat.leb (PrimFloat.abs x) limit = true) ->
  exists ys,
    normalize_offsets offsets = inr ys
    /\ is_finite (neg_extent offsets) = true
    /\ is_finite (divisor (span offsets)) = true
    /\ 0 < F2Q (divisor (span offsets))
    /\ forall i x,
        nth_error offsets i = Some x -> (i mod 4 <> 3)%nat ->
        exists y,
          nth_error ys i = Some y
          /\ is_finite y = true
          /\ Qabs (F2Q y * F2Q (divisor (span offsets))
                   - F2Q (neg_extent offsets) - F2Q x)
             <= pow2 (-50) * F2Q (divisor (span offsets))
          /\ pow2 (-50) * F2Q (divisor (span offsets))
             <= (1 # 100000) * F2Q (divisor (span offsets)).
Proof.
  intros Hlim.
  destruct (bounded_extents offsets Hlim)
    as (Fneg & Fpos & Fd & Bneg & Bpos & Pd & Hd & Hch).
  destruct (normalize_offsets_channels offsets) as (ys & E & _ & Hnth).
  exists ys. repeat (split; [assumption|]).
  intros i x Hi Hm. eexists. split; [apply (Hnth i x Hi Hm)|].
  destruct (normalised_channel offsets i x Hlim Hi Hm) as (Fy & _ & Hy & _).
  split; [exact Fy|]. split; [exact Hy|].
  rewrite pow2_m50. apply Qmult_le_compat_r; [|apply Qlt_le_weak; exact Pd].
  unfold Qle. cbn. lia.
Qed.
(** ** The theorems at work on [jittering] *)

Lemma jittering_within_limit (i : nat) (x : float) :
  nth_error jittering i = Some x ->
  PrimFloat.leb (PrimFloat.abs x) limit = true.
Proof.
  intros H.
  do 8 (destruct i as [|i]; [injection H as <-; vm_compute; reflexivity|]).
  destruct i; discriminate H.
Qed.

Lemma roundtrip_binary64_witness :
  exists ys y,
    normalize_offsets jittering = inr ys
    /\ nth_error ys 0 = Some y
    /\ is_finite y = true
    /\ Qabs (F2Q y * F2Q (divisor (span jittering))
             - F2Q (neg_extent jittering) - F2Q jitter)
       <= pow2 (-50) * F2Q (divisor (span jittering)).
Proof.
  destruct (roundtrip_binary64 jittering
              (fun i x H _ => jittering_within_limit i x H))
    as (ys & E & _ & _ & _ & H).
  destruct (H 0%nat jitter eq_refl ltac:(discriminate)) as (y & Hy & Fy & Hr & _).
  exists ys, y. auto.
Defined.

Lemma normaliser_extents_and_span_witness :
  PrimFloat.leb (fst (scan_extents jittering)) (of_Q (-100 # 1)) = true
  /\ PrimFloat.leb jitter (pos_extent jittering) = true
  /\ PrimFloat.leb zero (neg_extent jittering) = true
  /\ forall ys i y,
      normalize_offsets jittering = inr ys -> nth_error ys i = Some y ->
      (i mod 4 <> 3)%nat -> PrimFloat.is_nan y = false.
Proof.
  destruct (normaliser_extents_and_span jittering)
    as (_ & _ & _ & _ & _ & H).
  destruct H as (_ & _ & Hlo & _ & _ & Hhi & Hneg & Hnan).
  { intros i x Hx _. apply is_finite_not_nan.
    apply within_limit. exact (jittering_within_limit i x Hx). }
  split; [apply (Hlo 4%nat); [reflexivity|discriminate]|].
  split; [apply (Hhi 0%nat); [reflexivity|discriminate]|].
  split; [exact Hneg|].
  apply Hnan. vm_compute. reflexivity.
Defined.

End Binary64Facts.

(* ================================================================== *)
(** * A scene to run the add-on on *)
(* ================================================================== *)

(** One plane of four vertices and two frames, 0 and 1: vertex 0 is at
    [(0,0,0)] in frame 0 and at [(1,0,0)] in frame 1, the other vertices
    stay, every normal is [(0,0,1)].  Everything is in binary64. *)
Module Scenario.
Local Open Scope string_scope.

Definition vertex (i : nat) (x y z : float) : MeshVertex float :=
  {| index := i; co := (x, y, z); normal := (zero, zero, one) |}.

Definition corner (i : nat) : MeshLoop :=
  {| loop_index := i; vertex_index := i |}.

(** The plane with vertex 0 at [(x0, 0, 0)]. *)
Definition plane (id : nat) (name : string) (users : nat) (x0 : float) : Mesh float :=
  {| mesh_id := id; mesh_name := name;
     vertices := [vertex 0 x0 zero zero; vertex 1 one zero zero;
                  vertex 2 one one zero; vertex 3 zero one zero];
     loops := [corner 0; corner 1; corner 2; corner 3];
     uv_layers := []; users := users |}.

(** A mesh of [n] loose vertices, all at the origin. *)
Definition row (n : nat) : Mesh float :=
  {| mesh_id := 0; mesh_name := "Row";
     vertices := map (fun i => vertex i zero zero zero) (seq 0 n);
     loops := []; uv_layers := []; users := 1 |}.

Definition host : Host float :=
  {| evaluated_mesh := fun ob i => plane 0 "Plane" 0 (of_int i);
     mul_m4_v3 := fun _ c => c;
     vert_normal := fun _ _ _ => (zero, zero, one);
     merge_loop_layers := fun layers _ _ _ => layers;
     new_uv_name := fun _ => "UVMap";
     new_uv_value := (zero, zero);
     unique_name := fun _ name => name;
     str_of_float := fun x => match Prim2SF x with
                              | S754_zero true => "-0.0"
                              | S754_zero false => "0.0"
                              | _ => "1.0"
                              end;
     str_of_int := fun _ => "1";
     dirname := fun _ => "/project";
     basename := fun path => path;
     splitext := fun name => (name, "");
     join := fun a b => (a ++ "/" ++ b)%string;
     match_numbered := fun _ => None |}.

Definition base : Mesh float := plane 0 "Plane" 1 zero.

Definition object_of (me : Mesh float) : Object float :=
  {| ob_name := mesh_name me; ob_type := "MESH"; ob_mode := "OBJECT"; ob_data := me;
     modifiers := ["ARMATURE"]; matrix_world := identity_matrix |}.

(** A scene that holds the objects [scene], the first of them active, with
    the objects [selected] selected and [blend] as the path of the file. *)
Definition world_of (scene selected : list (Object float)) (blend : string)
  : World float :=
  {| frame_start := 0; frame_end := 1; frame_step := 1; frame_current := 0;
     unit_system := "METRIC"; scale_length := of_Q (1 # 100);
     collection_objects := scene;
     selected_objects := selected;
     active_object := hd_error scene;
     meshes := map (@ob_data float) scene;
     objects := scene;
     images := [];
     filepath := blend;
     next_id := 1;
     reports := []; files := []; stdout := [] |}.

(** The plane selected, the file saved. *)
Definition world : World float :=
  world_of [object_of base] [object_of base] "/project/scene.blend".

(** The plane selected, the file never saved. *)
Definition unsaved : World float :=
  world_of [object_of base] [object_of base] "".

(** The plane active but not selected: nothing is selected. *)
Definition nothing_selected : World float :=
  world_of [object_of base] [] "/project/scene.blend".

(** One object of [n] vertices, selected. *)
Definition crowded (n : nat) : World float :=
  world_of [object_of (row n)] [object_of (row n)] "/project/scene.blend".

(** The two merged meshes the sampler returns for [world]. *)
Definition frames : list (Mesh float) :=
  [plane 2 "mesh" 0 zero; plane 4 "mesh" 0 one].

Definition encoded : list float * list float :=
  match get_vertex_data frames world with
  | (inr r, _) => r
  | _ => ([], [])
  end.

Lemma sampling :
  fst (get_per_frame_mesh_data host [object_of base] world) = inr frames.
Proof. vm_compute. reflexivity. Qed.

Lemma encoding :
  get_vertex_data frames world
  = (inr (fst encoded, snd encoded), snd (get_vertex_data frames world)).
Proof. vm_compute. reflexivity. Qed.

(** The raw offsets and the mapped normals of the scenario. *)
Lemma encoded_values :
  encoded
  = ([one; zero; zero; one; zero; zero; zero; one;
      zero; zero; zero; one; zero; zero; zero; one;
      zero; zero; zero; one; zero; zero; zero; one;
      zero; zero; zero; one; zero; zero; zero; one],
     flat_map (fun _ => [of_Q (1 # 2); of_Q (1 # 2); one; one]) (seq 0 8)).
Proof. vm_compute. reflexivity. Qed.

Lemma plane_well_indexed id name users x0 : well_indexed (plane id name users x0).
Proof.
  intros i v H. destruct i as [|[|[|[|i]]]]; simpl in H;
    try (injection H as <-; reflexivity).
  destruct i; discriminate H.
Qed.

Lemma plane_loops_well_indexed id name users x0 :
  loops_well_indexed (plane id name users x0).
Proof.
  intros i l H. destruct i as [|[|[|[|i]]]]; simpl in H;
    try (injection H as <-; reflexivity).
  destruct i; discriminate H.
Qed.

Lemma plane_loops_point_at_vertices id name users x0 :
  loops_point_at_vertices (plane id name users x0).
Proof.
  intros l H. simpl in H.
  destruct H as [<-|[<-|[<-|[<-|[]]]]]; simpl; lia.
Qed.

Lemma frames_valid :
  Forall (fun m => well_indexed m /\ length (vertices m) = 4) frames.
Proof.
  repeat constructor; apply plane_well_indexed.
Qed.

End Scenario.

(** ** The theorems at work on the scene *)

Lemma get_vertex_data_length_witness :
  exists offsets normals w',
    get_vertex_data Scenario.frames Scenario.world = (inr (offsets, normals), w')
    /\ length offsets = 4 * 4 * length Scenario.frames
    /\ length normals = 4 * 4 * length Scenario.frames.
Proof.
  apply (get_vertex_data_length Scenario.frames 4 Scenario.world).
  - discriminate.
  - exact Scenario.frames_valid.
Defined.

Lemma get_vertex_data_row_order_witness :
  firstn 4 (skipn (4 * (0 * 4 + 0)) (fst Scenario.encoded))
  = offset_pixel (Scenario.vertex 0 zero zero zero) (Scenario.vertex 0 one zero zero)
  /\ firstn 4 (skipn (4 * (0 * 4 + 0)) (snd Scenario.encoded))
     = normal_pixel (Scenario.vertex 0 one zero zero).
Proof.
  apply (get_vertex_data_row_order
           Scenario.frames 4 Scenario.world
           (snd (get_vertex_data Scenario.frames Scenario.world))
           (fst Scenario.encoded) (snd Scenario.encoded)
           Scenario.frames_valid Scenario.encoding
           0 0 (Scenario.plane 2 "mesh" 0 zero) (Scenario.plane 4 "mesh" 0 one)).
  - simpl. lia.
  - reflexivity.
  - reflexivity.
  - reflexivity.
  - reflexivity.
Defined.

Lemma alpha_channel_is_one_witness :
  nth_error (fst Scenario.encoded) 3 = Some (of_Q 1)
  /\ nth_error (snd Scenario.encoded) 7 = Some (of_Q 1)
  /\ exists ys,
      normalize_offsets (fst Scenario.encoded) = inr ys
      /\ nth_error ys 3 = Some (of_Q 1).
Proof.
  destruct (alpha_channel_is_one
              Scenario.frames Scenario.world
              (snd (get_vertex_data Scenario.frames Scenario.world))
              (fst Scenario.encoded) (snd Scenario.encoded) Scenario.encoding)
    as (Hraw & _ & ys & Eys & Hlen & Hys).
  split; [|split].
  - apply (proj1 (Hraw 0)). rewrite Scenario.encoded_values. simpl. lia.
  - apply (proj2 (Hraw 1)). rewrite Scenario.encoded_values. simpl. lia.
  - exists ys. split; [exact Eys|].
    apply (Hys 0). rewrite Hlen, Scenario.encoded_values. simpl. lia.
Defined.

Lemma create_export_mesh_object_uv_witness :
  exists ob w' uv_layer,
    create_export_mesh_object Scenario.host Scenario.base Scenario.world = (inr ob, w')
    /\ 2 <= length (uv_layers (ob_data ob))
    /\ nth_error (uv_layers (ob_data ob)) 1 = Some uv_layer
    /\ forall loop,
        In loop (loops Scenario.base) ->
        nth_error (uv_data uv_layer) (loop_index loop)
        = Some (lookup_uv (vertex_index loop) (length (vertices Scenario.base))).
Proof.
  apply (create_export_mesh_object_uv Scenario.host Scenario.base Scenario.world).
  - apply Scenario.plane_loops_well_indexed.
  - intros ly H. simpl in H. contradiction.
  - apply Scenario.plane_loops_point_at_vertices.
Defined.

Lemma limit_validation_witness :
  (forall r w',
      execute Scenario.host (Scenario.crowded (Z.to_nat 8192)) = (r, w') ->
      r <> inr CANCELLED
      /\ reports w' = reports (Scenario.crowded (Z.to_nat 8192)))
  /\ execute Scenario.host (Scenario.crowded (Z.to_nat 8193))
     = (inr CANCELLED,
        set_reports
          (reports (Scenario.crowded (Z.to_nat 8193))
           ++ [vertex_count_exceeds_limit
                 (base_vertex_count (selected_meshes (Scenario.crowded (Z.to_nat 8193))))])
          (Scenario.crowded (Z.to_nat 8193))).
Proof.
  split.
  - apply (limit_validation Scenario.host (Scenario.crowded (Z.to_nat 8192))
                            [0%Z; 1%Z]).
    + vm_compute. reflexivity.
    + vm_compute. reflexivity.
    + vm_compute. reflexivity.
    + apply Z.leb_le. vm_compute. reflexivity.
    + apply Z.leb_le. vm_compute. reflexivity.
  - apply (limit_validation Scenario.host (Scenario.crowded (Z.to_nat 8193))
                            [0%Z; 1%Z]).
    + vm_compute. reflexivity.
    + vm_compute. reflexivity.
    + vm_compute. reflexivity.
    + apply Z.ltb_lt. vm_compute. reflexivity.
Defined.

(** C8 fails on the code: with an active mesh object (so that [poll]
    lets the operator run) and nothing selected, [execute] does not cancel
    and reports nothing; it samples the frames, leaves an export object in
    [bpy.data] and then stops on the error Blender raises for an image of
    width 0. *)
Lemma degenerate_selection_counterexample :
  poll Scenario.nothing_selected = true
  /\ selected_meshes Scenario.nothing_selected = []
  /\ fst (execute Scenario.host Scenario.nothing_selected)
     = inl (HostError "images.new: width and height must be at least 1")
  /\ reports (snd (execute Scenario.host Scenario.nothing_selected)) = []
  /\ frame_current (snd (execute Scenario.host Scenario.nothing_selected)) = 1%Z
  /\ map (@ob_name float)
         (objects (snd (execute Scenario.host Scenario.nothing_selected)))
     = ["Plane"%string; "export_mesh"%string].
Proof. vm_compute. repeat split; reflexivity. Qed.

Lemma no_degenerate_validation_witness :
  exists r w' ob,
    execute Scenario.host Scenario.nothing_selected = (r, w')
    /\ r <> inr CANCELLED
    /\ reports w' = reports Scenario.nothing_selected
    /\ objects w' = objects Scenario.nothing_selected ++ [ob]
    /\ vertices (ob_data ob) = [].
Proof.
  apply (no_degenerate_validation Scenario.host Scenario.nothing_selected [0%Z; 1%Z]).
  - vm_compute. reflexivity.
  - reflexivity.
  - vm_compute. reflexivity.
  - apply Z.leb_le. vm_compute. reflexivity.
  - discriminate.
Defined.

(** C9 fails on the code: in a file that was never saved, [execute] runs
    the whole pipeline and fails only in [save_image_exr]; by then the
    export object is in [bpy.data] and in the scene and both textures are
    in [bpy.data]. *)
Lemma unsaved_file_counterexample :
  fst (execute Scenario.host Scenario.unsaved) = inl (RuntimeError not_saved_message)
  /\ frame_current (snd (execute Scenario.host Scenario.unsaved)) = 1%Z
  /\ map (@ob_name float) (objects (snd (execute Scenario.host Scenario.unsaved)))
     = ["Plane"%string; "export_mesh"%string]
  /\ map (@ob_name float)
         (collection_objects (snd (execute Scenario.host Scenario.unsaved)))
     = ["Plane"%string; "export_mesh"%string]
  /\ map (@image_name float) (images (snd (execute Scenario.host Scenario.unsaved)))
     = ["offsets_neg_max_-0.0_pos_max_1.0"%string; "normals"%string]
  /\ files (snd (execute Scenario.host Scenario.unsaved)) = [].
Proof. vm_compute. repeat split; reflexivity. Qed.

Lemma failures_and_outputs_witness :
  filepath Scenario.unsaved = ""%string
  /\ not_saved_message = not_saved_message
  /\ (exists ob,
         objects (snd (execute Scenario.host Scenario.unsaved))
         = objects Scenario.unsaved ++ [ob]
         /\ collection_objects (snd (execute Scenario.host Scenario.unsaved))
            = collection_objects Scenario.unsaved ++ [ob])
  /\ length (images (snd (execute Scenario.host Scenario.unsaved)))
     = 2 + length (images Scenario.unsaved)
  /\ files (snd (execute Scenario.host Scenario.unsaved)) = files Scenario.unsaved.
Proof.
  apply (proj2 (failures_and_outputs Scenario.host Scenario.unsaved)
               not_saved_message (snd (execute Scenario.host Scenario.unsaved))).
  vm_compute. reflexivity.
Defined.

Lemma texture_width_needs_stable_vertex_counts_witness :
  exists frames,
    frame_range Scenario.world = inr frames
    /\ length Scenario.frames = length frames
    /\ Forall2 (fun i m => length (vertices m)
                           = evaluated_vertex_count Scenario.host
                               [Scenario.object_of Scenario.base] i)
               frames Scenario.frames
    /\ ((forall ob i, In ob [Scenario.object_of Scenario.base] -> In i frames ->
           length (vertices (evaluated_mesh Scenario.host ob i))
           = length (vertices (ob_data ob))) ->
        Forall (fun m => length (vertices m)
                         = base_vertex_count [Scenario.object_of Scenario.base])
               Scenario.frames)
    /\ (Forall (fun m => length (vertices m)
                         = base_vertex_count [Scenario.object_of Scenario.base])
               Scenario.frames ->
        Scenario.frames <> [] ->
        forall w2,
        exists offsets normals w3,
          get_vertex_data Scenario.frames w2 = (inr (offsets, normals), w3)
          /\ texture_layout (base_vertex_count [Scenario.object_of Scenario.base])
                            Scenario.frames offsets normals)
    /\ forall w2 offsets normals w3,
        get_vertex_data Scenario.frames w2 = (inr (offsets, normals), w3) ->
        (texture_layout (base_vertex_count [Scenario.object_of Scenario.base])
                        Scenario.frames offsets normals
         <-> Forall (fun m => length (vertices m)
                              = base_vertex_count [Scenario.object_of Scenario.base])
                    Scenario.frames).
Proof.
  apply (texture_width_needs_stable_vertex_counts
           Scenario.host [Scenario.object_of Scenario.base] Scenario.world
           (snd (get_per_frame_mesh_data Scenario.host
                   [Scenario.object_of Scenario.base] Scenario.world))
           Scenario.frames).
  vm_compute. reflexivity.
Defined.

(* ================================================================== *)
(** * The frame range *)
(* ================================================================== *)

Section FrameRange.
Context {F : Type} {PF : PyFloat F}.

(** The number of frames of an ascending range. *)
Lemma range_len_ascending (start stop step : Z) :
  (0 < step)%Z ->
  Z.of_nat (range_len start stop step) = Z.max 0 ((stop - 1 - start) / step + 1).
Proof.
  intros Hs. unfold range_len.
  destruct (Z.ltb_spec 0 step) as [_|]; [|lia].
  destruct (Z.ltb_spec start stop) as [Hlt|Hge].
  - replace (stop - start - 1)%Z with (stop - 1 - start)%Z by lia.
    assert (0 <= (stop - 1 - start) / step)%Z by (apply Z.div_pos; lia).
    rewrite Z2Nat.id by lia. lia.
  - assert ((stop - 1 - start) / step < 0)%Z by (apply Z.div_lt_upper_bound; lia).
    simpl. lia.
Qed.

(** X1: [frame_range] raises [ValueError] on a frame step of [0].  On a
    positive step it returns the frames [frame_start + k * frame_step] in
    ascending order: exactly the frames from [frame_start] to [frame_end],
    both included, that lie a multiple of the step after [frame_start];
    there are [(frame_end - frame_start) / frame_step + 1] of them, and
    none when [frame_end] is before [frame_start]. *)
Theorem frame_range_frames (w : World F) :
  (frame_step w = 0%Z -> frame_range w = inl ValueError)
  /\ ((0 < frame_step w)%Z ->
      exists frames,
        frame_range w = inr frames
        /\ (forall k i, nth_error frames k = Some i ->
              i = (frame_start w + Z.of_nat k * frame_step w)%Z)
        /\ (forall i, In i frames
                      <-> (frame_start w <= i <= frame_end w)%Z
                          /\ ((i - frame_start w) mod frame_step w = 0)%Z)
        /\ Z.of_nat (length frames)
           = Z.max 0 ((frame_end w - frame_start w) / frame_step w + 1)
        /\ ((frame_end w < frame_start w)%Z -> frames = [])).
Proof.
  unfold frame_range, range. split.
  - intros ->. reflexivity.
  - intros Hs.
    destruct (Z.eqb_spec (frame_step w) 0) as [E|_]; [lia|].
    set (start := frame_start w). set (stop := frame_end w). set (step := frame_step w).
    fold step in Hs.
    pose proof (range_len_ascending start (stop + 1) step Hs) as Hlen.
    replace (stop + 1 - 1 - start)%Z with (stop - start)%Z in Hlen by lia.
    set (n := range_len start (stop + 1) step) in *.
    eexists. split; [reflexivity|].
    assert (Hnth : forall k i,
               nth_error (map (fun k => (start + Z.of_nat k * step)%Z) (seq 0 n)) k = Some i ->
               k < n /\ i = (start + Z.of_nat k * step)%Z).
    { intros k i Hk. rewrite nth_error_map in Hk.
      destruct (nth_error (seq 0 n) k) as [j|] eqn:Hj; [|discriminate].
      assert (Hkn : k < length (seq 0 n)) by (apply nth_error_Some; congruence).
      rewrite length_seq in Hkn.
      rewrite nth_error_seq in Hj.
      destruct (Nat.ltb_spec k n); [|lia].
      injection Hj as <-. injection Hk as <-. auto. }
    split; [intros k i Hk; apply (Hnth k i Hk)|].
    split; [|split].
    + intros i. split.
      * intros Hi. apply In_nth_error in Hi as [k Hk].
        destruct (Hnth k i Hk) as [Hkn ->].
        assert (Hq : (Z.of_nat k <= (stop - start) / step)%Z) by lia.
        assert (Hm : (step * ((stop - start) / step) <= stop - start)%Z).
        { apply Z.mul_div_le. lia. }
        split; [nia|].
        replace (start + Z.of_nat k * step - start)%Z with (Z.of_nat k * step)%Z by lia.
        apply Z.mod_mul. lia.
      * intros [[Hlo Hhi] Hmod].
        apply Z.mod_divide in Hmod; [|lia]. destruct Hmod as [q Hq].
        assert (Hq0 : (0 <= q)%Z) by nia.
        assert (Hqn : (q <= (stop - start) / step)%Z).
        { apply Z.div_le_lower_bound; lia. }
        apply in_map_iff. exists (Z.to_nat q). split.
        -- rewrite Z2Nat.id by lia. lia.
        -- apply in_seq. lia.
    + rewrite length_map, length_seq. exact Hlen.
    + intros Hlt.
      assert (((stop - start) / step < 0)%Z) by (apply Z.div_lt_upper_bound; lia).
      assert (n = 0) as -> by lia. reflexivity.
Qed.

End FrameRange.

(* ================================================================== *)
(** * The checks of [execute] on modifiers and units *)
(* ================================================================== *)

Section Validation.
Context {F : Type} {PF : PyFloat F}.
Variable host : Host F.

Definition allowed (mod_type : string) : bool :=
  existsb (String.eqb mod_type) allowed_modifiers.

Lemma allowed_In (mod_type : string) :
  allowed mod_type = true <-> In mod_type allowed_modifiers.
Proof.
  unfold allowed. rewrite existsb_exists. split.
  - intros (x & Hx & E). apply String.eqb_eq in E. now subst.
  - intros H. exists mod_type. split; [exact H|apply String.eqb_refl].
Qed.

(** The modifier check finds nothing exactly when every modifier of every
    selected mesh object is an allowed one. *)
Lemma first_disallowed_modifier_None (w : World F) :
  first_disallowed_modifier (selected_meshes w) = None
  <-> forall ob mod_type,
        In ob (selected_objects w) -> ob_type ob = "MESH"%string ->
        In mod_type (modifiers ob) -> In mod_type allowed_modifiers.
Proof.
  unfold first_disallowed_modifier, selected_meshes. split.
  - intros Hnone ob mod_type Hob Hty Hmod.
    apply allowed_In.
    assert (Hin : In mod_type
                     (flat_map (@modifiers F)
                        (filter (fun ob => String.eqb (ob_type ob) "MESH")
                                (selected_objects w)))).
    { apply in_flat_map. exists ob. split; [|exact Hmod].
      apply filter_In. split; [exact Hob|]. now apply String.eqb_eq. }
    pose proof (find_none _ _ Hnone mod_type Hin) as H.
    apply negb_false_iff in H. exact H.
  - intros Hall.
    destruct (find _ _) as [mod_type|] eqn:E; [|reflexivity].
    apply find_some in E as [Hin Hbad].
    apply in_flat_map in Hin as (ob & Hob & Hmod).
    apply filter_In in Hob as [Hob Hty]. apply String.eqb_eq in Hty.
    apply negb_true_iff in Hbad.
    pose proof (proj2 (allowed_In mod_type) (Hall ob mod_type Hob Hty Hmod)) as H.
    unfold allowed in H. congruence.
Qed.

Lemma first_disallowed_modifier_Some (w : World F) (mod_type : string) :
  first_disallowed_modifier (selected_meshes w) = Some mod_type ->
  ~ In mod_type allowed_modifiers
  /\ exists ob, In ob (selected_objects w) /\ ob_type ob = "MESH"%string
                /\ In mod_type (modifiers ob).
Proof.
  unfold first_disallowed_modifier, selected_meshes. intros E.
  apply find_some in E as [Hin Hbad].
  apply in_flat_map in Hin as (ob & Hob & Hmod).
  apply filter_In in Hob as [Hob Hty]. apply String.eqb_eq in Hty.
  split; [|eauto].
  intros H. apply allowed_In in H. unfold allowed in H.
  rewrite H in Hbad. discriminate.
Qed.

(** What [find] finds is the first element that passes the test. *)
Lemma find_first {A} (p : A -> bool) (l : list A) (x : A) :
  find p l = Some x ->
  exists before after,
    l = before ++ x :: after
    /\ Forall (fun y => p y = false) before /\ p x = true.
Proof.
  induction l as [|a l IH]; cbn [find]; [discriminate|].
  destruct (p a) eqn:Ea.
  - intros E. injection E as <-. exists [], l. repeat split; auto.
  - intros E. destruct (IH E) as (before & after & -> & Hb & Hx).
    exists (a :: before), after. repeat split; auto.
Qed.

(** X2: the modifier check of [execute].  On a scene with a frame step
    other than [0], [execute] cancels with the modifier report, leaving
    the world as it was but for that report, exactly when some selected
    object of type [MESH] has a modifier outside [allowed_modifiers]; the
    modifiers of selected objects of another type are not looked at, and
    the checks on units and on counts play no part.  The modifier
    reported is the first one outside [allowed_modifiers] in the order of
    the selected mesh objects and of their modifier stacks. *)
Theorem modifier_validation (w : World F) :
  frame_step w <> 0%Z ->
  ((exists mod_type,
       execute host w
       = (inr CANCELLED, set_reports (reports w ++ [modifier_not_allowed mod_type]) w))
   <-> exists ob mod_type,
         In ob (selected_objects w) /\ ob_type ob = "MESH"%string
         /\ In mod_type (modifiers ob) /\ ~ In mod_type allowed_modifiers)
  /\ forall mod_type,
       execute host w
       = (inr CANCELLED, set_reports (reports w ++ [modifier_not_allowed mod_type]) w) ->
       ~ In mod_type allowed_modifiers
       /\ exists before after,
            flat_map (@modifiers F) (selected_meshes w) = before ++ mod_type :: after
            /\ Forall (fun m => In m allowed_modifiers) before.
Proof.
  intros Hstep.
  assert (Hf : exists frames, frame_range w = inr frames).
  { unfold frame_range, range.
    destruct (Z.eqb_spec (frame_step w) 0); [contradiction|eauto]. }
  destruct Hf as [frames Hf].
  pose proof (execute_unfold host w) as Hx. rewrite Hf in Hx. cbv zeta in Hx.
  assert (Hnone : first_disallowed_modifier (selected_meshes w) = None ->
                  forall mod_type,
                    execute host w
                    <> (inr CANCELLED,
                        set_reports (reports w ++ [modifier_not_allowed mod_type]) w)).
  { intros Em mod_type E. rewrite Hx, Em in E.
    destruct (negb (units_ok w));
      [injection E as E; apply app_inv_head in E; discriminate|].
    destruct (8192 <? Z.of_nat (base_vertex_count (selected_meshes w)))%Z;
      [injection E as E; apply app_inv_head in E; discriminate|].
    destruct (8192 <? Z.of_nat (length frames))%Z;
      [injection E as E; apply app_inv_head in E; discriminate|].
    apply pipeline_returns in E. discriminate. }
  split; [split|].
  - intros [mod_type E].
    destruct (first_disallowed_modifier (selected_meshes w)) as [m|] eqn:Em.
    + destruct (first_disallowed_modifier_Some w m Em) as (Hbad & ob & Hob & Hty & Hmod).
      exists ob, m. auto.
    + now elim (Hnone eq_refl mod_type).
  - intros (ob & mod_type & Hob & Hty & Hmod & Hbad).
    destruct (first_disallowed_modifier (selected_meshes w)) as [m|] eqn:Em.
    + exists m. exact Hx.
    + exfalso. apply Hbad.
      exact (proj1 (first_disallowed_modifier_None w) Em ob mod_type Hob Hty Hmod).
  - intros mod_type E.
    destruct (first_disallowed_modifier (selected_meshes w)) as [m|] eqn:Em.
    2:{ now elim (Hnone eq_refl mod_type). }
    rewrite Hx in E. injection E as E. apply app_inv_head in E.
    injection E as ->.
    split; [exact (proj1 (first_disallowed_modifier_Some w mod_type Em))|].
    unfold first_disallowed_modifier in Em.
    destruct (find_first _ _ _ Em) as (before & after & Hl & Hb & _).
    exists before, after. split; [exact Hl|].
    eapply Forall_impl; [|exact Hb]. cbv beta. intros a Ha.
    apply negb_false_iff in Ha. now apply allowed_In.
Qed.

End Validation.

(* ================================================================== *)
(** * The reference row, the normalised range, the units and the normals
      in binary64 *)
(* ================================================================== *)

Module Binary64Checks.
Import Binary64Value.

(** ** The reference row *)

(** A finite float minus itself is [0.0]. *)
Lemma sub_self (x : float) : is_finite x = true -> PrimFloat.sub x x = zero.
Proof.
  unfold is_finite. intros Fx. apply Prim2SF_inj. rewrite sub_spec.
  change (Prim2SF zero) with (S754_zero false). unfold SF64sub.
  destruct (Prim2SF x) as [s|s| |s m e]; try discriminate Fx.
  - now destruct s.
  - cbn [SFsub]. rewrite Z.sub_diag. reflexivity.
Qed.

(** A vector of three finite components. *)
Definition finite_vector (c : Vector float) : bool :=
  let '(x, y, z) := c in is_finite x && is_finite y && is_finite z.

Lemma vector_sub_self (c : Vector float) :
  finite_vector c = true -> vector_sub c c = (zero, zero, zero).
Proof.
  destruct c as [[x y] z]. unfold finite_vector, vector_sub.
  intros H. apply andb_true_iff in H as [H Hz]. apply andb_true_iff in H as [Hx Hy].
  cbn [fsub Binary64.binary64]. now rewrite !sub_self.
Qed.

Lemma flat_map_agree {A B} (f g : A -> list B) (l : list A) :
  (forall a, In a l -> f a = g a) -> flat_map f l = flat_map g l.
Proof.
  induction l as [|a l IH]; intros H; cbn [flat_map]; [reflexivity|].
  rewrite (H a (or_introl eq_refl)), IH; [reflexivity|].
  intros b Hb. apply H. now right.
Qed.

(** X5: the reference frame, in binary64.  On meshes the first of which
    is well indexed and has finite coordinates, the offsets that
    [get_vertex_data] returns end with the row of the first mesh, and that
    row holds the pixel [(0.0, 0.0, 0.0, 1.0)] for every vertex: the first
    frame is the frame the offsets are measured from. *)
Theorem reference_row_is_zero
        (first : Mesh float) (rest : list (Mesh float)) (w w' : World float)
        (offsets normals : list float) :
  well_indexed first ->
  (forall v, In v (vertices first) -> finite_vector (co v) = true) ->
  get_vertex_data (first :: rest) w = (inr (offsets, normals), w') ->
  offsets
  = flat_map (offset_row (vertices first)) (rev rest)
    ++ flat_map (fun _ => [zero; zero; zero; one]) (vertices first).
Proof.
  intros Hwi Hfin E.
  apply get_vertex_data_returns in E as (first' & rest' & Hm & _ & -> & _).
  injection Hm as <- <-.
  cbn [rev]. rewrite flat_map_app. cbn [flat_map]. rewrite app_nil_r.
  f_equal. unfold offset_row.
  apply flat_map_agree. intros v Hv.
  pose proof (Hfin v Hv) as Fv.
  apply In_nth_error in Hv as [i Hi].
  rewrite (Hwi i v Hi), (nth_error_nth _ _ _ Hi).
  unfold offset_pixel. rewrite (vector_sub_self _ Fv). reflexivity.
Qed.

(** ** The normalised range *)

Local Open Scope Q_scope.

(** X6: the normalised range, in binary64.  On offsets whose scanned
    channels (the floats off the indices [4 * k + 3]) are at most
    [2 ^ 1022] in size, every scanned channel of the list the normaliser
    returns is a finite float that is not negative and at most
    [1 + 2 ^ -50]. *)
Theorem normalised_range_binary64 (offsets : list float) :
  (forall i x, nth_error offsets i = Some x -> (i mod 4 <> 3)%nat ->
               PrimFloat.leb (PrimFloat.abs x) limit = true) ->
  exists ys,
    normalize_offsets offsets = inr ys
    /\ length ys = length offsets
    /\ forall i y,
        nth_error ys i = Some y -> (i mod 4 <> 3)%nat ->
        is_finite y = true /\ 0 <= F2Q y <= 1 + pow2 (-50).
Proof.
  intros Hlim.
  destruct (Binary64Facts.normalize_offsets_channels offsets) as (ys & E & Hlen & Hnth).
  exists ys. split; [exact E|]. split; [exact Hlen|].
  intros i y Hy Hm.
  destruct (nth_error offsets i) as [x|] eqn:Hi.
  2:{ apply nth_error_None in Hi. rewrite <- Hlen in Hi.
      apply nth_error_None in Hi. congruence. }
  rewrite (Hnth i x Hi Hm) in Hy. injection Hy as <-.
  destruct (Binary64Facts.normalised_channel offsets i x Hlim Hi Hm)
    as (Fy & Hy & _).
  split; [exact Fy|exact Hy].
Qed.

(** ** [round(x, 2)] against [0.01] *)

Lemma rhe_div_nonneg (a b : Z) : (0 <= a)%Z -> (0 < b)%Z -> (0 <= rhe_div a b)%Z.
Proof.
  intros Ha Hb. unfold rhe_div.
  assert (0 <= a / b)%Z by (apply Z.div_pos; lia).
  destruct (2 * (a mod b) ?= b)%Z; [destruct (Z.even (a / b))| |]; lia.
Qed.

Lemma rhe_div_one (a b : Z) :
  (0 <= a)%Z -> (0 < b)%Z -> (rhe_div a b = 1%Z <-> (b < 2 * a < 3 * b)%Z).
Proof.
  intros Ha Hb. unfold rhe_div.
  pose proof (Z.div_mod a b ltac:(lia)) as Hdm.
  pose proof (Z.mod_pos_bound a b Hb) as Hr.
  assert (Hq : (0 <= a / b)%Z) by (apply Z.div_pos; lia).
  destruct (Z.compare_spec (2 * (a mod b)) b) as [E|E|E].
  - destruct (Z.even (a / b)) eqn:Ev.
    + split; [|nia]. intros H1. rewrite H1 in Ev. discriminate.
    + split; [|nia]. intros H1.
      assert (H0 : (a / b = 0)%Z) by lia. rewrite H0 in Ev. discriminate.
  - split; nia.
  - split; nia.
Qed.

(** [==] on zeros and finite floats is [==] on their values. *)
Lemma SFeqb_SF2Q (x y : spec_float) :
  finite x = true -> finite y = true ->
  SFeqb x y = true -> SF2Q x == SF2Q y.
Proof.
  intros Fx Fy.
  destruct x as [sx|sx| |sx mx ex], y as [sy|sy| |sy my ey];
    try discriminate Fx; try discriminate Fy; unfold SFeqb, SFcompare.
  - reflexivity.
  - destruct sy; discriminate.
  - destruct sx; discriminate.
  - destruct sx, sy; try discriminate;
      (destruct (Z.compare_spec ex ey) as [->|_|_]; try discriminate;
       destruct (Pos.compare_cont Eq mx my) eqn:Em; try discriminate;
       apply Pcompare_Eq_eq in Em; subst; reflexivity).
Qed.

(** The float [0.01]. *)
Definition hundredth : float := of_Q (1 # 100).

Lemma hundredth_value : F2Q hundredth == 5764607523034235 # 576460752303423488.
Proof. reflexivity. Qed.

Lemma pow2_0 : pow2 0 == 1.
Proof. reflexivity. Qed.

(** Of the floats nearest to [p / 100], only the one for [p = 1] equals
    [0.01]. *)
Lemma quotient_is_hundredth (s : bool) (p : positive) :
  PrimFloat.eqb (SF2Prim (SFdiv prec emax (S754_finite s p 0)
                                (S754_finite false 100 0)))
                hundredth = true
  <-> s = false /\ p = 1%positive.
Proof.
  split; [|intros [-> ->]; vm_compute; reflexivity].
  rewrite eqb_spec.
  pose proof (SFdiv_value s p 100 0 0) as H. cbv zeta in H.
  pose proof hundredth_value as Hh. unfold F2Q in Hh.
  assert (Fh : finite (Prim2SF hundredth) = true) by reflexivity.
  set (h := Prim2SF hundredth) in *.
  assert (Hnot : forall s', SFeqb (S754_infinity s') h = false)
    by (intros []; reflexivity).
  assert (Hp : 1 <= inject_Z (Zpos p)).
  { change 1 with (inject_Z 1). rewrite <- Zle_Qle. lia. }
  pose proof Binary64Facts.pow2_m52 as E52.
  pose proof Binary64Facts.pow2_m1074 as Heta.
  pose proof (pow2_pos (-1074)) as Peta.
  destruct (SFdiv prec emax (S754_finite s p 0) (S754_finite false 100 0))
    as [s'|s'| |s' m' e'] eqn:Er.
  - rewrite Prim2SF_SF2Prim by reflexivity. intros E.
    apply SFeqb_SF2Q in E; auto. rewrite Hh in E. discriminate E.
  - rewrite Prim2SF_SF2Prim by reflexivity. rewrite Hnot. discriminate.
  - contradiction.
  - destruct H as (Hvalid & q & Hq & Herr & Hq0).
    rewrite Prim2SF_SF2Prim by exact Hvalid. intros E.
    apply SFeqb_SF2Q in E; auto. rewrite Hh, Hq in E.
    rewrite pow2_0, E52 in Herr.
    setoid_replace (inject_Z (Zpos p) * 1 / (inject_Z 100 * 1))
      with (inject_Z (Zpos p) * (1 # 100)) in Herr by (unfold Qdiv; field).
    apply Qabs_Qle_condition in Herr.
    destruct s; [exfalso; lra|]. split; [reflexivity|].
    assert (Hlt : inject_Z (Zpos p) < inject_Z 2).
    { change (inject_Z 2) with 2. lra. }
    rewrite <- Zlt_Qlt in Hlt. lia.
Qed.

(** [round(x, 2) == 0.01] holds of the floats strictly between [0.005]
    and [0.015]: both ends are ties that [round] takes to the even
    neighbour. *)
Lemma round2_hundredth (x : float) :
  PrimFloat.eqb (Binary64.round2 x) hundredth = true
  <-> (1 # 200) < F2Q x /\ F2Q x < (3 # 200).
Proof.
  unfold Binary64.round2, F2Q.
  assert (Hother : PrimFloat.eqb x hundredth = true ->
                   exists s m e, Prim2SF x = S754_finite s m e).
  { rewrite eqb_spec. change (Prim2SF hundredth)
      with (S754_finite false 5764607523034235 (-59)).
    destruct (Prim2SF x) as [s|s| |s m e]; try destruct s; try discriminate; eauto. }
  destruct (Prim2SF x) as [s|s| |s m e] eqn:Ex;
    try (split; [intros H; apply Hother in H as (? & ? & ? & ?); discriminate
                |cbn [SF2Q]; intros [H _]; discriminate H]).
  cbn [SF2Q]. clear Hother.
  pose proof (pos_value_pos m e) as Pv.
  set (n := if (0 <=? e)%Z then (Zpos m * 100 * 2 ^ e)%Z
            else rhe_div (Zpos m * 100) (2 ^ (- e))).
  assert (Hzero : forall s', PrimFloat.eqb (SF2Prim (S754_zero s')) hundredth = false)
    by (intros []; vm_compute; reflexivity).
  assert (Hn : (0 <= n)%Z
               /\ (n = 1%Z <-> (1 # 200) < inject_Z (Zpos m) * pow2 e
                               /\ inject_Z (Zpos m) * pow2 e < (3 # 200))).
  { unfold n. destruct (Z.leb_spec 0 e) as [He|He].
    - assert (Hp : (0 < 2 ^ e)%Z) by (apply Z.pow_pos_nonneg; lia).
      split; [nia|]. split; [nia|]. intros [_ H]. exfalso.
      rewrite pow2_Z, <- inject_Z_mult in H by lia.
      assert (Hlt : inject_Z (Zpos m * 2 ^ e) < inject_Z 1)
        by (change (inject_Z 1) with 1; lra).
      rewrite <- Zlt_Qlt in Hlt. nia.
    - assert (Hp : (0 < 2 ^ (- e))%Z) by (apply Z.pow_pos_nonneg; lia).
      split; [apply rhe_div_nonneg; lia|].
      rewrite rhe_div_one by lia.
      assert (Hinv : pow2 e * inject_Z (2 ^ (- e)) == 1).
      { rewrite <- pow2_Z by lia. rewrite <- pow2_add.
        replace (e + - e)%Z with 0%Z by lia. reflexivity. }
      assert (Pb : 0 < inject_Z (2 ^ (- e))).
      { change 0 with (inject_Z 0). rewrite <- Zlt_Qlt. exact Hp. }
      pose proof (pow2_pos e) as Pe.
      set (b := inject_Z (2 ^ (- e))) in *.
      set (pe := pow2 e) in *.
      assert (Hm : inject_Z (Zpos m) == inject_Z (Zpos m) * pe * b)
        by (rewrite <- Qmult_assoc, Hinv; ring).
      split.
      + intros [H1 H2].
        assert (Q1 : b < 200 * inject_Z (Zpos m)).
        { unfold b. change 200 with (inject_Z 200).
          rewrite <- inject_Z_mult, <- Zlt_Qlt. lia. }
        assert (Q2 : 200 * inject_Z (Zpos m) < 3 * b).
        { unfold b. change 200 with (inject_Z 200). change 3 with (inject_Z 3).
          rewrite <- !inject_Z_mult, <- Zlt_Qlt. lia. }
        rewrite Hm in Q1, Q2.
        split.
        * destruct (Qlt_le_dec (1 # 200) (inject_Z (Zpos m) * pe)) as [|Hle];
            [assumption|exfalso].
          assert (inject_Z (Zpos m) * pe * b <= (1 # 200) * b)
            by (apply Qmult_le_compat_r; lra).
          lra.
        * destruct (Qlt_le_dec (inject_Z (Zpos m) * pe) (3 # 200)) as [|Hle];
            [assumption|exfalso].
          assert ((3 # 200) * b <= inject_Z (Zpos m) * pe * b)
            by (apply Qmult_le_compat_r; lra).
          lra.
      + intros [H1 H2].
        assert (Q1 : (1 # 200) * b < inject_Z (Zpos m) * pe * b)
          by (apply Qmult_lt_compat_r; assumption).
        assert (Q2 : inject_Z (Zpos m) * pe * b < (3 # 200) * b)
          by (apply Qmult_lt_compat_r; assumption).
        rewrite <- Hm in Q1, Q2.
        assert (Z1 : inject_Z (2 ^ (- e)) < inject_Z (2 * (Zpos m * 100))).
        { rewrite inject_Z_mult, inject_Z_mult. fold b.
          change (inject_Z 2) with 2. change (inject_Z 100) with 100. lra. }
        assert (Z2 : inject_Z (2 * (Zpos m * 100)) < inject_Z (3 * 2 ^ (- e))).
        { rewrite !inject_Z_mult. fold b.
          change (inject_Z 2) with 2. change (inject_Z 100) with 100.
          change (inject_Z 3) with 3. lra. }
        rewrite <- Zlt_Qlt in Z1, Z2. lia. }
  clearbody n. destruct Hn as [Hn0 Hn1].
  destruct n as [|p|p]; [| |lia].
  - rewrite Hzero. split; [discriminate|].
    intros H. rewrite inject_Z_cond_Zopp in H.
    destruct s; [lra|]. apply Hn1 in H. discriminate H.
  - rewrite quotient_is_hundredth, inject_Z_cond_Zopp. split.
    + intros [-> ->]. apply Hn1. reflexivity.
    + intros H. destruct s; [lra|]. split; [reflexivity|].
      apply Hn1 in H. congruence.
Qed.

(** The unit check of [execute], on the value of the unit scale. *)
Lemma units_ok_binary64 (w : World float) :
  units_ok w = true
  <-> unit_system w = "METRIC"%string
      /\ (1 # 200) < F2Q (scale_length w) /\ F2Q (scale_length w) < (3 # 200).
Proof.
  unfold units_ok. rewrite andb_true_iff, String.eqb_eq.
  cbn [feq Py.round2 Binary64.binary64].
  change (Py.of_Q (1 # 100)) with hundredth.
  rewrite round2_hundredth. reflexivity.
Qed.

(** X3: the unit check of [execute], in binary64.  On a scene with a
    frame step other than [0] whose selected mesh objects have allowed
    modifiers only, [execute] cancels with the unit report, whatever the
    vertex and frame counts are, exactly when the unit system is not
    [METRIC] or the unit scale does not round to [0.01]; and the scales
    that round to [0.01] are the floats whose value lies strictly between
    [0.005] and [0.015]. *)
Theorem unit_validation_binary64 (host : Host float) (w : World float) :
  frame_step w <> 0%Z ->
  first_disallowed_modifier (selected_meshes w) = None ->
  execute host w
  = (inr CANCELLED, set_reports (reports w ++ [scene_unit_not_metric]) w)
  <-> ~ (unit_system w = "METRIC"%string
         /\ (1 # 200) < F2Q (scale_length w) /\ F2Q (scale_length w) < (3 # 200)).
Proof.
  intros Hstep Hm.
  assert (Hf : exists frames, frame_range w = inr frames).
  { unfold frame_range, range.
    destruct (Z.eqb_spec (frame_step w) 0); [contradiction|eauto]. }
  destruct Hf as [frames Hf].
  rewrite <- units_ok_binary64.
  rewrite execute_unfold, Hf. cbv zeta. rewrite Hm.
  destruct (units_ok w); cbn [negb].
  - split; [|intros H; now elim H]. intros E _.
    destruct (8192 <? Z.of_nat (base_vertex_count (selected_meshes w)))%Z;
      [injection E as E; apply app_inv_head in E; discriminate|].
    destruct (8192 <? Z.of_nat (length frames))%Z;
      [injection E as E; apply app_inv_head in E; discriminate|].
    apply pipeline_returns in E. discriminate.
  - split; [discriminate|reflexivity].
Qed.

(** ** The normals *)

Lemma pow2_m49 : pow2 (-49) == 1 # 562949953421312.
Proof. reflexivity. Qed.

(** The colour [c] decodes to the component [x]: [c] is a finite float
    that is not negative, and [c * 2 - 1] is within [2 ^ -49] of [x]. *)
Definition decodes (c x : float) : Prop :=
  is_finite c = true /\ 0 <= F2Q c
  /\ Qabs (F2Q c * 2 - 1 - F2Q x) <= pow2 (-49).

(** [(x + 1) * 0.5] on a component between [-1.0] and [1.0]. *)
Lemma normalize_signed_decodes (x : float) :
  PrimFloat.leb (PrimFloat.abs x) one = true ->
  decodes (normalize_signed_to_zero_to_one_space x) x.
Proof.
  intros Hx. destruct (within_bound x one eq_refl Hx) as [Fx Bx].
  rewrite Binary64Facts.F2Q_one in Bx. apply Qabs_Qle_condition in Bx.
  unfold normalize_signed_to_zero_to_one_space.
  cbn [fmul fadd Py.of_Q Binary64.binary64].
  change (of_int 1) with one.
  pose proof Binary64Facts.pow2_emax as Pmax.
  pose proof (pow2_pos 1022) as PL.
  assert (PL1 : 1 <= pow2 1022) by (apply (pow2_le 0 1022); lia).
  pose proof Binary64Facts.pow2_m52 as E52.
  pose proof Binary64Facts.pow2_m1074 as Heta.
  pose proof (pow2_pos (-1074)) as Peta.
  assert (Habs : Qabs (F2Q x + F2Q one) == F2Q x + 1).
  { rewrite Binary64Facts.F2Q_one. apply Qabs_pos. lra. }
  destruct (add_value x one Fx eq_refl) as [Fs Es].
  { rewrite Habs, Pmax, E52. lra. }
  rewrite Habs, E52, Binary64Facts.F2Q_one in Es.
  apply Qabs_Qle_condition in Es.
  set (s := PrimFloat.add x one) in *.
  destruct (mul_half_value s Fs ltac:(lra)) as (Fy & Py & Ey).
  rewrite E52 in Ey. apply Qabs_Qle_condition in Ey.
  change (Binary64.of_Q (1 # 2)) with (of_Q (1 # 2)).
  split; [exact Fy|]. split; [exact Py|].
  rewrite pow2_m49. apply Qabs_Qle_condition. split; lra.
Qed.

(** X4: the normals, in binary64.  The normal list that
    [get_vertex_data] returns is made of one pixel per vertex, rows from
    the last mesh to the first; the three colours of the pixel of a vertex
    whose normal has components between [-1.0] and [1.0] are finite
    floats that are not negative, and each decodes ([c * 2 - 1], computed
    exactly) to its component within [2 ^ -49]; the fourth float of the
    pixel is [1.0]. *)
Theorem normals_decode_binary64
        (meshes : list (Mesh float)) (w w' : World float)
        (offsets normals : list float) :
  get_vertex_data meshes w = (inr (offsets, normals), w') ->
  normals = flat_map (fun mesh => flat_map normal_pixel (vertices mesh)) (rev meshes)
  /\ forall mesh vertex x y z,
       In mesh meshes -> In vertex (vertices mesh) ->
       normal vertex = (x, y, z) ->
       PrimFloat.leb (PrimFloat.abs x) one = true ->
       PrimFloat.leb (PrimFloat.abs y) one = true ->
       PrimFloat.leb (PrimFloat.abs z) one = true ->
       exists r g b,
         normal_pixel vertex = [r; g; b; one]
         /\ decodes r x /\ decodes g y /\ decodes b z.
Proof.
  intros E.
  apply get_vertex_data_returns in E as (first & rest & _ & _ & _ & Hn).
  split; [exact Hn|].
  intros mesh vertex x y z _ _ Hv Hx Hy Hz. unfold normal_pixel. rewrite Hv.
  eexists _, _, _. split; [reflexivity|].
  auto using normalize_signed_decodes.
Qed.


(** ** Reading the offsets back *)

Lemma pow2_m1073 : pow2 (-1073) == 2 * pow2 (-1074).
Proof. change (-1073)%Z with (1 + -1074)%Z. rewrite pow2_add. reflexivity. Qed.

(** The float the inverse transform gives, [y * span - neg_extent]
    evaluated in binary64, on what the normaliser stored.  On offsets
    whose scanned channels (the floats off the indices [4 * k + 3]) are
    at most [2 ^ 1022] in size, it is a finite float within
    [2 ^ -49] times the span, plus [2 ^ -1073], of the offset the channel
    held before. *)
Theorem reconstruct_binary64 (offsets : list float) :
  (forall i x, nth_error offsets i = Some x -> (i mod 4 <> 3)%nat ->
               PrimFloat.leb (PrimFloat.abs x) limit = true) ->
  exists ys,
    normalize_offsets offsets = inr ys
    /\ forall i x,
        nth_error offsets i = Some x -> (i mod 4 <> 3)%nat ->
        exists y,
          nth_error ys i = Some y
          /\ is_finite (Binary64Facts.reconstruct offsets y) = true
          /\ Qabs (F2Q (Binary64Facts.reconstruct offsets y) - F2Q x)
             <= pow2 (-49) * F2Q (divisor (span offsets)) + pow2 (-1073).
Proof.
  intros Hlim.
  destruct (Binary64Facts.bounded_extents offsets Hlim)
    as (Fneg & Fpos & Fd & Bneg & Bpos & Pd & Hd & Hch).
  destruct (Binary64Facts.normalize_offsets_channels offsets) as (ys & E & _ & Hnth).
  exists ys. split; [exact E|].
  intros i x Hi Hm. eexists. split; [apply (Hnth i x Hi Hm)|].
  destruct (Binary64Facts.normalised_channel offsets i x Hlim Hi Hm)
    as (Fy & [Hy0 Hy1] & Hrt & Hx & Hn).
  change (Binary64Facts.reconstruct offsets
            (PrimFloat.div (PrimFloat.add x (neg_extent offsets))
                           (divisor (span offsets))))
    with (PrimFloat.sub
            (PrimFloat.mul (PrimFloat.div (PrimFloat.add x (neg_extent offsets))
                                          (divisor (span offsets)))
                           (divisor (span offsets)))
            (neg_extent offsets)).
  set (neg := neg_extent offsets) in *. set (pos := pos_extent offsets) in *.
  set (d := divisor (span offsets)) in *.
  set (y := PrimFloat.div (PrimFloat.add x neg) d) in *.
  pose proof (pow2_pos 1022) as PL. pose proof Binary64Facts.pow2_emax as Pmax.
  pose proof Binary64Facts.pow2_m52 as E52. pose proof Binary64Facts.pow2_m50 as E50.
  pose proof Binary64Facts.pow2_m1074 as Heta. pose proof (pow2_pos (-1074)) as Peta.
  assert (PL1 : 1 <= pow2 1022) by (apply (pow2_le 0 1022); lia).
  assert (HD : F2Q d <= (4503599627370497 # 4503599627370496) * (2 * pow2 1022)).
  { destruct Hd as [[_ ->]|[S0 Hd]].
    - rewrite Binary64Facts.F2Q_one. lra.
    - rewrite (Qabs_pos (F2Q pos + F2Q neg)), E52 in Hd by lra.
      apply Qabs_Qle_condition in Hd. lra. }
  rewrite E50 in Hy1, Hrt, Hx, Hn.
  assert (HP : F2Q y * F2Q d <= (1 + (1 # 1125899906842624)) * F2Q d)
    by (apply Qmult_le_compat_r; lra).
  assert (HP0 : 0 <= F2Q y * F2Q d) by (apply Qmult_le_0_compat; lra).
  destruct (mul_value y d Fy Fd Hy0 ltac:(lra)) as (Fp & Pp & Ep).
  { rewrite Pmax, E52. lra. }
  set (p := PrimFloat.mul y d) in *. set (P := F2Q y * F2Q d) in *.
  rewrite E52 in Ep. apply Qabs_Qle_condition in Ep, Hrt, Hx.
  assert (Habs : Qabs (F2Q p - F2Q neg)
                 <= (1 + (1 # 1125899906842624)) * F2Q d
                    + ((1 # 4503599627370496) * P + pow2 (-1074))
                    + (1 # 1125899906842624) * F2Q d).
  { apply Qabs_Qle_condition. split; lra. }
  destruct (sub_value p neg Fp Fneg) as [Fr Er].
  { eapply Qle_lt_trans.
    - apply Qmult_le_compat_r; [exact Habs|]. rewrite E52. lra.
    - rewrite Pmax, E52. lra. }
  split; [exact Fr|].
  set (r := PrimFloat.sub p neg) in *.
  assert (Er' : Qabs (F2Q r - (F2Q p - F2Q neg))
                <= (1 # 4503599627370496)
                   * ((1 + (1 # 1125899906842624)) * F2Q d
                      + ((1 # 4503599627370496) * P + pow2 (-1074))
                      + (1 # 1125899906842624) * F2Q d)).
  { eapply Qle_trans; [exact Er|]. rewrite E52.
    apply Qmult_le_l; [reflexivity|exact Habs]. }
  apply Qabs_Qle_condition in Er'.
  rewrite pow2_m49, pow2_m1073. apply Qabs_Qle_condition. split; lra.
Qed.
End Binary64Checks.

(* ================================================================== *)
(** * Saving: [save_image_exr] and its file names *)
(* ================================================================== *)

Section Saving.
Context {F : Type} {PF : PyFloat F}.
Variable host : Host F.

(** The path [unique_filepath] tests for [name]. *)
Definition exr_path (directory name : string) : string :=
  join host directory (name ++ ".exr")%string.

(** [os.path.exists] on the files of the world. *)
Definition exists_file (existing : list string) (path : string) : bool :=
  existsb (String.eqb path) existing.

Lemma exists_file_In (existing : list string) (path : string) :
  exists_file existing path = true <-> In path existing.
Proof.
  unfold exists_file. rewrite existsb_exists. split.
  - intros (x & Hx & E). apply String.eqb_eq in E. now subst.
  - intros H. exists path. split; [exact H|apply String.eqb_refl].
Qed.

(** The name [unique_filepath] goes on with when [name] is taken. *)
Definition next_name (name : string) : string :=
  match match_numbered host name with
  | Some (root, n) => (root ++ "_" ++ str_of_int host (n + 1))%string
  | None => (name ++ "_" ++ str_of_int host 1)%string
  end.

(** The names it tries, in order. *)
Fixpoint candidate (k : nat) (name : string) : string :=
  match k with
  | O => name
  | S k' => candidate k' (next_name name)
  end.

Lemma unique_filepath_step (depth : nat) existing directory name :
  unique_filepath host (S depth) existing directory name
  = if exists_file existing (exr_path directory name)
    then unique_filepath host depth existing directory (next_name name)
    else inr (name, exr_path directory name).
Proof.
  cbn [unique_filepath]. unfold exists_file, exr_path, next_name.
  destruct (existsb _ existing); cbn [negb]; [|reflexivity].
  destruct (match_numbered host name) as [[root n]|]; reflexivity.
Qed.

(** Whatever [unique_filepath] returns is a candidate whose path is free,
    all earlier candidates being taken. *)
Lemma unique_filepath_inr (existing : list string) (directory : string) :
  forall depth name final full,
    unique_filepath host depth existing directory name = inr (final, full) ->
    exists k,
      k < depth
      /\ final = candidate k name
      /\ full = exr_path directory final
      /\ ~ In full existing
      /\ forall j, j < k -> In (exr_path directory (candidate j name)) existing.
Proof.
  induction depth as [|depth IH]; intros name final full E.
  - discriminate E.
  - rewrite unique_filepath_step in E.
    destruct (exists_file existing (exr_path directory name)) eqn:Ex.
    + destruct (IH _ _ _ E) as (k & Hk & Hf & Hp & Hfree & Hbusy).
      exists (S k). split; [lia|]. split; [exact Hf|]. split; [exact Hp|].
      split; [exact Hfree|].
      intros [|j] Hj; [now apply exists_file_In|]. apply Hbusy. lia.
    + injection E as <- <-. exists 0. split; [lia|]. split; [reflexivity|].
      split; [reflexivity|]. split.
      * intros H. apply exists_file_In in H. congruence.
      * intros j Hj. lia.
Qed.

Lemma unique_filepath_finds (existing : list string) (directory : string) :
  forall k depth name,
    k < depth ->
    (forall j, j < k -> In (exr_path directory (candidate j name)) existing) ->
    ~ In (exr_path directory (candidate k name)) existing ->
    unique_filepath host depth existing directory name
    = inr (candidate k name, exr_path directory (candidate k name)).
Proof.
  induction k as [|k IH]; intros depth name Hd Hbusy Hfree;
    (destruct depth as [|depth]; [lia|]); rewrite unique_filepath_step.
  - cbn [candidate] in *.
    destruct (exists_file existing (exr_path directory name)) eqn:Ex; [|reflexivity].
    apply exists_file_In in Ex. contradiction.
  - pose proof (Hbusy 0 ltac:(lia)) as H0. cbn [candidate] in H0.
    apply exists_file_In in H0. rewrite H0.
    apply (IH depth (next_name name)); [lia| |exact Hfree].
    intros j Hj. apply (Hbusy (S j)). lia.
Qed.

(** Among more candidates with different paths than there are files, one
    is free; the first of them. *)
Lemma first_free_candidate (existing : list string) (directory name : string) :
  NoDup (map (fun k => exr_path directory (candidate k name))
             (seq 0 (S (length existing)))) ->
  exists k,
    k <= length existing
    /\ ~ In (exr_path directory (candidate k name)) existing
    /\ forall j, j < k -> In (exr_path directory (candidate j name)) existing.
Proof.
  intros Hnd.
  set (path := fun k => exr_path directory (candidate k name)) in *.
  assert (Hsearch : forall n,
             (forall j, j < n -> In (path j) existing)
             \/ exists k, k < n /\ ~ In (path k) existing
                          /\ forall j, j < k -> In (path j) existing).
  { induction n as [|n [IH|IH]].
    - left. intros j Hj. lia.
    - destruct (exists_file existing (path n)) eqn:Ex.
      + left. intros j Hj. destruct (Nat.eq_dec j n) as [->|Hne].
        * now apply exists_file_In.
        * apply IH. lia.
      + right. exists n. split; [lia|]. split; [|exact IH].
        intros H. apply exists_file_In in H. congruence.
    - right. destruct IH as (k & Hk & H). exists k. split; [lia|exact H]. }
  destruct (Hsearch (S (length existing))) as [Hall|(k & Hk & Hfree & Hbusy)].
  - exfalso.
    assert (Hincl : incl (map path (seq 0 (S (length existing)))) existing).
    { intros p Hp. apply in_map_iff in Hp as (j & <- & Hj).
      apply in_seq in Hj. apply Hall. lia. }
    pose proof (NoDup_incl_length Hnd Hincl) as Hlen.
    rewrite length_map, length_seq in Hlen. lia.
  - exists k. split; [lia|]. auto.
Qed.

(** X7: the file name of [unique_filepath].  Whatever it returns is the
    first name, in the order it tries them ([name], then the numbered names
    that follow), whose [.exr] path is not an existing file: it never
    returns the path of an existing file.  And it does return such a name,
    without running out of nested calls, when the calls it may nest are
    more than the existing files and the first candidates (one more than
    there are files) have different paths. *)
Theorem unique_filepath_first_free
        (depth : nat) (existing : list string) (directory name : string) :
  (forall final full,
      unique_filepath host depth existing directory name = inr (final, full) ->
      full = exr_path directory final
      /\ ~ In full existing
      /\ exists k, final = candidate k name
                   /\ forall j, j < k ->
                        In (exr_path directory (candidate j name)) existing)
  /\ (length existing < depth ->
      NoDup (map (fun k => exr_path directory (candidate k name))
                 (seq 0 (S (length existing)))) ->
      exists final full,
        unique_filepath host depth existing directory name = inr (final, full)).
Proof.
  split.
  - intros final full E.
    destruct (unique_filepath_inr _ _ _ _ _ _ E) as (k & _ & Hf & Hp & Hfree & Hbusy).
    split; [exact Hp|]. split; [exact Hfree|]. exists k. auto.
  - intros Hd Hnd.
    destruct (first_free_candidate existing directory name Hnd)
      as (k & Hk & Hfree & Hbusy).
    eexists _, _.
    apply (unique_filepath_finds existing directory k depth name); [lia|auto|auto].
Qed.

(** The image as [save_image_exr] leaves it. *)
Definition saved_image (image : Image F) (path : string) : Image F :=
  with_file image "OPEN_EXR" path.

Definition saved_message (image : Image F) (path : string) : string :=
  ("Image '" ++ image_name image ++ "' saved as '" ++ basename host path ++ "'")%string.

(** The world after [image] was saved to [path]. *)
Definition saved_world (image : Image F) (path : string) (w : World F) : World F :=
  set_stdout (stdout w ++ [saved_message image path])
    (set_files (files w ++ [path])
       (set_images
          (map (fun i => if image_id i =? image_id image
                         then saved_image image path else i)
               (images w)) w)).

Lemma save_image_exr_unfold (image : Image F) (w : World F) :
  save_image_exr host image w
  = if String.eqb (filepath w) "" then (inl (RuntimeError not_saved_message), w)
    else
      match unique_filepath host recursion_limit (files w)
                            (dirname host (filepath w))
                            (fst (splitext host (image_name image))) with
      | inl e => (inl e, w)
      | inr (final_name, path) => (inr tt, saved_world image path w)
      end.
Proof.
  unfold save_image_exr. unfold bind at 1, gets at 1.
  destruct (String.eqb (filepath w) ""); [reflexivity|].
  unfold bind at 1, gets at 1. unfold bind at 1, lift at 1.
  destruct (unique_filepath _ _ _ _ _) as [e|[final_name path]]; reflexivity.
Qed.

(** X8: [save_image_exr].  It fails without changing anything, and only
    with the [RuntimeError] of a file that was never saved or with
    [RecursionError].  When it returns, it has written exactly one file,
    in the folder of the [.blend] file, under a name with the extension
    [.exr] that was not an existing file; the image in [bpy.data] has the
    format [OPEN_EXR] and that path, one line was printed, and nothing
    else has changed.  When the image name without its extension is free
    in that folder, that is the name used. *)
Theorem save_image_exr_outcome (image : Image F) (w : World F) :
  (forall e w',
      save_image_exr host image w = (inl e, w') ->
      w' = w
      /\ ((e = RuntimeError not_saved_message /\ filepath w = ""%string)
          \/ (e = RecursionError /\ filepath w <> ""%string)))
  /\ (forall u w',
         save_image_exr host image w = (inr u, w') ->
         filepath w <> ""%string
         /\ exists name,
              let path := exr_path (dirname host (filepath w)) name in
              ~ In path (files w)
              /\ w' = saved_world image path w
              /\ files w' = files w ++ [path]
              /\ file_format (saved_image image path) = "OPEN_EXR"%string
              /\ image_filepath (saved_image image path) = path)
  /\ (filepath w <> ""%string ->
      let base_name := fst (splitext host (image_name image)) in
      let path := exr_path (dirname host (filepath w)) base_name in
      ~ In path (files w) ->
      save_image_exr host image w = (inr tt, saved_world image path w)).
Proof.
  rewrite save_image_exr_unfold.
  destruct (String.eqb_spec (filepath w) "") as [Hp|Hp].
  - split; [|split].
    + intros e w' E. injection E as <- <-. auto.
    + intros u w' E. discriminate E.
    + intros H. contradiction.
  - destruct (unique_filepath host recursion_limit (files w)
                (dirname host (filepath w)) (fst (splitext host (image_name image))))
      as [e|[final_name path]] eqn:Eu.
    + split; [|split].
      * intros e' w' E. injection E as <- <-. split; [reflexivity|].
        right. split; [|exact Hp]. eapply unique_filepath_raises; eauto.
      * intros u w' E. discriminate E.
      * intros _ base_name path Hfree. subst path base_name. exfalso.
        rewrite (unique_filepath_finds (files w) (dirname host (filepath w)) 0
                   recursion_limit (fst (splitext host (image_name image)))) in Eu;
          [discriminate| unfold recursion_limit; lia | intros j Hj; lia | exact Hfree].
    + destruct (unique_filepath_inr _ _ _ _ _ _ Eu) as (k & _ & Hf & Hpath & Hfree & _).
      split; [|split].
      * intros e w' E. discriminate E.
      * intros u w' E. injection E as E. subst w'. split; [exact Hp|].
        exists final_name. cbv zeta. rewrite <- Hpath.
        repeat split. exact Hfree.
      * intros _ base_name path0 Hfree0. subst path0 base_name.
        rewrite (unique_filepath_finds (files w) (dirname host (filepath w)) 0
                   recursion_limit (fst (splitext host (image_name image)))) in Eu;
          [|unfold recursion_limit; lia | intros j Hj; lia | exact Hfree0].
        injection Eu as <- <-. reflexivity.
Qed.

End Saving.

(* ================================================================== *)
(** * The datablocks the add-on leaves in [bpy.data] *)
(* ================================================================== *)

Section Datablocks.
Context {F : Type} {PF : PyFloat F}.
Variable host : Host F.

(** Blender hands out a fresh identity with every datablock: the
    identities in use are below the next one. *)
Definition fresh_meshes (w : World F) : Prop :=
  Forall (fun m => mesh_id m < next_id w) (meshes w).

Definition fresh_images (w : World F) : Prop :=
  Forall (fun i => image_id i < next_id w) (images w).

(** [w] with another next identity, other meshes and another current
    frame. *)
Definition sampled_world (n : nat) (l : list (Mesh F)) (i : Z) (w : World F)
  : World F :=
  set_next_id n (set_meshes l (set_frame_current i w)).

Lemma sampled_world_same (w : World F) :
  sampled_world (next_id w) (meshes w) (frame_current w) w = w.
Proof. destruct w. reflexivity. Qed.

Lemma set_meshes_same (w : World F) : set_meshes (meshes w) w = w.
Proof. destruct w. reflexivity. Qed.

Lemma filter_other_ids (n : nat) (l : list (Mesh F)) :
  Forall (fun m => mesh_id m < n) l ->
  filter (fun m => negb (mesh_id m =? n)) l = l.
Proof.
  induction 1 as [|m l Hm _ IH]; cbn [filter]; [reflexivity|].
  destruct (Nat.eqb_spec (mesh_id m) n); [lia|]. cbn [negb]. now rewrite IH.
Qed.

Lemma store_other_ids (n : nat) (mesh : Mesh F) (l : list (Mesh F)) :
  Forall (fun m => mesh_id m < n) l ->
  map (fun m => if mesh_id m =? n then mesh else m) l = l.
Proof.
  induction 1 as [|m l Hm _ IH]; cbn [map]; [reflexivity|].
  destruct (Nat.eqb_spec (mesh_id m) n); [lia|]. now rewrite IH.
Qed.

Lemma Forall_lt_le (n n' : nat) (l : list (Mesh F)) :
  n <= n' -> Forall (fun m => mesh_id m < n) l -> Forall (fun m => mesh_id m < n') l.
Proof.
  intros Hn H. eapply Forall_impl; [|exact H]. cbv beta. intros; lia.
Qed.

Lemma last_cons {A} (l : list A) (a d : A) : last (a :: l) d = last l a.
Proof.
  revert a d; induction l as [|b l IH]; intros a d; [reflexivity|].
  change (last (a :: b :: l) d) with (last (b :: l) d).
  rewrite (IH b d), (IH b a). reflexivity.
Qed.

(** ** The sampler *)

(** One object: the evaluated mesh is added and removed again. *)
Lemma sample_object_world (bm : BMesh F) (ob : Object F) (w : World F) :
  fresh_meshes w ->
  sample_object host bm ob w
  = (inr (from_mesh host bm
            (transform host (matrix_world ob)
                       (evaluated_mesh host ob (frame_current w)))),
     sampled_world (S (next_id w)) (meshes w) (frame_current w) w).
Proof.
  intros Hfresh.
  unfold sample_object, meshes_new_from_object, meshes_add, meshes_remove,
    bind, gets, modify, ret.
  f_equal. unfold sampled_world.
  cbn [meshes set_next_id set_meshes set_frame_current next_id frame_current
       mesh_id transform with_geometry].
  rewrite filter_app, (filter_other_ids _ _ Hfresh).
  cbn [filter mesh_id]. rewrite Nat.eqb_refl. cbn [negb]. rewrite app_nil_r.
  destruct w. reflexivity.
Qed.

Lemma sample_objects_world (objects : list (Object F)) :
  forall (bm : BMesh F) (w : World F),
    fresh_meshes w ->
    foldM (sample_object host) objects bm w
    = (inr (merged host objects (frame_current w) bm),
       sampled_world (next_id w + length objects) (meshes w) (frame_current w) w).
Proof.
  induction objects as [|ob objects IH]; intros bm w Hfresh.
  - cbn [foldM merged fold_left length]. unfold ret.
    rewrite Nat.add_0_r, sampled_world_same. reflexivity.
  - cbn [foldM].
    rewrite (bind_step _ _ _ _ _ (sample_object_world bm ob w Hfresh)).
    rewrite IH.
    + cbn [length merged fold_left]. f_equal.
      unfold sampled_world.
      cbn [next_id meshes frame_current set_next_id set_meshes set_frame_current].
      replace (S (next_id w) + length objects) with (next_id w + S (length objects))
        by lia.
      destruct w. reflexivity.
    + unfold fresh_meshes, sampled_world.
      cbn [next_id meshes set_next_id set_meshes set_frame_current].
      eapply Forall_lt_le; [|exact Hfresh]. lia.
Qed.

(** One frame: the frame is set, the objects are merged, and the merged
    mesh is the one datablock that stays. *)
Lemma sample_frame_world (objects : list (Object F)) (acc : list (Mesh F))
      (i : Z) (w : World F) :
  fresh_meshes w ->
  exists m,
    sample_frame host objects acc i w
    = (inr (acc ++ [m]),
       sampled_world (S (next_id w + length objects)) (meshes w ++ [m]) i w)
    /\ sampled host objects i m
    /\ users m = 0
    /\ mesh_id m = next_id w + length objects.
Proof.
  intros Hfresh. unfold sample_frame.
  unfold bind at 1, modify at 1.
  assert (Hfresh1 : fresh_meshes (set_frame_current i w)) by exact Hfresh.
  rewrite (bind_step _ _ _ _ _
             (sample_objects_world objects bmesh_new (set_frame_current i w) Hfresh1)).
  cbn [frame_current set_frame_current next_id meshes].
  unfold meshes_new, meshes_add, meshes_store, bind, modify, ret.
  eexists. split; [|split; [|split]].
  - f_equal. unfold sampled_world.
    cbn [meshes next_id frame_current set_next_id set_meshes set_frame_current
         mesh_id to_mesh with_geometry].
    rewrite map_app,
      (store_other_ids _ _ _
         (Forall_lt_le (next_id w) (next_id w + length objects) (meshes w)
                       ltac:(lia) Hfresh)).
    cbn [map mesh_id]. rewrite Nat.eqb_refl.
    destruct w. reflexivity.
  - eexists. split; [|reflexivity]. reflexivity.
  - reflexivity.
  - reflexivity.
Qed.

Lemma sample_frames_world (objects : list (Object F)) (frames : list Z) :
  forall (acc : list (Mesh F)) (w : World F),
    fresh_meshes w ->
    exists ms,
      foldM (sample_frame host objects) frames acc w
      = (inr (acc ++ ms),
         sampled_world (next_id w + length frames * S (length objects))
                       (meshes w ++ ms) (last frames (frame_current w)) w)
      /\ Forall2 (sampled host objects) frames ms
      /\ Forall (fun m => users m = 0
                          /\ next_id w <= mesh_id m
                             < next_id w + length frames * S (length objects)) ms.
Proof.
  induction frames as [|i frames IH]; intros acc w Hfresh.
  - exists []. cbn [foldM length last]. unfold ret.
    rewrite !app_nil_r, Nat.mul_0_l, Nat.add_0_r, sampled_world_same. auto.
  - cbn [foldM].
    destruct (sample_frame_world objects acc i w Hfresh) as (m & E & Hm & Hu & Hid).
    rewrite (bind_step _ _ _ _ _ E).
    set (w1 := sampled_world (S (next_id w + length objects)) (meshes w ++ [m]) i w).
    assert (Hfresh1 : fresh_meshes w1).
    { unfold fresh_meshes, w1, sampled_world.
      cbn [next_id meshes set_next_id set_meshes set_frame_current].
      apply Forall_app. split.
      - eapply Forall_lt_le; [|exact Hfresh]. lia.
      - constructor; [lia|constructor]. }
    destruct (IH (acc ++ [m]) w1 Hfresh1) as (ms & E1 & Hms & Hall).
    exists (m :: ms). rewrite E1. split; [|split].
    + rewrite <- app_assoc. cbn [app]. f_equal.
      unfold w1, sampled_world.
      cbn [next_id meshes frame_current set_next_id set_meshes set_frame_current length].
      rewrite <- app_assoc. cbn [app].
      replace (S (next_id w + length objects) + length frames * S (length objects))
        with (next_id w + (S (length objects) + length frames * S (length objects)))
        by lia.
      rewrite (last_cons frames i (frame_current w)).
      destruct w. reflexivity.
    + constructor; assumption.
    + constructor.
      * split; [exact Hu|]. cbn [length]. lia.
      * eapply Forall_impl; [|exact Hall]. cbv beta.
        unfold w1, sampled_world.
        cbn [next_id set_next_id set_meshes set_frame_current length].
        intros a [Ha Hb]. split; [exact Ha|]. lia.
Qed.

(** X9: what [get_per_frame_mesh_data] leaves behind.  On a frame range
    that is valid it returns one mesh per frame; afterwards
    [bpy.data.meshes] holds the meshes it held before followed by exactly
    the returned meshes (every evaluated mesh was removed again), each
    returned mesh is without users and has a new identity, the scene
    stands at the last frame sampled (it is not set back), and nothing
    else has changed.  Over an empty frame range it returns no mesh and
    changes nothing. *)
Theorem get_per_frame_mesh_data_world
        (objects : list (Object F)) (w : World F) (frames : list Z) :
  frame_range w = inr frames ->
  fresh_meshes w ->
  exists ms w',
    get_per_frame_mesh_data host objects w = (inr ms, w')
    /\ length ms = length frames
    /\ meshes w' = meshes w ++ ms
    /\ frame_current w' = last frames (frame_current w)
    /\ w' = sampled_world (next_id w') (meshes w ++ ms)
                          (last frames (frame_current w)) w
    /\ Forall (fun m => users m = 0 /\ next_id w <= mesh_id m < next_id w') ms
    /\ fresh_meshes w'
    /\ (frames = [] -> ms = [] /\ w' = w).
Proof.
  intros Hf Hfresh. rewrite get_per_frame_mesh_data_unfold.
  unfold bind at 1, gets at 1. unfold bind at 1, lift at 1. rewrite Hf.
  destruct (sample_frames_world objects frames [] w Hfresh) as (ms & E & Hms & Hall).
  eexists ms, _. split; [exact E|].
  split; [symmetry; eapply Forall2_length; eauto|].
  split; [reflexivity|]. split; [reflexivity|]. split; [reflexivity|].
  split; [exact Hall|]. split.
  - unfold fresh_meshes, sampled_world.
    cbn [next_id meshes set_next_id set_meshes set_frame_current].
    apply Forall_app. split.
    + eapply Forall_lt_le; [|exact Hfresh]. lia.
    + eapply Forall_impl; [|exact Hall]. cbv beta. intros a [_ Ha]. lia.
  - intros ->. inversion Hms; subst. split; [reflexivity|].
    cbn [length last]. rewrite Nat.mul_0_l, Nat.add_0_r, app_nil_r.
    apply sampled_world_same.
Qed.

(** ** The encoder *)

(** [mesh] is in [l] without users: [get_vertex_data] removes the
    datablock with its identity. *)
Definition removed_by (l : list (Mesh F)) (mesh : Mesh F) : bool :=
  existsb (fun x => (users x =? 0) && (mesh_id mesh =? mesh_id x)) l.

Definition kept_by (l : list (Mesh F)) (mesh : Mesh F) : bool :=
  negb (removed_by l mesh).

Lemma removed_by_rev (l : list (Mesh F)) (mesh : Mesh F) :
  removed_by (rev l) mesh = removed_by l mesh.
Proof.
  unfold removed_by. induction l as [|x l IH]; [reflexivity|].
  cbn [rev existsb]. rewrite existsb_app, IH. cbn [existsb].
  rewrite orb_false_r. apply orb_comm.
Qed.

Lemma filter_filter {A} (p q : A -> bool) (l : list A) :
  filter q (filter p l) = filter (fun a => p a && q a) l.
Proof.
  induction l as [|a l IH]; [reflexivity|]. cbn [filter].
  destruct (p a); cbn [filter andb]; [destruct (q a)|]; now rewrite IH.
Qed.

Lemma filter_all {A} (l : list A) : filter (fun _ => true) l = l.
Proof. induction l as [|a l IH]; [reflexivity|]. cbn [filter]. now rewrite IH. Qed.

Lemma outer_loop_world (original : list (MeshVertex F)) (l : list (Mesh F)) :
  forall acc w acc' w',
    foldM (outer_body original) l acc w = (inr acc', w') ->
    w' = set_meshes (filter (kept_by l) (meshes w)) w.
Proof.
  induction l as [|m l IH]; intros acc w acc' w' E; cbn [foldM] in E.
  - injection E as _ <-.
    rewrite (filter_ext (kept_by []) (fun _ => true)) by reflexivity.
    now rewrite filter_all, set_meshes_same.
  - apply bind_inr in E as (acc1 & w1 & E1 & E2).
    apply IH in E2. subst w'.
    unfold outer_body in E1.
    apply bind_inr in E1 as (acc2 & w2 & E3 & E4).
    unfold lift in E3. injection E3 as _ <-.
    apply bind_inr in E4 as (u & w3 & E5 & E6).
    injection E6 as _ <-.
    assert (Hstep : w3 = set_meshes (filter (kept_by [m]) (meshes w)) w).
    { unfold kept_by, removed_by. cbn [existsb].
      destruct (users m =? 0); cbn [andb orb].
      - unfold meshes_remove, modify in E5. injection E5 as E5. subst w3.
        f_equal. apply filter_ext. intros a. now rewrite orb_false_r.
      - injection E5 as E5. subst w3.
        now rewrite filter_all, set_meshes_same. }
    subst w3. cbn [meshes set_meshes]. rewrite filter_filter.
    replace (set_meshes
               (filter (fun a => kept_by [m] a && kept_by l a) (meshes w))
               (set_meshes (filter (kept_by [m]) (meshes w)) w))
      with (set_meshes (filter (fun a => kept_by [m] a && kept_by l a) (meshes w)) w)
      by reflexivity.
    f_equal. apply filter_ext. intros a.
    unfold kept_by, removed_by. cbn [existsb].
    rewrite orb_false_r, negb_orb. reflexivity.
Qed.

Lemma get_vertex_data_world_aux (ms : list (Mesh F)) (w w' : World F)
      (r : list F * list F) :
  get_vertex_data ms w = (inr r, w') ->
  w' = set_meshes (filter (kept_by ms) (meshes w)) w.
Proof.
  intros E. rewrite get_vertex_data_unfold in E.
  apply bind_inr in E as (original & w1 & E1 & E2).
  unfold lift in E1. injection E1 as _ <-.
  apply outer_loop_world in E2. subst w'.
  f_equal. apply filter_ext. intros a. unfold kept_by.
  now rewrite removed_by_rev.
Qed.

Lemma get_vertex_data_index_error (ms : list (Mesh F)) :
  raises_only (fun e => e = IndexError) (get_vertex_data ms).
Proof.
  unfold get_vertex_data.
  apply raises_only_bind.
  - apply raises_only_lift. intros e. unfold getitem.
    destruct (nth_error ms 0); intros E; inversion E. reflexivity.
  - intros original. apply raises_only_foldM; intros acc mesh.
    apply raises_only_bind.
    + apply raises_only_lift. intros e.
      revert acc. induction (vertices mesh) as [|v vs IH]; intros acc E;
        cbn [fold_err] in E; [discriminate|].
      destruct (emit_vertex original acc v) as [e1|acc1] eqn:E1.
      * injection E as <-. unfold emit_vertex, getitem in E1.
        destruct acc as [offsets normals].
        destruct (nth_error original (index v)); [|now inversion E1].
        destruct (vector_sub _ _) as [[x y] z]. destruct (normal v) as [[nx ny] nz].
        discriminate.
      * eapply IH; eauto.
    + intros acc'. apply raises_only_bind; [|intros _; apply raises_only_ret].
      destruct (users mesh =? 0); [apply raises_only_modify|apply raises_only_ret].
Qed.

(** X10: the outcome of [get_vertex_data].  On an empty list it raises
    [IndexError] and changes nothing; [IndexError] is the only error it
    raises; on a list with a first mesh it returns exactly when no vertex
    of any mesh has an index outside the first mesh.  When it returns, it
    has removed from [bpy.data.meshes] the datablocks of the listed meshes
    that have no users, kept every other datablock in place and changed
    nothing else. *)
Theorem get_vertex_data_outcome (ms : list (Mesh F)) (w : World F) :
  (ms = [] -> get_vertex_data ms w = (inl IndexError, w))
  /\ (forall e w', get_vertex_data ms w = (inl e, w') -> e = IndexError)
  /\ (forall first rest,
         ms = first :: rest ->
         ((forall m, In m ms -> indices_within (vertices first) m)
          <-> exists r w', get_vertex_data ms w = (inr r, w')))
  /\ (forall r w',
         get_vertex_data ms w = (inr r, w') ->
         w' = set_meshes (filter (kept_by ms) (meshes w)) w).
Proof.
  split; [|split; [|split]].
  - intros ->. reflexivity.
  - intros e w' E. exact (get_vertex_data_index_error ms w e w' E).
  - intros first rest ->. split.
    + intros Hin. destruct (get_vertex_data_inr first rest w Hin) as [w' E]. eauto.
    + intros ([offsets normals] & w' & E).
      apply get_vertex_data_returns in E as (first' & rest' & Hm & Hin & _).
      injection Hm as <- <-. exact Hin.
  - intros r w' E. eapply get_vertex_data_world_aux; eauto.
Qed.

(** ** The export mesh *)

(** [l] after a change made through a reference to [me]. *)
Definition stored (me : Mesh F) (l : list (Mesh F)) : list (Mesh F) :=
  map (fun m => if mesh_id m =? mesh_id me then me else m) l.

Lemma stored_stored (a b : Mesh F) (l : list (Mesh F)) :
  mesh_id a = mesh_id b -> stored b (stored a l) = stored b l.
Proof.
  intros Hab. unfold stored. rewrite map_map. apply map_ext. intros m.
  destruct (Nat.eqb_spec (mesh_id m) (mesh_id a)) as [E|E].
  - rewrite Hab, Nat.eqb_refl.
    destruct (Nat.eqb_spec (mesh_id m) (mesh_id b)); [reflexivity|congruence].
  - reflexivity.
Qed.

(** The same datablock with other UV layers or another user count. *)
Definition same_block (me me' : Mesh F) : Prop :=
  mesh_id me' = mesh_id me /\ users me' = users me
  /\ vertices me' = vertices me /\ loops me' = loops me.

Lemma same_block_trans (a b c : Mesh F) :
  same_block a b -> same_block b c -> same_block a c.
Proof. unfold same_block. intuition congruence. Qed.

Lemma ensure_two_uv_layers_block (me : Mesh F) :
  same_block me (ensure_two_uv_layers host me).
Proof.
  unfold ensure_two_uv_layers, same_block.
  destruct (uv_layers me) as [|l0 [|l1 rest]]; repeat split.
Qed.

Lemma rename_uv_layer_1_block (me : Mesh F) (name : string) :
  same_block me (rename_uv_layer_1 host me name).
Proof.
  unfold rename_uv_layer_1, same_block.
  destruct (uv_layers me) as [|l0 [|l1 rest]]; repeat split.
Qed.

Lemma write_uv_block (me me' : Mesh F) (loop : MeshLoop) :
  write_uv me loop = inr me' -> same_block me me'.
Proof.
  unfold write_uv, same_block.
  destruct (truediv_int _ _); [discriminate|].
  destruct (int_truediv 128 255); [discriminate|].
  destruct (getitem (uv_layers me) 1) as [e|ly]; [discriminate|].
  destruct (loop_index loop <? length (uv_data ly)); [|discriminate].
  intros E. injection E as <-. repeat split.
Qed.

Lemma uv_loop_world (ls : list MeshLoop) :
  forall (me : Mesh F) (l0 : list (Mesh F)) (w : World F) me' w',
    foldM uv_body ls me (set_meshes (stored me l0) w) = (inr me', w') ->
    w' = set_meshes (stored me' l0) w /\ same_block me me'.
Proof.
  induction ls as [|loop ls IH]; intros me l0 w me' w' E; cbn [foldM] in E.
  - injection E as <- <-. split; [reflexivity|]. repeat split.
  - apply bind_inr in E as (me1 & w1 & E1 & E2).
    unfold uv_body in E1.
    apply bind_inr in E1 as (me2 & w2 & E3 & E4).
    unfold lift in E3. injection E3 as E3 E3'. subst w2.
    apply bind_inr in E4 as (u & w3 & E5 & E6).
    injection E6 as E6 E6'. subst me1 w1.
    unfold meshes_store, modify in E5. injection E5 as E5. subst w3.
    pose proof (write_uv_block _ _ _ E3) as Hb.
    change (foldM uv_body ls me2 (set_meshes (stored me2 (stored me l0)) w)
            = (inr me', w')) in E2.
    rewrite stored_stored in E2 by (symmetry; apply Hb).
    destruct (IH _ _ _ _ _ E2) as [-> Hb'].
    split; [reflexivity|]. eapply same_block_trans; eauto.
Qed.

(** The world after [create_export_mesh_object] returned [ob] for the
    datablock [me]. *)
Definition exported_world (ob : Object F) (w : World F) : World F :=
  set_collection_objects (collection_objects w ++ [ob])
    (set_objects (objects w ++ [ob])
       (set_meshes (stored (ob_data ob) (meshes w)) w)).

Lemma create_export_mesh_object_world_aux (me : Mesh F) (w w' : World F) (ob : Object F) :
  create_export_mesh_object host me w = (inr ob, w') ->
  w' = exported_world ob w
  /\ mesh_id (ob_data ob) = mesh_id me
  /\ users (ob_data ob) = S (users me)
  /\ vertices (ob_data ob) = vertices me
  /\ loops (ob_data ob) = loops me
  /\ ob_name ob = unique_name host (map (@ob_name F) (objects w)) "export_mesh"
  /\ ob_type ob = "MESH"%string
  /\ modifiers ob = [].
Proof.
  intros E. rewrite create_export_mesh_object_unfold in E. cbv zeta in E.
  set (me1 := ensure_two_uv_layers host me) in *.
  set (me2 := rename_uv_layer_1 host me1 "vertex_anim") in *.
  pose proof (ensure_two_uv_layers_block me) as B1. fold me1 in B1.
  pose proof (rename_uv_layer_1_block me1 "vertex_anim") as B2. fold me2 in B2.
  apply bind_inr in E as (u1 & w1 & E1 & E).
  apply bind_inr in E as (u2 & w2 & E2 & E).
  apply bind_inr in E as (u3 & w3 & E3 & E).
  apply bind_inr in E as (me3 & w4 & E4 & E).
  apply bind_inr in E as (ob' & w5 & E5 & E).
  apply bind_inr in E as (u6 & w6 & E6 & E).
  injection E as E E'. subst ob w'.
  unfold meshes_store, modify in E1. injection E1 as E1. subst w1.
  unfold lift in E2. injection E2 as _ E2. subst w2.
  unfold meshes_store, modify in E3. injection E3 as E3. subst w3.
  change (foldM uv_body (loops me2) me2
                (set_meshes (stored me2 (stored me1 (meshes w))) w)
          = (inr me3, w4)) in E4.
  rewrite stored_stored in E4 by (symmetry; apply B2).
  destruct (uv_loop_world _ _ _ _ _ _ E4) as [-> B3].
  unfold objects_new, bind, meshes_store, modify, gets, ret in E5.
  injection E5 as E5 E5'. subst ob' w5.
  unfold modify in E6. injection E6 as E6. subst w6.
  cbn [ob_data ob_name ob_type modifiers with_users mesh_id users vertices loops].
  destruct B1 as (I1 & U1 & V1 & L1), B2 as (I2 & U2 & V2 & L2),
           B3 as (I3 & U3 & V3 & L3).
  split; [|repeat split; congruence].
  unfold exported_world.
  cbn [ob_data meshes objects collection_objects
       set_meshes set_objects set_collection_objects].
  assert (Hs : map (fun m => if mesh_id m =? mesh_id me3
                             then with_users me3 (S (users me3)) else m)
                   (stored me3 (meshes w))
               = stored (with_users me3 (S (users me3))) (meshes w)).
  { apply (stored_stored me3 (with_users me3 (S (users me3)))). reflexivity. }
  rewrite Hs. reflexivity.
Qed.

(** X11: what [create_export_mesh_object] leaves behind.  When it returns
    an object, that object is a new object of type [MESH] without
    modifiers, appended to [bpy.data.objects] and linked to the scene
    collection; its mesh is the datablock it was given, with the same
    vertices and loops, one user more, and changed in place in
    [bpy.data.meshes] (no mesh datablock is added or removed); nothing else
    has changed. *)
Theorem create_export_mesh_object_world
        (me : Mesh F) (w w' : World F) (ob : Object F) :
  create_export_mesh_object host me w = (inr ob, w') ->
  objects w' = objects w ++ [ob]
  /\ collection_objects w' = collection_objects w ++ [ob]
  /\ meshes w' = stored (ob_data ob) (meshes w)
  /\ length (meshes w') = length (meshes w)
  /\ w' = exported_world ob w
  /\ mesh_id (ob_data ob) = mesh_id me
  /\ users (ob_data ob) = S (users me)
  /\ vertices (ob_data ob) = vertices me
  /\ loops (ob_data ob) = loops me
  /\ ob_type ob = "MESH"%string
  /\ modifiers ob = [].
Proof.
  intros E.
  destruct (create_export_mesh_object_world_aux me w w' ob E)
    as (-> & Hid & Hu & Hv & Hl & _ & Hty & Hmod).
  repeat split; auto.
  cbn [exported_world meshes set_collection_objects set_objects set_meshes].
  unfold stored. apply length_map.
Qed.

(** ** The textures *)

(** The name of the offset texture: both extents, as Python prints
    them. *)
Definition offsets_name (offsets : list F) : string :=
  ("offsets_neg_max_" ++ str_of_float host (neg_extent offsets)
   ++ "_pos_max_" ++ str_of_float host (pos_extent offsets))%string.

(** The image [data.images.new] makes in [w], with other pixels. *)
Definition new_image (w : World F) (name : string) (columns rows : nat)
           (float_buffer : bool) (values : list F) : Image F :=
  {| image_id := next_id w;
     image_name := unique_name host (map (@image_name F) (images w)) name;
     width := columns; height := rows; alpha := true; float_buffer := float_buffer;
     pixels := values; file_format := "TARGA"; image_filepath := "" |}.

Definition add_image (image : Image F) (w : World F) : World F :=
  set_next_id (S (next_id w)) (set_images (images w ++ [image]) w).

(** The two textures [bake_vertex_data] makes in [w], with their pixels. *)
Definition offsets_texture (w : World F) (offsets values : list F)
           (columns rows : nat) : Image F :=
  new_image w (offsets_name offsets) columns rows true values.

Definition normals_texture (w : World F) (offsets values : list F)
           (columns rows : nat) : Image F :=
  {| image_id := S (next_id w);
     image_name :=
       unique_name host
         (map (@image_name F) (images w)
          ++ [unique_name host (map (@image_name F) (images w))
                          (offsets_name offsets)])
         "normals";
     width := columns; height := rows; alpha := true; float_buffer := false;
     pixels := values; file_format := "TARGA"; image_filepath := "" |}.

Definition baked_world (w : World F) (offsets ys normals : list F)
           (columns rows : nat) : World F :=
  set_next_id (S (S (next_id w)))
    (set_images (images w ++ [offsets_texture w offsets ys columns rows;
                              normals_texture w offsets normals columns rows]) w).

Definition store_image (image : Image F) (l : list (Image F)) : list (Image F) :=
  map (fun i => if image_id i =? image_id image then image else i) l.

Lemma store_image_other_ids (image : Image F) (l : list (Image F)) :
  Forall (fun i => image_id i < image_id image) l -> store_image image l = l.
Proof.
  unfold store_image.
  induction 1 as [|i l Hi _ IH]; cbn [map]; [reflexivity|].
  destruct (Nat.eqb_spec (image_id i) (image_id image)); [lia|]. now rewrite IH.
Qed.

Lemma store_image_app (image : Image F) (l1 l2 : list (Image F)) :
  store_image image (l1 ++ l2) = store_image image l1 ++ store_image image l2.
Proof. apply map_app. Qed.

Lemma Forall_image_lt_le (n n' : nat) (l : list (Image F)) :
  n <= n' -> Forall (fun i => image_id i < n) l -> Forall (fun i => image_id i < n') l.
Proof.
  intros Hn H. eapply Forall_impl; [|exact H]. cbv beta. intros; lia.
Qed.

Lemma bind_raises {W A B} (m : M W A) (k : A -> M W B) w e w1 :
  m w = (inl e, w1) -> bind m k w = (inl e, w1).
Proof. intros E. unfold bind. now rewrite E. Qed.

Lemma images_new_run (name : string) (columns rows : nat) (fb : bool) (w : World F) :
  1 <= columns -> 1 <= rows ->
  images_new host name columns rows true fb w
  = (inr (new_image w name columns rows fb (repeat (of_Q 0) (4 * columns * rows))),
     add_image (new_image w name columns rows fb
                          (repeat (of_Q 0) (4 * columns * rows))) w).
Proof.
  intros Hc Hr. unfold images_new.
  destruct (Nat.ltb_spec columns 1); [lia|].
  destruct (Nat.ltb_spec rows 1); [lia|]. reflexivity.
Qed.

Lemma images_new_fails (name : string) (columns rows : nat) (a fb : bool) (w : World F) :
  ~ (1 <= columns /\ 1 <= rows) ->
  exists e, images_new host name columns rows a fb w = (inl e, w).
Proof.
  intros H. unfold images_new.
  destruct (Nat.ltb_spec columns 1); cbn [orb]; [eauto|].
  destruct (Nat.ltb_spec rows 1); [eauto|]. exfalso. apply H. lia.
Qed.

Lemma set_pixels_run (image : Image F) (values : list F) (w : World F) :
  length values = 4 * width image * height image ->
  set_pixels image values w
  = (inr (with_pixels image values),
     set_images (store_image (with_pixels image values) (images w)) w).
Proof.
  intros H. unfold set_pixels. apply Nat.eqb_eq in H. rewrite H. reflexivity.
Qed.

Lemma set_pixels_fails (image : Image F) (values : list F) (w : World F) :
  length values <> 4 * width image * height image ->
  exists e, set_pixels image values w = (inl e, w).
Proof.
  intros H. unfold set_pixels. apply Nat.eqb_neq in H. rewrite H.
  unfold raise. eauto.
Qed.

(** The run of [bake_vertex_data] when both lists fit the size. *)
Lemma bake_vertex_data_run (offsets normals ys : list F) (columns rows : nat)
      (w : World F) :
  fresh_images w ->
  normalize_offsets offsets = inr ys ->
  1 <= columns -> 1 <= rows ->
  length ys = 4 * columns * rows -> length normals = 4 * columns * rows ->
  bake_vertex_data host offsets normals (columns, rows) w
  = (inr [offsets_texture w offsets ys columns rows;
          normals_texture w offsets normals columns rows],
     baked_world w offsets ys normals columns rows).
Proof.
  intros Hfresh Hys Hc Hr Ho Hn. unfold bake_vertex_data.
  unfold bind at 1, lift at 1. rewrite Hys.
  fold (offsets_name offsets).
  rewrite (bind_step _ _ _ _ _ (images_new_run (offsets_name offsets) columns rows true w Hc Hr)).
  set (t10 := new_image w (offsets_name offsets) columns rows true
                        (repeat (of_Q 0) (4 * columns * rows))).
  rewrite (bind_step _ _ _ _ _ (images_new_run "normals" columns rows false
                                   (add_image t10 w) Hc Hr)).
  set (t20 := new_image (add_image t10 w) "normals" columns rows false
                        (repeat (of_Q 0) (4 * columns * rows))).
  rewrite (bind_step _ _ _ _ _ (set_pixels_run t10 ys _ Ho)).
  rewrite (bind_step _ _ _ _ _ (set_pixels_run t20 normals _ Hn)).
  assert (Ht2 : with_pixels t20 normals
                = normals_texture w offsets normals columns rows).
  { unfold t20, normals_texture, with_pixels, new_image, add_image.
    cbn [image_id image_name width height alpha float_buffer file_format
         image_filepath images next_id set_next_id set_images].
    rewrite map_app. reflexivity. }
  assert (Himg : store_image (with_pixels t20 normals)
                   (store_image (with_pixels t10 ys) ((images w ++ [t10]) ++ [t20]))
                 = images w ++ [offsets_texture w offsets ys columns rows;
                                normals_texture w offsets normals columns rows]).
  { rewrite !store_image_app.
    rewrite (store_image_other_ids (with_pixels t10 ys) (images w)) by exact Hfresh.
    rewrite (store_image_other_ids (with_pixels t20 normals) (images w))
      by (apply (Forall_image_lt_le (next_id w)); [cbn; lia|exact Hfresh]).
    rewrite <- app_assoc. f_equal.
    unfold store_image. cbn [map app].
    change (image_id (with_pixels t10 ys)) with (next_id w).
    change (image_id (with_pixels t20 normals)) with (S (next_id w)).
    change (image_id t10) with (next_id w).
    change (image_id t20) with (S (next_id w)).
    rewrite !Nat.eqb_refl.
    destruct (Nat.eqb_spec (S (next_id w)) (next_id w)) as [Hx|_]; [lia|].
    change (image_id (with_pixels t10 ys)) with (next_id w).
    destruct (Nat.eqb_spec (next_id w) (S (next_id w))) as [Hx|_]; [lia|].
    rewrite Nat.eqb_refl, Ht2. reflexivity. }
  unfold ret. f_equal.
  - rewrite Ht2. reflexivity.
  - transitivity
      (set_next_id (S (S (next_id w)))
         (set_images
            (store_image (with_pixels t20 normals)
               (store_image (with_pixels t10 ys) ((images w ++ [t10]) ++ [t20]))) w)).
    + reflexivity.
    + rewrite Himg. reflexivity.
Qed.

(** [bake_vertex_data] returns only when both lists fit the size. *)
Lemma bake_vertex_data_fits (offsets normals ys : list F) (columns rows : nat)
      (w w' : World F) (textures : list (Image F)) :
  normalize_offsets offsets = inr ys ->
  bake_vertex_data host offsets normals (columns, rows) w = (inr textures, w') ->
  1 <= columns /\ 1 <= rows
  /\ length ys = 4 * columns * rows /\ length normals = 4 * columns * rows.
Proof.
  intros Hys E. unfold bake_vertex_data in E.
  unfold bind at 1, lift at 1 in E. rewrite Hys in E.
  destruct (le_dec 1 columns) as [Hc|Hc].
  2:{ destruct (images_new_fails (offsets_name offsets) columns rows true true w)
        as [e He]; [lia|].
      fold (offsets_name offsets) in E.
      rewrite (bind_raises _ _ _ _ _ He) in E. discriminate. }
  destruct (le_dec 1 rows) as [Hr|Hr].
  2:{ destruct (images_new_fails (offsets_name offsets) columns rows true true w)
        as [e He]; [lia|].
      fold (offsets_name offsets) in E.
      rewrite (bind_raises _ _ _ _ _ He) in E. discriminate. }
  fold (offsets_name offsets) in E.
  rewrite (bind_step _ _ _ _ _ (images_new_run (offsets_name offsets) columns rows true w Hc Hr)) in E.
  set (t10 := new_image w (offsets_name offsets) columns rows true
                        (repeat (of_Q 0) (4 * columns * rows))) in E.
  rewrite (bind_step _ _ _ _ _ (images_new_run "normals" columns rows false
                                   (add_image t10 w) Hc Hr)) in E.
  set (t20 := new_image (add_image t10 w) "normals" columns rows false
                        (repeat (of_Q 0) (4 * columns * rows))) in E.
  destruct (Nat.eq_dec (length ys) (4 * columns * rows)) as [Ho|Ho].
  2:{ destruct (set_pixels_fails t10 ys (add_image t20 (add_image t10 w)) Ho)
        as [e He].
      rewrite (bind_raises _ _ _ _ _ He) in E. discriminate. }
  rewrite (bind_step _ _ _ _ _ (set_pixels_run t10 ys _ Ho)) in E.
  destruct (Nat.eq_dec (length normals) (4 * columns * rows)) as [Hn|Hn].
  2:{ match type of E with
      | bind (set_pixels _ _) _ ?x = _ =>
          destruct (set_pixels_fails t20 normals x Hn) as [e He]
      end.
      rewrite (bind_raises _ _ _ _ _ He) in E. discriminate. }
  auto.
Qed.

(** X12: the textures of [bake_vertex_data].  With image identities in
    [bpy.data] below the next one, it returns exactly when the width and
    the height are at least [1] and both lists hold four floats for every
    pixel.  It then returns the offset texture and the normal texture, in
    this order, both new in [bpy.data.images] behind the images that were
    there, which are untouched: both of the given width and height with
    alpha; the offset texture with a float buffer, named after the two
    extents, holding the normalised offsets; the normal texture without a
    float buffer, named [normals], holding the normals as given; nothing
    else has changed. *)
Theorem bake_vertex_data_textures
        (offsets normals : list F) (columns rows : nat) (w : World F) :
  fresh_images w ->
  exists ys,
    normalize_offsets offsets = inr ys
    /\ ((exists textures w',
            bake_vertex_data host offsets normals (columns, rows) w
            = (inr textures, w'))
        <-> 1 <= columns /\ 1 <= rows
            /\ length offsets = 4 * columns * rows
            /\ length normals = 4 * columns * rows)
    /\ forall textures w',
         bake_vertex_data host offsets normals (columns, rows) w
         = (inr textures, w') ->
         textures = [offsets_texture w offsets ys columns rows;
                     normals_texture w offsets normals columns rows]
         /\ images w' = images w ++ textures
         /\ w' = baked_world w offsets ys normals columns rows.
Proof.
  intros Hfresh.
  destruct (normalize_offsets_inr offsets) as (ys & Hys & Hlen & _).
  exists ys. split; [exact Hys|]. split; [split|].
  - intros (textures & w' & E).
    destruct (bake_vertex_data_fits _ _ _ _ _ _ _ _ Hys E) as (Hc & Hr & Ho & Hn).
    rewrite <- Hlen. auto.
  - intros (Hc & Hr & Ho & Hn). rewrite <- Hlen in Ho.
    eexists _, _. apply (bake_vertex_data_run offsets normals ys); auto.
  - intros textures w' E.
    destruct (bake_vertex_data_fits _ _ _ _ _ _ _ _ Hys E) as (Hc & Hr & Ho & Hn).
    rewrite (bake_vertex_data_run offsets normals ys columns rows w
               Hfresh Hys Hc Hr Ho Hn) in E.
    injection E as <- <-. auto.
Qed.

(** ** A run of [execute] that finishes *)

Lemma removed_by_other (l : list (Mesh F)) (m : Mesh F) :
  (forall x, In x l -> mesh_id m <> mesh_id x) -> removed_by l m = false.
Proof.
  intros H. unfold removed_by.
  destruct (existsb _ l) eqn:E; [|reflexivity].
  apply existsb_exists in E as (x & Hx & Hb).
  apply andb_true_iff in Hb as [_ Hb]. apply Nat.eqb_eq in Hb.
  now elim (H x Hx).
Qed.

Lemma removed_by_self (l : list (Mesh F)) (m : Mesh F) :
  In m l -> users m = 0 -> removed_by l m = true.
Proof.
  intros Hin Hu. unfold removed_by. apply existsb_exists.
  exists m. split; [exact Hin|]. rewrite Hu, !Nat.eqb_refl. reflexivity.
Qed.

Lemma filter_keeps {A} (p : A -> bool) (l : list A) :
  (forall a, In a l -> p a = true) -> filter p l = l.
Proof.
  induction l as [|a l IH]; intros H; cbn [filter]; [reflexivity|].
  rewrite (H a (or_introl eq_refl)), IH; [reflexivity|].
  intros b Hb. apply H. now right.
Qed.

Lemma filter_drops {A} (p : A -> bool) (l : list A) :
  (forall a, In a l -> p a = false) -> filter p l = [].
Proof.
  induction l as [|a l IH]; intros H; cbn [filter]; [reflexivity|].
  rewrite (H a (or_introl eq_refl)), IH; [reflexivity|].
  intros b Hb. apply H. now right.
Qed.

(** The sampled meshes are gone once [get_vertex_data] has read them; the
    meshes from before and the export mesh stay. *)
Lemma sampled_meshes_removed (n N : nat) (old ms : list (Mesh F)) (copy me : Mesh F) :
  n <= N ->
  Forall (fun m => mesh_id m < n) old ->
  Forall (fun m => users m = 0 /\ n <= mesh_id m < N) ms ->
  mesh_id copy = N ->
  mesh_id me = N ->
  filter (kept_by ms) (stored me ((old ++ ms) ++ [copy])) = old ++ [me].
Proof.
  intros HnN Hold Hms Hcopy Hme. rewrite Forall_forall in Hold, Hms.
  assert (Hst : stored me ((old ++ ms) ++ [copy]) = (old ++ ms) ++ [me]).
  { unfold stored. rewrite map_app. cbn [map]. rewrite Hcopy, Hme, Nat.eqb_refl.
    f_equal. apply store_other_ids. apply Forall_forall. intros m Hm.
    apply in_app_or in Hm as [Hm|Hm].
    - specialize (Hold m Hm). lia.
    - destruct (Hms m Hm) as [_ H]. lia. }
  rewrite Hst, !filter_app.
  rewrite (filter_keeps (kept_by ms) old).
  2:{ intros m Hm. unfold kept_by. rewrite removed_by_other; [reflexivity|].
      intros x Hx. specialize (Hold m Hm). destruct (Hms x Hx) as [_ H]. lia. }
  rewrite (filter_drops (kept_by ms) ms).
  2:{ intros m Hm. unfold kept_by. rewrite removed_by_self; [reflexivity|exact Hm|].
      now destruct (Hms m Hm). }
  rewrite (filter_keeps (kept_by ms) [me]).
  2:{ intros m [<-|[]]. unfold kept_by. rewrite removed_by_other; [reflexivity|].
      intros x Hx. destruct (Hms x Hx) as [_ H]. lia. }
  now rewrite app_nil_r.
Qed.

Lemma get_per_frame_mesh_data_run (objects : list (Object F)) (w : World F)
      (frames : list Z) :
  frame_range w = inr frames ->
  fresh_meshes w ->
  exists ms,
    get_per_frame_mesh_data host objects w
    = (inr ms,
       sampled_world (next_id w + length frames * S (length objects))
                     (meshes w ++ ms) (last frames (frame_current w)) w)
    /\ Forall2 (sampled host objects) frames ms
    /\ Forall (fun m => users m = 0
                        /\ next_id w <= mesh_id m
                           < next_id w + length frames * S (length objects)) ms.
Proof.
  intros Hf Hfresh. rewrite get_per_frame_mesh_data_unfold.
  unfold bind at 1, gets at 1. unfold bind at 1, lift at 1. rewrite Hf.
  destruct (sample_frames_world objects frames [] w Hfresh) as (ms & E & Hms & Hall).
  exists ms. auto.
Qed.

(** What [save_image_exr] does when it returns. *)
Lemma save_image_exr_returns (image : Image F) (w w' : World F) (u : unit) :
  save_image_exr host image w = (inr u, w') ->
  filepath w <> ""%string
  /\ exists path, ~ In path (files w) /\ w' = saved_world host image path w.
Proof.
  rewrite save_image_exr_unfold.
  destruct (String.eqb_spec (filepath w) "") as [Hp|Hp]; [discriminate|].
  destruct (unique_filepath host recursion_limit (files w)
              (dirname host (filepath w)) (fst (splitext host (image_name image))))
    as [e|[final_name path]] eqn:Eu; [discriminate|].
  intros E. injection E as E. subst w'.
  destruct (unique_filepath_inr host _ _ _ _ _ _ Eu) as (k & _ & _ & _ & Hfree & _).
  split; [exact Hp|]. exists path. auto.
Qed.

(** X13: a run of [execute] that finishes.  With datablock identities
    below the next one, when [execute] returns [FINISHED]: there was at
    least one frame and at least one vertex; the scene stands at the last
    frame of the range; [bpy.data.meshes] holds one mesh more than before,
    the mesh of the export object, with that object as its one user (every
    sampled mesh is gone again); the export object is the one new object,
    in [bpy.data.objects] and in the scene collection; the two textures
    are the new images, as wide as the selection has vertices and as high
    as there are frames, saved as [OPEN_EXR] to two different new files
    (no existing file is written over); nothing was reported. *)
Theorem execute_finished (w w' : World F) :
  fresh_meshes w ->
  fresh_images w ->
  execute host w = (inr FINISHED, w') ->
  exists frames ob t1 t2 p1 p2,
    frame_range w = inr frames /\ frames <> []
    /\ 1 <= base_vertex_count (selected_meshes w)
    /\ frame_current w' = last frames (frame_current w)
    /\ meshes w' = meshes w ++ [ob_data ob]
    /\ users (ob_data ob) = 1
    /\ objects w' = objects w ++ [ob]
    /\ collection_objects w' = collection_objects w ++ [ob]
    /\ images w' = images w ++ [saved_image t1 p1; saved_image t2 p2]
    /\ width t1 = base_vertex_count (selected_meshes w)
    /\ height t1 = length frames
    /\ width t2 = base_vertex_count (selected_meshes w)
    /\ height t2 = length frames
    /\ float_buffer t1 = true /\ float_buffer t2 = false
    /\ length (pixels t1) = 4 * width t1 * height t1
    /\ length (pixels t2) = 4 * width t2 * height t2
    /\ filepath w <> ""%string
    /\ files w' = files w ++ [p1; p2]
    /\ ~ In p1 (files w) /\ ~ In p2 (files w) /\ p1 <> p2
    /\ reports w' = reports w.
Proof.
  intros Hfm Hfi E. rewrite execute_unfold in E.
  destruct (frame_range w) as [e|frames] eqn:Hf; [discriminate|]. cbv zeta in E.
  destruct (first_disallowed_modifier (selected_meshes w)); [discriminate|].
  destruct (negb (units_ok w)); [discriminate|].
  destruct (8192 <? Z.of_nat (base_vertex_count (selected_meshes w)))%Z;
    [discriminate|].
  destruct (8192 <? Z.of_nat (length frames))%Z; [discriminate|].
  set (objs := selected_meshes w) in *.
  set (columns := base_vertex_count objs) in *.
  unfold pipeline in E.
  destruct (get_per_frame_mesh_data_run objs w frames Hf Hfm) as (ms & E1 & Hs & Hms).
  set (N := next_id w + length frames * S (length objs)) in *.
  set (w1 := sampled_world N (meshes w ++ ms) (last frames (frame_current w)) w) in *.
  rewrite (bind_step _ _ _ _ _ E1) in E.
  destruct ms as [|first rest]; [discriminate E|].
  unfold bind at 1, lift at 1, getitem at 1 in E. cbn [nth_error] in E.
  set (copy := {| mesh_id := N;
                  mesh_name := unique_name host (map (@mesh_name F) (meshes w1))
                                           (mesh_name first);
                  vertices := vertices first; loops := loops first;
                  uv_layers := uv_layers first; users := 0 |}).
  set (w2 := set_next_id (S N) (set_meshes (meshes w1 ++ [copy]) w1)).
  assert (E2 : mesh_copy host first w1 = (inr copy, w2)) by reflexivity.
  rewrite (bind_step _ _ _ _ _ E2) in E.
  apply bind_inr in E as (ob & w3 & E3 & E).
  destruct (create_export_mesh_object_world_aux copy w2 w3 ob E3)
    as (Hw3 & Hid & Hu & _).
  apply bind_inr in E as ([offsets normals] & w4 & E4 & E).
  pose proof (get_vertex_data_world_aux _ _ _ _ E4) as Hw4.
  cbv zeta in E.
  apply bind_inr in E as (textures & w5 & E5 & E).
  destruct (normalize_offsets_inr offsets) as (ys & Hys & Hlen & _).
  assert (Hfi4 : fresh_images w4).
  { subst w4 w3. unfold fresh_images.
    cbn [images next_id set_meshes exported_world set_collection_objects
         set_objects w2 set_next_id w1 sampled_world set_frame_current].
    eapply Forall_image_lt_le; [|exact Hfi]. unfold N. lia. }
  destruct (bake_vertex_data_fits _ _ _ _ _ _ _ _ Hys E5) as (Hc & Hr & Ho & Hn).
  rewrite (bake_vertex_data_run offsets normals ys columns (length frames) w4
             Hfi4 Hys Hc Hr Ho Hn) in E5.
  injection E5 as E5 E5'. subst textures w5.
  set (t1 := offsets_texture w4 offsets ys columns (length frames)) in *.
  set (t2 := normals_texture w4 offsets normals columns (length frames)) in *.
  apply bind_inr in E as (u1 & w6 & E6 & E).
  apply bind_inr in E as (u2 & w7 & E7 & E).
  injection E as E. subst w7.
  destruct (save_image_exr_returns _ _ _ _ E6) as (Hp & p1 & Hp1 & Hw6).
  destruct (save_image_exr_returns _ _ _ _ E7) as (_ & p2 & Hp2 & Hw7).
  assert (Hframes : frames <> []).
  { intros ->. inversion Hs. }
  assert (Hmeshes : meshes w4 = meshes w ++ [ob_data ob]).
  { rewrite Hw4, Hw3.
    cbn [meshes set_meshes exported_world set_collection_objects set_objects
         w2 set_next_id w1 sampled_world set_frame_current].
    apply (sampled_meshes_removed (next_id w) N); auto. unfold N. lia. }
  assert (Himages : images w' = images w ++ [saved_image t1 p1; saved_image t2 p2]).
  { rewrite Hw7, Hw6.
    cbn [images saved_world set_stdout set_files set_images baked_world set_next_id].
    assert (Hi4 : images w4 = images w) by (subst w4 w3; reflexivity).
    assert (Hn4 : next_id w4 = S N) by (subst w4 w3; reflexivity).
    rewrite Hi4.
    change (store_image (saved_image t2 p2)
              (store_image (saved_image t1 p1) (images w ++ [t1; t2]))
            = images w ++ [saved_image t1 p1; saved_image t2 p2]).
    rewrite !store_image_app.
    rewrite (store_image_other_ids (saved_image t1 p1) (images w)).
    2:{ eapply Forall_image_lt_le; [|exact Hfi].
        change (image_id (saved_image t1 p1)) with (next_id w4). unfold N in Hn4. lia. }
    rewrite (store_image_other_ids (saved_image t2 p2) (images w)).
    2:{ eapply Forall_image_lt_le; [|exact Hfi].
        change (image_id (saved_image t2 p2)) with (S (next_id w4)).
        unfold N in Hn4. lia. }
    f_equal. unfold store_image. cbn [map].
    change (image_id (saved_image t1 p1)) with (next_id w4).
    change (image_id (saved_image t2 p2)) with (S (next_id w4)).
    change (image_id t1) with (next_id w4).
    change (image_id t2) with (S (next_id w4)).
    rewrite !Nat.eqb_refl.
    destruct (Nat.eqb_spec (S (next_id w4)) (next_id w4)) as [Hx|_]; [lia|].
    change (image_id (saved_image t1 p1)) with (next_id w4).
    destruct (Nat.eqb_spec (next_id w4) (S (next_id w4))) as [Hx|_]; [lia|].
    rewrite Nat.eqb_refl. reflexivity. }
  assert (Hfiles6 : files w6 = files w ++ [p1]).
  { rewrite Hw6. subst w4 w3. reflexivity. }
  assert (Hfiles5 : files (baked_world w4 offsets ys normals columns (length frames))
                    = files w).
  { subst w4 w3. reflexivity. }
  rewrite Hfiles5 in Hp1. rewrite Hfiles6 in Hp2.
  exists frames, ob, t1, t2, p1, p2.
  split; [reflexivity|]. split; [exact Hframes|]. split; [exact Hc|].
  split; [rewrite Hw7, Hw6; subst w4 w3; reflexivity|].
  split; [rewrite Hw7, Hw6; exact Hmeshes|].
  split; [rewrite Hu; reflexivity|].
  split; [rewrite Hw7, Hw6; subst w4 w3; reflexivity|].
  split; [rewrite Hw7, Hw6; subst w4 w3; reflexivity|].
  split; [exact Himages|].
  split; [reflexivity|]. split; [reflexivity|].
  split; [reflexivity|]. split; [reflexivity|].
  split; [reflexivity|]. split; [reflexivity|].
  split; [exact Ho|]. split; [exact Hn|].
  split; [subst w4 w3; exact Hp|].
  split; [rewrite Hw7; cbn [files saved_world set_stdout set_files];
          rewrite Hfiles6, <- app_assoc; reflexivity|].
  split; [exact Hp1|].
  split; [intros H; apply Hp2; apply in_or_app; now left|].
  split; [intros ->; apply Hp2; apply in_or_app; right; now left|].
  rewrite Hw7, Hw6. subst w4 w3. reflexivity.
Qed.

(** ** The UV layers of the export mesh *)

(** The layers are [l0], a layer named [name], and [rest]. *)
Definition layers_around (l0 : MeshUVLoopLayer F) (name : string)
           (rest : list (MeshUVLoopLayer F)) (me : Mesh F) : Prop :=
  exists ly, uv_layers me = l0 :: ly :: rest /\ uv_name ly = name.

Lemma write_uv_layers l0 name rest (me me' : Mesh F) (loop : MeshLoop) :
  layers_around l0 name rest me ->
  write_uv me loop = inr me' ->
  layers_around l0 name rest me'.
Proof.
  intros (ly & Hl & Hn). unfold write_uv.
  destruct (truediv_int _ _); [discriminate|].
  destruct (int_truediv 128 255); [discriminate|].
  unfold getitem. rewrite Hl. cbn [nth_error].
  destruct (loop_index loop <? length (uv_data ly)); [|discriminate].
  intros E. injection E as <-.
  eexists. split; [reflexivity|]. exact Hn.
Qed.

Lemma uv_loop_layers l0 name rest (ls : list MeshLoop) :
  forall (me : Mesh F) w me' w',
    layers_around l0 name rest me ->
    foldM uv_body ls me w = (inr me', w') ->
    layers_around l0 name rest me'.
Proof.
  induction ls as [|loop ls IH]; intros me w me' w' Hme E; cbn [foldM] in E.
  - injection E as E _. now subst me'.
  - apply bind_inr in E as (me1 & w1 & E1 & E2).
    unfold uv_body in E1.
    apply bind_inr in E1 as (me2 & w2 & E3 & E4).
    unfold lift in E3. injection E3 as E3 _.
    apply bind_inr in E4 as (u & w3 & _ & E6).
    injection E6 as E6 _. subst me2.
    eapply IH; [|exact E2]. eapply write_uv_layers; eauto.
Qed.

Lemma ensure_two_uv_layers_layers (me : Mesh F) :
  exists l0 l1 rest added,
    uv_layers (ensure_two_uv_layers host me) = l0 :: l1 :: rest
    /\ l0 :: l1 :: rest = uv_layers me ++ added
    /\ length added = 2 - length (uv_layers me).
Proof.
  unfold ensure_two_uv_layers, uv_layers_new.
  destruct (uv_layers me) as [|a [|b rest]] eqn:E;
    cbn [with_uv_layers with_geometry uv_layers]; rewrite ?E; cbn [app].
  - eexists _, _, [], [_; _]. repeat split.
  - eexists a, _, [], [_]. repeat split.
  - exists a, b, rest, []. rewrite app_nil_r. repeat split.
Qed.

(** X14: the UV layers of the export mesh.  When
    [create_export_mesh_object] returns, the mesh has the layers it had,
    or two if it had fewer; every layer it had, but the second, is as it
    was; and the second layer carries the name [vertex_anim], made unique
    against the names of the other layers.  A second layer that was there
    before is taken over: renamed, and written at the index of every
    loop. *)
Theorem create_export_mesh_object_layers
        (me : Mesh F) (w w' : World F) (ob : Object F) :
  create_export_mesh_object host me w = (inr ob, w') ->
  exists l0 ly rest,
    uv_layers (ob_data ob) = l0 :: ly :: rest
    /\ uv_name ly = unique_name host (map (@uv_name F) (l0 :: rest)) "vertex_anim"
    /\ length (uv_layers (ob_data ob)) = Nat.max 2 (length (uv_layers me))
    /\ forall j, j <> 1 -> j < length (uv_layers me) ->
                 nth_error (uv_layers (ob_data ob)) j = nth_error (uv_layers me) j.
Proof.
  intros E. rewrite create_export_mesh_object_unfold in E. cbv zeta in E.
  destruct (ensure_two_uv_layers_layers me) as (l0 & l1 & rest & added & H1 & Hadd & Hlen).
  set (me1 := ensure_two_uv_layers host me) in *.
  set (me2 := rename_uv_layer_1 host me1 "vertex_anim") in *.
  assert (H2 : layers_around l0
                 (unique_name host (map (@uv_name F) (l0 :: rest)) "vertex_anim")
                 rest me2).
  { unfold me2, rename_uv_layer_1. rewrite H1.
    eexists. split; reflexivity. }
  apply bind_inr in E as (u1 & w1 & _ & E).
  apply bind_inr in E as (u2 & w2 & _ & E).
  apply bind_inr in E as (u3 & w3 & _ & E).
  apply bind_inr in E as (me3 & w4 & E4 & E).
  apply bind_inr in E as (ob' & w5 & E5 & E).
  apply bind_inr in E as (u6 & w6 & _ & E).
  injection E as E _. subst ob'.
  destruct (uv_loop_layers _ _ _ _ _ _ _ _ H2 E4) as (ly & H3 & Hname).
  unfold objects_new, bind, meshes_store, modify, gets, ret in E5.
  injection E5 as E5 _. subst ob.
  cbn [ob_data with_users uv_layers]. rewrite H3.
  exists l0, ly, rest. split; [reflexivity|]. split; [exact Hname|].
  assert (Hl : length (l0 :: l1 :: rest) = length (uv_layers me) + length added).
  { rewrite Hadd. apply length_app. }
  cbn [length] in Hl |- *.
  split; [lia|].
  intros j Hj1 Hj.
  transitivity (nth_error (l0 :: l1 :: rest) j).
  - destruct j as [|[|j]]; [reflexivity|congruence|reflexivity].
  - rewrite Hadd. apply nth_error_app1. exact Hj.
Qed.

(** ** The geometry of a sampled mesh *)

(** The positions of the objects at frame [i], modifiers and world matrix
    applied, object after object. *)
Definition world_positions (objects : list (Object F)) (i : Z) : list (Vector F) :=
  flat_map (fun ob => map (fun v => mul_m4_v3 host (matrix_world ob) (co v))
                          (vertices (evaluated_mesh host ob i)))
           objects.

Lemma map_snd_enumerate {A B} (f : A -> B) (l : list A) :
  forall start, map (fun ia => f (snd ia)) (enumerate start l) = map f l.
Proof.
  induction l as [|a l IH]; intros start; cbn [enumerate map]; [reflexivity|].
  now rewrite IH.
Qed.

Lemma merged_positions (objects : list (Object F)) (i : Z) :
  forall bm,
    map fst (bm_verts (merged host objects i bm))
    = map fst (bm_verts bm) ++ world_positions objects i.
Proof.
  unfold world_positions.
  induction objects as [|ob objects IH]; intros bm.
  - cbn [merged fold_left flat_map]. now rewrite app_nil_r.
  - change (merged host (ob :: objects) i bm)
      with (merged host objects i
              (from_mesh host bm
                 (transform host (matrix_world ob) (evaluated_mesh host ob i)))).
    rewrite IH. cbn [from_mesh bm_verts transform with_geometry vertices flat_map].
    rewrite map_app, !map_map, <- app_assoc. reflexivity.
Qed.

(** X15: the vertices of the sampled meshes.  Every mesh that
    [get_per_frame_mesh_data] returns holds, for its frame, the vertices of
    the objects in the order of the list, each object's vertices in their
    own order at the positions the object's world matrix takes them to;
    vertex [k] of the mesh carries the index [k].  So a vertex sits at the
    same index in every frame in which the objects keep their vertex
    counts. *)
Theorem sampled_positions
        (objects : list (Object F)) (w w' : World F) (ms : list (Mesh F)) :
  get_per_frame_mesh_data host objects w = (inr ms, w') ->
  exists frames,
    frame_range w = inr frames
    /\ Forall2 (fun i m => map (@co F) (vertices m) = world_positions objects i
                           /\ well_indexed m)
               frames ms.
Proof.
  intros E.
  destruct (get_per_frame_mesh_data_returns host objects w ms w' E)
    as (frames & Hf & Hs).
  exists frames. split; [exact Hf|].
  clear E Hf. induction Hs as [|i m frames ms Hm _ IH]; constructor; [|exact IH].
  split; [|exact (sampled_well_indexed host objects i m Hm)].
  destruct Hm as (m0 & _ & ->).
  cbn [to_mesh with_geometry vertices normal_update bm_verts].
  rewrite map_map. cbn [co].
  rewrite (map_snd_enumerate (@fst (Vector F) (Vector F))), map_map.
  cbn [fst].
  rewrite (map_snd_enumerate (@fst (Vector F) (Vector F))).
  now rewrite merged_positions.
Qed.

(** ** When [execute] finishes *)

(** The geometry [from_mesh] builds is sound: every loop points at a
    vertex and every loop layer has one entry per loop. *)
Definition sound_bmesh (bm : BMesh F) : Prop :=
  (forall l, In l (bm_loops bm) -> l < length (bm_verts bm))
  /\ (forall ly, In ly (bm_loop_layers bm) ->
        length (uv_data ly) = length (bm_loops bm)).

(** What the model asks of [bm.from_mesh]: merging layers that have one
    entry per loop gives layers that have one entry per loop. *)
Definition merging_keeps_size : Prop :=
  forall layers n layers' n',
    (forall ly, In ly layers -> length (uv_data ly) = n) ->
    (forall ly, In ly layers' -> length (uv_data ly) = n') ->
    forall ly, In ly (merge_loop_layers host layers n layers' n') ->
               length (uv_data ly) = n + n'.

Lemma from_mesh_sound (bm : BMesh F) (matrix : Matrix) (mesh : Mesh F) :
  merging_keeps_size ->
  sound_bmesh bm ->
  loops_point_at_vertices mesh -> uv_layers_sized mesh ->
  sound_bmesh (from_mesh host bm (transform host matrix mesh)).
Proof.
  intros Hmerge [Hl Hly] Hp Hs. split.
  - cbn [from_mesh bm_loops bm_verts transform with_geometry loops vertices].
    intros l Hin. rewrite length_app, !length_map.
    apply in_app_or in Hin as [Hin|Hin].
    + specialize (Hl l Hin). lia.
    + apply in_map_iff in Hin as (x & <- & Hx). specialize (Hp x Hx). lia.
  - cbn [from_mesh bm_loops bm_loop_layers transform with_geometry loops uv_layers].
    intros ly Hin. rewrite length_app, length_map.
    eapply Hmerge; [exact Hly|exact Hs|exact Hin].
Qed.

Lemma merged_sound (objects : list (Object F)) (i : Z) :
  merging_keeps_size ->
  (forall ob, In ob objects ->
     loops_point_at_vertices (evaluated_mesh host ob i)
     /\ uv_layers_sized (evaluated_mesh host ob i)) ->
  forall bm, sound_bmesh bm -> sound_bmesh (merged host objects i bm).
Proof.
  intros Hmerge. induction objects as [|ob objects IH]; intros Hobs bm Hbm.
  - exact Hbm.
  - change (merged host (ob :: objects) i bm)
      with (merged host objects i
              (from_mesh host bm
                 (transform host (matrix_world ob) (evaluated_mesh host ob i)))).
    apply IH; [intros; apply Hobs; now right|].
    destruct (Hobs ob (or_introl eq_refl)) as [Hp Hs].
    now apply from_mesh_sound.
Qed.

Lemma nth_error_enumerate_snd {A} (l : list A) :
  forall start i p, nth_error (enumerate start l) i = Some p ->
                    fst p = start + i /\ nth_error l i = Some (snd p).
Proof.
  induction l as [|a l IH]; intros start [|i] p H; cbn [enumerate nth_error] in H;
    try discriminate.
  - injection H as <-. cbn. split; [lia|reflexivity].
  - destruct (IH _ _ _ H) as [H1 H2]. split; [lia|exact H2].
Qed.

(** A sampled mesh is a mesh as Blender keeps it. *)
Lemma sampled_sound (objects : list (Object F)) (i : Z) (m : Mesh F) :
  merging_keeps_size ->
  (forall ob, In ob objects ->
     loops_point_at_vertices (evaluated_mesh host ob i)
     /\ uv_layers_sized (evaluated_mesh host ob i)) ->
  sampled host objects i m ->
  loops_well_indexed m /\ uv_layers_sized m /\ loops_point_at_vertices m.
Proof.
  intros Hmerge Hobs (m0 & _ & ->).
  assert (Hbm : sound_bmesh (merged host objects i bmesh_new)).
  { apply merged_sound; auto. split; intros x []. }
  destruct Hbm as [Hl Hly].
  set (bm := merged host objects i bmesh_new) in *.
  split; [|split].
  - intros k l Hk.
    cbn [to_mesh with_geometry loops normal_update bm_loops] in Hk.
    rewrite nth_error_map in Hk.
    destruct (nth_error (enumerate 0 (bm_loops bm)) k) as [p|] eqn:Ep; [|discriminate].
    injection Hk as <-. cbn [loop_index].
    now destruct (nth_error_enumerate_snd _ _ _ _ Ep).
  - intros ly Hin.
    cbn [to_mesh with_geometry loops uv_layers normal_update bm_loops
         bm_loop_layers] in *.
    rewrite length_map, length_enumerate. now apply Hly.
  - intros l Hin.
    cbn [to_mesh with_geometry loops vertices normal_update bm_loops bm_verts] in *.
    rewrite !length_map, !length_enumerate, length_map, length_enumerate.
    apply in_map_iff in Hin as (p & <- & Hp). cbn [vertex_index].
    apply In_nth_error in Hp as [k Hk].
    destruct (nth_error_enumerate_snd _ _ _ _ Hk) as [_ Hs].
    apply Hl. eapply nth_error_In; eauto.
Qed.

Lemma Forall2_In_right {A B} (R : A -> B -> Prop) (l : list A) (l' : list B) :
  Forall2 R l l' -> forall b, In b l' -> exists a, In a l /\ R a b.
Proof.
  induction 1 as [|a b l l' Hab _ IH]; intros x Hx; [contradiction|].
  destruct Hx as [<-|Hx].
  - exists a. split; [now left|exact Hab].
  - destruct (IH x Hx) as (a' & Ha' & HR). exists a'. split; [now right|exact HR].
Qed.

(** X16: when [execute] finishes.  On a saved file, with allowed
    modifiers, metric units, at least one vertex and one frame and neither
    count above 8192, datablock identities below the next one, modifiers
    that keep every selected mesh object's vertex count over the frame
    range and evaluated meshes as Blender keeps them (every loop at a
    vertex, every UV layer with one entry per loop, merging layers keeping
    that), [execute] samples, encodes and bakes without an error and
    returns [FINISHED]; the one way it can still fail is that the search
    for a free file name runs out of nested calls ([RecursionError]). *)
Theorem execute_finishes (w : World F) (frames : list Z) :
  frame_range w = inr frames ->
  first_disallowed_modifier (selected_meshes w) = None ->
  units_ok w = true ->
  1 <= base_vertex_count (selected_meshes w) ->
  (Z.of_nat (base_vertex_count (selected_meshes w)) <= 8192)%Z ->
  frames <> [] ->
  (Z.of_nat (length frames) <= 8192)%Z ->
  fresh_meshes w -> fresh_images w ->
  filepath w <> ""%string ->
  merging_keeps_size ->
  (forall ob i, In ob (selected_meshes w) -> In i frames ->
     length (vertices (evaluated_mesh host ob i)) = length (vertices (ob_data ob))
     /\ loops_point_at_vertices (evaluated_mesh host ob i)
     /\ uv_layers_sized (evaluated_mesh host ob i)) ->
  exists r w',
    execute host w = (r, w')
    /\ (r = inr FINISHED \/ r = inl RecursionError).
Proof.
  intros Hf Hmod Hunits Hv1 Hv Hne Hc Hfm Hfi Hpath Hmerge Hobs.
  rewrite execute_unfold, Hf. cbv zeta. rewrite Hmod, Hunits. cbn [negb].
  apply Z.ltb_ge in Hv. apply Z.ltb_ge in Hc. rewrite Hv, Hc.
  set (objs := selected_meshes w) in *.
  set (columns := base_vertex_count objs) in *.
  unfold pipeline.
  destruct (get_per_frame_mesh_data_run objs w frames Hf Hfm) as (ms & E1 & Hs & Hms).
  set (N := next_id w + length frames * S (length objs)) in *.
  set (w1 := sampled_world N (meshes w ++ ms) (last frames (frame_current w)) w) in *.
  rewrite (bind_step _ _ _ _ _ E1).
  assert (Hlenms : length ms = length frames)
    by (symmetry; eapply Forall2_length; eauto).
  assert (Hall : Forall (fun m => well_indexed m /\ length (vertices m) = columns) ms).
  { apply Forall_forall. intros m Hm.
    destruct (Forall2_In_right _ _ _ Hs m Hm) as (i & Hi & Hsm).
    split; [exact (sampled_well_indexed host objs i m Hsm)|].
    rewrite (sampled_vertex_count host objs i m Hsm).
    apply stable_vertex_count. intros ob Hob. now apply (Hobs ob i Hob). }
  destruct ms as [|first rest].
  { destruct frames; [congruence|discriminate Hlenms]. }
  unfold bind at 1, lift at 1, getitem at 1. cbn [nth_error].
  set (copy := {| mesh_id := N;
                  mesh_name := unique_name host (map (@mesh_name F) (meshes w1))
                                           (mesh_name first);
                  vertices := vertices first; loops := loops first;
                  uv_layers := uv_layers first; users := 0 |}).
  set (w2 := set_next_id (S N) (set_meshes (meshes w1 ++ [copy]) w1)).
  assert (E2 : mesh_copy host first w1 = (inr copy, w2)) by reflexivity.
  rewrite (bind_step _ _ _ _ _ E2).
  assert (Hfirst : loops_well_indexed first /\ uv_layers_sized first
                   /\ loops_point_at_vertices first).
  { destruct (Forall2_In_right _ _ _ Hs first (or_introl eq_refl)) as (i & Hi & Hsm).
    apply (sampled_sound objs i first Hmerge); [|exact Hsm].
    intros ob Hob. now destruct (Hobs ob i Hob Hi) as (_ & H1 & H2). }
  destruct Hfirst as (L1 & L2 & L3).
  destruct (create_export_mesh_object_inr host copy w2 L1 L2 L3)
    as (ob & w3 & ly & E3 & _).
  rewrite (bind_step _ _ _ _ _ E3).
  destruct (create_export_mesh_object_world_aux copy w2 w3 ob E3) as (Hw3 & _).
  assert (Hcols : length (vertices first) = columns).
  { inversion Hall as [|? ? [_ H] _]; exact H. }
  destruct (get_vertex_data_inr first rest w3
              (well_indexed_within columns _ first Hall Hcols)) as [w4 E4].
  rewrite (bind_step _ _ _ _ _ E4). cbv zeta.
  pose proof (get_vertex_data_world_aux _ _ _ _ E4) as Hw4.
  set (offsets := flat_map (offset_row (vertices first)) (rev (first :: rest))) in *.
  set (normals := flat_map normal_row (rev (first :: rest))) in *.
  assert (Hrows : forall m, In m (rev (first :: rest)) -> length (vertices m) = columns).
  { intros m Hm. apply in_rev in Hm. rewrite Forall_forall in Hall.
    now destruct (Hall m Hm). }
  assert (Hlo : length offsets = 4 * columns * length frames).
  { unfold offsets. rewrite (length_flat_map_const _ (4 * columns)), length_rev, Hlenms;
      [lia|].
    intros m Hm. now rewrite length_offset_row, (Hrows m Hm). }
  assert (Hln : length normals = 4 * columns * length frames).
  { unfold normals. rewrite (length_flat_map_const _ (4 * columns)), length_rev, Hlenms;
      [lia|].
    intros m Hm. now rewrite length_normal_row, (Hrows m Hm). }
  destruct (normalize_offsets_inr offsets) as (ys & Hys & Hlen & _).
  assert (Hfi4 : fresh_images w4).
  { subst w4 w3. unfold fresh_images.
    cbn [images next_id set_meshes exported_world set_collection_objects
         set_objects w2 set_next_id w1 sampled_world set_frame_current].
    eapply Forall_image_lt_le; [|exact Hfi]. unfold N. lia. }
  assert (Hrows1 : 1 <= length frames).
  { destruct frames; [congruence|cbn; lia]. }
  rewrite <- Hlen in Hlo.
  rewrite (bind_step _ _ _ _ _
             (bake_vertex_data_run offsets normals ys columns (length frames) w4
                Hfi4 Hys Hv1 Hrows1 Hlo Hln)).
  set (t1 := offsets_texture w4 offsets ys columns (length frames)).
  set (t2 := normals_texture w4 offsets normals columns (length frames)).
  set (w5 := baked_world w4 offsets ys normals columns (length frames)).
  assert (Hp5 : filepath w5 = filepath w) by (unfold w5; subst w4 w3; reflexivity).
  unfold bind at 1. rewrite save_image_exr_unfold, Hp5.
  destruct (String.eqb_spec (filepath w) "") as [Hx|_]; [contradiction|].
  destruct (unique_filepath host recursion_limit (files w5)
              (dirname host (filepath w)) (fst (splitext host (image_name t1))))
    as [e|[name1 p1]] eqn:Eu1.
  { apply unique_filepath_raises in Eu1. subst e. eauto. }
  unfold bind at 1. rewrite save_image_exr_unfold.
  change (filepath (saved_world host t1 p1 w5)) with (filepath w5). rewrite Hp5.
  destruct (String.eqb_spec (filepath w) "") as [Hx|_]; [contradiction|].
  destruct (unique_filepath host recursion_limit (files (saved_world host t1 p1 w5))
              (dirname host (filepath w)) (fst (splitext host (image_name t2))))
    as [e|[name2 p2]] eqn:Eu2.
  { apply unique_filepath_raises in Eu2. subst e. eauto. }
  unfold ret. eauto.
Qed.

End Datablocks.

(* ================================================================== *)
(** * More scenes *)
(* ================================================================== *)

(** Variations of the scene of [Scenario], in binary64. *)
Module Cases.
Local Open Scope string_scope.

(** The host of [Scenario], but merging drops the UV layers. *)
Definition host : Host float :=
  {| evaluated_mesh := evaluated_mesh Scenario.host;
     mul_m4_v3 := mul_m4_v3 Scenario.host;
     vert_normal := vert_normal Scenario.host;
     merge_loop_layers := fun _ _ _ _ => [];
     new_uv_name := new_uv_name Scenario.host;
     new_uv_value := new_uv_value Scenario.host;
     unique_name := unique_name Scenario.host;
     str_of_float := str_of_float Scenario.host;
     str_of_int := str_of_int Scenario.host;
     dirname := dirname Scenario.host;
     basename := basename Scenario.host;
     splitext := splitext Scenario.host;
     join := join Scenario.host;
     match_numbered := match_numbered Scenario.host |}.

(** The plane with a subdivision modifier on top of its armature. *)
Definition subdivided_plane : Object float :=
  {| ob_name := "Plane"; ob_type := "MESH"; ob_mode := "OBJECT";
     ob_data := Scenario.base;
     modifiers := ["ARMATURE"; "SUBSURF"]; matrix_world := identity_matrix |}.

Definition subdivided : World float :=
  Scenario.world_of [subdivided_plane] [subdivided_plane] "/project/scene.blend".

(** A texture as [bake_vertex_data] names it. *)
Definition normals_image : Image float :=
  {| image_id := 7; image_name := "normals"; width := 4; height := 2;
     alpha := true; float_buffer := false; pixels := snd Scenario.encoded;
     file_format := "TARGA"; image_filepath := "" |}.

Lemma sampling_run :
  get_per_frame_mesh_data Scenario.host [Scenario.object_of Scenario.base] Scenario.world
  = (inr Scenario.frames,
     snd (get_per_frame_mesh_data Scenario.host [Scenario.object_of Scenario.base]
                                  Scenario.world)).
Proof. vm_compute. reflexivity. Qed.

Lemma world_fresh_meshes : fresh_meshes Scenario.world.
Proof. repeat constructor. Qed.

Lemma world_fresh_images : fresh_images Scenario.world.
Proof. constructor. Qed.

(** The scene of [Scenario] with a unit scale of [0.02]. *)
Definition coarse : World float :=
  {| frame_start := 0; frame_end := 1; frame_step := 1; frame_current := 0;
     unit_system := "METRIC"; scale_length := of_Q (2 # 100);
     collection_objects := [Scenario.object_of Scenario.base];
     selected_objects := [Scenario.object_of Scenario.base];
     active_object := Some (Scenario.object_of Scenario.base);
     meshes := [Scenario.base];
     objects := [Scenario.object_of Scenario.base];
     images := [];
     filepath := "/project/scene.blend";
     next_id := 1;
     reports := []; files := []; stdout := [] |}.

End Cases.

(** ** The further theorems at work *)

Lemma frame_range_frames_witness :
  exists frames,
    frame_range Scenario.world = inr frames
    /\ Z.of_nat (length frames) = 2%Z
    /\ (In 1%Z frames <-> (0 <= 1 <= 1)%Z /\ ((1 - 0) mod 1 = 0)%Z).
Proof.
  destruct (proj2 (frame_range_frames Scenario.world) eq_refl)
    as (frames & E & _ & Hin & Hlen & _).
  exists frames. split; [exact E|]. split; [exact Hlen|]. exact (Hin 1%Z).
Defined.

Lemma modifier_validation_witness :
  exists mod_type,
    execute Scenario.host Cases.subdivided
    = (inr CANCELLED,
       set_reports (reports Cases.subdivided ++ [modifier_not_allowed mod_type])
                   Cases.subdivided).
Proof.
  assert (Hstep : frame_step Cases.subdivided <> 0%Z) by discriminate.
  apply (proj2 (proj1 (modifier_validation Scenario.host Cases.subdivided Hstep))).
  exists Cases.subdivided_plane, "SUBSURF"%string.
  split; [now left|]. split; [reflexivity|]. split; [right; now left|].
  intros H. repeat (destruct H as [H|H]; [discriminate H|]). exact H.
Defined.

Lemma unit_validation_binary64_witness :
  execute Scenario.host Cases.coarse
  = (inr CANCELLED,
     set_reports (reports Cases.coarse ++ [scene_unit_not_metric]) Cases.coarse).
Proof.
  assert (Hstep : frame_step Cases.coarse <> 0%Z) by discriminate.
  apply (proj2 (Binary64Checks.unit_validation_binary64 Scenario.host Cases.coarse
                  Hstep eq_refl)).
  intros (_ & _ & H). vm_compute in H. discriminate H.
Defined.

Lemma normals_decode_binary64_witness :
  exists r g b,
    normal_pixel (Scenario.vertex 0 one zero zero) = [r; g; b; one]
    /\ Binary64Checks.decodes r zero
    /\ Binary64Checks.decodes g zero
    /\ Binary64Checks.decodes b one.
Proof.
  destruct (Binary64Checks.normals_decode_binary64
              Scenario.frames Scenario.world
              (snd (get_vertex_data Scenario.frames Scenario.world))
              (fst Scenario.encoded) (snd Scenario.encoded) Scenario.encoding)
    as [_ H].
  apply (H (Scenario.plane 4 "mesh" 0 one) (Scenario.vertex 0 one zero zero)
           zero zero one).
  - right. now left.
  - now left.
  - reflexivity.
  - vm_compute. reflexivity.
  - vm_compute. reflexivity.
  - vm_compute. reflexivity.
Defined.

Lemma reference_row_is_zero_witness :
  fst Scenario.encoded
  = flat_map (offset_row (vertices (Scenario.plane 2 "mesh" 0 zero)))
             (rev [Scenario.plane 4 "mesh" 0 one])
    ++ flat_map (fun _ => [zero; zero; zero; one])
                (vertices (Scenario.plane 2 "mesh" 0 zero)).
Proof.
  apply (Binary64Checks.reference_row_is_zero
           (Scenario.plane 2 "mesh" 0 zero) [Scenario.plane 4 "mesh" 0 one]
           Scenario.world
           (snd (get_vertex_data Scenario.frames Scenario.world))
           (fst Scenario.encoded) (snd Scenario.encoded)).
  - apply Scenario.plane_well_indexed.
  - intros v Hv. simpl in Hv.
    destruct Hv as [<-|[<-|[<-|[<-|[]]]]]; vm_compute; reflexivity.
  - exact Scenario.encoding.
Defined.

Lemma normalised_range_binary64_witness :
  exists ys,
    normalize_offsets Binary64Facts.jittering = inr ys
    /\ length ys = length Binary64Facts.jittering
    /\ forall i y,
        nth_error ys i = Some y -> i mod 4 <> 3 ->
        Binary64Value.is_finite y = true
        /\ (0 <= Binary64Value.F2Q y <= 1 + Binary64Value.pow2 (-50))%Q.
Proof.
  apply (Binary64Checks.normalised_range_binary64 Binary64Facts.jittering).
  intros i x H _. exact (Binary64Facts.jittering_within_limit i x H).
Defined.

Lemma reconstruct_binary64_witness :
  exists ys,
    normalize_offsets Binary64Facts.jittering = inr ys
    /\ forall i x,
        nth_error Binary64Facts.jittering i = Some x -> i mod 4 <> 3 ->
        exists y,
          nth_error ys i = Some y
          /\ Binary64Value.is_finite (Binary64Facts.reconstruct Binary64Facts.jittering y)
             = true
          /\ (Qabs (Binary64Value.F2Q (Binary64Facts.reconstruct Binary64Facts.jittering y)
                    - Binary64Value.F2Q x)
              <= Binary64Value.pow2 (-49)
                 * Binary64Value.F2Q (divisor (span Binary64Facts.jittering))
                 + Binary64Value.pow2 (-1073))%Q.
Proof.
  apply (Binary64Checks.reconstruct_binary64 Binary64Facts.jittering).
  intros i x H _. exact (Binary64Facts.jittering_within_limit i x H).
Defined.

Lemma unique_filepath_first_free_witness :
  exists final full,
    unique_filepath Scenario.host 2 ["/project/normals.exr"%string]
                    "/project" "normals"
    = inr (final, full).
Proof.
  apply (proj2 (unique_filepath_first_free Scenario.host 2
                  ["/project/normals.exr"%string] "/project" "normals")).
  - simpl. lia.
  - constructor; [intros [H|[]]; discriminate H|].
    constructor; [intros []|constructor].
Defined.

Lemma save_image_exr_outcome_witness :
  save_image_exr Scenario.host Cases.normals_image Scenario.world
  = (inr tt,
     saved_world Scenario.host Cases.normals_image "/project/normals.exr"
                 Scenario.world).
Proof.
  apply (proj2 (proj2 (save_image_exr_outcome Scenario.host Cases.normals_image
                                              Scenario.world))).
  - discriminate.
  - intros [].
Defined.

Lemma get_per_frame_mesh_data_world_witness :
  exists ms w',
    get_per_frame_mesh_data Scenario.host [Scenario.object_of Scenario.base]
                            Scenario.world
    = (inr ms, w')
    /\ length ms = 2
    /\ meshes w' = meshes Scenario.world ++ ms
    /\ frame_current w' = 1%Z.
Proof.
  destruct (get_per_frame_mesh_data_world
              Scenario.host [Scenario.object_of Scenario.base] Scenario.world
              [0%Z; 1%Z] eq_refl Cases.world_fresh_meshes)
    as (ms & w' & E & Hlen & Hm & Hf & _).
  exists ms, w'. auto.
Defined.

Lemma create_export_mesh_object_world_witness :
  exists ob w',
    create_export_mesh_object Scenario.host Scenario.base Scenario.world = (inr ob, w')
    /\ objects w' = objects Scenario.world ++ [ob]
    /\ collection_objects w' = collection_objects Scenario.world ++ [ob]
    /\ length (meshes w') = length (meshes Scenario.world)
    /\ users (ob_data ob) = 2.
Proof.
  destruct (create_export_mesh_object_inr Scenario.host Scenario.base Scenario.world)
    as (ob & w' & ly & E & _).
  - apply Scenario.plane_loops_well_indexed.
  - intros l H. simpl in H. contradiction.
  - apply Scenario.plane_loops_point_at_vertices.
  - exists ob, w'. split; [exact E|].
    destruct (create_export_mesh_object_world Scenario.host Scenario.base
                Scenario.world w' ob E)
      as (H1 & H2 & _ & H4 & _ & _ & H7 & _).
    auto.
Defined.

Lemma create_export_mesh_object_layers_witness :
  exists ob w' l0 ly rest,
    create_export_mesh_object Scenario.host Scenario.base Scenario.world = (inr ob, w')
    /\ uv_layers (ob_data ob) = l0 :: ly :: rest
    /\ uv_name ly = "vertex_anim"%string
    /\ length (uv_layers (ob_data ob)) = 2.
Proof.
  destruct (create_export_mesh_object_inr Scenario.host Scenario.base Scenario.world)
    as (ob & w' & ly0 & E & _).
  - apply Scenario.plane_loops_well_indexed.
  - intros l H. simpl in H. contradiction.
  - apply Scenario.plane_loops_point_at_vertices.
  - destruct (create_export_mesh_object_layers Scenario.host Scenario.base
                Scenario.world w' ob E)
      as (l0 & ly & rest & H1 & H2 & H3 & _).
    exists ob, w', l0, ly, rest. auto.
Defined.

Lemma bake_vertex_data_textures_witness :
  exists ys textures w',
    normalize_offsets (fst Scenario.encoded) = inr ys
    /\ bake_vertex_data Scenario.host (fst Scenario.encoded) (snd Scenario.encoded)
                        (4, 2) Scenario.world
       = (inr textures, w')
    /\ images w' = images Scenario.world ++ textures.
Proof.
  destruct (bake_vertex_data_textures Scenario.host
              (fst Scenario.encoded) (snd Scenario.encoded) 4 2 Scenario.world
              Cases.world_fresh_images)
    as (ys & Hys & Hiff & Hret).
  destruct (proj2 Hiff) as (textures & w' & E).
  { rewrite Scenario.encoded_values. repeat split; simpl; lia. }
  exists ys, textures, w'. split; [exact Hys|]. split; [exact E|].
  now destruct (Hret textures w' E) as (_ & H & _).
Defined.

Lemma sampled_positions_witness :
  exists frames,
    frame_range Scenario.world = inr frames
    /\ Forall2 (fun i m => map (@co float) (vertices m)
                           = world_positions Scenario.host
                               [Scenario.object_of Scenario.base] i
                           /\ well_indexed m)
               frames Scenario.frames.
Proof.
  apply (sampled_positions Scenario.host [Scenario.object_of Scenario.base]
           Scenario.world
           (snd (get_per_frame_mesh_data Scenario.host
                   [Scenario.object_of Scenario.base] Scenario.world))
           Scenario.frames).
  exact Cases.sampling_run.
Defined.

Lemma execute_finished_witness :
  exists ob p1 p2,
    meshes (snd (execute Scenario.host Scenario.world))
    = meshes Scenario.world ++ [ob_data ob]
    /\ objects (snd (execute Scenario.host Scenario.world))
       = objects Scenario.world ++ [ob]
    /\ files (snd (execute Scenario.host Scenario.world))
       = files Scenario.world ++ [p1; p2]
    /\ p1 <> p2
    /\ frame_current (snd (execute Scenario.host Scenario.world)) = 1%Z.
Proof.
  destruct (execute_finished Scenario.host Scenario.world
              (snd (execute Scenario.host Scenario.world))
              Cases.world_fresh_meshes Cases.world_fresh_images)
    as (frames & ob & t1 & t2 & p1 & p2 & Hf & _ & _ & Hfc & Hm & _ & Ho & _ & _
        & _ & _ & _ & _ & _ & _ & _ & _ & _ & Hfiles & _ & _ & Hne & _).
  - vm_compute. reflexivity.
  - exists ob, p1, p2.
    split; [exact Hm|]. split; [exact Ho|]. split; [exact Hfiles|].
    split; [exact Hne|].
    rewrite Hfc. injection Hf as <-. reflexivity.
Defined.

Lemma execute_finishes_witness :
  exists r w',
    execute Cases.host Scenario.world = (r, w')
    /\ (r = inr FINISHED \/ r = inl RecursionError).
Proof.
  apply (execute_finishes Cases.host Scenario.world [0%Z; 1%Z]).
  - reflexivity.
  - reflexivity.
  - vm_compute. reflexivity.
  - vm_compute. lia.
  - apply Z.leb_le. vm_compute. reflexivity.
  - discriminate.
  - apply Z.leb_le. vm_compute. reflexivity.
  - exact Cases.world_fresh_meshes.
  - exact Cases.world_fresh_images.
  - discriminate.
  - intros layers n layers' n' _ _ ly [].
  - intros ob i [<-|[]] _. split; [reflexivity|]. split.
    + apply Scenario.plane_loops_point_at_vertices.
    + intros ly [].
Defined.
